(** * mind-agent: the context builder, the scan and the daemon's cycle

    A shallow embedding of the context builder ([extractFileReferences],
    [extractKeywords], [findRelevantFiles], [readFileContent],
    [buildContext], [generateTaskFile]), of the daemon's
    [processNewIssues] and [runScanCycle], of [scanAllRepos] and
    [fetchAllTargetRepos], and of the parts of the database queries, the
    git operations, the notifier, the configuration and the setup wizard
    they call, followed by the properties proved about them.

    Conventions.
    - A JavaScript string is a Rocq [string]: a sequence of 8-bit
      characters.  The built-ins that depend on Unicode tables
      ([toLowerCase], [trim], [\s], [\b], the [i] flag) are given on the
      ASCII range and leave every other character alone; where a
      property depends on what they do beyond that range (the slug of a
      branch name), the built-in is an operation of the host.
    - A JavaScript number that holds an integer is a [Z]; a counter that
      starts at 0 and is only incremented (the walk depth) is a [nat].
      An integer read from the database becomes a number: it is rounded
      to the nearest double.
    - Arrays are lists; [push] appends at the end.  A [Map] is the list
      of its entries in insertion order.
    - The file system is an explicit value: what [readdirSync] lists is a
      tree of directory entries, what [readFileSync] answers is a function
      from paths to contents or errors.
    - The [issues] table is the list of its rows; the forge, git, the
      other tables, the log and the desktop notifications are reached
      through operations that may return or throw.  So may every
      statement on the [issues] table; one that throws changes nothing. *)

From Stdlib Require Import String Ascii List ZArith Lia Bool Arith DecimalString.
From Stdlib Require Import Permutation Sorted.
Import ListNotations.

Set Warnings "-register-all".

Local Open Scope string_scope.
Local Open Scope list_scope.
Local Open Scope Z_scope.

(** String concatenation where the expected type is not yet known to be
    [string]. *)
Local Infix "+++" := String.append (right associativity, at level 60).

(* ================================================================== *)
(** * Built-ins of the JavaScript runtime used by the sources          *)
(* ================================================================== *)

Module JS.

(** [s.startsWith(t)] *)
Definition startsWith (s t : string) : bool := String.prefix t s.

(** [s.includes(t)]: [t] occurs in [s] at some offset. *)
Fixpoint includes (s t : string) : bool :=
  match s with
  | EmptyString => String.prefix t EmptyString
  | String _ s' => String.prefix t s || includes s' t
  end.

Definition isUpper (c : ascii) : bool :=
  ((65 <=? nat_of_ascii c) && (nat_of_ascii c <=? 90))%nat.

Definition isLower (c : ascii) : bool :=
  ((97 <=? nat_of_ascii c) && (nat_of_ascii c <=? 122))%nat.

Definition isDigit (c : ascii) : bool :=
  ((48 <=? nat_of_ascii c) && (nat_of_ascii c <=? 57))%nat.

(** [\s] on the ASCII range: TAB, LF, VT, FF, CR and space. *)
Definition isSpace (c : ascii) : bool :=
  (((9 <=? nat_of_ascii c) && (nat_of_ascii c <=? 13)) || (nat_of_ascii c =? 32))%nat.

(** [\w]: letters, digits and the underscore. *)
Definition isWord (c : ascii) : bool :=
  isUpper c || isLower c || isDigit c || Ascii.eqb c "_".

Definition lowerChar (c : ascii) : ascii :=
  if isUpper c then ascii_of_nat (nat_of_ascii c + 32) else c.

(** [s.toLowerCase()] *)
Fixpoint toLowerCase (s : string) : string :=
  match s with
  | EmptyString => EmptyString
  | String c s' => String (lowerChar c) (toLowerCase s')
  end.

(** [xs.includes(x)] on an array of strings, [set.has(x)] on a set of
    strings. *)
Definition has (xs : list string) (x : string) : bool :=
  existsb (String.eqb x) xs.

(** [xs.slice(0, e)]: a negative [e] counts from the end of the array. *)
Definition slice0 {A : Type} (xs : list A) (e : Z) : list A :=
  let len := Z.of_nat (length xs) in
  let final := if e <? 0 then Z.max (len + e) 0 else Z.min e len in
  firstn (Z.to_nat final) xs.

(** [xs.sort(cmp)].  The language requires the sort to be stable; the
    model is the insertion sort that moves an element behind a later
    one only when the comparator says it is greater.  For a comparator
    that orders by a key, every stable sort returns the same list
    ([JSFacts.sort_unique]). *)
Section Sort.
Context {A : Type} (cmp : A -> A -> Z).

Fixpoint insert (x : A) (sorted : list A) : list A :=
  match sorted with
  | [] => [x]
  | y :: rest => if cmp x y <=? 0 then x :: y :: rest else y :: insert x rest
  end.

Definition sort (xs : list A) : list A := fold_right insert [] xs.
End Sort.

(** [xs.join(sep)] *)
Fixpoint join (sep : string) (xs : list string) : string :=
  match xs with
  | [] => ""
  | [x] => x
  | x :: rest => x ++ sep ++ join sep rest
  end.

(** [s.split(c)] for a one-character separator: the pieces between the
    occurrences of [c]; the empty string gives one empty piece. *)
Fixpoint split (c : ascii) (s : string) : list string :=
  match s with
  | EmptyString => [""]
  | String d s' =>
      if Ascii.eqb d c then "" :: split c s'
      else match split c s' with
           | [] => [String d ""]
           | piece :: pieces => String d piece :: pieces
           end
  end.

(** [[...new Set(xs)]]: the first occurrence of each string, in order. *)
Fixpoint uniqueFrom (seen : list string) (xs : list string) : list string :=
  match xs with
  | [] => []
  | x :: rest =>
      if has seen x then uniqueFrom seen rest
      else x :: uniqueFrom (x :: seen) rest
  end.

Definition unique (xs : list string) : list string := uniqueFrom [] xs.

(** [`${n}`] for a natural number. *)
Definition showNat (n : nat) : string :=
  NilEmpty.string_of_uint (Nat.to_uint n).

(** [`${z}`] for an integer of less than 22 digits; no 64-bit integer
    and no length has more.  (From [10^21] on the language writes a
    number with an exponent.) *)
Definition showInt (z : Z) : string :=
  if z <? 0 then "-" ++ showNat (Z.to_nat (- z)) else showNat (Z.to_nat z).

(** [a || b] on strings that may be [null]: [null] and the empty
    string are falsy. *)
Definition orElse (a : option string) (b : string) : string :=
  match a with
  | None => b
  | Some x => if String.eqb x "" then b else x
  end.

End JS.

(* ================================================================== *)
(** * Effects: state that survives an exception                        *)
(* ================================================================== *)

Module Effect.

(** How a call ends.  An exception is kept as the text [`${error}`]
    gives for it. *)
Inductive Outcome (A : Type) : Type :=
| Returned (value : A)
| Thrown (error : string).
Arguments Returned {A} value.
Arguments Thrown {A} error.

(** A computation over a world [W]: the changes made before a [throw]
    stay in place. *)
Definition M (W A : Type) : Type := W -> Outcome A * W.

Definition ret {W A : Type} (a : A) : M W A := fun w => (Returned a, w).

Definition bind {W A B : Type} (c : M W A) (k : A -> M W B) : M W B :=
  fun w =>
    match c w with
    | (Returned a, w') => k a w'
    | (Thrown e, w') => (Thrown e, w')
    end.

(** [try { c } catch (error) { handler(error) }] *)
Definition tryCatch {W A : Type} (c : M W A) (handler : string -> M W A) : M W A :=
  fun w =>
    match c w with
    | (Returned a, w') => (Returned a, w')
    | (Thrown e, w') => handler e w'
    end.

(** [throw error] *)
Definition throw {W A : Type} (error : string) : M W A := fun w => (Thrown error, w).

Definition run {W A : Type} (c : M W A) (w : W) : W := snd (c w).

Declare Scope effect_scope.
Delimit Scope effect_scope with effect.
Notation "'let*' x ':=' c 'in' k" := (bind c (fun x => k))
  (at level 10, x name, c at level 100, k at level 200) : effect_scope.

End Effect.

(* ================================================================== *)
(** * Node's [path] module (POSIX flavour)                             *)
(* ================================================================== *)

Module Path.

(** The loop variables of [path.extname]. *)
Record ExtState := {
  startDot : Z;
  startPart : Z;
  endIdx : Z;
  matchedSlash : bool;
  preDotState : Z
}.

Definition extInit : ExtState :=
  {| startDot := -1; startPart := 0; endIdx := -1;
     matchedSlash := true; preDotState := 0 |}.

(** [for (let i = path.length - 1; i >= 0; --i)]: [n] is [i + 1]. *)
Fixpoint extLoop (path : string) (n : nat) (st : ExtState) : ExtState :=
  match n with
  | O => st
  | S i =>
      match String.get i path with
      | None => st
      | Some code =>
          if Ascii.eqb code "/" then
            if negb (matchedSlash st) then
              (* startPart = i + 1; break *)
              {| startDot := startDot st; startPart := Z.of_nat i + 1;
                 endIdx := endIdx st; matchedSlash := matchedSlash st;
                 preDotState := preDotState st |}
            else extLoop path i st
          else
            let st1 :=
              if endIdx st =? -1 then
                {| startDot := startDot st; startPart := startPart st;
                   endIdx := Z.of_nat i + 1; matchedSlash := false;
                   preDotState := preDotState st |}
              else st in
            let st2 :=
              if Ascii.eqb code "." then
                if startDot st1 =? -1 then
                  {| startDot := Z.of_nat i; startPart := startPart st1;
                     endIdx := endIdx st1; matchedSlash := matchedSlash st1;
                     preDotState := preDotState st1 |}
                else if negb (preDotState st1 =? 1) then
                  {| startDot := startDot st1; startPart := startPart st1;
                     endIdx := endIdx st1; matchedSlash := matchedSlash st1;
                     preDotState := 1 |}
                else st1
              else if negb (startDot st1 =? -1) then
                {| startDot := startDot st1; startPart := startPart st1;
                   endIdx := endIdx st1; matchedSlash := matchedSlash st1;
                   preDotState := -1 |}
              else st1 in
            extLoop path i st2
      end
  end.

(** [path.extname(p)]: from the last dot of the last component to its
    end; empty when there is no dot or the component starts with its
    only dot. *)
Definition extname (path : string) : string :=
  let st := extLoop path (String.length path) extInit in
  if (startDot st =? -1) || (endIdx st =? -1) || (preDotState st =? 0)
     || ((preDotState st =? 1) && (startDot st =? endIdx st - 1)
         && (startDot st =? startPart st + 1))
  then ""
  else substring (Z.to_nat (startDot st))
                 (Z.to_nat (endIdx st - startDot st)) path.

(** [path.join(a, b)] for a directory [a] and a path [b] below it.  The
    result is not normalised here; it names the same file. *)
Definition join (a b : string) : string := a ++ "/" ++ b.

(** [path.relative(repoPath, path.join(dir, name))] where [dir] is the
    repository root or a directory below it, given by its own path
    [dirRel] relative to the root (empty for the root itself). *)
Definition relativeTo (dirRel name : string) : string :=
  if String.eqb dirRel "" then name else dirRel ++ "/" ++ name.

End Path.

(* ================================================================== *)
(** * The outside world: file system, forge, database                  *)
(* ================================================================== *)

Module Fs.

(** What [readdirSync(dir, { withFileTypes: true })] yields, with each
    directory carrying what listing it in turn yields: [None] when
    [readdirSync] throws on it.  [Other] is an entry that is neither a
    regular file nor a directory (a symbolic link, a socket). *)
Inductive Dirent : Type :=
| File (name : string)
| Directory (name : string) (listing : option (list Dirent))
| Other (name : string).

Definition entryName (entry : Dirent) : string :=
  match entry with
  | File name => name
  | Directory name _ => name
  | Other name => name
  end.

End Fs.

(** ** services/github.ts: what [getIssueDetails] resolves to *)

Module GitHub.

Record Comment := {
  comment_body : string;
  comment_user : string;
  comment_created_at : string
}.

(** Of the issue inside the details only the label names are read by
    the context builder. *)
Record IssueDetails := {
  detail_labels : list string;
  detail_comments : list Comment
}.

End GitHub.

(** ** db/queries.ts: the [issues] table *)

Module Db.

Inductive IssueStatus : Type :=
| New | Ready | InProgress | Fixed | Pushed | Skipped.

Definition statusEqb (a b : IssueStatus) : bool :=
  match a, b with
  | New, New | Ready, Ready | InProgress, InProgress
  | Fixed, Fixed | Pushed, Pushed | Skipped, Skipped => true
  | _, _ => false
  end.

Record DbIssue := {
  id : Z;
  github_id : Z;
  repo_name : string;
  issue_number : Z;
  title : string;
  body : option string;
  state : string;
  html_url : string;
  created_at : string;
  updated_at : string;
  first_seen_at : string;
  status : IssueStatus;
  branch_name : option string;
  task_file_path : option string
}.

(** The table is the list of its rows. *)
Definition Table : Type := list DbIssue.

Definition withStatus (s : IssueStatus) (row : DbIssue) : DbIssue :=
  {| id := id row; github_id := github_id row; repo_name := repo_name row;
     issue_number := issue_number row; title := title row; body := body row;
     state := state row; html_url := html_url row;
     created_at := created_at row; updated_at := updated_at row;
     first_seen_at := first_seen_at row; status := s;
     branch_name := branch_name row; task_file_path := task_file_path row |}.

Definition withBranch (b : string) (row : DbIssue) : DbIssue :=
  {| id := id row; github_id := github_id row; repo_name := repo_name row;
     issue_number := issue_number row; title := title row; body := body row;
     state := state row; html_url := html_url row;
     created_at := created_at row; updated_at := updated_at row;
     first_seen_at := first_seen_at row; status := status row;
     branch_name := Some b; task_file_path := task_file_path row |}.

Definition withTaskFile (f : string) (row : DbIssue) : DbIssue :=
  {| id := id row; github_id := github_id row; repo_name := repo_name row;
     issue_number := issue_number row; title := title row; body := body row;
     state := state row; html_url := html_url row;
     created_at := created_at row; updated_at := updated_at row;
     first_seen_at := first_seen_at row; status := status row;
     branch_name := branch_name row; task_file_path := Some f |}.

(** [UPDATE issues SET ... WHERE id = ?] *)
Definition updateWhereId (key : Z) (change : DbIssue -> DbIssue)
           (table : Table) : Table :=
  map (fun row => if id row =? key then change row else row) table.

Definition updateIssueStatus (key : Z) (s : IssueStatus) : Table -> Table :=
  updateWhereId key (withStatus s).

Definition updateIssueBranch (key : Z) (b : string) : Table -> Table :=
  updateWhereId key (withBranch b).

Definition updateIssueTaskFile (key : Z) (f : string) : Table -> Table :=
  updateWhereId key (withTaskFile f).

(** [ORDER BY first_seen_at DESC] on text values: the comparator of a
    sort that puts the greater time stamp first. *)
Definition newestFirst (a b : DbIssue) : Z :=
  match String.compare (first_seen_at b) (first_seen_at a) with
  | Lt => -1
  | Eq => 0
  | Gt => 1
  end.

(** The rows that
    [SELECT * FROM issues WHERE status = ? ORDER BY first_seen_at DESC]
    yields, in their order. *)
Definition selectByStatus (s : IssueStatus) (table : Table) : list DbIssue :=
  JS.sort newestFirst (filter (fun row => statusEqb (status row) s) table).

(** The number that the driver makes of a 64-bit integer of the
    database: the nearest double, the even one of two that are equally
    near.  Up to [2^53] it is the integer itself. *)
Definition asNumber (z : Z) : Z :=
  if Z.abs z <=? 2 ^ 53 then z
  else
    let ulp := 2 ^ (Z.log2 (Z.abs z) - 52) in
    let below := (z / ulp) * ulp in
    let rest := z - below in
    if 2 * rest <? ulp then below
    else if ulp <? 2 * rest then below + ulp
    else if Z.even (z / ulp) then below else below + ulp.

(** The object the driver makes of a row: the [INTEGER] columns are
    numbers. *)
Definition asObject (row : DbIssue) : DbIssue :=
  {| id := asNumber (id row); github_id := asNumber (github_id row);
     repo_name := repo_name row; issue_number := asNumber (issue_number row);
     title := title row; body := body row; state := state row;
     html_url := html_url row; created_at := created_at row;
     updated_at := updated_at row; first_seen_at := first_seen_at row;
     status := status row; branch_name := branch_name row;
     task_file_path := task_file_path row |}.

(** [getIssuesByStatus(status)], on the table. *)
Definition getIssuesByStatus (s : IssueStatus) (table : Table) : list DbIssue :=
  map asObject (selectByStatus s table).

(** A row whose [INTEGER] columns are numbers as they stand: the object
    made of the row shows what the row holds. *)
Definition exact (row : DbIssue) : Prop := asObject row = row.

(** The same, as a test. *)
Definition isExact (row : DbIssue) : bool :=
  (asNumber (id row) =? id row)
  && (asNumber (github_id row) =? github_id row)
  && (asNumber (issue_number row) =? issue_number row).

End Db.

(** ** The process and its surroundings *)

Module Host.

Import Effect.

(** The state the daemon works on: the [issues] table and, as [env],
    everything else it reaches (the forge, the clones and their git
    state, the files, the other tables). *)
Record World (Env : Type) := {
  issues : Db.Table;
  env : Env
}.
Arguments issues {Env} w.
Arguments env {Env} w.

(** [LogLevel] of utils/logger.ts *)
Inductive LogLevel : Type := Debug | Info | Warn | Error.

(** What every part of the program reaches of the process. *)
Class Runtime (Env : Type) := {
  (** [logger.debug(message)], [logger.info(message)], [logger.warn(message)]
      and [logger.error(message)]: a message below the level of the
      logger is dropped; any other is written to the console and
      appended to the log file, and the append may throw. *)
  logger : LogLevel -> string -> Env -> Outcome unit * Env;
  (** What the engine answers to a statement on the database ([getDb()],
      [prepare], then [run], [get] or [all]) before it carries it out:
      it may throw, and the statement then changes nothing. *)
  statement : Env -> Outcome unit * Env
}.

(** [s.toLowerCase()] as the host computes it, by the Unicode tables.
    On a text of ASCII characters it is [JS.toLowerCase]; a character
    beyond may become an ASCII letter (the Kelvin sign becomes [k]). *)
Class Unicode := {
  toLowerCase : string -> string
}.

(** The operations on the surroundings.  None of them reaches the
    [issues] table; the updates of that table are written out where the
    sources make them. *)
Class Services (Env : Type) := {
  (** [getConfig().tasksDir] *)
  tasksDir : string;
  (** [getIssueDetails(repoFullName, issueNumber)] *)
  getIssueDetails : string -> Z -> Env -> Outcome (option GitHub.IssueDetails) * Env;
  (** the tree [readdirSync] shows below a directory *)
  readdirTree : Env -> string -> option (list Fs.Dirent);
  (** [fs.readFileSync(path, 'utf-8')] *)
  readFileSync : Env -> string -> Outcome string;
  (** [fs.writeFileSync(path, data, 'utf-8')] *)
  writeFileSync : string -> string -> Env -> Outcome unit * Env;
  (** [ensureRepoCloned(repoName)] of git-ops.ts *)
  ensureRepoCloned : string -> Env -> Outcome string * Env;
  (** [getConfig().reposDir] *)
  reposDir : string;
  (** [isRepoCloned(repoName)] of git-ops.ts *)
  isRepoCloned : string -> Env -> Outcome bool * Env;
  (** [simpleGit(localPath)]: the handle on a clone; it throws when the
      directory is missing *)
  simpleGit : string -> Env -> Outcome unit * Env;
  (** [(await git.branchLocal()).all], for the clone at a path *)
  branchLocal : string -> Env -> Outcome (list string) * Env;
  (** [git.checkout(branchName)], for the clone at a path *)
  checkout : string -> string -> Env -> Outcome unit * Env;
  (** [git.checkoutLocalBranch(branchName)], for the clone at a path *)
  checkoutLocalBranch : string -> string -> Env -> Outcome unit * Env;
  (** [notifyIssueReady(issue)] *)
  notifyIssueReady : Db.DbIssue -> Env -> Outcome unit * Env
}.

Section Lift.
Context {Env : Type} {runtime : Runtime Env}.
Local Open Scope effect_scope.

(** A call that works on the surroundings only. *)
Definition call {A : Type} (op : Env -> Outcome A * Env) : M (World Env) A :=
  fun w =>
    let (r, e) := op (env w) in
    (r, {| issues := issues w; env := e |}).

(** Something read off the surroundings. *)
Definition observe {A : Type} (f : Env -> A) : M (World Env) A :=
  fun w => (Returned (f (env w)), w).

(** What a statement that the engine carries out does to the table. *)
Definition written (stmt : Db.Table -> Db.Table) : M (World Env) unit :=
  fun w => (Returned tt, {| issues := stmt (issues w); env := env w |}).

(** What a query that the engine carries out reads off the table. *)
Definition selected {A : Type} (q : Db.Table -> A) : M (World Env) A :=
  fun w => (Returned (q (issues w)), w).

(** A statement on the [issues] table. *)
Definition sql (stmt : Db.Table -> Db.Table) : M (World Env) unit :=
  let* _ := call statement in
  written stmt.

(** A query on the [issues] table. *)
Definition query {A : Type} (q : Db.Table -> A) : M (World Env) A :=
  let* _ := call statement in
  selected q.

(** A call of the logger. *)
Definition log (level : LogLevel) (message : string) : M (World Env) unit :=
  call (logger level message).
End Lift.

End Host.

(* ================================================================== *)
(** * The fragment of regular expressions the keyword pattern needs    *)
(* ================================================================== *)

Module Regex.

(** Character classes, greedy repetition of a class, sequence, ordered
    alternation and the word-boundary assertion. *)
Inductive re : Type :=
| Cls (p : ascii -> bool)
| Plus (p : ascii -> bool)
| Star (p : ascii -> bool)
| Seq (r1 r2 : re)
| Alt (r1 r2 : re)
| WordB.

(** What follows a sub-match: the character before the current position,
    the rest of the input, and the number of characters consumed. *)
Definition cont : Type := option ascii -> string -> nat -> option nat.

Definition isWordAt (c : option ascii) : bool :=
  match c with Some a => JS.isWord a | None => false end.

Definition headOf (s : string) : option ascii :=
  match s with EmptyString => None | String c _ => Some c end.

(** Greedy [p*]: take one more character when possible, fall back to
    stopping here when the rest of the pattern fails after it. *)
Fixpoint star (p : ascii -> bool) (k : cont)
         (prev : option ascii) (s : string) (n : nat) : option nat :=
  match s with
  | String c s' =>
      if p c then
        match star p k (Some c) s' (S n) with
        | Some r => Some r
        | None => k prev s n
        end
      else k prev s n
  | EmptyString => k prev s n
  end.

(** Backtracking matcher anchored at the current position: the length
    of the first match in the engine's priority order, if any. *)
Fixpoint exec (r : re) (k : cont)
         (prev : option ascii) (s : string) (n : nat) : option nat :=
  match r with
  | Cls p =>
      match s with
      | String c s' => if p c then k (Some c) s' (S n) else None
      | EmptyString => None
      end
  | Star p => star p k prev s n
  | Plus p =>
      match s with
      | String c s' => if p c then star p k (Some c) s' (S n) else None
      | EmptyString => None
      end
  | Seq r1 r2 => exec r1 (exec r2 k) prev s n
  | Alt r1 r2 =>
      match exec r1 k prev s n with
      | Some m => Some m
      | None => exec r2 k prev s n
      end
  | WordB =>
      if xorb (isWordAt prev) (isWordAt (headOf s)) then k prev s n else None
  end.

Definition accept : cont := fun _ _ n => Some n.

(** [[...text.matchAll(r)].map(m => m[0])] for a global pattern: scan
    left to right; after a match resume at its end (one character
    further after an empty match).  [skip] counts the characters of the
    last match still to be passed over. *)
Fixpoint scan (r : re) (prev : option ascii) (s : string) (skip : nat)
  : list string :=
  match s with
  | EmptyString =>
      match skip with
      | O => match exec r accept prev s 0 with
             | Some _ => [""]
             | None => []
             end
      | S _ => []
      end
  | String c s' =>
      match skip with
      | S j => scan r (Some c) s' j
      | O =>
          match exec r accept prev s 0 with
          | Some m => substring 0 m s :: scan r (Some c) s' (Nat.pred m)
          | None => scan r (Some c) s' 0
          end
      end
  end.

Definition matchAll (r : re) (text : string) : list string :=
  scan r None text 0.

End Regex.

(* ================================================================== *)
(** * services/context-builder.ts                                      *)
(* ================================================================== *)

Module ContextBuilder.

(** ** extractKeywords *)

Definition stopWords : list string :=
  [ "the"; "a"; "an"; "is"; "are"; "was"; "were"; "be"; "been"; "being";
    "have"; "has"; "had"; "do"; "does"; "did"; "will"; "would"; "could";
    "should"; "may"; "might"; "must"; "shall"; "can"; "need"; "dare";
    "ought"; "used"; "to"; "of"; "in"; "for"; "on"; "with"; "at"; "by";
    "from"; "as"; "into"; "through"; "during"; "before"; "after"; "above";
    "below"; "between"; "under"; "again"; "further"; "then"; "once"; "here";
    "there"; "when"; "where"; "why"; "how"; "all"; "each"; "few"; "more";
    "most"; "other"; "some"; "such"; "no"; "nor"; "not"; "only"; "own";
    "same"; "so"; "than"; "too"; "very"; "just"; "and"; "but"; "if"; "or";
    "because"; "until"; "while"; "this"; "that"; "these"; "those"; "it";
    "its"; "i"; "me"; "my"; "we"; "our"; "you"; "your"; "he"; "she"; "they" ].

Definition isAlpha (c : ascii) : bool := JS.isLower c || JS.isUpper c.
Definition isUnderscore (c : ascii) : bool := Ascii.eqb c "_".
Definition isLowerOrUnderscore (c : ascii) : bool := JS.isLower c || isUnderscore c.
Definition isUpperOrUnderscore (c : ascii) : bool := JS.isUpper c || isUnderscore c.

Import Regex.

(** [[A-Z][a-z]+[A-Z][a-zA-Z]*] *)
Definition pascalCase : re :=
  Seq (Cls JS.isUpper) (Seq (Plus JS.isLower) (Seq (Cls JS.isUpper) (Star isAlpha))).

(** [[a-z]+_[a-z_]+] *)
Definition snakeCase : re :=
  Seq (Plus JS.isLower) (Seq (Cls isUnderscore) (Plus isLowerOrUnderscore)).

(** [[A-Z][A-Z_]+] *)
Definition screamingCase : re :=
  Seq (Cls JS.isUpper) (Plus isUpperOrUnderscore).

(** [/\b([A-Z][a-z]+[A-Z][a-zA-Z]*|[a-z]+_[a-z_]+|[A-Z][A-Z_]+)\b/g].
    The group spans everything between the two assertions, so [m[1]]
    is the whole match. *)
Definition identifierPattern : re :=
  Seq WordB (Seq (Alt pascalCase (Alt snakeCase screamingCase)) WordB).

(** [.replace(/[^a-z0-9\s]/g, ' ')] *)
Fixpoint blankOthers (s : string) : string :=
  match s with
  | EmptyString => EmptyString
  | String c s' =>
      String (if JS.isLower c || JS.isDigit c || JS.isSpace c then c else " "%char)
             (blankOthers s')
  end.

(** [.split(/\s+/)]: the pieces between maximal runs of white space.
    [inRun] tells that the previous character was white space. *)
Fixpoint splitSpaces (s : string) (inRun : bool) : list string :=
  match s with
  | EmptyString => [""]
  | String c s' =>
      if JS.isSpace c then
        if inRun then splitSpaces s' true else "" :: splitSpaces s' true
      else
        match splitSpaces s' false with
        | [] => [String c ""]
        | piece :: pieces => String c piece :: pieces
        end
  end.

Definition extractKeywords (text : string) : list string :=
  let identifiers := matchAll identifierPattern text in
  let words :=
    filter (fun w => (3 <? String.length w)%nat && negb (JS.has stopWords w))
           (splitSpaces (blankOthers (JS.toLowerCase text)) false) in
  JS.unique (identifiers ++ words).

(** ** findRelevantFiles *)

Import Fs.

(** An element of [results]. *)
Record ScoredFile := {
  path : string;
  reason : string;
  score : Z
}.

Definition codeExtensions : list string :=
  [".ts"; ".tsx"; ".js"; ".jsx"; ".rs"; ".py"; ".go"; ".md"].

(** The pair of loop variables [score] and [reasons]. *)
Definition Tally : Type := (Z * list string)%type.

Definition bump (t : Tally) (points : Z) (why : string) : Tally :=
  (fst t + points, snd t ++ [why]).

(** [for (const ref of fileRefs) { if (...) { ...; break; } }] *)
Fixpoint checkRefs (fileRefs : list string) (relativePath name : string)
         (t : Tally) : Tally :=
  match fileRefs with
  | [] => t
  | ref :: rest =>
      if JS.includes relativePath ref || JS.includes name ref
      then bump t 10 "Referenced in issue"
      else checkRefs rest relativePath name t
  end.

(** [for (const keyword of ...) { if (...) { ...; break; } }] *)
Fixpoint checkKeywords (keywords : list string) (nameLower : string)
         (t : Tally) : Tally :=
  match keywords with
  | [] => t
  | keyword :: rest =>
      if JS.includes nameLower (JS.toLowerCase keyword)
      then bump t 3 ("Matches keyword: " ++ keyword)
      else checkKeywords rest nameLower t
  end.

(** The scoring of one file: lines 446 to 476 of the source. *)
Definition scoreFile (fileRefs keywords : list string)
           (relativePath name : string) : Tally :=
  let t0 : Tally := (0, []) in
  let t1 := checkRefs fileRefs relativePath name t0 in
  let nameLower := JS.toLowerCase name in
  let t2 := checkKeywords (JS.slice0 keywords 20) nameLower t1 in
  let t3 := if String.eqb name "README.md" then bump t2 2 "README file" else t2 in
  let t4 :=
    if JS.includes name "index" || JS.includes name "main" || JS.includes name "lib"
    then bump t3 1 "Entry point file" else t3 in
  t4.

(** [reasons[0] || 'Relevant file'] *)
Definition firstReason (reasons : list string) : string :=
  match reasons with
  | [] => "Relevant file"
  | r :: _ => if String.eqb r "" then "Relevant file" else r
  end.

(** [if (score > 0) results.push({ path, reason, score })] *)
Definition pushScored (relativePath : string) (t : Tally)
           (results : list ScoredFile) : list ScoredFile :=
  if 0 <? fst t
  then results ++ [ {| path := relativePath;
                       reason := firstReason (snd t);
                       score := fst t |} ]
  else results.

Definition skipName (name : string) : bool :=
  JS.startsWith name "." || String.eqb name "node_modules"
  || String.eqb name "target" || String.eqb name "dist".

Section Walk.
Variables fileRefs keywords : list string.

(** The body of the [for] loop of [walkDir] for one entry of a
    directory whose path below the repository is [dirRel] and which
    is walked at depth [depth]; [results] is threaded through. *)
Fixpoint walkEntry (dirRel : string) (depth : nat) (entry : Dirent)
         (results : list ScoredFile) {struct entry} : list ScoredFile :=
  let name := entryName entry in
  let relativePath := Path.relativeTo dirRel name in
  if skipName name then results
  else
    match entry with
    | Directory _ listing =>
        (* walkDir(fullPath, depth + 1) *)
        if (5 <? S depth)%nat then results
        else
          match listing with
          | None => results
          | Some entries =>
              fold_left (fun acc e => walkEntry relativePath (S depth) e acc)
                        entries results
          end
    | File _ =>
        let ext := Path.extname name in
        if negb (JS.has codeExtensions ext) then results
        else pushScored relativePath
                        (scoreFile fileRefs keywords relativePath name)
                        results
    | Other _ => results
    end.

(** [walkDir(dir, depth)]: nothing beyond depth 5, nothing when the
    directory cannot be listed, otherwise the entries in order. *)
Definition walkDir (listing : option (list Dirent)) (dirRel : string)
           (depth : nat) (results : list ScoredFile) : list ScoredFile :=
  if (5 <? depth)%nat then results
  else
    match listing with
    | None => results
    | Some entries =>
        fold_left (fun acc e => walkEntry dirRel depth e acc) entries results
    end.
End Walk.

(** [(a, b) => b.score - a.score] *)
Definition byScore (a b : ScoredFile) : Z := score b - score a.

(** The walk, the sort and the cut: the value of
    [results.sort(...).slice(0, maxFiles)], scores still attached. *)
Definition rankedFiles (root : option (list Dirent))
           (fileRefs keywords : list string) (maxFiles : Z) : list ScoredFile :=
  let results := walkDir fileRefs keywords root "" 0 [] in
  JS.slice0 (JS.sort byScore results) maxFiles.

(** [findRelevantFiles(repoPath, fileRefs, keywords, maxFiles)], where
    [root] is what listing [repoPath] yields. *)
Definition findRelevantFiles (root : option (list Dirent))
           (fileRefs keywords : list string) (maxFiles : Z)
  : list (string * string) :=
  map (fun r => (path r, reason r)) (rankedFiles root fileRefs keywords maxFiles).

(** The default of the parameter [maxFiles]. *)
Definition defaultMaxFiles : Z := 10.

(** ** readFileContent *)

(** The default of the parameter [maxLines]. *)
Definition defaultMaxLines : Z := 500.

(** [readFileSync] is the file system's answer for a path: the file's
    text, or the exception it throws. *)
Definition readFileContent (readFileSync : string -> Effect.Outcome string)
           (filePath : string) (maxLines : Z) : string :=
  match readFileSync filePath with
  | Effect.Returned content =>
      let lines := JS.split "010" content in
      let len := Z.of_nat (length lines) in
      if maxLines <? len
      then JS.join (String "010" "") (JS.slice0 lines maxLines)
           ++ String "010" (String "010" "... (truncated, ")
           ++ JS.showInt (len - maxLines) ++ " more lines)"
      else content
  | Effect.Thrown error => "[Error reading file: " ++ error ++ "]"
  end.

(** ** The task context and its rendering *)

Record IssueHeader := {
  number : Z;
  title : string;
  body : option string;
  html_url : string;
  repo_name : string;
  labels : list string
}.

Record RelevantFile := {
  file_path : string;
  file_content : string;
  file_reason : string
}.

Record TaskContext := {
  issue : IssueHeader;
  comments : list GitHub.Comment;
  relevantFiles : list RelevantFile;
  repoPath : string;
  branchName : string
}.

Definition backtick : string := String "096" "".
Definition fence : string := backtick ++ backtick ++ backtick.

Section Render.
(** [new Date(s).toLocaleDateString()]: it depends on the locale and
    the time zone of the process. *)
Variable toLocaleDateString : string -> string.

Definition headerLines (context : TaskContext) : list string :=
  [ "# Issue #" +++ JS.showInt (number (issue context)) +++ ": " +++ title (issue context);
    "";
    "**Repository:** " +++ repo_name (issue context);
    "**Branch:** " +++ backtick +++ branchName context +++ backtick;
    "**GitHub URL:** " +++ html_url (issue context);
    "**Local Path:** " +++ backtick +++ repoPath context +++ backtick ]
  ++ (if (0 <? length (labels (issue context)))%nat
      then ["**Labels:** " +++ JS.join ", " (labels (issue context))]
      else [])
  ++ [ ""; "---"; ""; "## Issue Description"; "";
       JS.orElse (body (issue context)) "*No description provided*";
       "" ].

Definition commentBlock (comment : GitHub.Comment) : list string :=
  [ "### @" +++ GitHub.comment_user comment +++ " ("
      +++ toLocaleDateString (GitHub.comment_created_at comment) +++ ")";
    "";
    GitHub.comment_body comment;
    "" ].

Definition commentLines (context : TaskContext) : list string :=
  if (0 <? length (comments context))%nat
  then ["## Comments"; ""] ++ flat_map commentBlock (comments context)
  else [].

Definition fileBlock (file : RelevantFile) : list string :=
  [ "### " +++ backtick +++ file_path file +++ backtick;
    "*" +++ file_reason file +++ "*";
    "";
    fence;
    file_content file;
    fence;
    "" ].

Definition fileLines (context : TaskContext) : list string :=
  if (length (relevantFiles context) =? 0)%nat
  then ["*No relevant files automatically identified. You may need to explore the repository.*"]
  else flat_map fileBlock (relevantFiles context).

Definition footerLines (context : TaskContext) : list string :=
  [ "---"; ""; "## How to Fix"; "";
    "1. Open this repository in your editor:";
    "   " +++ fence +++ "bash";
    "   github-agent open " +++ JS.showInt (number (issue context));
    "   " +++ fence;
    "";
    "2. The branch has already been created: " +++ backtick
      +++ branchName context +++ backtick;
    "";
    "3. Fix the issue described above";
    "";
    "4. After fixing, push your changes:";
    "   " +++ fence +++ "bash";
    "   github-agent push " +++ JS.showInt (number (issue context));
    "   " +++ fence;
    "" ].

(** The array [lines] of [generateTaskFile] just before the join. *)
Definition taskFileLines (context : TaskContext) : list string :=
  headerLines context
  ++ commentLines context
  ++ ["---"; ""; "## Relevant Files"; ""]
  ++ fileLines context
  ++ footerLines context.

Definition generateTaskFile (context : TaskContext) : string :=
  JS.join (String "010" "") (taskFileLines context).
End Render.

(** ** buildContext *)

Section Build.
Import Effect Host.
Local Open Scope effect_scope.

Variable toLocaleDateString : string -> string.

(** [extractFileReferences]: what follows is stated for whatever list
    of tokens it returns; the function itself is [FileRefs.extractFileReferences]
    below. *)
Variable extractFileReferences : string -> list string.

Context {Env : Type} {runtime : Runtime Env} {services : Services Env}.

(** The text the signals are extracted from. *)
Definition issueTextOf (row : Db.DbIssue) (details : option GitHub.IssueDetails)
  : string :=
  Db.title row +++ String "010" "" +++ JS.orElse (Db.body row) ""
  +++ String "010" ""
  +++ JS.orElse
        (option_map (fun d => JS.join (String "010" "")
                                 (map GitHub.comment_body (GitHub.detail_comments d)))
                    details)
        "".

(** The files found by the ranking, each read again from disk. *)
Definition readRelevantFiles (readFile : string -> Outcome string)
           (root : string) (found : list (string * string)) : list RelevantFile :=
  map (fun pr => {| file_path := fst pr;
                    file_content := readFileContent readFile (Path.join root (fst pr))
                                                    defaultMaxLines;
                    file_reason := snd pr |})
      found.

(** The [context] object of [buildContext], from what the forge, the
    directory listing and the file reads answered. *)
Definition taskContextOf (row : Db.DbIssue) (details : option GitHub.IssueDetails)
           (tree : option (list Dirent)) (readFile : string -> Outcome string)
           (root branch : string) : TaskContext :=
  let issueText := issueTextOf row details in
  let fileRefs := extractFileReferences issueText in
  let keywords := extractKeywords issueText in
  let relevantFilePaths := findRelevantFiles tree fileRefs keywords defaultMaxFiles in
  {| issue := {| number := Db.issue_number row;
                 title := Db.title row;
                 body := Db.body row;
                 html_url := Db.html_url row;
                 repo_name := Db.repo_name row;
                 labels := match details with
                           | Some d => GitHub.detail_labels d
                           | None => []
                           end |};
     comments := match details with
                 | Some d => GitHub.detail_comments d
                 | None => []
                 end;
     relevantFiles := readRelevantFiles readFile root relevantFilePaths;
     repoPath := root;
     branchName := branch |}.

(** The two messages of [buildContext] that depend on what it found. *)
Definition foundMessage (issueText : string) : string :=
  "Found " +++ JS.showInt (Z.of_nat (length (extractFileReferences issueText)))
  +++ " file references and "
  +++ JS.showInt (Z.of_nat (length (extractKeywords issueText))) +++ " keywords".

Definition buildContext (row : Db.DbIssue) (root branch : string)
  : M (World Env) string :=
  let* _ := log Info ("Building context for issue #" +++ JS.showInt (Db.issue_number row)
                      +++ " in " +++ Db.repo_name row) in
  let* details := call (getIssueDetails (Db.repo_name row) (Db.issue_number row)) in
  let* _ := log Debug (foundMessage (issueTextOf row details)) in
  let* tree := observe (fun e => readdirTree e root) in
  let* readFile := observe readFileSync in
  let context := taskContextOf row details tree readFile root branch in
  let taskContent := generateTaskFile toLocaleDateString context in
  let taskFileName :=
    Db.repo_name row +++ "-" +++ JS.showInt (Db.issue_number row) +++ ".md" in
  let taskFilePath := Path.join tasksDir taskFileName in
  let* _ := call (writeFileSync taskFilePath taskContent) in
  let* _ := sql (Db.updateIssueTaskFile (Db.id row) taskFilePath) in
  let* _ := sql (Db.updateIssueStatus (Db.id row) Db.Ready) in
  let* _ := log Info ("Task file created: " +++ taskFilePath) in
  ret taskFilePath.
End Build.

End ContextBuilder.

(* ================================================================== *)
(** * services/git-ops.ts                                              *)
(* ================================================================== *)

Module GitOps.

Import Effect Host.
Local Open Scope effect_scope.

(** [.replace(/[^a-z0-9]+/g, '-')]: every maximal run of other
    characters becomes one dash.  [inRun] tells that the previous
    character was already replaced. *)
Fixpoint dashRuns (s : string) (inRun : bool) : string :=
  match s with
  | EmptyString => EmptyString
  | String c s' =>
      if JS.isLower c || JS.isDigit c then String c (dashRuns s' false)
      else if inRun then dashRuns s' true
      else String "-" (dashRuns s' true)
  end.

(** [.replace(/^-+/, '')] *)
Fixpoint dropLeadingDashes (s : string) : string :=
  match s with
  | String "-" s' => dropLeadingDashes s'
  | _ => s
  end.

(** [.replace(/-+$/, '')] *)
Fixpoint dropTrailingDashes (s : string) : string :=
  match s with
  | EmptyString => EmptyString
  | String c s' =>
      match dropTrailingDashes s' with
      | EmptyString => if Ascii.eqb c "-" then EmptyString else String c EmptyString
      | rest => String c rest
      end
  end.

(** [.replace(/[^a-z0-9]+/g, '-').replace(/^-+|-+$/g, '').slice(0, 30)],
    of a text that is already in lower case. *)
Definition slugFrom (lowered : string) : string :=
  substring 0 30 (dropTrailingDashes (dropLeadingDashes (dashRuns lowered false))).

Section Slug.
Context {unicode : Unicode}.

Definition slugOf (title : string) : string := slugFrom (toLowerCase title).

Definition branchNameOf (row : Db.DbIssue) : string :=
  "fix/issue-" +++ JS.showInt (Db.issue_number row) +++ "-" +++ slugOf (Db.title row).
End Slug.

Section Branch.
Context {unicode : Unicode} {Env : Type} {runtime : Runtime Env}
        {services : Services Env}.

(** [getRepoLocalPath(repoName)] *)
Definition getRepoLocalPath (repoName : string) : string :=
  Path.join reposDir repoName.

(** The [try] block of [createIssueBranch]. *)
Definition checkoutAndRecord (row : Db.DbIssue) (localPath branchName : string)
  : M (World Env) string :=
  let* branches := call (branchLocal localPath) in
  let* _ :=
    if JS.has branches branchName
    then
      let* _ := log Info ("Branch " +++ branchName +++ " already exists, checking out") in
      call (checkout localPath branchName)
    else
      let* _ := call (checkoutLocalBranch localPath branchName) in
      log Info ("Created branch " +++ branchName) in
  let* _ := sql (Db.updateIssueBranch (Db.id row) branchName) in
  ret branchName.

(** [createIssueBranch(issue)]: an exception of the [try] block is
    logged and thrown again. *)
Definition createIssueBranch (row : Db.DbIssue) : M (World Env) string :=
  let localPath := getRepoLocalPath (Db.repo_name row) in
  let* cloned := call (isRepoCloned (Db.repo_name row)) in
  if negb cloned
  then throw ("Error: Repository " +++ Db.repo_name row +++ " is not cloned")
  else
    let branchName := branchNameOf row in
    let* _ := call (simpleGit localPath) in
    tryCatch (checkoutAndRecord row localPath branchName)
             (fun error =>
                let* _ := log Error ("Failed to create branch for issue #"
                                     +++ JS.showInt (Db.issue_number row)
                                     +++ ": " +++ error) in
                throw error).
End Branch.

End GitOps.

(* ================================================================== *)
(** * index.ts: the daemon's pass over the new issues                  *)
(* ================================================================== *)

Module Daemon.

Import Effect Host.
Local Open Scope effect_scope.

Section Process.
Variable toLocaleDateString : string -> string.
Variable extractFileReferences : string -> list string.
Context {unicode : Unicode} {Env : Type} {runtime : Runtime Env}
        {services : Services Env}.

(** The [try] block of the loop body. *)
Definition prepareIssue (row : Db.DbIssue) : M (World Env) unit :=
  let* _ := log Info ("Processing issue #" +++ JS.showInt (Db.issue_number row)
                      +++ " in " +++ Db.repo_name row) in
  let* repoPath := call (ensureRepoCloned (Db.repo_name row)) in
  let* branchName := GitOps.createIssueBranch row in
  let* _ := ContextBuilder.buildContext toLocaleDateString extractFileReferences
                                        row repoPath branchName in
  let* _ := call (notifyIssueReady row) in
  log Info ("Issue #" +++ JS.showInt (Db.issue_number row) +++ " is ready for fixing").

(** The [catch] block of the loop body. *)
Definition skipIssue (row : Db.DbIssue) (error : string) : M (World Env) unit :=
  let* _ := log Error ("Failed to process issue #" +++ JS.showInt (Db.issue_number row)
                       +++ ": " +++ error) in
  sql (Db.updateIssueStatus (Db.id row) Db.Skipped).

(** The loop body: [try { ... } catch (error) { ... }] *)
Definition processIssue (row : Db.DbIssue) : M (World Env) unit :=
  tryCatch (prepareIssue row) (skipIssue row).

(** [for (const issue of newIssues) { ... }]: an exception that leaves
    the loop body ends the loop. *)
Fixpoint forEachIssue (rows : list Db.DbIssue) : M (World Env) unit :=
  match rows with
  | [] => ret tt
  | row :: rest => let* _ := processIssue row in forEachIssue rest
  end.

Definition processNewIssues : M (World Env) unit :=
  let* newIssues := query (Db.getIssuesByStatus Db.New) in
  if (length newIssues =? 0)%nat
  then log Debug "No new issues to process"
  else
    let* _ := log Info ("Processing " +++ JS.showInt (Z.of_nat (length newIssues))
                        +++ " new issues") in
    forEachIssue newIssues.
End Process.

End Daemon.

(* ================================================================== *)
(** * Notions used to state the properties                             *)
(* ================================================================== *)

Module WalkSpec.

Import Fs ContextBuilder.

(** Induction on a directory entry, with the induction hypothesis for
    every entry of a listed directory. *)
Section DirentInduction.
Variable P : Dirent -> Prop.
Hypothesis file_case : forall name, P (File name).
Hypothesis other_case : forall name, P (Other name).
Hypothesis unlisted_case : forall name, P (Directory name None).
Hypothesis listed_case :
  forall name entries, Forall P entries -> P (Directory name (Some entries)).

Fixpoint Dirent_nested_ind (entry : Dirent) : P entry :=
  match entry with
  | File name => file_case name
  | Other name => other_case name
  | Directory name None => unlisted_case name
  | Directory name (Some entries) =>
      listed_case name entries
        ((fix each (es : list Dirent) : Forall P es :=
            match es with
            | [] => Forall_nil P
            | e :: es' => Forall_cons e (Dirent_nested_ind e) (each es')
            end) entries)
  end.
End DirentInduction.

(** [Reached dirRel depth entry rel name]: the loop body, run for
    [entry] in a directory with path [dirRel] walked at depth [depth],
    gets to score the regular file [name] under the path [rel].  The
    file is [entry] itself, or lies below it through directories that
    are not skipped, can be listed and stay within the depth limit. *)
Inductive Reached : string -> nat -> Dirent -> string -> string -> Prop :=
| reached_file (dirRel : string) (depth : nat) (name : string) :
    skipName name = false ->
    JS.has codeExtensions (Path.extname name) = true ->
    Reached dirRel depth (File name) (Path.relativeTo dirRel name) name
| reached_below (dirRel : string) (depth : nat) (sub : string)
                (entries : list Dirent) (entry : Dirent) (rel name : string) :
    skipName sub = false ->
    (S depth <= 5)%nat ->
    In entry entries ->
    Reached (Path.relativeTo dirRel sub) (S depth) entry rel name ->
    Reached dirRel depth (Directory sub (Some entries)) rel name.

(** The walk started at the repository root gets to score [name]
    under [rel]. *)
Definition Walked (root : option (list Dirent)) (rel name : string) : Prop :=
  exists entries entry,
    root = Some entries /\ In entry entries /\ Reached "" 0 entry rel name.

(** The element pushed for a file with a positive score. *)
Definition scoredFile (fileRefs keywords : list string) (rel name : string)
  : ScoredFile :=
  {| path := rel;
     reason := firstReason (snd (scoreFile fileRefs keywords rel name));
     score := fst (scoreFile fileRefs keywords rel name) |}.

(** No entry name holds the path separator, as on any file system. *)
Fixpoint wellNamed (entry : Dirent) : bool :=
  negb (JS.includes (entryName entry) "/")
  && match entry with
     | Directory _ (Some entries) => forallb wellNamed entries
     | _ => true
     end.

Definition wellNamedTree (root : option (list Dirent)) : bool :=
  match root with
  | Some entries => forallb wellNamed entries
  | None => true
  end.

(** Every regular file of the tree, wherever it lies: its path below
    the root and its name. *)
Fixpoint filesBelow (dirRel : string) (entry : Dirent) : list (string * string) :=
  let rel := Path.relativeTo dirRel (entryName entry) in
  match entry with
  | File name => [(rel, name)]
  | Directory _ (Some entries) => flat_map (filesBelow rel) entries
  | _ => []
  end.

Definition filesOfTree (root : option (list Dirent)) : list (string * string) :=
  match root with
  | Some entries => flat_map (filesBelow "") entries
  | None => []
  end.

(** [ref] matches the file: the test of the first loop. *)
Definition refHit (rel name ref : string) : bool :=
  JS.includes rel ref || JS.includes name ref.

(** [keyword] matches the file name: the test of the second loop. *)
Definition keywordHit (name keyword : string) : bool :=
  JS.includes (JS.toLowerCase name) (JS.toLowerCase keyword).

Definition isEntryPoint (name : string) : bool :=
  JS.includes name "index" || JS.includes name "main" || JS.includes name "lib".

(** A path component the walk goes through: not a skipped name. *)
Definition passable (c : string) : Prop := skipName c = false.

(** What a rule adds to the score. *)
Definition points (hit : bool) (n : Z) : Z := if hit then n else 0.

End WalkSpec.

(** ** Changes of the [issues] table *)

Module TableSpec.

(** What an [UPDATE ... WHERE id = key] does to one row. *)
Definition onKey (key : Z) (change : Db.DbIssue -> Db.DbIssue) (row : Db.DbIssue)
  : Db.DbIssue :=
  if Db.id row =? key then change row else row.

(** A change of rows that keeps every [id] and leaves the rows whose
    key is not listed alone. *)
Definition keyedIn (keys : list Z) (g : Db.DbIssue -> Db.DbIssue) : Prop :=
  (forall row, Db.id (g row) = Db.id row)
  /\ (forall row, ~ In (Db.id row) keys -> g row = row).

Section Computations.
Import Effect Host.
Context {Env A : Type}.

(** The computation leaves the table as it is, whether it returns or
    throws. *)
Definition Keeps (c : M (World Env) A) : Prop :=
  forall w, issues (snd (c w)) = issues w.

(** Started on a table that satisfies [pre], the computation leaves a
    table that satisfies [during], whether it returns or throws, and one
    that satisfies [done a] when it returns [a]. *)
Definition Triple (pre : Db.Table -> Prop) (c : M (World Env) A)
           (during : Db.Table -> Prop) (done : A -> Db.Table -> Prop) : Prop :=
  forall w,
    pre (issues w) ->
    during (issues (snd (c w)))
    /\ (forall a, fst (c w) = Returned a -> done a (issues (snd (c w)))).
End Computations.

End TableSpec.

(** ** Concrete inputs *)

Module Examples.

Import Fs ContextBuilder Effect Host.

(** One keyword, and the same keyword behind twenty others. *)
Definition oneKeyword : list string := ["login"].

Definition twentyOneKeywords : list string :=
  [ "crash"; "error"; "timeout"; "session"; "token"; "cookie"; "redirect";
    "password"; "database"; "server"; "client"; "request"; "response";
    "header"; "browser"; "mobile"; "network"; "console"; "message"; "button";
    "login" ].

Definition loginTree : option (list Dirent) := Some [File "loginHandler.ts"].

Definition authTree : option (list Dirent) :=
  Some [Directory "src" (Some [File "auth.ts"; File "other.ts"])].

Definition authTreeSwapped : option (list Dirent) :=
  Some [Directory "src" (Some [File "other.ts"; File "auth.ts"])].

Definition vendoredReadme : option (list Dirent) :=
  Some [Directory "node_modules" (Some [File "README.md"])].

Definition plainReadme : option (list Dirent) :=
  Some [File "README.md"; Directory "src" (Some [File "app.ts"])].

Definition dotfileTree : option (list Dirent) :=
  Some [File ".eslintrc.js"; File "app.js"].

Definition mixedTree : option (list Dirent) :=
  Some [ Directory "src" (Some [ File "auth.ts"; File "index.ts";
                                 Directory "node_modules" (Some [File "auth.ts"]) ]);
         File "README.md";
         File "main.rs";
         Directory "dist" (Some [File "auth.js"]);
         Directory ".git" (Some [File "index.md"]) ].

(** A host whose texts are ASCII. *)
Definition asciiHost : Unicode := {| toLowerCase := JS.toLowerCase |}.

(** A host that knows the Kelvin sign, three bytes in UTF-8, beside the
    ASCII letters. *)
Definition kelvinSign : string := String "226" (String "132" (String "170" "")).

Fixpoint lowerWithKelvin (s : string) : string :=
  match s with
  | String "226" (String "132" (String "170" rest)) => String "k" (lowerWithKelvin rest)
  | String c rest => String (JS.lowerChar c) (lowerWithKelvin rest)
  | EmptyString => EmptyString
  end.

Definition kelvinHost : Unicode := {| toLowerCase := lowerWithKelvin |}.

(** A process whose log and whose database never fail. *)
Definition quiet : Runtime unit := {|
  logger := fun _ _ e => (Returned tt, e);
  statement := fun e => (Returned tt, e)
|}.


(** Surroundings in which cloning fails for one repository, every
    read of a file fails, and all else succeeds. *)
Definition flakyCloneOn (Env : Type) : Services Env := {|
  tasksDir := "/data/tasks";
  getIssueDetails := fun _ _ e => (Returned None, e);
  readdirTree := fun _ _ => Some [File "README.md"];
  readFileSync := fun _ _ => Thrown "Error: ENOENT: no such file or directory";
  writeFileSync := fun _ _ e => (Returned tt, e);
  ensureRepoCloned := fun name e =>
    if String.eqb name "broken-repo"
    then (Thrown "Error: Repository broken-repo not found in database. Run a scan first.", e)
    else (Returned ("/data/repos/" +++ name), e);
  reposDir := "/data/repos";
  isRepoCloned := fun _ e => (Returned true, e);
  simpleGit := fun _ e => (Returned tt, e);
  branchLocal := fun _ e => (Returned ["main"], e);
  checkout := fun _ _ e => (Returned tt, e);
  checkoutLocalBranch := fun _ _ e => (Returned tt, e);
  notifyIssueReady := fun _ e => (Returned tt, e)
|}.

Definition flakyClone : Services unit := flakyCloneOn unit.

Definition issueRow (key : Z) (repo : string) (seen : string) : Db.DbIssue :=
  {| Db.id := key; Db.github_id := 1000 + key; Db.repo_name := repo;
     Db.issue_number := key; Db.title := "Login fails"; Db.body := None;
     Db.state := "open"; Db.html_url := "https://example.org/" +++ repo;
     Db.created_at := seen; Db.updated_at := seen; Db.first_seen_at := seen;
     Db.status := Db.New; Db.branch_name := None; Db.task_file_path := None |}.

Definition brokenIssue : Db.DbIssue := issueRow 1 "broken-repo" "2024-01-02 00:00:00".
Definition fineIssue : Db.DbIssue := issueRow 2 "fine-repo" "2024-01-01 00:00:00".

Definition twoNewIssues : World unit :=
  {| issues := [fineIssue; brokenIssue]; env := tt |}.


Definition noDate (s : string) : string := s.
Definition noRefs (text : string) : list string := [].

End Examples.

(** ** The reason a scored file is given *)

Module ReasonSpec.

Import ContextBuilder WalkSpec.

(** The reason by order of the rules: a matching reference, else the
    first matching keyword among those checked, else the README rule,
    else the entry-point rule. *)
Definition reasonByPriority (fileRefs keywords : list string) (rel name : string)
  : string :=
  if existsb (refHit rel name) fileRefs then "Referenced in issue"
  else match find (keywordHit name) (firstn 20 keywords) with
       | Some keyword => "Matches keyword: " +++ keyword
       | None =>
           if String.eqb name "README.md" then "README file"
           else "Entry point file"
       end.

(** The components of a path below the root; the root itself has none. *)
Definition components (rel : string) : list string :=
  if String.eqb rel "" then [] else JS.split "/" rel.

End ReasonSpec.

(** ** Results that agree on paths and scores *)

Module RankSpec.

Import ContextBuilder.

(** Two scored files with the same path and the same score; the reasons
    may differ. *)
Definition sameRank (r1 r2 : ScoredFile) : Prop :=
  path r1 = path r2 /\ score r1 = score r2.

End RankSpec.

(** ** Texts without a given character *)

Module TextSpec.

(** [c] does not occur in [s]. *)
Fixpoint lacks (c : ascii) (s : string) : bool :=
  match s with
  | EmptyString => true
  | String d s' => negb (Ascii.eqb d c) && lacks c s'
  end.

(** Every character of [s] satisfies [p]. *)
Fixpoint allChars (p : ascii -> bool) (s : string) : bool :=
  match s with
  | EmptyString => true
  | String d s' => p d && allChars p s'
  end.

Definition newline : ascii := "010"%char.

End TextSpec.

(** ** What the matcher accepts *)

Module RegexSpec.

Import Regex.

(** The character before the position reached after reading [w], when
    [prev] was the character before its start. *)
Fixpoint lastOf (prev : option ascii) (w : string) : option ascii :=
  match w with
  | EmptyString => prev
  | String c w' => lastOf (Some c) w'
  end.

(** [Step r prev w rest]: standing before [w ++ rest], with [prev] the
    character just before, the expression [r] can read exactly [w]. *)
Inductive Step : re -> option ascii -> string -> string -> Prop :=
| step_cls (p : ascii -> bool) (prev : option ascii) (c : ascii) (rest : string) :
    p c = true -> Step (Cls p) prev (String c "") rest
| step_star_stop (p : ascii -> bool) (prev : option ascii) (rest : string) :
    Step (Star p) prev "" rest
| step_star_more (p : ascii -> bool) (prev : option ascii) (c : ascii)
                 (w rest : string) :
    p c = true -> Step (Star p) (Some c) w rest ->
    Step (Star p) prev (String c w) rest
| step_plus (p : ascii -> bool) (prev : option ascii) (c : ascii) (w rest : string) :
    p c = true -> Step (Star p) (Some c) w rest ->
    Step (Plus p) prev (String c w) rest
| step_seq (r1 r2 : re) (prev : option ascii) (w1 w2 rest : string) :
    Step r1 prev w1 (w2 +++ rest) ->
    Step r2 (lastOf prev w1) w2 rest ->
    Step (Seq r1 r2) prev (w1 +++ w2) rest
| step_alt_left (r1 r2 : re) (prev : option ascii) (w rest : string) :
    Step r1 prev w rest -> Step (Alt r1 r2) prev w rest
| step_alt_right (r1 r2 : re) (prev : option ascii) (w rest : string) :
    Step r2 prev w rest -> Step (Alt r1 r2) prev w rest
| step_wordb (prev : option ascii) (rest : string) :
    xorb (isWordAt prev) (isWordAt (headOf rest)) = true ->
    Step WordB prev "" rest.

(** The characters an expression can read. *)
Fixpoint alphabet (r : re) (c : ascii) : bool :=
  match r with
  | Cls p | Plus p | Star p => p c
  | Seq r1 r2 | Alt r1 r2 => alphabet r1 c || alphabet r2 c
  | WordB => false
  end.

(** The expression can read the empty word. *)
Fixpoint nullable (r : re) : bool :=
  match r with
  | Cls _ | Plus _ => false
  | Star _ | WordB => true
  | Seq r1 r2 => nullable r1 && nullable r2
  | Alt r1 r2 => nullable r1 || nullable r2
  end.

(** The characters a word read by the expression can start with. *)
Fixpoint first (r : re) (c : ascii) : bool :=
  match r with
  | Cls p | Plus p | Star p => p c
  | Seq r1 r2 => first r1 c || (nullable r1 && first r2 c)
  | Alt r1 r2 => first r1 c || first r2 c
  | WordB => false
  end.

(** A lower bound on the length of the words the expression reads. *)
Fixpoint minLength (r : re) : nat :=
  match r with
  | Cls _ | Plus _ => 1
  | Star _ | WordB => 0
  | Seq r1 r2 => minLength r1 + minLength r2
  | Alt r1 r2 => Nat.min (minLength r1) (minLength r2)
  end.

End RegexSpec.

(** ** Shapes of keywords *)

Module KeywordSpec.

Import ContextBuilder.

(** A letter or an underscore. *)
Definition isIdentifierChar (c : ascii) : bool := isAlpha c || isUnderscore c.

(** A lower-case letter or a digit. *)
Definition isPlainChar (c : ascii) : bool := JS.isLower c || JS.isDigit c.

(** What [blankOthers] leaves in place. *)
Definition isKeptChar (c : ascii) : bool :=
  JS.isLower c || JS.isDigit c || JS.isSpace c.

End KeywordSpec.

(** ** Shapes of branch names *)

Module SlugSpec.

Definition isDash (c : ascii) : bool := Ascii.eqb c "-".

(** A lower-case letter, a digit or a dash. *)
Definition isSlugChar (c : ascii) : bool := JS.isLower c || JS.isDigit c || isDash c.

(** A character of a branch name: a slug character or a slash. *)
Definition isBranchChar (c : ascii) : bool := isSlugChar c || Ascii.eqb c "/".

(** A letter of either case or a digit. *)
Definition isAlphaNumeric (c : ascii) : bool :=
  JS.isLower c || JS.isUpper c || JS.isDigit c.

(** A character that the pattern [[^a-z0-9]] does not match. *)
Definition isLowerOrDigit (c : ascii) : bool := JS.isLower c || JS.isDigit c.

Definition startsWithDash (s : string) : bool :=
  match s with
  | String c _ => isDash c
  | EmptyString => false
  end.

Fixpoint endsWithDash (s : string) : bool :=
  match s with
  | EmptyString => false
  | String c EmptyString => isDash c
  | String _ s' => endsWithDash s'
  end.

(** No dash is directly followed by another. *)
Fixpoint noDoubleDash (s : string) : bool :=
  match s with
  | EmptyString => true
  | String c s' => negb (isDash c && startsWithDash s') && noDoubleDash s'
  end.

(** Some character of [s] satisfies [p]. *)
Fixpoint someChar (p : ascii -> bool) (s : string) : bool :=
  match s with
  | EmptyString => false
  | String c s' => p c || someChar p s'
  end.

End SlugSpec.

(* ================================================================== *)
(** * The scan: storing what the forge lists                           *)
(* ================================================================== *)

(** ** db/queries.ts: [upsertIssue] *)

Module DbWrite.

Import Effect Db.

(** The argument of [upsertIssue]. *)
Record GitHubIssueData := {
  data_github_id : Z;
  data_repo_name : string;
  data_issue_number : Z;
  data_title : string;
  data_body : option string;
  data_state : string;
  data_html_url : string;
  data_created_at : string;
  data_updated_at : string
}.

(** What [upsertIssue] returns. *)
Record Upserted := {
  isNew : bool;
  upserted_id : Z
}.

(** [UPDATE issues SET title = ?, body = ?, state = ?, updated_at = ?] on
    one row. *)
Definition withScan (d : GitHubIssueData) (row : DbIssue) : DbIssue :=
  {| id := id row; github_id := github_id row; repo_name := repo_name row;
     issue_number := issue_number row; title := data_title d; body := data_body d;
     state := data_state d; html_url := html_url row;
     created_at := created_at row; updated_at := data_updated_at d;
     first_seen_at := first_seen_at row; status := status row;
     branch_name := branch_name row; task_file_path := task_file_path row |}.

(** The largest key of a row. *)
Definition maxRowid : Z := 2 ^ 63 - 1.

(** The candidate the engine makes of 64 random bits: it clears the two
    upper bits and adds one. *)
Definition candidate (random : Z) : Z := Z.land random (Z.shiftr maxRowid 1) + 1.

Definition inUse (key : Z) (table : Table) : bool :=
  existsb (fun row => id row =? key) table.

(** The key the engine gives a row inserted without one: 1 in an empty
    table, else one more than the largest key in use.  When the largest
    key in use is [maxRowid], the engine draws candidates at random, at
    most a hundred, and takes the first that is not in use; [randomness]
    is what it draws.  [None]: it found none. *)
Definition nextId (randomness : list Z) (table : Table) : option Z :=
  match table with
  | [] => Some 1
  | row :: rows =>
      let largest := fold_left Z.max (map id rows) (id row) in
      if largest <? maxRowid then Some (largest + 1)
      else find (fun key => negb (inUse key table))
                (map candidate (firstn 100 randomness))
  end.

(** The row an [INSERT] of the scanned columns adds: [first_seen_at]
    defaults to the current time, [status] to ['new'], the other columns
    to [NULL]. *)
Definition insertedRow (key : Z) (now : string) (d : GitHubIssueData) : DbIssue :=
  {| id := key; github_id := data_github_id d; repo_name := data_repo_name d;
     issue_number := data_issue_number d; title := data_title d; body := data_body d;
     state := data_state d; html_url := data_html_url d;
     created_at := data_created_at d; updated_at := data_updated_at d;
     first_seen_at := now; status := New;
     branch_name := None; task_file_path := None |}.

(** The table constraint [UNIQUE(repo_name, issue_number)]. *)
Definition sameIssueOf (d : GitHubIssueData) (row : DbIssue) : bool :=
  String.eqb (repo_name row) (data_repo_name d)
  && (issue_number row =? data_issue_number d).

Definition uniqueFailed : string :=
  "SqliteError: UNIQUE constraint failed: issues.repo_name, issues.issue_number".

Definition databaseFull : string := "SqliteError: database or disk is full".

(** [SELECT id, updated_at FROM issues WHERE github_id = ?]: the [id]
    of the first row found, as a number. *)
Definition existingId (d : GitHubIssueData) (table : Table) : option Z :=
  option_map (fun row => asNumber (id row))
             (find (fun row => github_id row =? data_github_id d) table).

(** [UPDATE issues SET title = ?, body = ?, state = ?, updated_at = ?
    WHERE github_id = ?] *)
Definition updateScanned (d : GitHubIssueData) (table : Table) : Table :=
  map (fun row => if github_id row =? data_github_id d then withScan d row else row)
      table.

(** [INSERT INTO issues (github_id, ...) VALUES (...)] at the time [now],
    and its [lastInsertRowid] as a number.  The engine picks the key
    before it checks the constraint. *)
Definition insertScanned (now : string) (randomness : list Z) (d : GitHubIssueData)
           (table : Table) : Outcome Z * Table :=
  match nextId randomness table with
  | None => (Thrown databaseFull, table)
  | Some key =>
      if existsb (sameIssueOf d) table
      then (Thrown uniqueFailed, table)
      else (Returned (asNumber key), table ++ [insertedRow key now d])
  end.

(** [upsertIssue(issue)] on the table, at the time [now], when the
    engine carries out its statements.  ([Scan.upsert] is the same with
    the statements that the engine refuses.) *)
Definition upsertIssue (now : string) (randomness : list Z) (d : GitHubIssueData)
           (table : Table) : Outcome Upserted * Table :=
  match existingId d table with
  | Some key =>
      (Returned {| isNew := false; upserted_id := key |}, updateScanned d table)
  | None =>
      match insertScanned now randomness d table with
      | (Returned key, table') =>
          (Returned {| isNew := true; upserted_id := key |}, table')
      | (Thrown error, table') => (Thrown error, table')
      end
  end.

End DbWrite.

(** ** services/github.ts: [scanAllRepos] *)

Module Scan.

Import Effect Host.
Local Open Scope effect_scope.

(** The fields of a [Repository] the scan reads. *)
Record Repository := {
  repo_short_name : string;
  repo_full_name : string;
  repo_has_issues : bool;
  repo_owner : string
}.

(** An [Issue] as [fetchRepoIssues] returns it, without its labels. *)
Record Issue := {
  issue_id : Z;
  issue_num : Z;
  issue_title : string;
  issue_body : option string;
  issue_state : string;
  issue_html_url : string;
  issue_created_at : string;
  issue_updated_at : string
}.

(** What [scanAllRepos] returns. *)
Record ScanResult := {
  reposScanned : Z;
  issuesFound : Z;
  newIssues : Z
}.

(** What the scan and the cycle need of the surroundings, beside the
    [Services] of the pass.  None of these reaches the [issues] table. *)
Class ScanServices (Env : Type) := {
  (** [fetchAllTargetRepos()] *)
  fetchAllTargetRepos : Env -> Outcome (list Repository) * Env;
  (** [fetchRepoIssues(owner, name)] *)
  fetchRepoIssues : string -> string -> Env -> Outcome (list Issue) * Env;
  (** [datetime('now')] *)
  currentTime : Env -> string;
  (** what the engine draws when it picks a key at random *)
  randomness : Env -> list Z;
  (** [recordScan(reposScanned, issuesFound, newIssues)] *)
  recordScan : Z -> Z -> Z -> Env -> Outcome unit * Env;
  (** [notifyMultipleNewIssues(issues)] *)
  notifyMultipleNewIssues : list Db.DbIssue -> Env -> Outcome unit * Env;
  (** [notifyScanComplete(stats)] *)
  notifyScanComplete : ScanResult -> Env -> Outcome unit * Env;
  (** [notifyError(message)] *)
  notifyError : string -> Env -> Outcome unit * Env
}.

Section Scanning.
Context {Env : Type} {runtime : Runtime Env} {scanning : ScanServices Env}.

(** The [issueData] built for one issue of a repository. *)
Definition issueDataOf (repo : Repository) (issue : Issue) : DbWrite.GitHubIssueData :=
  {| DbWrite.data_github_id := issue_id issue;
     DbWrite.data_repo_name := repo_short_name repo;
     DbWrite.data_issue_number := issue_num issue;
     DbWrite.data_title := issue_title issue;
     DbWrite.data_body := issue_body issue;
     DbWrite.data_state := issue_state issue;
     DbWrite.data_html_url := issue_html_url issue;
     DbWrite.data_created_at := issue_created_at issue;
     DbWrite.data_updated_at := issue_updated_at issue |}.

(** The [INSERT] of [upsertIssue], once the engine carries it out. *)
Definition inserted (d : DbWrite.GitHubIssueData) : M (World Env) Z :=
  fun w =>
    let (r, table) := DbWrite.insertScanned (currentTime (env w)) (randomness (env w))
                                            d (issues w) in
    (r, {| issues := table; env := env w |}).

(** [upsertIssue(issue)] as a step of the process: a [SELECT], then an
    [UPDATE] or an [INSERT]. *)
Definition upsert (d : DbWrite.GitHubIssueData) : M (World Env) DbWrite.Upserted :=
  let* existing := query (DbWrite.existingId d) in
  match existing with
  | Some key =>
      let* _ := sql (DbWrite.updateScanned d) in
      ret {| DbWrite.isNew := false; DbWrite.upserted_id := key |}
  | None =>
      let* _ := call statement in
      let* key := inserted d in
      ret {| DbWrite.isNew := true; DbWrite.upserted_id := key |}
  end.

(** The inner loop: [for (const issue of issues) { ... }], with the
    counter [newIssuesCount] threaded through. *)
Fixpoint storeIssues (repo : Repository) (found : list Issue) (newIssuesCount : Z)
  : M (World Env) Z :=
  match found with
  | [] => ret newIssuesCount
  | issue :: rest =>
      let* r := upsert (issueDataOf repo issue) in
      let* count :=
        if DbWrite.isNew r
        then
          let* _ := log Info ("New issue found: " +++ repo_full_name repo +++ "#"
                              +++ JS.showInt (issue_num issue) +++ " - "
                              +++ issue_title issue) in
          ret (newIssuesCount + 1)
        else ret newIssuesCount in
      storeIssues repo rest count
  end.

(** The outer loop: [for (const repo of reposWithIssues) { ... }], with
    [totalIssues] and [newIssuesCount] threaded through. *)
Fixpoint scanRepos (repos : list Repository) (totalIssues newIssuesCount : Z)
  : M (World Env) (Z * Z) :=
  match repos with
  | [] => ret (totalIssues, newIssuesCount)
  | repo :: rest =>
      let* _ := log Debug ("Scanning " +++ repo_full_name repo +++ " for issues") in
      let* found := call (fetchRepoIssues (repo_owner repo) (repo_short_name repo)) in
      let* count := storeIssues repo found newIssuesCount in
      scanRepos rest (totalIssues + Z.of_nat (length found)) count
  end.

Definition scanAllRepos : M (World Env) ScanResult :=
  let* _ := log Info "Starting full repository scan" in
  let* repos := call fetchAllTargetRepos in
  let reposWithIssues := filter repo_has_issues repos in
  let* _ := log Info ("Scanning " +++ JS.showInt (Z.of_nat (length reposWithIssues))
                      +++ " repositories with issues enabled") in
  let* totals := scanRepos reposWithIssues 0 0 in
  let* _ := call (recordScan (Z.of_nat (length reposWithIssues)) (fst totals) (snd totals)) in
  let* _ := log Info ("Scan complete: " +++ JS.showInt (Z.of_nat (length reposWithIssues))
                      +++ " repos, " +++ JS.showInt (fst totals) +++ " issues, "
                      +++ JS.showInt (snd totals) +++ " new") in
  ret {| reposScanned := Z.of_nat (length reposWithIssues);
         issuesFound := fst totals;
         newIssues := snd totals |}.
End Scanning.

End Scan.

(** ** index.ts: [runScanCycle] *)

Module Cycle.

Import Effect Host Scan.
Local Open Scope effect_scope.

Section Cycling.
Variable toLocaleDateString : string -> string.
Variable extractFileReferences : string -> list string.
Context {unicode : Unicode} {Env : Type} {runtime : Runtime Env}
        {services : Services Env} {scanning : ScanServices Env}.

(** The [try] block of [runScanCycle]. *)
Definition scanAndProcess : M (World Env) unit :=
  let* scanResult := scanAllRepos in
  let* newIssues := query (Db.getIssuesByStatus Db.New) in
  let* _ := if (0 <? length newIssues)%nat
            then call (notifyMultipleNewIssues newIssues)
            else ret tt in
  let* _ := Daemon.processNewIssues toLocaleDateString extractFileReferences in
  let* _ := call (notifyScanComplete scanResult) in
  log Info "Scan cycle complete".

(** The [catch] block of [runScanCycle]. *)
Definition reportFailure (error : string) : M (World Env) unit :=
  let* _ := log Error ("Scan cycle failed: " +++ error) in
  call (notifyError ("Scan failed: " +++ error)).

Definition runScanCycle : M (World Env) unit :=
  let* _ := log Info "Starting scan cycle" in
  tryCatch scanAndProcess reportFailure.
End Cycling.

End Cycle.

(** ** Notions for the pass and the scan *)

Module PassSpec.

Import Host.

(** The path of the task brief of an issue. *)
Definition taskFilePathOf {Env : Type} {services : Services Env} (row : Db.DbIssue)
  : string :=
  Path.join tasksDir
            (Db.repo_name row +++ "-" +++ JS.showInt (Db.issue_number row) +++ ".md").

(** A change of rows that touches nothing the pass has recorded, nor
    what the first sighting has: the key, the forge's identifier, the
    repository and number, the address, the time of creation, the time of
    the first sighting, the status, the branch and the task brief.  The
    four columns left are the title, the body, the state and the time of
    the last update. *)
Definition keepsRecord (g : Db.DbIssue -> Db.DbIssue) : Prop :=
  forall row,
    Db.id (g row) = Db.id row
    /\ Db.github_id (g row) = Db.github_id row
    /\ Db.repo_name (g row) = Db.repo_name row
    /\ Db.issue_number (g row) = Db.issue_number row
    /\ Db.first_seen_at (g row) = Db.first_seen_at row
    /\ Db.status (g row) = Db.status row
    /\ Db.branch_name (g row) = Db.branch_name row
    /\ Db.task_file_path (g row) = Db.task_file_path row
    /\ Db.html_url (g row) = Db.html_url row
    /\ Db.created_at (g row) = Db.created_at row.

End PassSpec.

(** ** Concrete surroundings for a scan *)

Module ScanExamples.

Import Effect Host Scan.

Definition widgets : Repository :=
  {| repo_short_name := "widgets"; repo_full_name := "acme/widgets";
     repo_has_issues := true; repo_owner := "acme" |}.

Definition widgetsFork : Repository :=
  {| repo_short_name := "widgets"; repo_full_name := "other/widgets";
     repo_has_issues := true; repo_owner := "other" |}.

Definition forgeIssue (key num : Z) (text : string) : Issue :=
  {| issue_id := key; issue_num := num; issue_title := text; issue_body := None;
     issue_state := "open"; issue_html_url := "https://example.org/issue";
     issue_created_at := "2024-03-01T10:00:00Z";
     issue_updated_at := "2024-03-02T10:00:00Z" |}.

(** Two repositories of the same short name, each with an issue 7. *)
Definition twoForks : ScanServices unit := {|
  fetchAllTargetRepos := fun e => (Returned [widgets; widgetsFork], e);
  fetchRepoIssues := fun owner _ e =>
    if String.eqb owner "acme"
    then (Returned [forgeIssue 501 7 "Crash on start"], e)
    else (Returned [forgeIssue 902 7 "Typo in docs"], e);
  currentTime := fun _ => "2024-03-03 09:00:00";
  randomness := fun _ => [];
  recordScan := fun _ _ _ e => (Returned tt, e);
  notifyMultipleNewIssues := fun _ e => (Returned tt, e);
  notifyScanComplete := fun _ e => (Returned tt, e);
  notifyError := fun _ e => (Returned tt, e)
|}.

(** A forge with one repository that has issues, and one without. *)
Definition fineRepo : Repository :=
  {| repo_short_name := "fine-repo"; repo_full_name := "acme/fine-repo";
     repo_has_issues := true; repo_owner := "acme" |}.

Definition wikiOnly : Repository :=
  {| repo_short_name := "handbook"; repo_full_name := "acme/handbook";
     repo_has_issues := false; repo_owner := "acme" |}.

Definition fineForge : ScanServices unit := {|
  fetchAllTargetRepos := fun e => (Returned [fineRepo; wikiOnly], e);
  fetchRepoIssues := fun _ _ e =>
    (Returned [forgeIssue 1002 2 "Login fails again";
               forgeIssue 1003 3 "Logout button missing"], e);
  currentTime := fun _ => "2024-03-03 09:00:00";
  randomness := fun _ => [];
  recordScan := fun _ _ _ e => (Returned tt, e);
  notifyMultipleNewIssues := fun _ e => (Returned tt, e);
  notifyScanComplete := fun _ e => (Returned tt, e);
  notifyError := fun _ e => (Returned tt, e)
|}.

Definition emptyWorld : World unit := {| issues := []; env := tt |}.

End ScanExamples.

(** ** Notions for the scan *)

Module ScanSpec.

Import Effect Host PassSpec.

(** A row as an insert leaves it: new, with no branch and no brief. *)
Definition isFresh (row : Db.DbIssue) : Prop :=
  Db.status row = Db.New
  /\ Db.branch_name row = None
  /\ Db.task_file_path row = None.

(** The table [table'] is [table] with its rows changed by [g], a change
    that keeps what the pass has recorded, followed by fresh rows. *)
Definition grownFrom (table table' : Db.Table) : Prop :=
  exists g added,
    table' = map g table ++ added
    /\ keepsRecord g
    /\ Forall isFresh added.

(** The computation only lets the table grow in that way, whether it
    returns or throws, and keeps the keys distinct. *)
Definition Grows {Env A : Type} (c : M (World Env) A) : Prop :=
  forall w,
    grownFrom (issues w) (issues (snd (c w)))
    /\ (NoDup (map Db.id (issues w)) -> NoDup (map Db.id (issues (snd (c w))))).

End ScanSpec.

(** ** Notions for the pass and the cycle *)

Module CycleSpec.

Import Effect Host.

(** A row with its status, its branch and its task brief replaced. *)
Definition withProgress (s : Db.IssueStatus) (branch path : option string)
           (row : Db.DbIssue) : Db.DbIssue :=
  {| Db.id := Db.id row; Db.github_id := Db.github_id row;
     Db.repo_name := Db.repo_name row; Db.issue_number := Db.issue_number row;
     Db.title := Db.title row; Db.body := Db.body row; Db.state := Db.state row;
     Db.html_url := Db.html_url row; Db.created_at := Db.created_at row;
     Db.updated_at := Db.updated_at row; Db.first_seen_at := Db.first_seen_at row;
     Db.status := s; Db.branch_name := branch; Db.task_file_path := path |}.

(** A change of rows that changes nothing but the status, the branch
    and the task brief. *)
Definition onlyProgress (g : Db.DbIssue -> Db.DbIssue) : Prop :=
  forall row,
    g row = withProgress (Db.status (g row)) (Db.branch_name (g row))
                         (Db.task_file_path (g row)) row.

(** The three updates of a pass that prepares an issue, on one row. *)
Definition prepare {unicode : Unicode} {Env : Type} {services : Services Env}
           (issue row : Db.DbIssue) : Db.DbIssue :=
  Db.withStatus Db.Ready
    (Db.withTaskFile (PassSpec.taskFilePathOf issue)
       (Db.withBranch (GitOps.branchNameOf issue) row)).

(** The changes a pass may have made to the row of an issue while it
    prepares it: none, the branch, the branch and the brief, all
    three. *)
Definition stages {unicode : Unicode} {Env : Type} {services : Services Env}
           (issue : Db.DbIssue) : list (Db.DbIssue -> Db.DbIssue) :=
  [ (fun row => row);
    Db.withBranch (GitOps.branchNameOf issue);
    (fun row => Db.withTaskFile (PassSpec.taskFilePathOf issue)
                  (Db.withBranch (GitOps.branchNameOf issue) row));
    prepare issue ].

(** A change, and then the status skipped. *)
Definition thenSkipped (change : Db.DbIssue -> Db.DbIssue) (row : Db.DbIssue)
  : Db.DbIssue :=
  Db.withStatus Db.Skipped (change row).

(** [table'] is [table] with the rows of [key] changed by one of
    [changes]. *)
Definition changedBy (key : Z) (changes : list (Db.DbIssue -> Db.DbIssue))
           (table table' : Db.Table) : Prop :=
  exists change,
    In change changes /\ table' = map (TableSpec.onKey key change) table.

(** A change of rows that keeps what identifies an issue. *)
Definition keepsIdentity (g : Db.DbIssue -> Db.DbIssue) : Prop :=
  forall row,
    Db.id (g row) = Db.id row
    /\ Db.github_id (g row) = Db.github_id row
    /\ Db.repo_name (g row) = Db.repo_name row
    /\ Db.issue_number (g row) = Db.issue_number row
    /\ Db.first_seen_at (g row) = Db.first_seen_at row.

(** A change of rows that keeps the status, the branch and the task
    brief of the rows of [table] that are not new. *)
Definition keepsSettled (table : Db.Table) (g : Db.DbIssue -> Db.DbIssue) : Prop :=
  forall row,
    In row table -> Db.status row <> Db.New ->
    Db.status (g row) = Db.status row
    /\ Db.branch_name (g row) = Db.branch_name row
    /\ Db.task_file_path (g row) = Db.task_file_path row.

(** [table'] is [table], with every issue still identified as before and
    the settled issues as they were, followed by further rows. *)
Definition advancedFrom (table table' : Db.Table) : Prop :=
  exists g added,
    table' = map g table ++ added
    /\ keepsIdentity g
    /\ keepsSettled table g.

End CycleSpec.

(* ================================================================== *)
(** * utils/config.ts: the configured repositories                     *)
(* ================================================================== *)

Module Config.

Import Effect.

(** [parseRepoString(repoStr)] *)
Definition parseRepoString (repoStr : string) : Outcome (string * string) :=
  match JS.split "/" repoStr with
  | [owner; repo] => Returned (owner, repo)
  | _ => Thrown ("Error: Invalid repository format: " +++ repoStr
                 +++ ". Expected: owner/repo")
  end.

(** [merged.targets.repositories.map(parseRepoString)]: the first
    string that does not parse ends the call. *)
Fixpoint parseRepositories (repoStrs : list string) : Outcome (list (string * string)) :=
  match repoStrs with
  | [] => Returned []
  | repoStr :: rest =>
      match parseRepoString repoStr with
      | Thrown e => Thrown e
      | Returned target =>
          match parseRepositories rest with
          | Thrown e => Thrown e
          | Returned targets => Returned (target :: targets)
          end
      end
  end.

(** [`${r.owner}/${r.repo}`] *)
Definition repoString (target : string * string) : string :=
  fst target +++ "/" +++ snd target.

(** [getTargetSummary()] of services/github.ts, for the organizations
    and repositories of the configuration. *)
Definition getTargetSummary (organizations : list string)
           (repositories : list (string * string)) : string :=
  let parts :=
    (if (0 <? length organizations)%nat
     then ["Organizations: " +++ JS.join ", " organizations] else [])
    ++ (if (0 <? length repositories)%nat
        then ["Repositories: " +++ JS.join ", " (map repoString repositories)] else []) in
  JS.join (String "010" "") parts.

End Config.

(* ================================================================== *)
(** * services/notifier.ts: the notice of several new issues           *)
(* ================================================================== *)

Module Notifier.

Inductive NotificationType : Type :=
| NewIssueNotice | IssueReadyNotice | ScanCompleteNotice | ErrorNotice.

(** The argument of [notify]. *)
Record NotificationOptions := {
  notice_title : string;
  notice_message : string;
  notice_type : NotificationType
}.

(** [`#${i.issue_number}: ${i.title}`] *)
Definition issueLine (issue : Db.DbIssue) : string :=
  "#" +++ JS.showInt (Db.issue_number issue) +++ ": " +++ Db.title issue.

(** What [notifyNewIssue(issue)] passes to [notify]. *)
Definition newIssueNotice (issue : Db.DbIssue) : NotificationOptions :=
  {| notice_title := "New Issue in " +++ Db.repo_name issue;
     notice_message := issueLine issue;
     notice_type := NewIssueNotice |}.

(** A [Map<string, DbIssue[]>]: its entries, in the order in which
    their keys were first set. *)
Definition Groups : Type := list (string * list Db.DbIssue).

(** [byRepo.get(key)] *)
Fixpoint mapGet (key : string) (byRepo : Groups) : option (list Db.DbIssue) :=
  match byRepo with
  | [] => None
  | (k, v) :: rest => if String.eqb k key then Some v else mapGet key rest
  end.

(** [byRepo.set(key, value)]: a key already set keeps its place. *)
Fixpoint mapSet (key : string) (value : list Db.DbIssue) (byRepo : Groups) : Groups :=
  match byRepo with
  | [] => [(key, value)]
  | (k, v) :: rest =>
      if String.eqb k key then (k, value) :: rest
      else (k, v) :: mapSet key value rest
  end.

(** The body of [for (const issue of issues)]. *)
Definition addToGroup (byRepo : Groups) (issue : Db.DbIssue) : Groups :=
  let existing := match mapGet (Db.repo_name issue) byRepo with
                  | Some found => found
                  | None => []
                  end in
  mapSet (Db.repo_name issue) (existing ++ [issue]) byRepo.

Definition groupByRepo (issues : list Db.DbIssue) : Groups :=
  fold_left addToGroup issues [].

(** [`${repo}: ${n} issue${n > 1 ? 's' : ''}`] *)
Definition repoLine (entry : string * list Db.DbIssue) : string :=
  fst entry +++ ": " +++ JS.showNat (length (snd entry)) +++ " issue"
  +++ (if (1 <? length (snd entry))%nat then "s" else "").

(** The notice for the issues of one repository. *)
Definition oneRepoNotice (repoName : string) (repoIssues : list Db.DbIssue)
  : NotificationOptions :=
  {| notice_title := JS.showNat (length repoIssues) +++ " New Issues in " +++ repoName;
     notice_message :=
       JS.join (String "010" "") (firstn 3 (map issueLine repoIssues))
       +++ (if (3 <? length repoIssues)%nat
            then String "010" "" +++ "...and "
                 +++ JS.showNat (length repoIssues - 3) +++ " more"
            else "");
     notice_type := NewIssueNotice |}.

(** The notice for the issues of several repositories. *)
Definition manyReposNotice (total : nat) (byRepo : Groups) : NotificationOptions :=
  {| notice_title := JS.showNat total +++ " New Issues Found";
     notice_message := JS.join (String "010" "") (firstn 4 (map repoLine byRepo));
     notice_type := NewIssueNotice |}.

(** What [notifyMultipleNewIssues(issues)] passes to [notify], if it
    calls it. *)
Definition notifyMultipleNewIssues (issues : list Db.DbIssue)
  : option NotificationOptions :=
  match issues with
  | [] => None
  | [issue] => Some (newIssueNotice issue)
  | _ =>
      let byRepo := groupByRepo issues in
      match byRepo with
      | [(repoName, repoIssues)] => Some (oneRepoNotice repoName repoIssues)
      | _ => Some (manyReposNotice (length issues) byRepo)
      end
  end.

End Notifier.

(** ** The grouping, said without the loop *)

Module NotifierSpec.

(** The issues of one repository, in the order given. *)
Definition issuesOf (repo : string) (issues : list Db.DbIssue) : list Db.DbIssue :=
  filter (fun issue => String.eqb (Db.repo_name issue) repo) issues.

(** One group for each repository name, in the order of first
    occurrence, with the issues of that repository in the order given. *)
Definition groupsOf (issues : list Db.DbIssue) : Notifier.Groups :=
  map (fun repo => (repo, issuesOf repo issues))
      (JS.unique (map Db.repo_name issues)).

End NotifierSpec.

(* ================================================================== *)
(** * services/github.ts: the repositories to monitor                  *)
(* ================================================================== *)

Module Targets.

Import Effect Scan.
Local Open Scope effect_scope.

(** The two calls of the forge that [fetchAllTargetRepos] makes.  They
    reach the forge and the [repositories] table, not the [issues]
    table. *)
Class ForgeServices (Env : Type) := {
  (** [fetchOrgRepos(orgName)] *)
  fetchOrgRepos : string -> Env -> Outcome (list Repository) * Env;
  (** [fetchRepo(owner, repo)], [None] for [null] *)
  fetchRepo : string -> string -> Env -> Outcome (option Repository) * Env
}.

Section Fetching.
Context {Env : Type} {runtime : Host.Runtime Env} {forge : ForgeServices Env}.

(** [r => r.full_name === repository.full_name] *)
Definition sameFullName (repository r : Repository) : bool :=
  String.eqb (repo_full_name r) (repo_full_name repository).

(** The body of the loop over the organizations. *)
Definition addOrganization (org : string) (allRepos : list Repository)
  : M Env (list Repository) :=
  tryCatch (let* repos := fetchOrgRepos org in ret (allRepos ++ repos))
           (fun _ =>
              let* _ := Host.logger Host.Error
                          ("Failed to fetch org " +++ org +++ ", skipping...") in
              ret allRepos).

Fixpoint addOrganizations (organizations : list string) (allRepos : list Repository)
  : M Env (list Repository) :=
  match organizations with
  | [] => ret allRepos
  | org :: rest =>
      let* next := addOrganization org allRepos in
      addOrganizations rest next
  end.

(** The body of the loop over the single repositories. *)
Definition addRepository (target : string * string) (allRepos : list Repository)
  : M Env (list Repository) :=
  tryCatch (let* repository := fetchRepo (fst target) (snd target) in
            match repository with
            | Some found =>
                if existsb (sameFullName found) allRepos
                then ret allRepos
                else ret (allRepos ++ [found])
            | None => ret allRepos
            end)
           (fun _ =>
              let* _ := Host.logger Host.Error
                          ("Failed to fetch repo " +++ fst target +++ "/" +++ snd target
                           +++ ", skipping...") in
              ret allRepos).

Fixpoint addRepositories (repositories : list (string * string))
         (allRepos : list Repository) : M Env (list Repository) :=
  match repositories with
  | [] => ret allRepos
  | target :: rest =>
      let* next := addRepository target allRepos in
      addRepositories rest next
  end.

(** [fetchAllTargetRepos()], for the organizations and repositories of
    the configuration. *)
Definition fetchAllTargetRepos (organizations : list string)
           (repositories : list (string * string)) : M Env (list Repository) :=
  let* fromOrganizations := addOrganizations organizations [] in
  let* allRepos := addRepositories repositories fromOrganizations in
  let* _ := Host.logger Host.Info
              ("Total repositories to monitor: "
               +++ JS.showInt (Z.of_nat (length allRepos))) in
  ret allRepos.
End Fetching.

End Targets.

(** ** A forge with a repository and its fork *)

Module TargetExamples.

Import Effect Scan Targets ScanExamples.

(** The organization lists [acme/widgets]; the fork [other/widgets] and
    [acme/widgets] are also configured one by one; any other
    organization fails. *)
Definition forkedForge : ForgeServices unit := {|
  fetchOrgRepos := fun org e =>
    if String.eqb org "acme" then (Returned [widgets], e)
    else (Thrown "HttpError: Not Found", e);
  fetchRepo := fun owner _ e =>
    if String.eqb owner "acme" then (Returned (Some widgets), e)
    else if String.eqb owner "other" then (Returned (Some widgetsFork), e)
    else (Returned None, e)
|}.

End TargetExamples.

(* ================================================================== *)
(** * init.ts: the comma-separated answers of the setup wizard         *)
(* ================================================================== *)

Module Init.

(** [s.trimStart()], with the white space of the ASCII range. *)
Fixpoint trimStart (s : string) : string :=
  match s with
  | EmptyString => EmptyString
  | String c s' => if JS.isSpace c then trimStart s' else s
  end.

(** [s.trimEnd()] *)
Fixpoint trimEnd (s : string) : string :=
  match s with
  | EmptyString => EmptyString
  | String c s' =>
      match trimEnd s' with
      | EmptyString => if JS.isSpace c then EmptyString else String c EmptyString
      | rest => String c rest
      end
  end.

(** [s.trim()] *)
Definition trim (s : string) : string := trimEnd (trimStart s).

(** [answer ? answer.split(',').map(o => o.trim()).filter(Boolean) : []]
    of [buildConfig]: the empty answer is falsy. *)
Definition commaList (answer : string) : list string :=
  if String.eqb answer "" then []
  else filter (fun o => negb (String.eqb o "")) (map trim (JS.split "," answer)).

End Init.

(** ** What a clean entry of such a list is *)

Module InitSpec.

(** Not empty, without a comma, without white space at either end. *)
Definition clean (entry : string) : Prop :=
  entry <> "" /\ TextSpec.lacks "," entry = true /\ Init.trim entry = entry.

End InitSpec.

(* ================================================================== *)
(** * utils/config.ts: variables in the token                          *)
(* ================================================================== *)

Module Token.

(** The environment of the process: the variables that are set, and,
    for a name that [process.env] inherits from [Object.prototype]
    ([toString], [constructor], [valueOf], ...), the text that a
    replacement makes of the inherited value. *)
Record ProcessEnv := {
  variable : string -> option string;
  inheritedText : string -> option string
}.

(** [process.env[name]]: the variable of that name when it is set, else
    what the object inherits under that name, else [undefined]. *)
Definition lookup (env : ProcessEnv) (name : string) : option string :=
  match variable env name with
  | Some value => Some value
  | None => inheritedText env name
  end.

(** The run of characters other than a closing brace at the head of
    [s], and what follows the brace that ends it; [None] when no brace
    follows. *)
Fixpoint bracedName (s : string) : option (string * string) :=
  match s with
  | EmptyString => None
  | String c s' =>
      if Ascii.eqb c "}" then Some (EmptyString, s')
      else match bracedName s' with
           | Some (name, rest) => Some (String c name, rest)
           | None => None
           end
  end.

(** A match of [/\$\{([^}]+)\}/] at the head of [s]: the name captured
    and the text after the match. *)
Definition varAtHead (s : string) : option (string * string) :=
  match s with
  | String "$" (String "{" s') =>
      match bracedName s' with
      | Some (String c name, rest) => Some (String c name, rest)
      | _ => None
      end
  | _ => None
  end.

(** [value.replace(/\$\{([^}]+)\}/g, (_, varName) => process.env[varName] || '')]
    from left to right; [skip] counts the characters of the last match
    that are still to be passed over. *)
Fixpoint expandFrom (env : string -> option string) (s : string) (skip : nat) : string :=
  match s with
  | EmptyString => EmptyString
  | String c s' =>
      match skip with
      | S n => expandFrom env s' n
      | O =>
          match varAtHead s with
          | Some (name, _) =>
              JS.orElse (env name) "" +++ expandFrom env s' (String.length name + 2)
          | None => String c (expandFrom env s' 0)
          end
      end
  end.

(** [expandEnvVars(value)], in the environment [env]. *)
Definition expandEnvVars (env : ProcessEnv) (value : string) : string :=
  expandFrom (lookup env) value 0.

(** The token of [loadConfig]: the [github_token] of the file, expanded
    by [loadConfigFile] when it is truthy, else [GITHUB_TOKEN], else the
    empty string. *)
Definition githubToken (env : ProcessEnv) (fileToken : option string)
  : string :=
  let loaded :=
    match fileToken with
    | Some token => if String.eqb token "" then Some token
                    else Some (expandEnvVars env token)
    | None => None
    end in
  JS.orElse loaded (JS.orElse (lookup env "GITHUB_TOKEN") "").

(** An environment with [HOME] set and [EMPTY] set to the empty text,
    in a process whose [Object.prototype] is the engine's own. *)
Definition devEnv : ProcessEnv := {|
  variable := fun name =>
    if String.eqb name "HOME" then Some "/home/dev"
    else if String.eqb name "EMPTY" then Some ""
    else None;
  inheritedText := fun name =>
    if String.eqb name "toString" then Some "function toString() { [native code] }"
    else if String.eqb name "constructor" then Some "function Object() { [native code] }"
    else None
|}.

End Token.

(* ================================================================== *)
(** * Regular expressions with one capture group                       *)
(* ================================================================== *)

Module Capture.

(** One character of a class, greedy repetition of a class, the empty
    expression, sequence, ordered alternation, the start of a line (the
    [^] of a pattern with the [m] flag) and the capture group 1. *)
Inductive re : Type :=
| Chr (p : ascii -> bool)
| Plus (p : ascii -> bool)
| Eps
| Seq (r1 r2 : re)
| Alt (r1 r2 : re)
| LineStart
| Group (r : re).

(** Where the group matched: its offset from the start of the match,
    and its length. *)
Definition span : Type := option (nat * nat).

(** What follows a sub-match: the character before the current
    position, the rest of the input, the number of characters consumed
    and the group as captured so far. *)
Definition cont : Type := option ascii -> string -> nat -> span -> option (nat * span).

(** The position is at the start of the input or behind a line
    terminator. *)
Definition atLineStart (prev : option ascii) : bool :=
  match prev with
  | None => true
  | Some c => Ascii.eqb c "010" || Ascii.eqb c "013"
  end.

(** What remains of a greedy [p+] after its first character: take one
    more character when possible, fall back to stopping here when the
    rest of the pattern fails after it. *)
Fixpoint more (p : ascii -> bool) (k : cont)
         (prev : option ascii) (s : string) (n : nat) (g : span) : option (nat * span) :=
  match s with
  | String c s' =>
      if p c then
        match more p k (Some c) s' (S n) g with
        | Some r => Some r
        | None => k prev s n g
        end
      else k prev s n g
  | EmptyString => k prev s n g
  end.

(** Backtracking matcher anchored at the current position: the length
    of the first match in the engine's priority order and the span of
    the group, if there is a match. *)
Fixpoint exec (r : re) (k : cont)
         (prev : option ascii) (s : string) (n : nat) (g : span) : option (nat * span) :=
  match r with
  | Chr p =>
      match s with
      | String c s' => if p c then k (Some c) s' (S n) g else None
      | EmptyString => None
      end
  | Plus p =>
      match s with
      | String c s' => if p c then more p k (Some c) s' (S n) g else None
      | EmptyString => None
      end
  | Eps => k prev s n g
  | Seq r1 r2 => exec r1 (exec r2 k) prev s n g
  | Alt r1 r2 =>
      match exec r1 k prev s n g with
      | Some m => Some m
      | None => exec r2 k prev s n g
      end
  | LineStart => if atLineStart prev then k prev s n g else None
  | Group r1 =>
      exec r1 (fun prev' s' n' _ => k prev' s' n' (Some (n, n' - n)%nat)) prev s n g
  end.

Definition accept : cont := fun _ _ n g => Some (n, g).

(** The characters of a word, one after the other. *)
Fixpoint lit (w : string) : re :=
  match w with
  | EmptyString => Eps
  | String c w' => Seq (Chr (Ascii.eqb c)) (lit w')
  end.

(** The same for a lower-case word of a pattern with the [i] flag. *)
Fixpoint litI (w : string) : re :=
  match w with
  | EmptyString => Eps
  | String c w' => Seq (Chr (fun x => Ascii.eqb c (JS.lowerChar x))) (litI w')
  end.

(** [m[0]] and [m[1]] of a match found at the head of [s]. *)
Definition found (s : string) (m : nat * span) : string * option string :=
  (substring 0 (fst m) s,
   option_map (fun g => substring (fst g) (snd g) s) (snd m)).

(** [[...text.matchAll(r)]] for a global pattern: scan left to right;
    after a match resume at its end (one character further after an
    empty match).  [skip] counts the characters of the last match still
    to be passed over. *)
Fixpoint scan (r : re) (prev : option ascii) (s : string) (skip : nat)
  : list (string * option string) :=
  match s with
  | EmptyString =>
      match skip with
      | O => match exec r accept prev s 0 None with
             | Some m => [found s m]
             | None => []
             end
      | S _ => []
      end
  | String c s' =>
      match skip with
      | S j => scan r (Some c) s' j
      | O =>
          match exec r accept prev s 0 None with
          | Some m => found s m :: scan r (Some c) s' (Nat.pred (fst m))
          | None => scan r (Some c) s' 0
          end
      end
  end.

Definition matchAll (r : re) (text : string) : list (string * option string) :=
  scan r None text 0.

End Capture.

(* ================================================================== *)
(** * context-builder.ts: the file references of an issue text         *)
(* ================================================================== *)

Module FileRefs.

Import Capture.

(** [[a-zA-Z0-9_\-./]] *)
Definition pathChar (c : ascii) : bool :=
  JS.isLower c || JS.isUpper c || JS.isDigit c
  || Ascii.eqb c "_" || Ascii.eqb c "-" || Ascii.eqb c "." || Ascii.eqb c "/".

(** The back tick, the single quote and the double quote. *)
Definition anyQuote (c : ascii) : bool :=
  Ascii.eqb c "`" || Ascii.eqb c "'" || Ascii.eqb c "034".

(** [[`']] *)
Definition tickOrQuote (c : ascii) : bool :=
  Ascii.eqb c "`" || Ascii.eqb c "'".

(** [(ts|js|tsx|jsx|rs|py|go|md|json|yaml|yml|toml)], in this order.
    It is the second group of its pattern; nothing reads what it
    captures. *)
Definition extension : re :=
  Alt (lit "ts") (Alt (lit "js") (Alt (lit "tsx") (Alt (lit "jsx")
  (Alt (lit "rs") (Alt (lit "py") (Alt (lit "go") (Alt (lit "md")
  (Alt (lit "json") (Alt (lit "yaml") (Alt (lit "yml") (lit "toml"))))))))))).

(** The first pattern: the start of a line or one character of white
    space or a quote, then the group [([a-zA-Z0-9_\-./]+\.(ts|js|...))];
    flags [g] and [m]. *)
Definition filePattern : re :=
  Seq (Alt LineStart (Chr (fun c => JS.isSpace c || anyQuote c)))
      (Group (Seq (Plus pathChar) (Seq (Chr (Ascii.eqb ".")) extension))).

(** [/(?:src|lib|packages?)\/[a-zA-Z0-9_\-./]+/g] *)
Definition rootPattern : re :=
  Seq (Alt (lit "src") (Alt (lit "lib")
                            (Seq (lit "package") (Alt (Chr (Ascii.eqb "s")) Eps))))
      (Seq (Chr (Ascii.eqb "/")) (Plus pathChar)).

(** [/(?:in|from|file|module)\s+[`']([a-zA-Z0-9_\-./]+)[`']/gi] *)
Definition quotedPattern : re :=
  Seq (Alt (litI "in") (Alt (litI "from") (Alt (litI "file") (litI "module"))))
      (Seq (Plus JS.isSpace)
           (Seq (Chr tickOrQuote) (Seq (Group (Plus pathChar)) (Chr tickOrQuote)))).

Definition patterns : list re := [filePattern; rootPattern; quotedPattern].

(** The [replace] of the quotes at the start and of those at the end
    by nothing. *)
Fixpoint dropLeadingQuotes (s : string) : string :=
  match s with
  | EmptyString => EmptyString
  | String c s' => if anyQuote c then dropLeadingQuotes s' else s
  end.

Fixpoint dropTrailingQuotes (s : string) : string :=
  match s with
  | EmptyString => EmptyString
  | String c s' =>
      match dropTrailingQuotes s' with
      | EmptyString => if anyQuote c then EmptyString else String c EmptyString
      | rest => String c rest
      end
  end.

Definition stripQuotes (s : string) : string :=
  dropTrailingQuotes (dropLeadingQuotes s).

(** [match[1] || match[0]] *)
Definition pick (m : string * option string) : string := JS.orElse (snd m) (fst m).

(** [if (file && !files.includes(file)) files.push(file.replace(...))] *)
Definition pushFile (files : list string) (file : string) : list string :=
  if negb (String.eqb file "") && negb (JS.has files file)
  then files ++ [stripQuotes file]
  else files.

(** The inner loop, for one pattern. *)
Definition collect (text : string) (files : list string) (pattern : re) : list string :=
  fold_left pushFile (map pick (matchAll pattern text)) files.

Definition extractFileReferences (text : string) : list string :=
  fold_left (collect text) patterns [].

End FileRefs.

(** ** What the expressions read *)

Module CaptureSpec.

Import Capture.

(** [Reads r prev n w g g']: with [prev] the character just before and
    [n] characters of the match already read, the expression [r] can
    read exactly [w]; the group was [g] before and is [g'] after. *)
Inductive Reads : re -> option ascii -> nat -> string -> span -> span -> Prop :=
| reads_chr (p : ascii -> bool) (prev : option ascii) (n : nat) (c : ascii) (g : span) :
    p c = true -> Reads (Chr p) prev n (String c "") g g
| reads_plus (p : ascii -> bool) (prev : option ascii) (n : nat) (c : ascii)
             (w : string) (g : span) :
    p c = true -> TextSpec.allChars p w = true ->
    Reads (Plus p) prev n (String c w) g g
| reads_eps (prev : option ascii) (n : nat) (g : span) :
    Reads Eps prev n "" g g
| reads_seq (r1 r2 : re) (prev : option ascii) (n : nat) (w1 w2 : string)
            (g g1 g2 : span) :
    Reads r1 prev n w1 g g1 ->
    Reads r2 (RegexSpec.lastOf prev w1) (n + String.length w1) w2 g1 g2 ->
    Reads (Seq r1 r2) prev n (w1 +++ w2) g g2
| reads_alt_left (r1 r2 : re) (prev : option ascii) (n : nat) (w : string)
                 (g g' : span) :
    Reads r1 prev n w g g' -> Reads (Alt r1 r2) prev n w g g'
| reads_alt_right (r1 r2 : re) (prev : option ascii) (n : nat) (w : string)
                  (g g' : span) :
    Reads r2 prev n w g g' -> Reads (Alt r1 r2) prev n w g g'
| reads_line_start (prev : option ascii) (n : nat) (g : span) :
    atLineStart prev = true -> Reads LineStart prev n "" g g
| reads_group (r : re) (prev : option ascii) (n : nat) (w : string) (g g' : span) :
    Reads r prev n w g g' ->
    Reads (Group r) prev n w g (Some (n, String.length w)).

(** The characters an expression can read. *)
Fixpoint alphabet (r : re) (c : ascii) : bool :=
  match r with
  | Chr p | Plus p => p c
  | Eps | LineStart => false
  | Seq r1 r2 | Alt r1 r2 => alphabet r1 c || alphabet r2 c
  | Group r1 => alphabet r1 c
  end.

(** The expression holds no group. *)
Fixpoint groupFree (r : re) : bool :=
  match r with
  | Chr _ | Plus _ | Eps | LineStart => true
  | Seq r1 r2 | Alt r1 r2 => groupFree r1 && groupFree r2
  | Group _ => false
  end.

(** A lower bound on the length of the words the expression reads. *)
Fixpoint minLength (r : re) : nat :=
  match r with
  | Chr _ | Plus _ => 1
  | Eps | LineStart => 0
  | Seq r1 r2 => minLength r1 + minLength r2
  | Alt r1 r2 => Nat.min (minLength r1) (minLength r2)
  | Group r1 => minLength r1
  end.

(** The extensions that [FileRefs.extension] can end a match with. *)
Definition reachedExtensions : list string :=
  ["ts"; "js"; "rs"; "py"; "go"; "md"; "yaml"; "yml"; "toml"].

(** Ordered alternatives of words. *)
Fixpoint words (w : string) (ws : list string) : re :=
  match ws with
  | [] => lit w
  | w' :: ws' => Alt (lit w) (words w' ws')
  end.

(** [file] stands in [text]. *)
Definition occursIn (file text : string) : Prop :=
  exists pre post, text = pre +++ file +++ post.

(** The loop of [extractFileReferences] without the removal of quotes. *)
Definition pushPlain (files : list string) (file : string) : list string :=
  if negb (String.eqb file "") && negb (JS.has files file)
  then files ++ [file]
  else files.

Definition extractWithoutStrip (text : string) : list string :=
  fold_left (fun files pattern =>
               fold_left pushPlain (map FileRefs.pick (matchAll pattern text)) files)
            FileRefs.patterns [].

(** A path token that stands in the text. *)
Definition tokenOf (text file : string) : Prop :=
  file <> "" /\ TextSpec.allChars FileRefs.pathChar file = true /\ occursIn file text.

End CaptureSpec.

(** ** The text of a task brief *)

Module BriefSpec.






End BriefSpec.

(* ================================================================== *)
(** * Facts about the built-ins                                        *)
(* ================================================================== *)

Module JSFacts.

Import JS.

Lemma slice0_nonneg {A : Type} (xs : list A) (e : Z) :
  0 <= e -> slice0 xs e = firstn (Z.to_nat e) xs.
Proof.
  intros He. unfold slice0.
  destruct (e <? 0) eqn:Hneg; [apply Z.ltb_lt in Hneg; lia|].
  destruct (Z.le_ge_cases e (Z.of_nat (length xs))) as [Hle | Hge].
  - now rewrite Z.min_l.
  - rewrite Z.min_r by assumption.
    rewrite Nat2Z.id, firstn_all.
    symmetry. apply firstn_all2. lia.
Qed.

Lemma slice0_prefix {A : Type} (xs : list A) (e : Z) :
  exists rest, xs = slice0 xs e ++ rest.
Proof.
  unfold slice0. eexists. symmetry. apply firstn_skipn.
Qed.

Lemma slice0_length {A : Type} (xs : list A) (e : Z) :
  0 <= e -> Z.of_nat (length (slice0 xs e)) <= e.
Proof.
  intros He. rewrite slice0_nonneg by assumption.
  rewrite length_firstn. lia.
Qed.

Lemma slice0_all {A : Type} (xs : list A) (e : Z) :
  Z.of_nat (length xs) <= e -> slice0 xs e = xs.
Proof.
  intros Hle. rewrite slice0_nonneg by lia.
  apply firstn_all2. lia.
Qed.

Lemma slice0_In {A : Type} (xs : list A) (e : Z) (x : A) :
  In x (slice0 xs e) -> In x xs.
Proof.
  destruct (slice0_prefix xs e) as [rest Hrest].
  intros Hin. rewrite Hrest. apply in_or_app. now left.
Qed.

Lemma slice0_twenty (xs : list string) : slice0 xs 20 = firstn 20 xs.
Proof. now rewrite slice0_nonneg by lia. Qed.

Section SortFacts.
Context {A : Type} (cmp : A -> A -> Z).

Lemma insert_perm (x : A) (l : list A) : Permutation (insert cmp x l) (x :: l).
Proof.
  induction l as [| y rest IH]; simpl.
  - apply Permutation_refl.
  - destruct (cmp x y <=? 0).
    + apply Permutation_refl.
    + eapply perm_trans; [apply perm_skip, IH | apply perm_swap].
Qed.

Lemma sort_perm (l : list A) : Permutation (sort cmp l) l.
Proof.
  induction l as [| x rest IH]; simpl.
  - apply perm_nil.
  - eapply perm_trans; [apply insert_perm | now apply perm_skip].
Qed.

Lemma sort_In (l : list A) (x : A) : In x (sort cmp l) <-> In x l.
Proof.
  split; apply Permutation_in;
    [apply sort_perm | apply Permutation_sym, sort_perm].
Qed.

Lemma sort_length (l : list A) : length (sort cmp l) = length l.
Proof. apply Permutation_length, sort_perm. Qed.

(** The comparator orders by a key, greater keys first. *)
Variable key : A -> Z.
Hypothesis cmp_key : forall a b, cmp a b = key b - key a.

Lemma insert_sorted (x : A) (l : list A) :
  StronglySorted (fun a b => key b <= key a) l ->
  StronglySorted (fun a b => key b <= key a) (insert cmp x l).
Proof.
  induction 1 as [| y rest Hrest IH Hy]; simpl.
  - constructor; constructor.
  - destruct (cmp x y <=? 0) eqn:Hc.
    + apply Z.leb_le in Hc. rewrite cmp_key in Hc.
      constructor; [now constructor|].
      constructor; [lia|].
      eapply Forall_impl; [|exact Hy]. simpl. intros; lia.
    + apply Z.leb_gt in Hc. rewrite cmp_key in Hc.
      constructor; [exact IH|].
      eapply Permutation_Forall; [apply Permutation_sym, insert_perm|].
      constructor; [lia | exact Hy].
Qed.

Lemma sort_sorted (l : list A) :
  StronglySorted (fun a b => key b <= key a) (sort cmp l).
Proof.
  induction l as [| x rest IH]; simpl.
  - constructor.
  - now apply insert_sorted.
Qed.

(** Stability: the elements of one key keep their order. *)
Lemma insert_stable (k : Z) (x : A) (l : list A) :
  filter (fun a => key a =? k) (insert cmp x l)
  = filter (fun a => key a =? k) (x :: l).
Proof.
  induction l as [| y rest IH]; [reflexivity|].
  simpl insert. destruct (cmp x y <=? 0) eqn:Hc; [reflexivity|].
  apply Z.leb_gt in Hc. rewrite cmp_key in Hc.
  change (filter (fun a => key a =? k) (y :: insert cmp x rest))
    with (if key y =? k then y :: filter (fun a => key a =? k) (insert cmp x rest)
          else filter (fun a => key a =? k) (insert cmp x rest)).
  rewrite IH. simpl.
  destruct (key y =? k) eqn:Hy; [|reflexivity].
  apply Z.eqb_eq in Hy.
  destruct (key x =? k) eqn:Hx; [apply Z.eqb_eq in Hx; lia | reflexivity].
Qed.

Lemma sort_stable (k : Z) (l : list A) :
  filter (fun a => key a =? k) (sort cmp l) = filter (fun a => key a =? k) l.
Proof.
  induction l as [| x rest IH]; [reflexivity|].
  simpl sort. rewrite insert_stable. simpl. now rewrite IH.
Qed.
(** Two lists in descending order of the key that agree, key by key,
    on the order of their elements are the same list: whichever stable
    sort the engine runs, it returns what [sort] returns. *)
Lemma sorted_stable_unique (l1 l2 : list A) :
  StronglySorted (fun a b => key b <= key a) l1 ->
  StronglySorted (fun a b => key b <= key a) l2 ->
  (forall k, filter (fun a => key a =? k) l1 = filter (fun a => key a =? k) l2) ->
  l1 = l2.
Proof.
  intros H1. revert l2.
  induction H1 as [| a t1 Hs1 IH Ha]; intros l2 H2 Hsame.
  - destruct l2 as [| b t2]; [reflexivity|].
    specialize (Hsame (key b)). simpl in Hsame.
    rewrite Z.eqb_refl in Hsame. discriminate.
  - destruct H2 as [| b t2 Hs2 Hb].
    { specialize (Hsame (key a)). simpl in Hsame.
      rewrite Z.eqb_refl in Hsame. discriminate. }
    assert (Hkey : key a = key b).
    { destruct (Z.eq_dec (key a) (key b)) as [Heq | Hne]; [exact Heq|].
      assert (Hle1 : key a <= key b).
      { pose proof (Hsame (key a)) as H. simpl in H.
        rewrite Z.eqb_refl in H.
        replace (key b =? key a) with false in H
          by (symmetry; apply Z.eqb_neq; congruence).
        assert (Hin : In a (filter (fun x => key x =? key a) t2))
          by (rewrite <- H; now left).
        apply filter_In in Hin. rewrite Forall_forall in Hb.
        now apply Hb. }
      assert (Hle2 : key b <= key a).
      { pose proof (Hsame (key b)) as H. simpl in H.
        rewrite Z.eqb_refl in H.
        replace (key a =? key b) with false in H by (symmetry; now apply Z.eqb_neq).
        assert (Hin : In b (filter (fun x => key x =? key b) t1))
          by (rewrite H; now left).
        apply filter_In in Hin. rewrite Forall_forall in Ha.
        now apply Ha. }
      lia. }
    assert (Hhead : a = b).
    { pose proof (Hsame (key a)) as H. simpl in H.
      rewrite <- Hkey, Z.eqb_refl in H. now injection H. }
    subst b. f_equal. apply IH; [exact Hs2|].
    intros k. specialize (Hsame k). simpl in Hsame.
    destruct (key a =? k); [now injection Hsame | exact Hsame].
Qed.

Lemma sort_unique (l out : list A) :
  StronglySorted (fun a b => key b <= key a) out ->
  (forall k, filter (fun a => key a =? k) out = filter (fun a => key a =? k) l) ->
  out = sort cmp l.
Proof.
  intros Hsorted Hstable.
  apply sorted_stable_unique; [exact Hsorted | apply sort_sorted |].
  intros k. now rewrite Hstable, sort_stable.
Qed.

End SortFacts.

Lemma filter_firstn_prefix {A : Type} (f : A -> bool) (n : nat) (l : list A) :
  exists rest, filter f l = filter f (firstn n l) ++ rest.
Proof.
  exists (filter f (skipn n l)).
  rewrite <- filter_app. now rewrite firstn_skipn.
Qed.

End JSFacts.

(* ================================================================== *)
(** * Facts about the scoring of one file                              *)
(* ================================================================== *)

Module ScoreFacts.

Import ContextBuilder WalkSpec.

Lemma checkRefs_score (fileRefs : list string) (rel name : string) (t : Tally) :
  fst (checkRefs fileRefs rel name t)
  = fst t + points (existsb (refHit rel name) fileRefs) 10.
Proof.
  induction fileRefs as [| ref rest IH]; simpl.
  - unfold points; simpl; lia.
  - unfold refHit at 1.
    destruct (JS.includes rel ref || JS.includes name ref); simpl.
    + reflexivity.
    + exact IH.
Qed.

Lemma checkKeywords_score (keywords : list string) (name : string) (t : Tally) :
  fst (checkKeywords keywords (JS.toLowerCase name) t)
  = fst t + points (existsb (keywordHit name) keywords) 3.
Proof.
  induction keywords as [| keyword rest IH]; simpl.
  - unfold points; simpl; lia.
  - unfold keywordHit at 1.
    destruct (JS.includes (JS.toLowerCase name) (JS.toLowerCase keyword)); simpl.
    + reflexivity.
    + exact IH.
Qed.

(** The score is the sum of the four rules. *)
Lemma scoreFile_score (fileRefs keywords : list string) (rel name : string) :
  fst (scoreFile fileRefs keywords rel name)
  = points (existsb (refHit rel name) fileRefs) 10
    + points (existsb (keywordHit name) (firstn 20 keywords)) 3
    + points (String.eqb name "README.md") 2
    + points (isEntryPoint name) 1.
Proof.
  unfold scoreFile. rewrite JSFacts.slice0_twenty.
  fold (isEntryPoint name).
  destruct (isEntryPoint name), (String.eqb name "README.md");
    unfold bump; simpl fst;
    rewrite ?checkKeywords_score, ?checkRefs_score; unfold points; simpl; lia.
Qed.

Lemma checkRefs_miss (fileRefs : list string) (rel name : string) (t : Tally) :
  existsb (refHit rel name) fileRefs = false ->
  checkRefs fileRefs rel name t = t.
Proof.
  induction fileRefs as [| ref rest IH]; simpl; intros H.
  - reflexivity.
  - apply orb_false_elim in H. destruct H as [Hhere Hrest].
    unfold refHit in Hhere. rewrite Hhere. now apply IH.
Qed.

Lemma checkKeywords_miss (keywords : list string) (name : string) (t : Tally) :
  existsb (keywordHit name) keywords = false ->
  checkKeywords keywords (JS.toLowerCase name) t = t.
Proof.
  induction keywords as [| keyword rest IH]; simpl; intros H.
  - reflexivity.
  - apply orb_false_elim in H. destruct H as [Hhere Hrest].
    unfold keywordHit in Hhere. rewrite Hhere. now apply IH.
Qed.

Lemma existsb_incl {A : Type} (f : A -> bool) (l1 l2 : list A) :
  incl l1 l2 -> existsb f l1 = true -> existsb f l2 = true.
Proof.
  intros Hincl H. apply existsb_exists in H. destruct H as [x [Hin Hx]].
  apply existsb_exists. exists x. split; [now apply Hincl | exact Hx].
Qed.

Lemma points_mono (h1 h2 : bool) (n : Z) :
  0 <= n -> (h1 = true -> h2 = true) -> points h1 n <= points h2 n.
Proof.
  intros Hn H. unfold points.
  destruct h1, h2; try lia; specialize (H eq_refl); discriminate.
Qed.

Lemma scoreFile_mono (refs1 refs2 kws1 kws2 : list string) (rel name : string) :
  incl refs1 refs2 ->
  incl (firstn 20 kws1) (firstn 20 kws2) ->
  fst (scoreFile refs1 kws1 rel name) <= fst (scoreFile refs2 kws2 rel name).
Proof.
  intros Hrefs Hkws. rewrite !scoreFile_score.
  pose proof (points_mono (existsb (refHit rel name) refs1)
                          (existsb (refHit rel name) refs2) 10 ltac:(lia)
                          (existsb_incl _ _ _ Hrefs)).
  pose proof (points_mono (existsb (keywordHit name) (firstn 20 kws1))
                          (existsb (keywordHit name) (firstn 20 kws2)) 3 ltac:(lia)
                          (existsb_incl _ _ _ Hkws)).
  lia.
Qed.

Lemma scoreFile_nonneg (fileRefs keywords : list string) (rel name : string) :
  0 <= fst (scoreFile fileRefs keywords rel name).
Proof.
  rewrite scoreFile_score. unfold points.
  destruct (existsb _ fileRefs), (existsb _ (firstn 20 keywords)),
    (String.eqb name "README.md"), (isEntryPoint name); lia.
Qed.

End ScoreFacts.

(* ================================================================== *)
(** * Facts about the directory walk                                   *)
(* ================================================================== *)

Module WalkFacts.

Import Fs ContextBuilder WalkSpec.

Section Equations.
Variables fileRefs keywords : list string.

Lemma walkEntry_file (dirRel : string) (depth : nat) (name : string)
      (results : list ScoredFile) :
  walkEntry fileRefs keywords dirRel depth (File name) results
  = if skipName name then results
    else if negb (JS.has codeExtensions (Path.extname name)) then results
         else pushScored (Path.relativeTo dirRel name)
                         (scoreFile fileRefs keywords (Path.relativeTo dirRel name) name)
                         results.
Proof. reflexivity. Qed.

Lemma walkEntry_directory (dirRel : string) (depth : nat) (name : string)
      (listing : option (list Dirent)) (results : list ScoredFile) :
  walkEntry fileRefs keywords dirRel depth (Directory name listing) results
  = if skipName name then results
    else walkDir fileRefs keywords listing (Path.relativeTo dirRel name)
                 (S depth) results.
Proof. reflexivity. Qed.

Lemma walkEntry_other (dirRel : string) (depth : nat) (name : string)
      (results : list ScoredFile) :
  walkEntry fileRefs keywords dirRel depth (Other name) results = results.
Proof. simpl. now destruct (skipName name). Qed.

(** A skipped name leaves [results] as it is, whatever the entry. *)
Lemma walkEntry_skipped (dirRel : string) (depth : nat) (entry : Dirent)
      (results : list ScoredFile) :
  skipName (entryName entry) = true ->
  walkEntry fileRefs keywords dirRel depth entry results = results.
Proof.
  intros Hskip. destruct entry as [name | name listing | name]; simpl in Hskip.
  - now rewrite walkEntry_file, Hskip.
  - now rewrite walkEntry_directory, Hskip.
  - apply walkEntry_other.
Qed.

Lemma pushScored_In (rel name : string) (results : list ScoredFile) (r : ScoredFile) :
  In r (pushScored rel (scoreFile fileRefs keywords rel name) results)
  <-> In r results
      \/ (0 < fst (scoreFile fileRefs keywords rel name)
          /\ r = scoredFile fileRefs keywords rel name).
Proof.
  unfold pushScored.
  destruct (0 <? fst (scoreFile fileRefs keywords rel name)) eqn:Hpos.
  - apply Z.ltb_lt in Hpos. rewrite in_app_iff. simpl. unfold scoredFile.
    split; intros [H | H]; auto.
    + destruct H as [H | []]. right. split; [exact Hpos | now symmetry].
    + destruct H as [_ H]. right. left. now symmetry.
  - apply Z.ltb_ge in Hpos. split; [now left|].
    intros [H | [H _]]; [exact H | lia].
Qed.

Lemma fold_left_In {A B : Type} (f : B -> list A -> list A) (Q : B -> A -> Prop)
      (es : list B) :
  Forall (fun e => forall acc r, In r (f e acc) <-> In r acc \/ Q e r) es ->
  forall acc r,
    In r (fold_left (fun acc e => f e acc) es acc)
    <-> In r acc \/ exists e, In e es /\ Q e r.
Proof.
  induction 1 as [| e es He Hes IH]; intros acc r; simpl.
  - split; [now left | intros [H | [e [[] _]]]; exact H].
  - rewrite IH, He. split.
    + intros [[H | H] | [e' [Hin H]]].
      * now left.
      * right. exists e. auto.
      * right. exists e'. auto.
    + intros [H | [e' [[Heq | Hin] H]]].
      * left. now left.
      * subst e'. left. now right.
      * right. exists e'. auto.
Qed.

(** What the loop body adds for one entry: the files it reaches that
    score above zero. *)
Lemma walkEntry_In (entry : Dirent) :
  forall (dirRel : string) (depth : nat) (results : list ScoredFile) (r : ScoredFile),
    In r (walkEntry fileRefs keywords dirRel depth entry results)
    <-> In r results
        \/ exists rel name,
            Reached dirRel depth entry rel name
            /\ 0 < fst (scoreFile fileRefs keywords rel name)
            /\ r = scoredFile fileRefs keywords rel name.
Proof.
  induction entry as [name | name | name | name entries IH] using Dirent_nested_ind;
    intros dirRel depth results r.
  - rewrite walkEntry_file.
    destruct (skipName name) eqn:Hskip;
      [| destruct (JS.has codeExtensions (Path.extname name)) eqn:Hext; simpl negb; cbv iota ].
    + split; [now left|]. intros [H | [rel [nm [Hr _]]]]; [exact H|].
      inversion Hr; subst. congruence.
    + rewrite pushScored_In. split.
      * intros [H | H]; [now left|]. right.
        exists (Path.relativeTo dirRel name), name.
        split; [now constructor | exact H].
      * intros [H | [rel [nm [Hr H]]]]; [now left|].
        inversion Hr; subst. now right.
    + split; [now left|]. intros [H | [rel [nm [Hr _]]]]; [exact H|].
      inversion Hr; subst. congruence.
  - rewrite walkEntry_other.
    split; [now left|]. intros [H | [rel [nm [Hr _]]]]; [exact H|].
    inversion Hr.
  - rewrite walkEntry_directory. unfold walkDir.
    assert (Hnone : forall rel nm, ~ Reached dirRel depth (Directory name None) rel nm)
      by (intros rel nm Hr; inversion Hr).
    destruct (skipName name), (5 <? S depth)%nat;
      (split; [now left|]; intros [H | [rel [nm [Hr _]]]];
       [exact H | now apply Hnone in Hr]).
  - rewrite walkEntry_directory. unfold walkDir.
    destruct (skipName name) eqn:Hskip.
    { split; [now left|]. intros [H | [rel [nm [Hr _]]]]; [exact H|].
      inversion Hr; subst. congruence. }
    destruct (5 <? S depth)%nat eqn:Hdeep.
    { apply Nat.ltb_lt in Hdeep.
      split; [now left|]. intros [H | [rel [nm [Hr _]]]]; [exact H|].
      inversion Hr; subst. lia. }
    apply Nat.ltb_ge in Hdeep.
    rewrite (fold_left_In
               (fun e acc => walkEntry fileRefs keywords (Path.relativeTo dirRel name)
                                       (S depth) e acc)
               (fun e r => exists rel nm,
                    Reached (Path.relativeTo dirRel name) (S depth) e rel nm
                    /\ 0 < fst (scoreFile fileRefs keywords rel nm)
                    /\ r = scoredFile fileRefs keywords rel nm)).
    + split.
      * intros [H | [e [Hin [rel [nm [Hr H]]]]]]; [now left|].
        right. exists rel, nm. split; [|exact H].
        now apply reached_below with (entry := e).
      * intros [H | [rel [nm [Hr H]]]]; [now left|].
        inversion Hr; subst. right.
        match goal with
        | Hin : In ?e entries |- _ => exists e; split; [exact Hin|]
        end.
        exists rel, nm. auto.
    + eapply Forall_impl; [|exact IH].
      intros e He acc r'. apply He.
Qed.

(** The results of the whole walk. *)
Lemma walkDir_root_In (root : option (list Dirent)) (r : ScoredFile) :
  In r (walkDir fileRefs keywords root "" 0 [])
  <-> exists rel name,
      Walked root rel name
      /\ 0 < fst (scoreFile fileRefs keywords rel name)
      /\ r = scoredFile fileRefs keywords rel name.
Proof.
  unfold walkDir, Walked. simpl.
  destruct root as [entries |].
  - rewrite (fold_left_In
               (fun e acc => walkEntry fileRefs keywords "" 0 e acc)
               (fun e r => exists rel nm,
                    Reached "" 0 e rel nm
                    /\ 0 < fst (scoreFile fileRefs keywords rel nm)
                    /\ r = scoredFile fileRefs keywords rel nm)).
    + split.
      * intros [[] | [e [Hin [rel [nm [Hr H]]]]]].
        exists rel, nm. split; [|exact H]. exists entries, e. auto.
      * intros [rel [nm [[es [e [Heq [Hin Hr]]]] H]]].
        injection Heq as <-. right. exists e. split; [exact Hin|].
        exists rel, nm. auto.
    + apply Forall_forall. intros e _ acc r'. apply walkEntry_In.
  - simpl. split; [intros [] |].
    intros [rel [nm [[es [e [Heq _]]] _]]]. discriminate.
Qed.
End Equations.

End WalkFacts.

(* ================================================================== *)
(** * Facts about the paths of the results                             *)
(* ================================================================== *)

Module PathFacts.

Import Fs ContextBuilder WalkSpec.

Lemma split_nonempty (c : ascii) (s : string) : JS.split c s <> [].
Proof.
  destruct s as [| d s']; simpl; [discriminate|].
  destruct (Ascii.eqb d c); [discriminate|].
  destruct (JS.split c s'); discriminate.
Qed.

Lemma includes_cons_false (d : ascii) (s : string) :
  JS.includes (String d s) "/" = false ->
  Ascii.eqb d "/" = false /\ JS.includes s "/" = false.
Proof.
  simpl. intros H. apply orb_false_elim in H. destruct H as [Hhead Htail].
  split; [|exact Htail].
  destruct (Ascii.eqb_spec d "/") as [-> | Hne]; [|reflexivity].
  destruct (ascii_dec "/" "/") as [_ | Hbad]; [|now elim Hbad].
  now destruct s.
Qed.

Lemma split_no_separator (name : string) :
  JS.includes name "/" = false -> JS.split "/" name = [name].
Proof.
  induction name as [| d s IH]; intros H; [reflexivity|].
  apply includes_cons_false in H. destruct H as [Hd Hs].
  simpl. rewrite Hd, (IH Hs). reflexivity.
Qed.

Lemma split_append (c : ascii) (a b : string) :
  JS.split c (a +++ String c b) = JS.split c a ++ JS.split c b.
Proof.
  induction a as [| d a IH]; simpl.
  - now rewrite Ascii.eqb_refl.
  - destruct (Ascii.eqb d c); [now rewrite IH|].
    rewrite IH. destruct (JS.split c a) eqn:E; [|reflexivity].
    now apply split_nonempty in E.
Qed.

Lemma relativeTo_components (dirRel name : string) :
  JS.includes name "/" = false ->
  passable name ->
  Forall passable (JS.split "/" dirRel) ->
  Forall passable (JS.split "/" (Path.relativeTo dirRel name))
  /\ last (JS.split "/" (Path.relativeTo dirRel name)) "" = name.
Proof.
  intros Hname Hpass Hdir. unfold Path.relativeTo.
  destruct (String.eqb dirRel "").
  - rewrite split_no_separator by assumption. split; [now constructor | reflexivity].
  - change (dirRel +++ "/" +++ name) with (dirRel +++ String "/" ("" +++ name)).
    simpl (_ +++ name). rewrite split_append, (split_no_separator name) by assumption.
    split.
    + apply Forall_app. split; [exact Hdir | now constructor].
    + apply last_last.
Qed.

Lemma wellNamed_name (entry : Dirent) :
  wellNamed entry = true -> JS.includes (entryName entry) "/" = false.
Proof.
  destruct entry as [name | name listing | name]; simpl; intros H;
    apply andb_prop in H; destruct H as [H _]; now apply negb_true_iff in H.
Qed.

Lemma wellNamed_entries (name : string) (entries : list Dirent) (entry : Dirent) :
  wellNamed (Directory name (Some entries)) = true ->
  In entry entries -> wellNamed entry = true.
Proof.
  simpl. intros H Hin. apply andb_prop in H. destruct H as [_ H].
  rewrite forallb_forall in H. now apply H.
Qed.

(** The path under which a file is reached is made of the names gone
    through, none of them skipped, and ends in the file's name. *)
Lemma Reached_components (dirRel : string) (depth : nat) (entry : Dirent)
      (rel name : string) :
  Reached dirRel depth entry rel name ->
  wellNamed entry = true ->
  Forall passable (JS.split "/" dirRel) ->
  Forall passable (JS.split "/" rel) /\ last (JS.split "/" rel) "" = name.
Proof.
  induction 1 as [dirRel depth name Hskip Hext
                 | dirRel depth sub entries entry rel name Hskip Hdepth Hin Hr IH];
    intros Hwf Hdir.
  - apply relativeTo_components;
      [exact (wellNamed_name _ Hwf) | exact Hskip | exact Hdir].
  - apply IH.
    + eapply wellNamed_entries; eassumption.
    + apply relativeTo_components;
        [exact (wellNamed_name _ Hwf) | exact Hskip | exact Hdir].
Qed.

Lemma Walked_components (root : option (list Dirent)) (rel name : string) :
  wellNamedTree root = true ->
  Walked root rel name ->
  Forall passable (JS.split "/" rel) /\ last (JS.split "/" rel) "" = name.
Proof.
  intros Hwf [entries [entry [-> [Hin Hr]]]].
  simpl in Hwf. rewrite forallb_forall in Hwf.
  eapply Reached_components; [exact Hr | now apply Hwf |].
  simpl. constructor; [reflexivity | constructor].
Qed.

Lemma Reached_not_skipped (dirRel : string) (depth : nat) (entry : Dirent)
      (rel name : string) :
  Reached dirRel depth entry rel name -> skipName name = false.
Proof. induction 1; assumption. Qed.

End PathFacts.

(* ================================================================== *)
(** * Facts about the ranking                                          *)
(* ================================================================== *)

Module RankFacts.

Import Fs ContextBuilder WalkSpec.

Lemma byScore_key (a b : ScoredFile) : byScore a b = score b - score a.
Proof. reflexivity. Qed.

Lemma ranked_In_results (root : option (list Dirent)) (fileRefs keywords : list string)
      (maxFiles : Z) (r : ScoredFile) :
  In r (rankedFiles root fileRefs keywords maxFiles) ->
  In r (walkDir fileRefs keywords root "" 0 []).
Proof.
  unfold rankedFiles. intros H.
  apply JSFacts.slice0_In in H. now apply JSFacts.sort_In in H.
Qed.

(** Every returned pair is a walked file with a positive score. *)
Lemma returned_is_walked (root : option (list Dirent)) (fileRefs keywords : list string)
      (maxFiles : Z) (p why : string) :
  In (p, why) (findRelevantFiles root fileRefs keywords maxFiles) ->
  exists name,
    Walked root p name
    /\ 0 < fst (scoreFile fileRefs keywords p name)
    /\ why = firstReason (snd (scoreFile fileRefs keywords p name)).
Proof.
  unfold findRelevantFiles. intros H.
  apply in_map_iff in H. destruct H as [r [Heq Hin]].
  apply ranked_In_results in Hin.
  apply WalkFacts.walkDir_root_In in Hin.
  destruct Hin as [rel [name [Hw [Hpos ->]]]].
  simpl in Heq. injection Heq as <- <-.
  exists name. auto.
Qed.

Lemma results_positive (root : option (list Dirent)) (fileRefs keywords : list string) :
  Forall (fun r => 0 < score r) (walkDir fileRefs keywords root "" 0 []).
Proof.
  apply Forall_forall. intros r Hin.
  apply WalkFacts.walkDir_root_In in Hin.
  destruct Hin as [rel [name [_ [Hpos ->]]]]. exact Hpos.
Qed.

(** If everything found fits, everything found is returned. *)
Lemma fits_then_returned (root : option (list Dirent)) (fileRefs keywords : list string)
      (maxFiles : Z) (r : ScoredFile) :
  Z.of_nat (length (walkDir fileRefs keywords root "" 0 [])) <= maxFiles ->
  In r (walkDir fileRefs keywords root "" 0 []) ->
  In (path r, reason r) (findRelevantFiles root fileRefs keywords maxFiles).
Proof.
  intros Hfit Hin. unfold findRelevantFiles, rankedFiles.
  rewrite JSFacts.slice0_all by (rewrite JSFacts.sort_length; exact Hfit).
  apply in_map_iff. exists r. split; [reflexivity|].
  now apply JSFacts.sort_In.
Qed.

(** Two elements in order in the filtered list are in order in the
    list itself. *)
Lemma filter_one {A : Type} (f : A -> bool) (l x w : list A) (a : A) :
  filter f l = x ++ a :: w ->
  exists m1 m2, l = m1 ++ a :: m2 /\ filter f m2 = w.
Proof.
  revert x. induction l as [| c l IH]; intros x H; simpl in H.
  - now destruct x.
  - destruct (f c).
    + destruct x as [| c' x']; simpl in H; injection H as Hc Hrest.
      * subst c. exists [], l. auto.
      * destruct (IH _ Hrest) as [m1 [m2 [-> Hm2]]].
        exists (c :: m1), m2. auto.
    + destruct (IH _ H) as [m1 [m2 [-> Hm2]]].
      exists (c :: m1), m2. auto.
Qed.

Lemma filter_two {A : Type} (f : A -> bool) (l x y z : list A) (a b : A) :
  filter f l = x ++ a :: y ++ b :: z ->
  exists m1 m2 m3, l = m1 ++ a :: m2 ++ b :: m3.
Proof.
  intros H. apply filter_one in H. destruct H as [m1 [m [-> Hm]]].
  apply filter_one in Hm. destruct Hm as [m2 [m3 [-> _]]].
  exists m1, m2, m3. reflexivity.
Qed.

Lemma sorted_prefix {A : Type} (R : A -> A -> Prop) (l1 l2 : list A) :
  StronglySorted R (l1 ++ l2) -> StronglySorted R l1.
Proof.
  induction l1 as [| a l1 IH]; simpl; intros H; [constructor|].
  inversion H as [| ? ? Hs Hall]; subst.
  constructor; [now apply IH|].
  apply Forall_app in Hall. tauto.
Qed.

End RankFacts.

(* ================================================================== *)
(** * Facts about the task brief                                       *)
(* ================================================================== *)

Module BriefFacts.

Import Fs ContextBuilder Effect Host BriefSpec.









End BriefFacts.

(* ================================================================== *)
(** * Facts about the pass over the new issues                         *)
(* ================================================================== *)

Module DaemonFacts.

Import Effect Host TableSpec CycleSpec.

Lemma updateWhereId_map (key : Z) (change : Db.DbIssue -> Db.DbIssue) (table : Db.Table) :
  Db.updateWhereId key change table = map (onKey key change) table.
Proof. reflexivity. Qed.

Lemma onKey_hit (key : Z) (change : Db.DbIssue -> Db.DbIssue) (row : Db.DbIssue) :
  Db.id row = key -> onKey key change row = change row.
Proof. intros H. unfold onKey. now rewrite (proj2 (Z.eqb_eq _ _) H). Qed.

Lemma onKey_miss (key : Z) (change : Db.DbIssue -> Db.DbIssue) (row : Db.DbIssue) :
  Db.id row <> key -> onKey key change row = row.
Proof. intros H. unfold onKey. now rewrite (proj2 (Z.eqb_neq _ _) H). Qed.

Lemma onKey_id (key : Z) (change : Db.DbIssue -> Db.DbIssue) (row : Db.DbIssue) :
  (forall r, Db.id (change r) = Db.id r) -> Db.id (onKey key change row) = Db.id row.
Proof. intros H. unfold onKey. destruct (Db.id row =? key); [apply H | reflexivity]. Qed.

Lemma onKey_twice (key : Z) (c1 c2 : Db.DbIssue -> Db.DbIssue) (row : Db.DbIssue) :
  (forall r, Db.id (c1 r) = Db.id r) ->
  onKey key c2 (onKey key c1 row) = onKey key (fun r => c2 (c1 r)) row.
Proof.
  intros Hid. unfold onKey. destruct (Db.id row =? key) eqn:E.
  - now rewrite Hid, E.
  - now rewrite E.
Qed.

Lemma map_onKey_same (key : Z) (table : Db.Table) :
  map (onKey key (fun r => r)) table = table.
Proof.
  rewrite <- (map_id table) at 2. apply map_ext. intros r. unfold onKey.
  now destruct (Db.id r =? key).
Qed.

Lemma map_onKey_twice (key : Z) (c1 c2 : Db.DbIssue -> Db.DbIssue) (table : Db.Table) :
  (forall r, Db.id (c1 r) = Db.id r) ->
  map (onKey key c2) (map (onKey key c1) table)
  = map (onKey key (fun r => c2 (c1 r))) table.
Proof.
  intros Hid. rewrite map_map. apply map_ext. intros r. now apply onKey_twice.
Qed.

Lemma onlyProgress_id : onlyProgress (fun row => row).
Proof. intros row. now destruct row. Qed.

Lemma onlyProgress_compose (g1 g2 : Db.DbIssue -> Db.DbIssue) :
  onlyProgress g1 -> onlyProgress g2 -> onlyProgress (fun row => g2 (g1 row)).
Proof.
  intros H1 H2 row. rewrite (H2 (g1 row)) at 1. now rewrite (H1 row) at 4.
Qed.

Lemma onlyProgress_onKey (key : Z) (change : Db.DbIssue -> Db.DbIssue) :
  onlyProgress change -> onlyProgress (onKey key change).
Proof.
  intros H row. unfold onKey. destruct (Db.id row =? key); [apply H | now destruct row].
Qed.

Lemma onlyProgress_identity (g : Db.DbIssue -> Db.DbIssue) :
  onlyProgress g -> keepsIdentity g.
Proof. intros H row. rewrite (H row). repeat split; reflexivity. Qed.

Lemma onlyProgress_key (g : Db.DbIssue -> Db.DbIssue) (row : Db.DbIssue) :
  onlyProgress g -> Db.id (g row) = Db.id row.
Proof. intros H. now rewrite (H row). Qed.

Lemma distinct_keys_same_row (table : Db.Table) (a b : Db.DbIssue) :
  NoDup (map Db.id table) -> In a table -> In b table -> Db.id a = Db.id b -> a = b.
Proof.
  induction table as [| row rows IH]; simpl; intros Hkeys Ha Hb Hid; [destruct Ha|].
  apply NoDup_cons_iff in Hkeys. destruct Hkeys as [Hfresh Hrows].
  destruct Ha as [<- | Ha], Hb as [<- | Hb]; [reflexivity | | | now apply IH].
  - elim Hfresh. rewrite Hid. now apply in_map.
  - elim Hfresh. rewrite <- Hid. now apply in_map.
Qed.

(** ** Numbers and rows *)

Lemma asNumber_small (z : Z) : Z.abs z <= 2 ^ 53 -> Db.asNumber z = z.
Proof.
  intros H. unfold Db.asNumber.
  now rewrite (proj2 (Z.leb_le _ _) H).
Qed.

Lemma selectByStatus_In (s : Db.IssueStatus) (table : Db.Table) (row : Db.DbIssue) :
  In row (Db.selectByStatus s table) <-> In row table /\ Db.status row = s.
Proof.
  unfold Db.selectByStatus. rewrite JSFacts.sort_In, filter_In.
  split; intros [Hin Hst]; (split; [exact Hin|]).
  - destruct (Db.status row), s; simpl in Hst; congruence.
  - rewrite Hst. now destruct s.
Qed.

(** On a table of exact rows the objects listed are the rows. *)
Lemma getIssuesByStatus_exact (s : Db.IssueStatus) (table : Db.Table) :
  Forall Db.exact table -> Db.getIssuesByStatus s table = Db.selectByStatus s table.
Proof.
  intros Hexact. unfold Db.getIssuesByStatus.
  rewrite <- (map_id (Db.selectByStatus s table)) at 2.
  apply map_ext_in. intros row Hin.
  apply selectByStatus_In in Hin. destruct Hin as [Hin _].
  rewrite Forall_forall in Hexact. now apply Hexact.
Qed.

Lemma getIssuesByStatus_In (s : Db.IssueStatus) (table : Db.Table) (row : Db.DbIssue) :
  Forall Db.exact table ->
  (In row (Db.getIssuesByStatus s table) <-> In row table /\ Db.status row = s).
Proof. intros H. rewrite (getIssuesByStatus_exact s table H). apply selectByStatus_In. Qed.



Lemma isExact_exact (table : Db.Table) :
  forallb Db.isExact table = true -> Forall Db.exact table.
Proof.
  intros H. apply Forall_forall. intros row Hin.
  rewrite forallb_forall in H. specialize (H row Hin). unfold Db.isExact in H.
  apply andb_prop in H. destruct H as [H Hnumber].
  apply andb_prop in H. destruct H as [Hid Hgithub].
  apply Z.eqb_eq in Hid, Hgithub, Hnumber.
  unfold Db.exact, Db.asObject. rewrite Hid, Hgithub, Hnumber. now destruct row.
Qed.

(** A change of rows that keeps what identifies an issue keeps exact
    rows exact, and was made on exact rows if it left exact rows. *)
Lemma exact_identity (g : Db.DbIssue -> Db.DbIssue) (row : Db.DbIssue) :
  onlyProgress g -> (Db.exact (g row) <-> Db.exact row).
Proof.
  intros Hg. unfold Db.exact. rewrite (Hg row).
  destruct row; unfold Db.asObject, withProgress; simpl. split; intros H.
  - injection H as H1 H2 H3. now rewrite H1, H2, H3.
  - injection H as H1 H2 H3. now rewrite H1, H2, H3.
Qed.

Lemma exact_map (g : Db.DbIssue -> Db.DbIssue) (table : Db.Table) :
  onlyProgress g -> (Forall Db.exact (map g table) <-> Forall Db.exact table).
Proof.
  intros Hg. rewrite !Forall_forall. split; intros H row Hin.
  - apply (exact_identity g row Hg). apply H. now apply in_map.
  - apply in_map_iff in Hin. destruct Hin as [r0 [<- Hin0]].
    apply (exact_identity g r0 Hg). now apply H.
Qed.

Section Rules.
Context {Env : Type} {runtime : Runtime Env}.

Lemma keeps_ret {A : Type} (a : A) : Keeps (Env := Env) (ret a).
Proof. intros w. reflexivity. Qed.

Lemma keeps_throw {A : Type} (error : string) : Keeps (Env := Env) (A := A) (throw error).
Proof. intros w. reflexivity. Qed.

Lemma keeps_call {A : Type} (op : Env -> Outcome A * Env) : Keeps (call op).
Proof. intros w. unfold call. now destruct (op (env w)). Qed.

Lemma keeps_observe {A : Type} (f : Env -> A) : Keeps (observe f).
Proof. intros w. reflexivity. Qed.

Lemma keeps_log (level : LogLevel) (message : string) : Keeps (log level message).
Proof. apply keeps_call. Qed.

Lemma keeps_bind {A B : Type} (c : M (World Env) A) (k : A -> M (World Env) B) :
  Keeps c -> (forall a, Keeps (k a)) -> Keeps (bind c k).
Proof.
  intros Hc Hk w. unfold bind. specialize (Hc w).
  destruct (c w) as [[a | e] w1]; simpl in Hc.
  - now rewrite Hk.
  - exact Hc.
Qed.

Lemma keeps_tryCatch {A : Type} (c : M (World Env) A) (handler : string -> M (World Env) A) :
  Keeps c -> (forall e, Keeps (handler e)) -> Keeps (tryCatch c handler).
Proof.
  intros Hc Hh w. unfold tryCatch. specialize (Hc w).
  destruct (c w) as [[a | e] w1]; simpl in Hc.
  - exact Hc.
  - now rewrite Hh.
Qed.

Lemma keeps_query {A : Type} (q : Db.Table -> A) : Keeps (query q).
Proof.
  unfold query. apply keeps_bind; [apply keeps_call | intros _ w; reflexivity].
Qed.

(** A statement is carried out, or it throws and changes nothing. *)
Lemma sql_cases (stmt : Db.Table -> Db.Table) (w : World Env) :
  (fst (sql stmt w) = Returned tt /\ issues (snd (sql stmt w)) = stmt (issues w))
  \/ ((exists e, fst (sql stmt w) = Thrown e) /\ issues (snd (sql stmt w)) = issues w).
Proof.
  unfold sql, bind, call, written.
  destruct (statement (env w)) as [[[] | e] e1]; cbn [fst snd issues].
  - now left.
  - right. split; [now exists e | reflexivity].
Qed.


Lemma triple_weaken {A : Type} (pre pre' : Db.Table -> Prop) (c : M (World Env) A)
      (during during' : Db.Table -> Prop) (done done' : A -> Db.Table -> Prop) :
  Triple pre c during done ->
  (forall t, pre' t -> pre t) ->
  (forall t, during t -> during' t) ->
  (forall a t, done a t -> done' a t) ->
  Triple pre' c during' done'.
Proof.
  intros Hc Hpre Hduring Hdone w Hw.
  destruct (Hc w (Hpre _ Hw)) as [H1 H2]. split; [now apply Hduring|].
  intros a Ha. now apply Hdone, H2.
Qed.

Lemma triple_keeps {A : Type} (t0 : Db.Table) (c : M (World Env) A)
      (during : Db.Table -> Prop) :
  Keeps c -> during t0 -> Triple (eq t0) c during (fun _ => eq t0).
Proof.
  intros Hc Hduring w Hw. rewrite (Hc w), <- Hw. split; [exact Hduring | reflexivity].
Qed.

Lemma triple_ret {A : Type} (t0 : Db.Table) (a : A) (during : Db.Table -> Prop)
      (done : A -> Db.Table -> Prop) :
  during t0 -> done a t0 -> Triple (Env := Env) (eq t0) (ret a) during done.
Proof.
  intros Hduring Hdone w Hw. cbn [ret fst snd]. rewrite <- Hw.
  split; [exact Hduring|]. intros a' Ha. injection Ha as <-. exact Hdone.
Qed.

Lemma triple_throw {A : Type} (t0 : Db.Table) (error : string)
      (during : Db.Table -> Prop) (done : A -> Db.Table -> Prop) :
  during t0 -> Triple (Env := Env) (eq t0) (throw error) during done.
Proof.
  intros Hduring w Hw. cbn [throw fst snd]. rewrite <- Hw.
  split; [exact Hduring | discriminate].
Qed.

Lemma triple_sql (t0 : Db.Table) (stmt : Db.Table -> Db.Table)
      (during : Db.Table -> Prop) :
  during t0 -> during (stmt t0) ->
  Triple (eq t0) (sql stmt) during (fun _ => eq (stmt t0)).
Proof.
  intros H0 H1 w Hw.
  destruct (sql_cases stmt w) as [[Hret Ht] | [[e Hthrown] Ht]]; rewrite Ht, <- Hw.
  - split; [exact H1 | reflexivity].
  - split; [exact H0|]. intros a Ha. rewrite Hthrown in Ha. discriminate.
Qed.

Lemma triple_bind {A B : Type} (pre : Db.Table -> Prop) (c : M (World Env) A)
      (k : A -> M (World Env) B) (during : Db.Table -> Prop)
      (mid : A -> Db.Table -> Prop) (done : B -> Db.Table -> Prop) :
  Triple pre c during mid ->
  (forall a, Triple (mid a) (k a) during done) ->
  Triple pre (bind c k) during done.
Proof.
  intros Hc Hk w Hw. unfold bind. destruct (Hc w Hw) as [Hduring Hmid].
  destruct (c w) as [[a | e] w1]; cbn [fst snd] in *.
  - apply Hk. now apply Hmid.
  - split; [exact Hduring | discriminate].
Qed.

Lemma triple_tryCatch {A : Type} (pre : Db.Table -> Prop) (c : M (World Env) A)
      (handler : string -> M (World Env) A) (mid during : Db.Table -> Prop)
      (done : A -> Db.Table -> Prop) :
  Triple pre c mid done ->
  (forall t, mid t -> during t) ->
  (forall e t, mid t -> Triple (eq t) (handler e) during done) ->
  Triple pre (tryCatch c handler) during done.
Proof.
  intros Hc Hmid Hh w Hw. unfold tryCatch. destruct (Hc w Hw) as [Hduring Hdone].
  destruct (c w) as [[a | e] w1]; cbn [fst snd] in *.
  - split; [now apply Hmid | exact Hdone].
  - now apply (Hh e (issues w1) Hduring w1).
Qed.

(** A step that keeps the table, before the rest. *)
Lemma triple_after {A B : Type} (t0 : Db.Table) (c : M (World Env) A)
      (k : A -> M (World Env) B) (during : Db.Table -> Prop)
      (done : B -> Db.Table -> Prop) :
  Keeps c -> during t0 ->
  (forall a, Triple (eq t0) (k a) during done) ->
  Triple (eq t0) (bind c k) during done.
Proof.
  intros Hc Hduring Hk.
  apply triple_bind with (mid := fun _ => eq t0); [|exact Hk].
  now apply triple_keeps.
Qed.

(** A statement, before the rest. *)
Lemma triple_after_sql {B : Type} (t0 : Db.Table) (stmt : Db.Table -> Db.Table)
      (k : unit -> M (World Env) B) (during : Db.Table -> Prop)
      (done : B -> Db.Table -> Prop) :
  during t0 -> during (stmt t0) ->
  (forall a, Triple (eq (stmt t0)) (k a) during done) ->
  Triple (eq t0) (bind (sql stmt) k) during done.
Proof.
  intros H0 H1 Hk.
  apply triple_bind with (mid := fun _ => eq (stmt t0)); [|exact Hk].
  now apply triple_sql.
Qed.
End Rules.


Ltac keeps :=
  repeat first [ apply keeps_query | apply keeps_log | apply keeps_call
               | apply keeps_observe | apply keeps_ret | apply keeps_throw
               | apply keeps_bind; [| intro]
               | apply keeps_tryCatch; [| intro] ].

Section Pass.
Variable toLocaleDateString : string -> string.
Variable extractFileReferences : string -> list string.
Context {unicode : Unicode} {Env : Type} {runtime : Runtime Env}
        {services : Services Env}.

Let prepareIssue := Daemon.prepareIssue toLocaleDateString extractFileReferences.
Let skipIssue := Daemon.skipIssue (Env := Env).
Let processIssue := Daemon.processIssue toLocaleDateString extractFileReferences.
Let forEachIssue := Daemon.forEachIssue toLocaleDateString extractFileReferences.
Let processNewIssues := Daemon.processNewIssues toLocaleDateString extractFileReferences.
Let buildContext :=
  ContextBuilder.buildContext toLocaleDateString extractFileReferences.

(** [createIssueBranch] returns the branch name and has recorded it
    then; when it throws it has recorded it or has not written. *)
Lemma createIssueBranch_triple (row : Db.DbIssue) (t0 : Db.Table) :
  Triple (eq t0) (GitOps.createIssueBranch row)
         (fun t => t = t0
                   \/ t = Db.updateIssueBranch (Db.id row) (GitOps.branchNameOf row) t0)
         (fun branch t =>
            branch = GitOps.branchNameOf row
            /\ t = Db.updateIssueBranch (Db.id row) (GitOps.branchNameOf row) t0).
Proof.
  unfold GitOps.createIssueBranch.
  apply triple_after; [keeps | now left | intros cloned].
  destruct (negb cloned); [apply triple_throw; now left|].
  apply triple_after; [keeps | now left | intros _].
  apply triple_tryCatch
    with (mid := fun t => t = t0
                          \/ t = Db.updateIssueBranch (Db.id row)
                                                      (GitOps.branchNameOf row) t0).
  - unfold GitOps.checkoutAndRecord.
    apply triple_after; [keeps | now left | intros branches].
    apply triple_after; [destruct (JS.has branches _); keeps | now left | intros _].
    apply triple_after_sql; [now left | now right | intros _].
    apply triple_ret; [now right | split; reflexivity].
  - auto.
  - intros e t Ht.
    apply triple_after; [keeps | exact Ht | intros _].
    apply triple_throw. exact Ht.
Qed.

(** [buildContext] records the brief and then the status ready. *)
Lemma buildContext_triple (row : Db.DbIssue) (root branch : string) (t1 : Db.Table) :
  let t2 := Db.updateIssueTaskFile (Db.id row) (PassSpec.taskFilePathOf row) t1 in
  let t3 := Db.updateIssueStatus (Db.id row) Db.Ready t2 in
  Triple (eq t1) (buildContext row root branch)
         (fun t => t = t1 \/ t = t2 \/ t = t3)
         (fun _ t => t = t3).
Proof.
  intros t2 t3. unfold buildContext, ContextBuilder.buildContext.
  apply triple_after; [keeps | now left | intros _].
  apply triple_after; [keeps | now left | intros details].
  apply triple_after; [keeps | now left | intros _].
  apply triple_after; [keeps | now left | intros tree].
  apply triple_after; [keeps | now left | intros readFile].
  apply triple_after; [keeps | now left | intros _].
  apply triple_after_sql; [now left | right; now left | intros _].
  apply triple_after_sql; [right; now left | right; now right | intros _].
  apply triple_after; [keeps | right; now right | intros _].
  apply triple_ret; [right; now right | reflexivity].
Qed.

Lemma stage_tables (row : Db.DbIssue) (t0 : Db.Table) :
  let key := Db.id row in
  let t1 := Db.updateIssueBranch key (GitOps.branchNameOf row) t0 in
  let t2 := Db.updateIssueTaskFile key (PassSpec.taskFilePathOf row) t1 in
  let t3 := Db.updateIssueStatus key Db.Ready t2 in
  t0 = map (onKey key (fun r => r)) t0
  /\ t1 = map (onKey key (Db.withBranch (GitOps.branchNameOf row))) t0
  /\ t2 = map (onKey key (fun r => Db.withTaskFile (PassSpec.taskFilePathOf row)
                                    (Db.withBranch (GitOps.branchNameOf row) r))) t0
  /\ t3 = map (onKey key (prepare row)) t0.
Proof.
  intros key t1 t2 t3. unfold t3, t2, t1.
  unfold Db.updateIssueStatus, Db.updateIssueTaskFile, Db.updateIssueBranch.
  rewrite !updateWhereId_map.
  split; [now rewrite map_onKey_same|]. split; [reflexivity|].
  rewrite map_onKey_twice by reflexivity. split; [reflexivity|].
  now rewrite map_onKey_twice by reflexivity.
Qed.

(** The table [prepareIssue] leaves: all three updates when it returns;
    one of the four stages when it throws. *)
Lemma prepareIssue_triple (row : Db.DbIssue) (t0 : Db.Table) :
  Triple (eq t0) (prepareIssue row)
         (changedBy (Db.id row) (stages row) t0)
         (fun _ t => t = map (onKey (Db.id row) (prepare row)) t0).
Proof.
  destruct (stage_tables row t0) as (H0 & H1 & H2 & H3).
  set (t1 := Db.updateIssueBranch (Db.id row) (GitOps.branchNameOf row) t0) in *.
  set (t2 := Db.updateIssueTaskFile (Db.id row) (PassSpec.taskFilePathOf row) t1) in *.
  set (t3 := Db.updateIssueStatus (Db.id row) Db.Ready t2) in *.
  assert (S0 : changedBy (Db.id row) (stages row) t0 t0).
  { exists (fun r => r). split; [now left | exact H0]. }
  assert (S1 : changedBy (Db.id row) (stages row) t0 t1).
  { eexists. split; [right; now left | exact H1]. }
  assert (S2 : changedBy (Db.id row) (stages row) t0 t2).
  { eexists. split; [right; right; now left | exact H2]. }
  assert (S3 : changedBy (Db.id row) (stages row) t0 t3).
  { eexists. split; [right; right; right; now left | exact H3]. }
  unfold prepareIssue, Daemon.prepareIssue.
  apply triple_after; [keeps | exact S0 | intros _].
  apply triple_after; [keeps | exact S0 | intros repoPath].
  apply triple_bind
    with (mid := fun branch t => branch = GitOps.branchNameOf row /\ t = t1).
  { eapply triple_weaken; [apply (createIssueBranch_triple row t0) | auto | | auto].
    intros t [-> | ->]; assumption. }
  intros branch.
  apply triple_weaken
    with (pre := eq t1) (during := changedBy (Db.id row) (stages row) t0)
         (done := fun _ t => t = t3);
    [| intros t [_ ->]; reflexivity | auto | intros _ t ->; exact H3].
  apply triple_bind with (mid := fun _ t => t = t3).
  { eapply triple_weaken; [apply (buildContext_triple row repoPath branch t1) | auto | | auto].
    intros t [-> | [-> | ->]]; assumption. }
  intros _.
  apply triple_weaken
    with (pre := eq t3) (during := changedBy (Db.id row) (stages row) t0)
         (done := fun _ t => t = t3); [| intros t ->; reflexivity | auto | auto].
  apply triple_after; [keeps | exact S3 | intros _].
  apply triple_weaken
    with (pre := eq t3) (during := changedBy (Db.id row) (stages row) t0)
         (done := fun _ => eq t3).
  - apply triple_keeps; [keeps | exact S3].
  - auto.
  - auto.
  - intros _ t <-. reflexivity.
Qed.
(** The [catch] block marks the issue skipped, or throws and has not
    written. *)
Lemma skipIssue_triple (row : Db.DbIssue) (error : string) (t : Db.Table) :
  Triple (eq t) (skipIssue row error)
         (fun t' => t' = t \/ t' = Db.updateIssueStatus (Db.id row) Db.Skipped t)
         (fun _ t' => t' = Db.updateIssueStatus (Db.id row) Db.Skipped t).
Proof.
  unfold skipIssue, Daemon.skipIssue.
  apply triple_after; [keeps | now left | intros _].
  apply triple_weaken
    with (pre := eq t)
         (during := fun t' => t' = t
                              \/ t' = Db.updateIssueStatus (Db.id row) Db.Skipped t)
         (done := fun _ => eq (Db.updateIssueStatus (Db.id row) Db.Skipped t)).
  - apply triple_sql; [now left | now right].
  - auto.
  - auto.
  - intros _ t' <-. reflexivity.
Qed.

Lemma stages_progress (issue : Db.DbIssue) (change : Db.DbIssue -> Db.DbIssue) :
  In change (stages issue) ->
  onlyProgress change
  /\ (forall r, Db.status (change r) = Db.status r \/ Db.status (change r) = Db.Ready).
Proof.
  intros [<- | [<- | [<- | [<- | []]]]]; split; intros r;
    try reflexivity; try (now left); try (now right).
  now destruct r.
Qed.

Lemma thenSkipped_progress (change : Db.DbIssue -> Db.DbIssue) :
  onlyProgress change -> onlyProgress (thenSkipped change).
Proof.
  intros H. apply (onlyProgress_compose change (Db.withStatus Db.Skipped) H).
  intros r. reflexivity.
Qed.

Lemma skipped_table (key : Z) (change : Db.DbIssue -> Db.DbIssue) (table : Db.Table) :
  onlyProgress change ->
  Db.updateIssueStatus key Db.Skipped (map (onKey key change) table)
  = map (onKey key (thenSkipped change)) table.
Proof.
  intros H. unfold Db.updateIssueStatus. rewrite updateWhereId_map.
  exact (map_onKey_twice key change (Db.withStatus Db.Skipped) table
                         (fun r => onlyProgress_key change r H)).
Qed.

(** The loop body changes the rows of its issue only, and only in the
    status, the branch and the brief.  When it returns, it leaves them
    ready or skipped. *)
Lemma processIssue_change (row : Db.DbIssue) (w : World Env) :
  exists change,
    issues (snd (processIssue row w)) = map (onKey (Db.id row) change) (issues w)
    /\ onlyProgress change
    /\ (forall r, Db.status (change r) = Db.status r
                  \/ Db.status (change r) = Db.Ready
                  \/ Db.status (change r) = Db.Skipped)
    /\ (fst (processIssue row w) = Returned tt ->
        forall r, Db.status (change r) = Db.Ready \/ Db.status (change r) = Db.Skipped)
    /\ (fst (prepareIssue row w) = Returned tt -> change = prepare row)
    /\ (forall e, fst (prepareIssue row w) = Thrown e ->
                  fst (processIssue row w) = Returned tt ->
                  forall r, Db.status (change r) = Db.Skipped).
Proof.
  destruct (prepareIssue_triple row (issues w) w eq_refl) as [Hduring Hdone].
  unfold processIssue, Daemon.processIssue, tryCatch.
  fold (prepareIssue row w).
  destruct (prepareIssue row w) as [[[] | e] w1]; cbn [fst snd] in *.
  - exists (prepare row). split; [exact (Hdone tt eq_refl)|].
    split; [intros r; reflexivity|].
    split; [intros r; right; now left|].
    split; [intros _ r; now left|].
    split; [reflexivity | discriminate].
  - destruct Hduring as [change [Hstage Htable]].
    destruct (stages_progress row change Hstage) as [Hprogress Hstatus].
    fold (skipIssue row e w1).
    destruct (skipIssue_triple row e (issues w1) w1 eq_refl) as [Hskip Hskipped].
    rewrite Htable in Hskip, Hskipped.
    rewrite (skipped_table _ _ _ Hprogress) in Hskip, Hskipped.
    destruct (skipIssue row e w1) as [[[] | e'] w2]; cbn [fst snd] in *.
    + exists (thenSkipped change).
      split; [exact (Hskipped tt eq_refl)|].
      split; [now apply thenSkipped_progress|].
      split; [intros r; right; now right|].
      split; [intros _ r; now right|].
      split; [discriminate | intros e0 _ _ r; reflexivity].
    + destruct Hskip as [Hkept | Hwritten].
      * exists change. split; [exact Hkept|]. split; [exact Hprogress|].
        split; [intros r; destruct (Hstatus r); auto|].
        split; [discriminate|]. split; discriminate.
      * exists (thenSkipped change). split; [exact Hwritten|].
        split; [now apply thenSkipped_progress|].
        split; [intros r; right; now right|].
        split; [discriminate|]. split; discriminate.
Qed.



Lemma forEachIssue_cons (row : Db.DbIssue) (rest : list Db.DbIssue) (w : World Env) :
  fst (processIssue row w) = Returned tt ->
  forEachIssue (row :: rest) w = forEachIssue rest (run (processIssue row) w).
Proof.
  intros H. unfold run. cbn [forEachIssue Daemon.forEachIssue]. unfold bind.
  fold (processIssue row w). fold forEachIssue.
  destruct (processIssue row w) as [[[] | e] w1]; [reflexivity | discriminate].
Qed.


(** The loop, on the table. *)
Lemma forEachIssue_changes (rows : list Db.DbIssue) (w : World Env) :
  exists g,
    issues (snd (forEachIssue rows w)) = map g (issues w)
    /\ onlyProgress g
    /\ keyedIn (map Db.id rows) g
    /\ (forall r, Db.status (g r) = Db.status r
                  \/ Db.status (g r) = Db.Ready
                  \/ Db.status (g r) = Db.Skipped)
    /\ (fst (forEachIssue rows w) = Returned tt ->
        forall r, In (Db.id r) (map Db.id rows) ->
                  Db.status (g r) = Db.Ready \/ Db.status (g r) = Db.Skipped).
Proof.
  revert w. induction rows as [| row rest IH]; intros w.
  - exists (fun r => r). cbn. rewrite map_id.
    split; [reflexivity|]. split; [apply onlyProgress_id|].
    split; [split; reflexivity|]. split; [intros r; now left | intros _ r []].
  - destruct (processIssue_change row w) as [change [Ht1 [Hp1 [Hst1 [Hdone1 _]]]]].
    assert (Hid1 : forall r, Db.id (onKey (Db.id row) change r) = Db.id r).
    { intros r. apply onKey_id. intros r'. now apply onlyProgress_key. }
    cbn [forEachIssue Daemon.forEachIssue]. unfold bind.
    fold (processIssue row w). fold forEachIssue.
    destruct (processIssue row w) as [[[] | e] w1]; cbn [fst snd] in *.
    + destruct (IH w1) as [g2 [Ht2 [Hp2 [[Hid2 Hfr2] [Hst2 Hdone2]]]]].
      exists (fun r => g2 (onKey (Db.id row) change r)).
      split; [now rewrite Ht2, Ht1, map_map|].
      split; [apply onlyProgress_compose; [now apply onlyProgress_onKey | exact Hp2]|].
      split; [split|].
      * intros r. now rewrite Hid2, Hid1.
      * intros r Hnot. simpl in Hnot.
        assert (Hne : Db.id r <> Db.id row) by (intros Heq; apply Hnot; now left).
        rewrite Hfr2 by (rewrite Hid1; tauto). now apply onKey_miss.
      * split.
        { intros r. destruct (Hst2 (onKey (Db.id row) change r)) as [H | H]; [|auto].
          rewrite H. unfold onKey. destruct (Db.id r =? Db.id row); [apply Hst1 | now left]. }
        { intros Hret r Hin.
          destruct (in_dec Z.eq_dec (Db.id r) (map Db.id rest)) as [Hrest | Hrest].
          - apply (Hdone2 Hret). now rewrite Hid1.
          - rewrite Hfr2 by now rewrite Hid1.
            destruct Hin as [Hhead | Htail]; [|contradiction].
            rewrite onKey_hit by now symmetry. now apply Hdone1. }
    + exists (onKey (Db.id row) change).
      split; [exact Ht1|]. split; [now apply onlyProgress_onKey|].
      split; [split|].
      * exact Hid1.
      * intros r Hnot. apply onKey_miss. intros Heq. apply Hnot. now left.
      * split; [|discriminate].
        intros r. unfold onKey. destruct (Db.id r =? Db.id row); [apply Hst1 | now left].
Qed.


(** The pass, on the table: it is the loop over the new issues, or it
    has not got to the loop and has changed nothing. *)
Lemma processNewIssues_cases (w : World Env) :
  (exists start,
      processNewIssues w = forEachIssue (Db.getIssuesByStatus Db.New (issues w)) start
      /\ issues start = issues w)
  \/ (issues (snd (processNewIssues w)) = issues w
      /\ (fst (processNewIssues w) = Returned tt ->
          Db.getIssuesByStatus Db.New (issues w) = [])).
Proof.
  unfold processNewIssues, Daemon.processNewIssues, query, bind, call, selected, log.
  destruct (statement (env w)) as [[[] | e] e1]; cbn [fst snd issues env].
  2:{ right. split; [reflexivity | discriminate]. }
  destruct (Db.getIssuesByStatus Db.New (issues w)) as [| r rs] eqn:Hnew.
  - right. cbn [length Nat.eqb]. unfold call. cbn [env issues].
    destruct (logger Debug _ e1) as [[[] | e] e2]; cbn [fst snd issues]; auto.
  - cbn [length Nat.eqb]. unfold call. cbn [env issues].
    destruct (logger Info _ e1) as [[[] | e] e2]; cbn [fst snd issues].
    + left. eexists. split; reflexivity.
    + right. split; [reflexivity | discriminate].
Qed.

(** The pass, on the table; and what more holds on a table of exact
    rows with distinct keys. *)
Lemma processNewIssues_changes (w : World Env) :
  exists g,
    issues (snd (processNewIssues w)) = map g (issues w)
    /\ onlyProgress g
    /\ (forall r, Db.status (g r) = Db.status r
                  \/ Db.status (g r) = Db.Ready
                  \/ Db.status (g r) = Db.Skipped)
    /\ (NoDup (map Db.id (issues w)) ->
        Forall Db.exact (issues w) ->
        (forall r, In r (issues w) -> Db.status r <> Db.New -> g r = r)
        /\ (fst (processNewIssues w) = Returned tt ->
            forall r, In r (issues w) -> Db.status r = Db.New ->
                      Db.status (g r) = Db.Ready \/ Db.status (g r) = Db.Skipped)).
Proof.
  destruct (processNewIssues_cases w) as [[start [Hloop Hstart]] | [Hkept Hnone]].
  - rewrite Hloop.
    destruct (forEachIssue_changes (Db.getIssuesByStatus Db.New (issues w)) start)
      as [g [Ht [Hp [[Hid Hfr] [Hst Hdone]]]]].
    rewrite Hstart in Ht.
    exists g. split; [exact Ht|]. split; [exact Hp|]. split; [exact Hst|].
    intros Hkeys Hexact. split.
    + intros r Hin Hsettled. apply Hfr. intros Hnew.
      apply in_map_iff in Hnew. destruct Hnew as [r' [Hsame Hin']].
      apply (getIssuesByStatus_In _ _ _ Hexact) in Hin'. destruct Hin' as [Hin' Hst'].
      apply Hsettled.
      now rewrite <- (distinct_keys_same_row (issues w) r' r Hkeys Hin' Hin Hsame).
    + intros Hret r Hin Hnew. apply (Hdone Hret). apply in_map.
      apply (getIssuesByStatus_In _ _ _ Hexact). auto.
  - exists (fun r => r). rewrite map_id. split; [exact Hkept|].
    split; [apply onlyProgress_id|]. split; [intros r; now left|].
    intros Hkeys Hexact. split; [reflexivity|].
    intros Hret r Hin Hnew. exfalso.
    assert (Hlisted : In r (Db.getIssuesByStatus Db.New (issues w)))
      by (apply (getIssuesByStatus_In _ _ _ Hexact); auto).
    rewrite (Hnone Hret) in Hlisted. destruct Hlisted.
Qed.

End Pass.

End DaemonFacts.

(* ================================================================== *)
(** * Properties of the relevance scorer                               *)
(* ================================================================== *)

Import Fs ContextBuilder WalkSpec Examples.

(** C1, as stated, fails: a keyword list can be extended so that a
    matching keyword falls behind the twentieth place, where the scorer
    no longer looks.  ["login"] is contained in the list of twenty-one
    keywords that ends in ["login"], yet [loginHandler.ts] scores 3 under
    the former and 0 under the latter, and drops out of the result. *)
Lemma keyword_behind_twentieth_place_is_ignored :
  incl oneKeyword twentyOneKeywords
  /\ fst (scoreFile [] oneKeyword "loginHandler.ts" "loginHandler.ts") = 3
  /\ fst (scoreFile [] twentyOneKeywords "loginHandler.ts" "loginHandler.ts") = 0
  /\ findRelevantFiles loginTree [] oneKeyword defaultMaxFiles
     = [("loginHandler.ts", "Matches keyword: login")]
  /\ findRelevantFiles loginTree [] twentyOneKeywords defaultMaxFiles = [].
Proof.
  split; [| repeat split; vm_compute; reflexivity].
  intros kw [<- | []]. unfold twentyOneKeywords.
  do 20 right. now left.
Qed.

(** C1, amended: for every tree, and for reference lists R1 contained in
    R2 and keyword lists K1, K2 such that each of the first twenty
    keywords of K1 is among the first twenty of K2, the score of every
    file under (R2, K2) is at least its score under (R1, K1); and every
    file that survives the walk under (R1, K1) survives it under (R2, K2)
    with a score at least as high. *)
Theorem score_monotone_in_checked_keywords
        (root : option (list Dirent)) (refs1 refs2 kws1 kws2 : list string) :
  incl refs1 refs2 ->
  incl (firstn 20 kws1) (firstn 20 kws2) ->
  (forall rel name,
      fst (scoreFile refs1 kws1 rel name) <= fst (scoreFile refs2 kws2 rel name))
  /\ (forall r1,
         In r1 (walkDir refs1 kws1 root "" 0 []) ->
         exists r2,
           In r2 (walkDir refs2 kws2 root "" 0 [])
           /\ path r2 = path r1 /\ score r1 <= score r2).
Proof.
  intros Hrefs Hkws.
  assert (Hmono : forall rel name,
             fst (scoreFile refs1 kws1 rel name) <= fst (scoreFile refs2 kws2 rel name))
    by (intros; now apply ScoreFacts.scoreFile_mono).
  split; [exact Hmono|].
  intros r1 Hin. apply WalkFacts.walkDir_root_In in Hin.
  destruct Hin as [rel [name [Hw [Hpos ->]]]].
  exists (scoredFile refs2 kws2 rel name). split; [| split].
  - apply WalkFacts.walkDir_root_In. exists rel, name.
    split; [exact Hw|]. split; [|reflexivity].
    specialize (Hmono rel name). lia.
  - reflexivity.
  - apply Hmono.
Qed.

Lemma score_monotone_witness :
  fst (scoreFile [] ["login"] "src/loginHandler.ts" "loginHandler.ts")
  <= fst (scoreFile ["src/"] ["login"; "crash"] "src/loginHandler.ts" "loginHandler.ts").
Proof.
  apply (score_monotone_in_checked_keywords loginTree [] ["src/"] ["login"] ["login"; "crash"]).
  - intros x [].
  - simpl. intros x [<- | []]. now left.
Defined.

(** C2: for every tree, reference list and keyword list, the scorer
    returns at most [maxFiles] entries (at most 10 with the default), and
    every returned entry belongs to a file the walk reached and gave a
    score strictly above zero. *)
Theorem findRelevantFiles_bounded_and_positive
        (root : option (list Dirent)) (fileRefs keywords : list string) :
  Z.of_nat (length (findRelevantFiles root fileRefs keywords defaultMaxFiles)) <= 10
  /\ (forall maxFiles,
         0 <= maxFiles ->
         Z.of_nat (length (findRelevantFiles root fileRefs keywords maxFiles)) <= maxFiles)
  /\ (forall maxFiles,
         Forall (fun r => 0 < score r) (rankedFiles root fileRefs keywords maxFiles))
  /\ (forall maxFiles p why,
         In (p, why) (findRelevantFiles root fileRefs keywords maxFiles) ->
         exists name,
           Walked root p name
           /\ 0 < fst (scoreFile fileRefs keywords p name)
           /\ why = firstReason (snd (scoreFile fileRefs keywords p name))).
Proof.
  assert (Hlen : forall maxFiles,
             0 <= maxFiles ->
             Z.of_nat (length (findRelevantFiles root fileRefs keywords maxFiles)) <= maxFiles).
  { intros maxFiles Hmax. unfold findRelevantFiles, rankedFiles.
    rewrite length_map. now apply JSFacts.slice0_length. }
  split; [apply (Hlen defaultMaxFiles); unfold defaultMaxFiles; lia|].
  split; [exact Hlen|].
  split.
  - intros maxFiles. apply Forall_forall. intros r Hin.
    apply RankFacts.ranked_In_results in Hin.
    pose proof (RankFacts.results_positive root fileRefs keywords) as Hpos.
    rewrite Forall_forall in Hpos. now apply Hpos.
  - intros maxFiles p why. apply RankFacts.returned_is_walked.
Qed.

Lemma findRelevantFiles_bounded_witness :
  Z.of_nat (length (findRelevantFiles mixedTree ["auth.ts"] ["index"] 2)) <= 2.
Proof.
  apply (findRelevantFiles_bounded_and_positive mixedTree ["auth.ts"] ["index"]).
  lia.
Defined.

(** C3, as stated, fails on the text of the reason: the scorer writes
    it with a capital R. *)
Lemma auth_reason_is_capitalised :
  ~ In ("src/auth.ts", "referenced in issue")
       (findRelevantFiles authTree ["auth.ts"] [] defaultMaxFiles).
Proof. vm_compute. intros [H | []]. discriminate. Qed.

(** C3, amended: with the reference list ["auth.ts"], no keywords and a
    tree that holds exactly [src/auth.ts] and [src/other.ts] (listed in
    either order), the scorer returns only [src/auth.ts], with score 10
    and the reason "Referenced in issue". *)
Theorem auth_reference_scenario :
  rankedFiles authTree ["auth.ts"] [] defaultMaxFiles
  = [ {| path := "src/auth.ts"; reason := "Referenced in issue"; score := 10 |} ]
  /\ findRelevantFiles authTree ["auth.ts"] [] defaultMaxFiles
     = [("src/auth.ts", "Referenced in issue")]
  /\ rankedFiles authTreeSwapped ["auth.ts"] [] defaultMaxFiles
     = [ {| path := "src/auth.ts"; reason := "Referenced in issue"; score := 10 |} ]
  /\ findRelevantFiles authTreeSwapped ["auth.ts"] [] defaultMaxFiles
     = [("src/auth.ts", "Referenced in issue")].
Proof. repeat split; vm_compute; reflexivity. Qed.

(** C4: the files that survive the walk all score above zero; the
    returned list is a prefix (the cut at [maxFiles]) of a list that is a
    permutation of them, in descending order of score, in which the files
    of any one score keep the order of the walk, so that of two files with
    equal scores the one found earlier comes first. *)
Theorem ranking_sorted_stable_truncated
        (root : option (list Dirent)) (fileRefs keywords : list string) (maxFiles : Z) :
  let results := walkDir fileRefs keywords root "" 0 [] in
  let sorted := JS.sort byScore results in
  let ranked := rankedFiles root fileRefs keywords maxFiles in
  Forall (fun r => 0 < score r) results
  /\ Permutation sorted results
  /\ StronglySorted (fun a b => score b <= score a) sorted
  /\ (forall s, filter (fun r => score r =? s) sorted
                = filter (fun r => score r =? s) results)
  /\ (forall a b before between after,
         results = before ++ a :: between ++ b :: after ->
         score a = score b ->
         exists before' between' after',
           sorted = before' ++ a :: between' ++ b :: after')
  /\ ranked = JS.slice0 sorted maxFiles
  /\ (exists cut, sorted = ranked ++ cut)
  /\ length ranked
     = Z.to_nat (if maxFiles <? 0
                 then Z.max (Z.of_nat (length results) + maxFiles) 0
                 else Z.min maxFiles (Z.of_nat (length results)))
  /\ StronglySorted (fun a b => score b <= score a) ranked
  /\ (forall s, exists later,
         filter (fun r => score r =? s) results
         = filter (fun r => score r =? s) ranked ++ later)
  /\ findRelevantFiles root fileRefs keywords maxFiles
     = map (fun r => (path r, reason r)) ranked.
Proof.
  intros results sorted ranked.
  assert (Hstable : forall s, filter (fun r => score r =? s) sorted
                              = filter (fun r => score r =? s) results)
    by (intros s; apply (JSFacts.sort_stable byScore score RankFacts.byScore_key)).
  assert (Hsorted : StronglySorted (fun a b => score b <= score a) sorted)
    by apply (JSFacts.sort_sorted byScore score RankFacts.byScore_key).
  assert (Hcut : exists cut, sorted = ranked ++ cut)
    by apply JSFacts.slice0_prefix.
  split; [apply RankFacts.results_positive|].
  split; [apply JSFacts.sort_perm|].
  split; [exact Hsorted|].
  split; [exact Hstable|].
  split.
  { intros a b before between after Hres Heq.
    apply (RankFacts.filter_two (fun r => score r =? score a) sorted
             (filter (fun r => score r =? score a) before)
             (filter (fun r => score r =? score a) between)
             (filter (fun r => score r =? score a) after)).
    rewrite Hstable, Hres.
    rewrite filter_app. simpl. rewrite Z.eqb_refl.
    rewrite filter_app. simpl. rewrite <- Heq, Z.eqb_refl. reflexivity. }
  split; [reflexivity|].
  split; [exact Hcut|].
  split.
  { unfold ranked, rankedFiles, JS.slice0. fold results. fold sorted.
    unfold sorted at 1 3. rewrite JSFacts.sort_length.
    rewrite length_firstn. unfold sorted. rewrite JSFacts.sort_length.
    destruct (maxFiles <? 0) eqn:Hneg; lia. }
  split.
  { destruct Hcut as [cut Hcut]. rewrite Hcut in Hsorted.
    now apply RankFacts.sorted_prefix in Hsorted. }
  split; [| reflexivity].
  intros s. rewrite <- Hstable.
  unfold ranked, rankedFiles, JS.slice0. fold results. fold sorted.
  apply JSFacts.filter_firstn_prefix.
Qed.

Lemma ranking_stable_witness :
  exists before' between' after',
    JS.sort byScore (walkDir ["auth.ts"] [] mixedTree "" 0 [])
    = before' ++ {| path := "src/index.ts"; reason := "Entry point file"; score := 1 |}
        :: between' ++ {| path := "main.rs"; reason := "Entry point file"; score := 1 |}
        :: after'.
Proof.
  destruct (ranking_sorted_stable_truncated mixedTree ["auth.ts"] [] defaultMaxFiles)
    as (_ & _ & _ & _ & Hpair & _).
  apply (Hpair _ _
               [ {| path := "src/auth.ts"; reason := "Referenced in issue"; score := 10 |} ]
               [ {| path := "README.md"; reason := "README file"; score := 2 |} ]
               []);
    reflexivity.
Defined.

(** C5, as stated, fails: a tree can hold a file named README.md in a
    place the walk does not go.  Below [node_modules] the file matches no
    reference and no keyword, the result has room, and yet nothing is
    returned. *)
Lemma readme_under_node_modules_is_not_returned :
  In ("node_modules/README.md", "README.md") (filesOfTree vendoredReadme)
  /\ findRelevantFiles vendoredReadme [] [] defaultMaxFiles = [].
Proof. split; [now left | reflexivity]. Qed.

(** C5, amended: for every tree in which the walk reaches a file named
    README.md (it lies in no skipped or unlistable directory and within
    the depth limit), if no file reference matches its path or name and
    none of the keywords checked matches its name, the file scores 2 with
    the reason "README file", is kept by the walk, and is returned
    whenever the files kept are no more than [maxFiles]. *)
Theorem readme_scores_two_and_survives
        (root : option (list Dirent)) (fileRefs keywords : list string)
        (rel : string) (maxFiles : Z) :
  Walked root rel "README.md" ->
  (forall ref, In ref fileRefs -> refHit rel "README.md" ref = false) ->
  (forall keyword, In keyword (firstn 20 keywords) ->
                   keywordHit "README.md" keyword = false) ->
  scoreFile fileRefs keywords rel "README.md" = (2, ["README file"])
  /\ In {| path := rel; reason := "README file"; score := 2 |}
        (walkDir fileRefs keywords root "" 0 [])
  /\ (Z.of_nat (length (walkDir fileRefs keywords root "" 0 [])) <= maxFiles ->
      In (rel, "README file") (findRelevantFiles root fileRefs keywords maxFiles)).
Proof.
  intros Hwalked Hrefs Hkws.
  assert (Hscore : scoreFile fileRefs keywords rel "README.md" = (2, ["README file"])).
  { unfold scoreFile.
    rewrite ScoreFacts.checkRefs_miss.
    - rewrite JSFacts.slice0_twenty, ScoreFacts.checkKeywords_miss; [reflexivity|].
      apply not_true_is_false. intros H. apply existsb_exists in H.
      destruct H as [kw [Hin Hhit]]. rewrite (Hkws kw Hin) in Hhit. discriminate.
    - apply not_true_is_false. intros H. apply existsb_exists in H.
      destruct H as [ref [Hin Hhit]]. rewrite (Hrefs ref Hin) in Hhit. discriminate. }
  assert (Hin : In {| path := rel; reason := "README file"; score := 2 |}
                   (walkDir fileRefs keywords root "" 0 [])).
  { apply WalkFacts.walkDir_root_In. exists rel, "README.md".
    split; [exact Hwalked|]. unfold scoredFile. rewrite Hscore. simpl.
    split; [lia | reflexivity]. }
  split; [exact Hscore|]. split; [exact Hin|].
  intros Hfit.
  apply (RankFacts.fits_then_returned root fileRefs keywords maxFiles _ Hfit) in Hin.
  exact Hin.
Qed.

Lemma readme_scores_two_witness :
  In ("README.md", "README file")
     (findRelevantFiles plainReadme ["auth.ts"] ["login"] defaultMaxFiles).
Proof.
  apply (readme_scores_two_and_survives plainReadme ["auth.ts"] ["login"] "README.md"
                                        defaultMaxFiles).
  - exists [File "README.md"; Directory "src" (Some [File "app.ts"])], (File "README.md").
    split; [reflexivity|]. split; [now left|].
    apply (reached_file "" 0 "README.md"); reflexivity.
  - intros ref [<- | []]. reflexivity.
  - intros kw [<- | []]. reflexivity.
  - vm_compute. discriminate.
Defined.

(** C8: the loop body leaves a directory named node_modules, target or
    dist, or with a name that starts with a dot, untouched whatever the
    depth reached and whatever the directory holds; and in a tree whose
    entry names hold no path separator, no returned path has such a name
    among its components. *)
Theorem skipped_directories_are_never_entered (fileRefs keywords : list string) :
  (forall name,
      skipName name = true
      <-> JS.startsWith name "." = true \/ name = "node_modules"
          \/ name = "target" \/ name = "dist")
  /\ (forall dirRel depth name listing results,
         skipName name = true ->
         walkEntry fileRefs keywords dirRel depth (Directory name listing) results
         = results)
  /\ (forall root maxFiles p why,
         wellNamedTree root = true ->
         In (p, why) (findRelevantFiles root fileRefs keywords maxFiles) ->
         Forall (fun c => c <> "node_modules" /\ c <> "target" /\ c <> "dist"
                          /\ JS.startsWith c "." = false)
                (JS.split "/" p)).
Proof.
  assert (Hskip : forall name,
             skipName name = true
             <-> JS.startsWith name "." = true \/ name = "node_modules"
                 \/ name = "target" \/ name = "dist").
  { intros name. unfold skipName. rewrite !orb_true_iff, !String.eqb_eq. tauto. }
  split; [exact Hskip|]. split.
  - intros dirRel depth name listing results H.
    now apply (WalkFacts.walkEntry_skipped fileRefs keywords dirRel depth
                 (Directory name listing)).
  - intros root maxFiles p why Hwf Hin.
    apply RankFacts.returned_is_walked in Hin. destruct Hin as [name [Hw _]].
    destruct (PathFacts.Walked_components root p name Hwf Hw) as [Hall _].
    eapply Forall_impl; [|exact Hall].
    intros c Hc. unfold passable in Hc.
    assert (Hno : ~ (JS.startsWith c "." = true \/ c = "node_modules"
                     \/ c = "target" \/ c = "dist"))
      by (intros H; apply Hskip in H; congruence).
    repeat split; try (intros ->; apply Hno; tauto).
    apply not_true_is_false. tauto.
Qed.

Lemma skipped_directories_witness :
  Forall (fun c => c <> "node_modules" /\ c <> "target" /\ c <> "dist"
                   /\ JS.startsWith c "." = false)
         (JS.split "/" "src/auth.ts").
Proof.
  destruct (skipped_directories_are_never_entered ["auth.ts"] []) as (_ & _ & Hpaths).
  apply (Hpaths mixedTree defaultMaxFiles "src/auth.ts" "Referenced in issue").
  - reflexivity.
  - vm_compute. now left.
Defined.

(** C10: the skip by name applies to regular files too.  The loop body
    leaves a file whose name starts with a dot untouched, whatever the
    references and keywords; in a tree whose entry names hold no path
    separator, no returned path ends in such a name; and [.eslintrc.js],
    though it has an accepted extension and would score 10 for being
    referenced, is not returned. *)
Theorem dot_files_are_never_scored (fileRefs keywords : list string) :
  (forall dirRel depth name results,
      JS.startsWith name "." = true ->
      walkEntry fileRefs keywords dirRel depth (File name) results = results)
  /\ (forall root maxFiles p why,
         wellNamedTree root = true ->
         In (p, why) (findRelevantFiles root fileRefs keywords maxFiles) ->
         JS.startsWith (last (JS.split "/" p) "") "." = false)
  /\ JS.has codeExtensions (Path.extname ".eslintrc.js") = true
  /\ fst (scoreFile [".eslintrc.js"] [] ".eslintrc.js" ".eslintrc.js") = 10
  /\ findRelevantFiles dotfileTree [".eslintrc.js"] [] defaultMaxFiles = [].
Proof.
  split; [| split; [| repeat split; vm_compute; reflexivity]].
  - intros dirRel depth name results Hdot.
    apply (WalkFacts.walkEntry_skipped fileRefs keywords dirRel depth (File name)).
    simpl. unfold skipName. now rewrite Hdot.
  - intros root maxFiles p why Hwf Hin.
    apply RankFacts.returned_is_walked in Hin. destruct Hin as [name [Hw _]].
    destruct (PathFacts.Walked_components root p name Hwf Hw) as [_ Hlast].
    rewrite Hlast.
    destruct Hw as [entries [entry [_ [_ Hr]]]].
    apply PathFacts.Reached_not_skipped in Hr. unfold skipName in Hr.
    rewrite !orb_false_iff in Hr. tauto.
Qed.

Lemma dot_files_witness :
  walkEntry [".eslintrc.js"] [] "" 0 (File ".eslintrc.js") [] = [].
Proof.
  apply (dot_files_are_never_scored [".eslintrc.js"] []). reflexivity.
Defined.

(* ================================================================== *)
(** * Properties of the keyword extractor                              *)
(* ================================================================== *)

(** C6 does not hold of the code: the first alternative of the
    identifier pattern starts with [[A-Z]], so a compound that starts with
    a lower-case letter is not matched.  From a text that holds
    [parseConfig] the extractor returns the lower-cased word
    [parseconfig] and not the identifier, while [ParseConfig],
    [parse_config] and [MAX_SIZE] are returned as written. *)
Theorem camelCase_identifier_is_not_extracted :
  extractKeywords "parseConfig" = ["parseconfig"]
  /\ ~ In "parseConfig" (extractKeywords "fix parseConfig crash")
  /\ extractKeywords "fix parseConfig crash" = ["parseconfig"; "crash"]
  /\ Regex.matchAll identifierPattern "fix parseConfig crash" = []
  /\ extractKeywords "ParseConfig reads parse_config up to MAX_SIZE"
     = ["ParseConfig"; "parse_config"; "MAX_SIZE"; "parseconfig"; "reads";
        "parse"; "config"; "size"].
Proof.
  repeat split; try (vm_compute; reflexivity).
  vm_compute. intros [H | [H | []]]; discriminate.
Qed.

(* ================================================================== *)
(** * Properties of the task brief                                     *)
(* ================================================================== *)



(* ================================================================== *)
(** * Properties of the pass over the new issues                       *)
(* ================================================================== *)




(* ================================================================== *)
(** * Further facts about the scorer                                   *)
(* ================================================================== *)

Module ScorerMore.

Import Fs ContextBuilder WalkSpec ReasonSpec.

Lemma readme_is_no_entry_point (name : string) :
  String.eqb name "README.md" = true -> isEntryPoint name = false.
Proof. intros H. apply String.eqb_eq in H. subst name. reflexivity. Qed.

Lemma scoreFile_upper (fileRefs keywords : list string) (rel name : string) :
  fst (scoreFile fileRefs keywords rel name) <= 15.
Proof.
  rewrite ScoreFacts.scoreFile_score. unfold points.
  destruct (String.eqb name "README.md") eqn:Hreadme.
  - rewrite (readme_is_no_entry_point name Hreadme).
    destruct (existsb _ fileRefs), (existsb _ (firstn 20 keywords)); lia.
  - destruct (existsb _ fileRefs), (existsb _ (firstn 20 keywords)),
      (isEntryPoint name); lia.
Qed.

Lemma checkRefs_reasons (fileRefs : list string) (rel name : string) (t : Tally) :
  snd (checkRefs fileRefs rel name t)
  = snd t ++ (if existsb (refHit rel name) fileRefs then ["Referenced in issue"] else []).
Proof.
  induction fileRefs as [| ref rest IH]; simpl.
  - now rewrite app_nil_r.
  - unfold refHit at 1.
    destruct (JS.includes rel ref || JS.includes name ref); simpl; [reflexivity | exact IH].
Qed.

Lemma checkKeywords_reasons (keywords : list string) (name : string) (t : Tally) :
  snd (checkKeywords keywords (JS.toLowerCase name) t)
  = snd t ++ match find (keywordHit name) keywords with
             | Some keyword => ["Matches keyword: " +++ keyword]
             | None => []
             end.
Proof.
  induction keywords as [| keyword rest IH]; simpl.
  - now rewrite app_nil_r.
  - unfold keywordHit at 1.
    destruct (JS.includes (JS.toLowerCase name) (JS.toLowerCase keyword)); simpl;
      [reflexivity | exact IH].
Qed.

(** The list [reasons] after the four rules. *)
Lemma scoreFile_reasons (fileRefs keywords : list string) (rel name : string) :
  snd (scoreFile fileRefs keywords rel name)
  = (if existsb (refHit rel name) fileRefs then ["Referenced in issue"] else [])
    ++ match find (keywordHit name) (firstn 20 keywords) with
       | Some keyword => ["Matches keyword: " +++ keyword]
       | None => []
       end
    ++ (if String.eqb name "README.md" then ["README file"] else [])
    ++ (if isEntryPoint name then ["Entry point file"] else []).
Proof.
  unfold scoreFile. rewrite JSFacts.slice0_twenty.
  fold (isEntryPoint name).
  destruct (isEntryPoint name), (String.eqb name "README.md");
    unfold bump; simpl snd;
    rewrite ?checkKeywords_reasons, ?checkRefs_reasons; simpl;
    rewrite <- ?app_assoc, ?app_nil_r; reflexivity.
Qed.

Lemma find_existsb {A : Type} (f : A -> bool) (l : list A) :
  existsb f l = match find f l with Some _ => true | None => false end.
Proof.
  induction l as [| a l IH]; simpl; [reflexivity|].
  destruct (f a); [reflexivity | exact IH].
Qed.

(** With a positive score the reason is that of the first rule that
    applied. *)
Lemma positive_reason (fileRefs keywords : list string) (rel name : string) :
  0 < fst (scoreFile fileRefs keywords rel name) ->
  firstReason (snd (scoreFile fileRefs keywords rel name))
  = reasonByPriority fileRefs keywords rel name.
Proof.
  rewrite ScoreFacts.scoreFile_score, scoreFile_reasons,
    (find_existsb (keywordHit name)).
  unfold reasonByPriority, points.
  destruct (existsb (refHit rel name) fileRefs); [reflexivity|].
  destruct (find (keywordHit name) (firstn 20 keywords)) as [keyword |]; [reflexivity|].
  destruct (String.eqb name "README.md"); [reflexivity|].
  destruct (isEntryPoint name); [reflexivity|].
  simpl. lia.
Qed.

End ScorerMore.

(** X1: the score of a file is never negative and never above 15 (a
    README cannot also be an entry-point file), so every returned entry
    has a score from 1 to 15; the bound 15 is reached. *)
Theorem score_is_between_zero_and_fifteen :
  (forall fileRefs keywords rel name,
      0 <= fst (scoreFile fileRefs keywords rel name) <= 15)
  /\ (forall root fileRefs keywords maxFiles,
         Forall (fun r => 1 <= score r <= 15)
                (rankedFiles root fileRefs keywords maxFiles))
  /\ fst (scoreFile ["README"] ["readme"] "docs/README.md" "README.md") = 15.
Proof.
  split; [| split; [| reflexivity]].
  - intros. split; [apply ScoreFacts.scoreFile_nonneg | apply ScorerMore.scoreFile_upper].
  - intros root fileRefs keywords maxFiles. apply Forall_forall. intros r Hin.
    apply RankFacts.ranked_In_results in Hin.
    apply WalkFacts.walkDir_root_In in Hin.
    destruct Hin as [rel [name [_ [Hpos ->]]]]. simpl.
    pose proof (ScorerMore.scoreFile_upper fileRefs keywords rel name). lia.
Qed.

(** X2: the reason returned with a file is that of the first rule that
    applied, in the order reference, keyword (the first matching one
    among the first twenty, as written in the issue), README, entry
    point; the fallback text "Relevant file" is never returned. *)
Theorem reason_is_first_rule_that_applied
        (root : option (list Dirent)) (fileRefs keywords : list string) (maxFiles : Z)
        (p why : string) :
  In (p, why) (findRelevantFiles root fileRefs keywords maxFiles) ->
  why <> "Relevant file"
  /\ exists name,
      Walked root p name
      /\ why = ReasonSpec.reasonByPriority fileRefs keywords p name.
Proof.
  intros Hin. apply RankFacts.returned_is_walked in Hin.
  destruct Hin as [name [Hw [Hpos ->]]].
  rewrite (ScorerMore.positive_reason _ _ _ _ Hpos).
  split; [| exists name; auto].
  unfold ReasonSpec.reasonByPriority.
  destruct (existsb _ fileRefs); [discriminate|].
  destruct (find _ (firstn 20 keywords)); [discriminate|].
  destruct (String.eqb name "README.md"); discriminate.
Qed.

Lemma reason_is_first_rule_witness :
  "Referenced in issue" <> "Relevant file"
  /\ exists name,
      Walked mixedTree "src/auth.ts" name
      /\ "Referenced in issue"
         = ReasonSpec.reasonByPriority ["auth.ts"] ["auth"] "src/auth.ts" name.
Proof.
  apply (reason_is_first_rule_that_applied mixedTree ["auth.ts"] ["auth"] defaultMaxFiles).
  vm_compute. now left.
Defined.

Module WalkMore.

Import Fs ContextBuilder WalkSpec ReasonSpec.

Lemma Reached_extension (dirRel : string) (depth : nat) (entry : Dirent)
      (rel name : string) :
  Reached dirRel depth entry rel name ->
  JS.has codeExtensions (Path.extname name) = true.
Proof. induction 1; assumption. Qed.

Lemma has_codeExtensions (ext : string) :
  JS.has codeExtensions ext = true ->
  In ext [".ts"; ".tsx"; ".js"; ".jsx"; ".rs"; ".py"; ".go"; ".md"].
Proof.
  unfold JS.has. intros H. apply existsb_exists in H.
  destruct H as [x [Hin Heq]]. apply String.eqb_eq in Heq. now subst x.
Qed.

Lemma components_relativeTo (dirRel name : string) :
  JS.includes name "/" = false ->
  (length (components (Path.relativeTo dirRel name)) <= S (length (components dirRel)))%nat.
Proof.
  intros Hname. unfold components at 2, Path.relativeTo.
  destruct (String.eqb dirRel "") eqn:Hroot.
  - unfold components. destruct (String.eqb name ""); simpl; [lia|].
    rewrite PathFacts.split_no_separator by assumption. simpl. lia.
  - unfold components.
    destruct (String.eqb (dirRel +++ "/" +++ name) ""); [simpl; lia|].
    change (dirRel +++ "/" +++ name) with (dirRel +++ String "/" ("" +++ name)).
    simpl (_ +++ name).
    rewrite PathFacts.split_append, (PathFacts.split_no_separator name) by assumption.
    rewrite length_app. simpl. lia.
Qed.

Lemma Reached_depth (dirRel : string) (depth : nat) (entry : Dirent)
      (rel name : string) :
  Reached dirRel depth entry rel name ->
  wellNamed entry = true ->
  (length (components dirRel) <= depth)%nat ->
  (depth <= 5)%nat ->
  (length (components rel) <= 6)%nat.
Proof.
  induction 1 as [dirRel depth name Hskip Hext
                 | dirRel depth sub entries entry rel name Hskip Hdepth Hin Hr IH];
    intros Hwf Hdir Hmax.
  - pose proof (components_relativeTo dirRel name (PathFacts.wellNamed_name _ Hwf)). lia.
  - apply IH.
    + eapply PathFacts.wellNamed_entries; eassumption.
    + pose proof (components_relativeTo dirRel sub (PathFacts.wellNamed_name _ Hwf)). lia.
    + exact Hdepth.
Qed.

Lemma split_length_components (rel : string) :
  (length (JS.split "/" rel) <= Nat.max 1 (length (components rel)))%nat.
Proof.
  unfold components. destruct (String.eqb_spec rel "") as [-> | Hne].
  - simpl. lia.
  - apply Nat.le_max_r.
Qed.

Section Append.
Variables fileRefs keywords : list string.

Lemma pushScored_append (rel : string) (t : Tally) (results : list ScoredFile) :
  pushScored rel t results = results ++ pushScored rel t [].
Proof. unfold pushScored. destruct (0 <? fst t); [reflexivity | now rewrite app_nil_r]. Qed.

Lemma fold_left_append {A B : Type} (f : B -> list A -> list A) (es : list B) :
  Forall (fun e => forall acc, f e acc = acc ++ f e []) es ->
  forall acc,
    fold_left (fun acc e => f e acc) es acc = acc ++ flat_map (fun e => f e []) es.
Proof.
  induction 1 as [| e es He Hes IH]; intros acc; simpl.
  - now rewrite app_nil_r.
  - rewrite IH, He, <- app_assoc. reflexivity.
Qed.

(** The loop body only appends to [results]. *)
Lemma walkEntry_append (entry : Dirent) :
  forall (dirRel : string) (depth : nat) (results : list ScoredFile),
    walkEntry fileRefs keywords dirRel depth entry results
    = results ++ walkEntry fileRefs keywords dirRel depth entry [].
Proof.
  induction entry as [name | name | name | name entries IH] using Dirent_nested_ind;
    intros dirRel depth results.
  - rewrite !WalkFacts.walkEntry_file.
    destruct (skipName name); [now rewrite app_nil_r|].
    destruct (negb _); [now rewrite app_nil_r|].
    apply pushScored_append.
  - rewrite !WalkFacts.walkEntry_other. now rewrite app_nil_r.
  - rewrite !WalkFacts.walkEntry_directory. unfold walkDir.
    destruct (skipName name), (5 <? S depth)%nat; now rewrite app_nil_r.
  - rewrite !WalkFacts.walkEntry_directory. unfold walkDir.
    destruct (skipName name); [now rewrite app_nil_r|].
    destruct (5 <? S depth)%nat; [now rewrite app_nil_r|].
    rewrite (fold_left_append
               (fun e acc => walkEntry fileRefs keywords (Path.relativeTo dirRel name)
                                       (S depth) e acc)).
    + rewrite (fold_left_append
                 (fun e acc => walkEntry fileRefs keywords (Path.relativeTo dirRel name)
                                         (S depth) e acc) entries) with (acc := []);
        [reflexivity|].
      eapply Forall_impl; [|exact IH]. intros e He acc. apply He.
    + eapply Forall_impl; [|exact IH]. intros e He acc. apply He.
Qed.

(** What a listing adds is what its entries add one after the other. *)
Lemma walkDir_entries (entries : list Dirent) (dirRel : string) (depth : nat)
      (results : list ScoredFile) :
  (depth <= 5)%nat ->
  walkDir fileRefs keywords (Some entries) dirRel depth results
  = results ++ flat_map (fun e => walkEntry fileRefs keywords dirRel depth e []) entries.
Proof.
  intros Hdepth. unfold walkDir.
  replace (5 <? depth)%nat with false by (symmetry; apply Nat.ltb_ge; lia).
  apply (fold_left_append (fun e acc => walkEntry fileRefs keywords dirRel depth e acc)).
  apply Forall_forall. intros e _ acc. apply walkEntry_append.
Qed.
End Append.

Lemma includes_empty (s : string) : JS.includes s "" = true.
Proof. destruct s; reflexivity. Qed.

Lemma lowerChar_idempotent (c : ascii) : JS.lowerChar (JS.lowerChar c) = JS.lowerChar c.
Proof.
  destruct c as [[] [] [] [] [] [] [] []]; reflexivity.
Qed.

Lemma toLowerCase_idempotent (s : string) :
  JS.toLowerCase (JS.toLowerCase s) = JS.toLowerCase s.
Proof.
  induction s as [| c s IH]; simpl; [reflexivity|].
  now rewrite lowerChar_idempotent, IH.
Qed.

Lemma existsb_map {A B : Type} (f : B -> bool) (g : A -> B) (l : list A) :
  existsb f (map g l) = existsb (fun a => f (g a)) l.
Proof. induction l as [| a l IH]; simpl; [reflexivity | now rewrite IH]. Qed.

Lemma keywordHit_folded (name : string) (keywords : list string) :
  existsb (keywordHit name) (firstn 20 keywords)
  = existsb (fun lowered => JS.includes (JS.toLowerCase name) lowered)
            (firstn 20 (map JS.toLowerCase keywords)).
Proof.
  rewrite firstn_map, existsb_map. reflexivity.
Qed.

End WalkMore.

(** X3: every returned entry is a regular file whose extension, as
    [path.extname] gives it, is one of .ts, .tsx, .js, .jsx, .rs, .py,
    .go, .md, and whose name is not a skipped one. *)
Theorem returned_files_have_an_accepted_extension
        (root : option (list Dirent)) (fileRefs keywords : list string) (maxFiles : Z)
        (p why : string) :
  In (p, why) (findRelevantFiles root fileRefs keywords maxFiles) ->
  exists name,
    Walked root p name
    /\ In (Path.extname name) [".ts"; ".tsx"; ".js"; ".jsx"; ".rs"; ".py"; ".go"; ".md"]
    /\ skipName name = false.
Proof.
  intros Hin. apply RankFacts.returned_is_walked in Hin.
  destruct Hin as [name [Hw _]]. exists name. split; [exact Hw|].
  destruct Hw as [entries [entry [_ [_ Hr]]]]. split.
  - apply WalkMore.has_codeExtensions. eapply WalkMore.Reached_extension. exact Hr.
  - eapply PathFacts.Reached_not_skipped. exact Hr.
Qed.

Lemma returned_extension_witness :
  exists name,
    Walked mixedTree "main.rs" name
    /\ In (Path.extname name) [".ts"; ".tsx"; ".js"; ".jsx"; ".rs"; ".py"; ".go"; ".md"]
    /\ skipName name = false.
Proof.
  apply (returned_files_have_an_accepted_extension mixedTree [] [] defaultMaxFiles
                                                   "main.rs" "Entry point file").
  vm_compute. tauto.
Defined.

(** X4: the walk stops below the fifth directory level: in a tree whose
    entry names hold no path separator, a returned path has at most six
    components, five directories and the file name. *)
Theorem returned_paths_are_at_most_six_deep
        (root : option (list Dirent)) (fileRefs keywords : list string) (maxFiles : Z)
        (p why : string) :
  wellNamedTree root = true ->
  In (p, why) (findRelevantFiles root fileRefs keywords maxFiles) ->
  (length (JS.split "/" p) <= 6)%nat.
Proof.
  intros Hwf Hin. apply RankFacts.returned_is_walked in Hin.
  destruct Hin as [name [[entries [entry [-> [Hentry Hr]]]] _]].
  simpl in Hwf. rewrite forallb_forall in Hwf.
  pose proof (WalkMore.Reached_depth "" 0 entry p name Hr (Hwf _ Hentry)) as Hdepth.
  pose proof (WalkMore.split_length_components p).
  assert (length (ReasonSpec.components p) <= 6)%nat
    by (apply Hdepth; [simpl; lia | lia]).
  lia.
Qed.

Lemma returned_depth_witness : (length (JS.split "/" "src/auth.ts") <= 6)%nat.
Proof.
  apply (returned_paths_are_at_most_six_deep mixedTree ["auth.ts"] [] defaultMaxFiles
                                             "src/auth.ts" "Referenced in issue").
  - reflexivity.
  - vm_compute. now left.
Defined.

Module SameRank.

Import Fs ContextBuilder WalkSpec RankSpec.

Lemma Forall2_flat_map {A B C : Type} (R : B -> C -> Prop)
      (f : A -> list B) (g : A -> list C) (l : list A) :
  Forall (fun a => Forall2 R (f a) (g a)) l ->
  Forall2 R (flat_map f l) (flat_map g l).
Proof.
  induction 1 as [| a l Ha Hl IH]; simpl; [constructor|].
  now apply Forall2_app.
Qed.

Section Walks.
Variables refsA kwsA refsB kwsB : list string.
Hypothesis same_scores :
  forall rel name,
    fst (scoreFile refsA kwsA rel name) = fst (scoreFile refsB kwsB rel name).

Lemma walkEntry_sameRank (entry : Dirent) :
  forall (dirRel : string) (depth : nat),
    Forall2 sameRank (walkEntry refsA kwsA dirRel depth entry [])
                     (walkEntry refsB kwsB dirRel depth entry []).
Proof.
  induction entry as [name | name | name | name entries IH] using Dirent_nested_ind;
    intros dirRel depth.
  - rewrite !WalkFacts.walkEntry_file.
    destruct (skipName name); [constructor|].
    destruct (negb _); [constructor|].
    unfold pushScored. rewrite same_scores.
    destruct (0 <? _); [|constructor].
    simpl. constructor; [|constructor]. split; reflexivity.
  - rewrite !WalkFacts.walkEntry_other. constructor.
  - rewrite !WalkFacts.walkEntry_directory. unfold walkDir.
    destruct (skipName name), (5 <? S depth)%nat; constructor.
  - rewrite !WalkFacts.walkEntry_directory.
    destruct (skipName name); [constructor|].
    destruct (5 <? S depth)%nat eqn:Hdeep.
    + unfold walkDir. rewrite Hdeep. constructor.
    + apply Nat.ltb_ge in Hdeep.
      rewrite !WalkMore.walkDir_entries by lia. simpl.
      apply Forall2_flat_map.
      eapply Forall_impl; [|exact IH]. intros e He. apply He.
Qed.

Lemma walkDir_sameRank (root : option (list Dirent)) :
  Forall2 sameRank (walkDir refsA kwsA root "" 0 []) (walkDir refsB kwsB root "" 0 []).
Proof.
  destruct root as [entries |]; [|constructor].
  rewrite !WalkMore.walkDir_entries by lia. simpl.
  apply Forall2_flat_map. apply Forall_forall. intros e _. apply walkEntry_sameRank.
Qed.
End Walks.

Lemma insert_sameRank (x y : ScoredFile) (l1 l2 : list ScoredFile) :
  sameRank x y -> Forall2 sameRank l1 l2 ->
  Forall2 sameRank (JS.insert byScore x l1) (JS.insert byScore y l2).
Proof.
  intros Hxy Hl. induction Hl as [| a b l1 l2 Hab Hl IH]; simpl.
  - constructor; [exact Hxy | constructor].
  - unfold byScore at 1 3.
    destruct Hxy as [Hp Hs]. destruct Hab as [Hp' Hs'].
    rewrite Hs, Hs'.
    destruct (score b - score y <=? 0).
    + constructor; [now split|]. constructor; [now split | exact Hl].
    + constructor; [now split | exact IH].
Qed.

Lemma sort_sameRank (l1 l2 : list ScoredFile) :
  Forall2 sameRank l1 l2 ->
  Forall2 sameRank (JS.sort byScore l1) (JS.sort byScore l2).
Proof.
  induction 1 as [| a b l1 l2 Hab Hl IH]; simpl; [constructor|].
  now apply insert_sameRank.
Qed.

Lemma firstn_sameRank (n : nat) (l1 l2 : list ScoredFile) :
  Forall2 sameRank l1 l2 -> Forall2 sameRank (firstn n l1) (firstn n l2).
Proof.
  intros H. revert n. induction H as [| a b l1 l2 Hab Hl IH]; intros [| n]; simpl;
    constructor; auto.
Qed.

Lemma slice0_sameRank (e : Z) (l1 l2 : list ScoredFile) :
  Forall2 sameRank l1 l2 -> Forall2 sameRank (JS.slice0 l1 e) (JS.slice0 l2 e).
Proof.
  intros H. unfold JS.slice0. rewrite (Forall2_length H).
  now apply firstn_sameRank.
Qed.

Lemma sameRank_paths (l1 l2 : list ScoredFile) :
  Forall2 sameRank l1 l2 ->
  map (fun r => (path r, score r)) l1 = map (fun r => (path r, score r)) l2.
Proof.
  induction 1 as [| a b l1 l2 [Hp Hs] Hl IH]; simpl; [reflexivity|].
  now rewrite Hp, Hs, IH.
Qed.

End SameRank.

(** X5: keywords are matched without regard to letter case: two keyword
    lists that are equal once lower-cased give every file the same score,
    and the same files are returned in the same order with the same
    scores (only the spelling of the keyword in the reason can differ). *)
Theorem keywords_match_without_regard_to_case
        (root : option (list Dirent)) (fileRefs kws1 kws2 : list string) (maxFiles : Z) :
  map JS.toLowerCase kws1 = map JS.toLowerCase kws2 ->
  (forall rel name,
      fst (scoreFile fileRefs kws1 rel name) = fst (scoreFile fileRefs kws2 rel name))
  /\ map (fun r => (path r, score r)) (rankedFiles root fileRefs kws1 maxFiles)
     = map (fun r => (path r, score r)) (rankedFiles root fileRefs kws2 maxFiles)
  /\ map fst (findRelevantFiles root fileRefs kws1 maxFiles)
     = map fst (findRelevantFiles root fileRefs kws2 maxFiles).
Proof.
  intros Hsame.
  assert (Hscore : forall rel name,
             fst (scoreFile fileRefs kws1 rel name)
             = fst (scoreFile fileRefs kws2 rel name)).
  { intros rel name. rewrite !ScoreFacts.scoreFile_score.
    now rewrite !WalkMore.keywordHit_folded, Hsame. }
  assert (Hranked : Forall2 RankSpec.sameRank
                            (rankedFiles root fileRefs kws1 maxFiles)
                            (rankedFiles root fileRefs kws2 maxFiles)).
  { unfold rankedFiles. apply SameRank.slice0_sameRank, SameRank.sort_sameRank.
    now apply SameRank.walkDir_sameRank. }
  split; [exact Hscore|]. split.
  - now apply SameRank.sameRank_paths.
  - unfold findRelevantFiles. rewrite !map_map. simpl.
    apply SameRank.sameRank_paths in Hranked.
    apply (f_equal (map fst)) in Hranked. now rewrite !map_map in Hranked.
Qed.

Lemma keywords_case_witness :
  map fst (findRelevantFiles loginTree [] ["LOGIN"] defaultMaxFiles)
  = map fst (findRelevantFiles loginTree [] ["login"] defaultMaxFiles).
Proof.
  apply (keywords_match_without_regard_to_case loginTree [] ["LOGIN"] ["login"]
                                               defaultMaxFiles).
  reflexivity.
Defined.

(** X6: an empty reference token matches every file: with the empty
    string among the references, every file the walk reaches is kept with
    the reason "Referenced in issue" and a score of at least 10. *)
Theorem empty_reference_matches_every_file
        (root : option (list Dirent)) (fileRefs keywords : list string)
        (rel name : string) :
  In "" fileRefs ->
  Walked root rel name ->
  10 <= fst (scoreFile fileRefs keywords rel name)
  /\ In {| path := rel; reason := "Referenced in issue";
           score := fst (scoreFile fileRefs keywords rel name) |}
        (walkDir fileRefs keywords root "" 0 []).
Proof.
  intros Hempty Hw.
  assert (Hhit : existsb (refHit rel name) fileRefs = true).
  { apply existsb_exists. exists "". split; [exact Hempty|].
    unfold refHit. now rewrite WalkMore.includes_empty. }
  assert (Hten : 10 <= fst (scoreFile fileRefs keywords rel name)).
  { rewrite ScoreFacts.scoreFile_score, Hhit. unfold points at 1.
    unfold points.
    destruct (existsb _ (firstn 20 keywords)), (String.eqb name "README.md"),
      (isEntryPoint name); lia. }
  split; [exact Hten|].
  apply WalkFacts.walkDir_root_In. exists rel, name.
  split; [exact Hw|]. split; [lia|].
  unfold scoredFile. f_equal.
  rewrite ScorerMore.positive_reason by lia.
  unfold ReasonSpec.reasonByPriority. now rewrite Hhit.
Qed.

Lemma empty_reference_witness :
  10 <= fst (scoreFile [""] [] "src/app.ts" "app.ts")
  /\ In {| path := "src/app.ts"; reason := "Referenced in issue";
           score := fst (scoreFile [""] [] "src/app.ts" "app.ts") |}
        (walkDir [""] [] plainReadme "" 0 []).
Proof.
  apply (empty_reference_matches_every_file plainReadme [""] [] "src/app.ts" "app.ts").
  - now left.
  - exists [File "README.md"; Directory "src" (Some [File "app.ts"])],
           (Directory "src" (Some [File "app.ts"])).
    split; [reflexivity|]. split; [right; now left|].
    apply (reached_below "" 0 "src" [File "app.ts"] (File "app.ts")).
    + reflexivity.
    + lia.
    + now left.
    + apply (reached_file "src" 1 "app.ts"); reflexivity.
Defined.

(** X7: a directory contributes, in the order of its listing, what each
    of its entries contributes on its own, so an entry's failure does not
    touch its siblings: a directory that cannot be listed, and an entry
    that is neither a file nor a directory, contribute nothing. *)
Theorem entries_contribute_independently
        (fileRefs keywords : list string) (entries : list Dirent)
        (dirRel : string) (depth : nat) (results : list ScoredFile) :
  (depth <= 5)%nat ->
  walkDir fileRefs keywords (Some entries) dirRel depth results
  = results ++ flat_map (fun e => walkEntry fileRefs keywords dirRel depth e []) entries
  /\ (forall name, walkEntry fileRefs keywords dirRel depth (Directory name None) [] = [])
  /\ (forall name, walkEntry fileRefs keywords dirRel depth (Other name) [] = [])
  /\ (forall before broken after,
         entries = before ++ Directory broken None :: after ->
         walkDir fileRefs keywords (Some entries) dirRel depth results
         = walkDir fileRefs keywords (Some (before ++ after)) dirRel depth results).
Proof.
  intros Hdepth.
  assert (Hnone : forall name,
             walkEntry fileRefs keywords dirRel depth (Directory name None) [] = []).
  { intros name. rewrite WalkFacts.walkEntry_directory. unfold walkDir.
    now destruct (skipName name), (5 <? S depth)%nat. }
  split; [now apply WalkMore.walkDir_entries|].
  split; [exact Hnone|].
  split; [intros name; apply WalkFacts.walkEntry_other|].
  intros before broken after ->.
  rewrite !WalkMore.walkDir_entries by exact Hdepth.
  rewrite !flat_map_app. cbn [flat_map]. now rewrite Hnone.
Qed.

Lemma entries_independent_witness :
  walkDir ["auth.ts"] [] (Some [File "auth.ts"; Directory "locked" None; File "main.rs"])
          "" 0 []
  = walkDir ["auth.ts"] [] (Some ([File "auth.ts"] ++ [File "main.rs"])) "" 0 [].
Proof.
  destruct (entries_contribute_independently
              ["auth.ts"] [] [File "auth.ts"; Directory "locked" None; File "main.rs"]
              "" 0 []) as (_ & _ & _ & Hdrop).
  - lia.
  - apply (Hdrop [File "auth.ts"] "locked" [File "main.rs"]). reflexivity.
Defined.

(* ================================================================== *)
(** * Facts about splitting and joining                                *)
(* ================================================================== *)

Module TextFacts.

Import TextSpec.

Lemma split_lacks (c : ascii) (s : string) :
  lacks c s = true -> JS.split c s = [s].
Proof.
  induction s as [| d s IH]; simpl; intros H; [reflexivity|].
  apply andb_prop in H. destruct H as [Hd Hs].
  apply negb_true_iff in Hd. rewrite Hd, (IH Hs). reflexivity.
Qed.

Lemma split_pieces_lack (c : ascii) (s : string) :
  Forall (fun piece => lacks c piece = true) (JS.split c s).
Proof.
  induction s as [| d s IH]; simpl.
  - constructor; [reflexivity | constructor].
  - destruct (Ascii.eqb d c) eqn:Hd.
    + constructor; [reflexivity | exact IH].
    + destruct (JS.split c s) as [| piece pieces]; [constructor; [|constructor] |].
      * simpl. now rewrite Hd.
      * inversion IH as [| ? ? Hpiece Hpieces]; subst.
        constructor; [|exact Hpieces]. simpl. now rewrite Hd, Hpiece.
Qed.

Lemma join_cons (sep x : string) (y : string) (rest : list string) :
  JS.join sep (x :: y :: rest) = x +++ sep +++ JS.join sep (y :: rest).
Proof. reflexivity. Qed.

Lemma append_String (a : string) (c : ascii) (b : string) :
  a +++ String c "" +++ b = a +++ String c b.
Proof. reflexivity. Qed.

Lemma join_String (sep : string) (d : ascii) (piece : string) (pieces : list string) :
  JS.join sep (String d piece :: pieces) = String d (JS.join sep (piece :: pieces)).
Proof. destruct pieces; reflexivity. Qed.

(** Joining the pieces of a split gives the text back. *)
Lemma join_split (c : ascii) (s : string) :
  JS.join (String c "") (JS.split c s) = s.
Proof.
  induction s as [| d s IH]; [reflexivity|].
  simpl JS.split. pose proof (PathFacts.split_nonempty c s) as Hnil.
  destruct (Ascii.eqb_spec d c) as [-> | Hne];
    destruct (JS.split c s) as [| piece pieces] eqn:E; try congruence.
  - rewrite join_cons, IH. reflexivity.
  - rewrite join_String, IH. reflexivity.
Qed.

(** Splitting a join of pieces that lack the separator gives the pieces
    back. *)
Lemma split_join (c : ascii) (pieces : list string) :
  pieces <> [] ->
  Forall (fun piece => lacks c piece = true) pieces ->
  JS.split c (JS.join (String c "") pieces) = pieces.
Proof.
  intros Hne Hall. induction Hall as [| piece rest Hpiece Hrest IH]; [congruence|].
  destruct rest as [| piece' rest'].
  - simpl. now apply split_lacks.
  - rewrite join_cons, append_String, PathFacts.split_append.
    rewrite (split_lacks c piece Hpiece), IH by discriminate. reflexivity.
Qed.

Lemma split_separator_first (c : ascii) (s : string) :
  JS.split c (String c s) = "" :: JS.split c s.
Proof. simpl. now rewrite Ascii.eqb_refl. Qed.

Lemma lacks_app (c : ascii) (a b : string) :
  lacks c (a +++ b) = lacks c a && lacks c b.
Proof.
  induction a as [| d a IH]; simpl; [reflexivity|].
  now rewrite IH, andb_assoc.
Qed.

Lemma digits_lack_newline (d : Decimal.uint) :
  lacks newline (NilEmpty.string_of_uint d) = true.
Proof. induction d; simpl; auto. Qed.

Lemma showNat_lacks_newline (n : nat) : lacks newline (JS.showNat n) = true.
Proof. apply digits_lack_newline. Qed.

Lemma firstn_nonempty {A : Type} (n : nat) (l : list A) :
  (0 < n)%nat -> l <> [] -> firstn n l <> [].
Proof. destruct n, l; simpl; try lia; congruence. Qed.

End TextFacts.

(* ================================================================== *)
(** * Further properties of the task brief                             *)
(* ================================================================== *)

(** X8: [readFileContent] caps a file at [maxLines] lines (500 by
    default).  A file of at most [maxLines] lines is returned as it is; a
    longer one is cut to its first [maxLines] lines, followed by an empty
    line and a line that tells how many lines were left out, so the
    result has [maxLines + 2] lines. *)
Theorem readFileContent_caps_the_lines
        (readFile : string -> Effect.Outcome string) (filePath content : string)
        (maxLines : Z) :
  readFile filePath = Effect.Returned content ->
  0 < maxLines ->
  let lines := JS.split TextSpec.newline content in
  let left := Z.of_nat (length lines) - maxLines in
  (Z.of_nat (length lines) <= maxLines ->
   readFileContent readFile filePath maxLines = content)
  /\ (maxLines < Z.of_nat (length lines) ->
      JS.split TextSpec.newline (readFileContent readFile filePath maxLines)
      = firstn (Z.to_nat maxLines) lines
        ++ [""; "... (truncated, " +++ JS.showNat (Z.to_nat left) +++ " more lines)"]
      /\ Z.of_nat (length (JS.split TextSpec.newline
                                    (readFileContent readFile filePath maxLines)))
         = maxLines + 2).
Proof.
  intros Hread Hmax lines left. unfold readFileContent. rewrite Hread.
  fold TextSpec.newline. fold lines.
  split.
  - intros Hfits. replace (maxLines <? Z.of_nat (length lines)) with false
      by (symmetry; apply Z.ltb_ge; exact Hfits).
    reflexivity.
  - intros Hlong. rewrite (proj2 (Z.ltb_lt _ _) Hlong).
    rewrite JSFacts.slice0_nonneg by lia.
    assert (Hshow : JS.showInt (Z.of_nat (length lines) - maxLines)
                    = JS.showNat (Z.to_nat left)).
    { unfold JS.showInt. fold left.
      replace (left <? 0) with false by (symmetry; apply Z.ltb_ge; unfold left; lia).
      reflexivity. }
    rewrite Hshow.
    assert (Hsplit :
      JS.split TextSpec.newline
        (JS.join (String TextSpec.newline "") (firstn (Z.to_nat maxLines) lines)
         +++ String TextSpec.newline
               (String TextSpec.newline "... (truncated, ")
         +++ JS.showNat (Z.to_nat left) +++ " more lines)")
      = firstn (Z.to_nat maxLines) lines
        ++ [""; "... (truncated, " +++ JS.showNat (Z.to_nat left) +++ " more lines)"]).
    { change (String TextSpec.newline (String TextSpec.newline "... (truncated, ")
              +++ JS.showNat (Z.to_nat left) +++ " more lines)")
        with (String TextSpec.newline
                (String TextSpec.newline
                   ("... (truncated, " +++ JS.showNat (Z.to_nat left) +++ " more lines)"))).
      rewrite PathFacts.split_append.
      rewrite TextFacts.split_join.
      - f_equal. rewrite TextFacts.split_separator_first. f_equal.
        apply TextFacts.split_lacks.
        rewrite !TextFacts.lacks_app, TextFacts.showNat_lacks_newline. reflexivity.
      - apply TextFacts.firstn_nonempty; [lia | apply PathFacts.split_nonempty].
      - apply Forall_forall. intros piece Hin.
        assert (Hline : In piece lines)
          by (rewrite <- (firstn_skipn (Z.to_nat maxLines) lines);
              apply in_or_app; now left).
        clear Hin. rename Hline into Hin.
        pose proof (TextFacts.split_pieces_lack TextSpec.newline content) as Hall.
        rewrite Forall_forall in Hall. now apply Hall. }
    split; [exact Hsplit|].
    rewrite Hsplit, length_app, length_firstn. simpl. lia.
Qed.

Lemma readFileContent_caps_witness :
  JS.split TextSpec.newline
           (readFileContent
              (fun _ => Effect.Returned
                          (JS.join (String TextSpec.newline "") ["a"; "b"; "c"; "d"; "e"]))
              "/repo/notes.md" 2)
  = ["a"; "b"; ""; "... (truncated, 3 more lines)"].
Proof.
  destruct (readFileContent_caps_the_lines
              (fun _ => Effect.Returned
                          (JS.join (String TextSpec.newline "") ["a"; "b"; "c"; "d"; "e"]))
              "/repo/notes.md"
              (JS.join (String TextSpec.newline "") ["a"; "b"; "c"; "d"; "e"]) 2)
    as [_ Hcut].
  - reflexivity.
  - lia.
  - destruct Hcut as [Hlines _]; [vm_compute; reflexivity|]. exact Hlines.
Defined.

(* ================================================================== *)
(** * Facts about the matcher                                          *)
(* ================================================================== *)

Module RegexFacts.

Import Regex RegexSpec TextSpec.

Lemma append_empty (s : string) : s +++ "" = s.
Proof. induction s as [| c s IH]; simpl; [reflexivity | now rewrite IH]. Qed.

Lemma append_assoc (a b c : string) : (a +++ b) +++ c = a +++ b +++ c.
Proof. induction a as [| d a IH]; simpl; [reflexivity | now rewrite IH]. Qed.

Lemma length_append (a b : string) :
  String.length (a +++ b) = (String.length a + String.length b)%nat.
Proof. induction a as [| d a IH]; simpl; [reflexivity | now rewrite IH]. Qed.

Lemma lastOf_append (prev : option ascii) (a b : string) :
  lastOf prev (a +++ b) = lastOf (lastOf prev a) b.
Proof. revert prev. induction a as [| d a IH]; intros prev; simpl; [reflexivity | apply IH]. Qed.

Lemma star_sound (p : ascii -> bool) (k : cont) (s : string) :
  forall prev n m,
    star p k prev s n = Some m ->
    exists w rest,
      s = w +++ rest /\ Step (Star p) prev w rest
      /\ k (lastOf prev w) rest (n + String.length w)%nat = Some m.
Proof.
  induction s as [| c s IH]; intros prev n m H; simpl in H.
  - exists "", "". rewrite Nat.add_0_r. repeat split; [constructor | exact H].
  - destruct (p c) eqn:Hc.
    + destruct (star p k (Some c) s (S n)) as [m' |] eqn:Hmore.
      * injection H as <-. destruct (IH _ _ _ Hmore) as [w [rest [-> [Hstep Hk]]]].
        exists (String c w), rest. simpl.
        replace (n + S (String.length w))%nat with (S n + String.length w)%nat by lia.
        repeat split; [now constructor | exact Hk].
      * exists "", (String c s). rewrite Nat.add_0_r.
        repeat split; [constructor | exact H].
    + exists "", (String c s). rewrite Nat.add_0_r.
      repeat split; [constructor | exact H].
Qed.

(** Whatever the matcher accepts, the expression can read. *)
Lemma exec_sound (r : re) :
  forall k prev s n m,
    exec r k prev s n = Some m ->
    exists w rest,
      s = w +++ rest /\ Step r prev w rest
      /\ k (lastOf prev w) rest (n + String.length w)%nat = Some m.
Proof.
  induction r as [p | p | p | r1 IH1 r2 IH2 | r1 IH1 r2 IH2 |];
    intros k prev s n m H; simpl in H.
  - destruct s as [| c s]; [discriminate|]. destruct (p c) eqn:Hc; [|discriminate].
    exists (String c ""), s. simpl. replace (n + 1)%nat with (S n) by lia.
    repeat split; [now constructor | exact H].
  - destruct s as [| c s]; [discriminate|]. destruct (p c) eqn:Hc; [|discriminate].
    destruct (star_sound _ _ _ _ _ _ H) as [w [rest [-> [Hstep Hk]]]].
    exists (String c w), rest. simpl.
    replace (n + S (String.length w))%nat with (S n + String.length w)%nat by lia.
    repeat split; [now constructor | exact Hk].
  - now apply star_sound.
  - destruct (IH1 _ _ _ _ _ H) as [w1 [rest1 [-> [Hstep1 Hk1]]]].
    destruct (IH2 _ _ _ _ _ Hk1) as [w2 [rest [-> [Hstep2 Hk2]]]].
    exists (w1 +++ w2), rest.
    rewrite append_assoc, lastOf_append, length_append, Nat.add_assoc.
    repeat split; [now constructor | exact Hk2].
  - destruct (exec r1 k prev s n) as [m' |] eqn:Hleft.
    + injection H as <-. destruct (IH1 _ _ _ _ _ Hleft) as [w [rest [-> [Hstep Hk]]]].
      exists w, rest. repeat split; [now apply step_alt_left | exact Hk].
    + destruct (IH2 _ _ _ _ _ H) as [w [rest [-> [Hstep Hk]]]].
      exists w, rest. repeat split; [now apply step_alt_right | exact Hk].
  - destruct (xorb _ _) eqn:Hb; [|discriminate].
    exists "", s. rewrite Nat.add_0_r. repeat split; [now constructor | exact H].
Qed.

Lemma allChars_weaken (p q : ascii -> bool) (w : string) :
  (forall c, p c = true -> q c = true) ->
  allChars p w = true -> allChars q w = true.
Proof.
  intros Hpq. induction w as [| c w IH]; simpl; [reflexivity|].
  intros H. apply andb_prop in H. destruct H as [Hc Hw].
  now rewrite (Hpq c Hc), (IH Hw).
Qed.

Lemma allChars_append (p : ascii -> bool) (a b : string) :
  allChars p (a +++ b) = allChars p a && allChars p b.
Proof.
  induction a as [| c a IH]; simpl; [reflexivity|].
  now rewrite IH, andb_assoc.
Qed.

(** What an expression reads is made of characters of its classes. *)
Lemma Step_alphabet (r : re) (prev : option ascii) (w rest : string) :
  Step r prev w rest -> allChars (alphabet r) w = true.
Proof.
  induction 1 as [p prev c rest Hc | p prev rest | p prev c w rest Hc Hs IH
                 | p prev c w rest Hc Hs IH
                 | r1 r2 prev w1 w2 rest Hs1 IH1 Hs2 IH2
                 | r1 r2 prev w rest Hs IH | r1 r2 prev w rest Hs IH
                 | prev rest Hb]; simpl; try reflexivity.
  - now rewrite Hc.
  - rewrite Hc. exact IH.
  - rewrite Hc. exact IH.
  - rewrite allChars_append. apply andb_true_intro. split.
    + eapply allChars_weaken; [|exact IH1]. intros c Hc. now rewrite Hc.
    + eapply allChars_weaken; [|exact IH2]. intros c Hc. rewrite Hc. apply orb_true_r.
  - eapply allChars_weaken; [|exact IH]. intros c Hc. now rewrite Hc.
  - eapply allChars_weaken; [|exact IH]. intros c Hc. rewrite Hc. apply orb_true_r.
Qed.

Lemma substring_prefix (w rest : string) :
  substring 0 (String.length w) (w +++ rest) = w.
Proof.
  induction w as [| c w IH]; simpl.
  - now destruct rest.
  - now rewrite IH.
Qed.

(** Every match of a scan is what the expression reads at some place
    of the text. *)
Lemma scan_sound (r : re) (s : string) :
  forall prev skip m,
    In m (scan r prev s skip) ->
    exists pre rest,
      s = pre +++ m +++ rest /\ Step r (lastOf prev pre) m rest.
Proof.
  induction s as [| c s IH]; intros prev skip m Hin; cbn -[substring] in Hin.
  - destruct skip; [|destruct Hin].
    destruct (exec r accept prev "" 0) as [k |] eqn:Hexec; [|destruct Hin].
    destruct Hin as [<- | []].
    destruct (exec_sound _ _ _ _ _ _ Hexec) as [w [rest [Heq [Hstep _]]]].
    destruct w; [|discriminate]. destruct rest; [|discriminate].
    exists "", "". split; [reflexivity | exact Hstep].
  - assert (Hlater : forall skip',
               In m (scan r (Some c) s skip') ->
               exists pre rest,
                 String c s = pre +++ m +++ rest /\ Step r (lastOf prev pre) m rest).
    { intros skip' H. destruct (IH _ _ _ H) as [pre [rest [-> Hstep]]].
      exists (String c pre), rest. split; [reflexivity | exact Hstep]. }
    destruct skip as [| j]; [|now apply Hlater with (skip' := j)].
    destruct (exec r accept prev (String c s) 0) as [k |] eqn:Hexec;
      [|now apply Hlater with (skip' := 0%nat)].
    destruct Hin as [<- | Hin]; [|now apply Hlater with (skip' := Nat.pred k)].
    destruct (exec_sound _ _ _ _ _ _ Hexec) as [w [rest [Heq [Hstep Hk]]]].
    unfold accept in Hk. injection Hk as <-. simpl Nat.add. rewrite Heq.
    exists "", rest. rewrite substring_prefix. split; [reflexivity | exact Hstep].
Qed.

End RegexFacts.

Module ShapeFacts.

Import Regex RegexSpec TextSpec.

Lemma Step_nullable (r : re) (prev : option ascii) (w rest : string) :
  Step r prev w rest -> w = "" -> nullable r = true.
Proof.
  induction 1 as [p prev c rest Hc | p prev rest | p prev c w rest Hc Hs IH
                 | p prev c w rest Hc Hs IH
                 | r1 r2 prev w1 w2 rest Hs1 IH1 Hs2 IH2
                 | r1 r2 prev w rest Hs IH | r1 r2 prev w rest Hs IH
                 | prev rest Hb]; simpl; intros Hw; try discriminate; try reflexivity.
  - destruct w1; [|discriminate]. simpl in Hw. now rewrite IH1, IH2.
  - now rewrite IH.
  - rewrite IH by assumption. apply orb_true_r.
Qed.

Lemma Step_first (r : re) (prev : option ascii) (w rest : string) :
  Step r prev w rest -> forall c w', w = String c w' -> first r c = true.
Proof.
  induction 1 as [p prev c rest Hc | p prev rest | p prev c w rest Hc Hs IH
                 | p prev c w rest Hc Hs IH
                 | r1 r2 prev w1 w2 rest Hs1 IH1 Hs2 IH2
                 | r1 r2 prev w rest Hs IH | r1 r2 prev w rest Hs IH
                 | prev rest Hb]; simpl; intros c0 w0 Hw; try discriminate.
  - now injection Hw as <- _.
  - now injection Hw as <- _.
  - now injection Hw as <- _.
  - destruct w1 as [| d w1].
    + simpl in Hw. rewrite (Step_nullable _ _ _ _ Hs1 eq_refl), (IH2 _ _ Hw).
      apply orb_true_r.
    + simpl in Hw. injection Hw as <- _. now rewrite (IH1 _ _ eq_refl).
  - now rewrite (IH _ _ Hw).
  - rewrite (IH _ _ Hw). apply orb_true_r.
Qed.

Lemma Step_minLength (r : re) (prev : option ascii) (w rest : string) :
  Step r prev w rest -> (minLength r <= String.length w)%nat.
Proof.
  induction 1; simpl; try lia.
  rewrite RegexFacts.length_append. lia.
Qed.

Lemma Step_wordb_inv (prev : option ascii) (w rest : string) :
  Step WordB prev w rest ->
  w = "" /\ xorb (isWordAt prev) (isWordAt (headOf rest)) = true.
Proof. intros H. inversion H; subst. auto. Qed.

Lemma Step_seq_inv (r1 r2 : re) (prev : option ascii) (w rest : string) :
  Step (Seq r1 r2) prev w rest ->
  exists w1 w2,
    w = w1 +++ w2 /\ Step r1 prev w1 (w2 +++ rest) /\ Step r2 (lastOf prev w1) w2 rest.
Proof. intros H. inversion H; subst. eauto. Qed.

Lemma lastOf_nonempty (q : ascii -> bool) (prev : option ascii) (w : string) :
  w <> "" -> allChars q w = true ->
  exists c, lastOf prev w = Some c /\ q c = true.
Proof.
  revert prev. induction w as [| d w IH]; intros prev Hne Hall; [congruence|].
  simpl in *. apply andb_prop in Hall. destruct Hall as [Hd Hw].
  destruct w as [| e w'].
  - exists d. auto.
  - apply IH; [discriminate | exact Hw].
Qed.

(** A word read between two word boundaries, when its characters are
    word characters, has no word character on either side. *)
Lemma bounded_word (r : re) (prev : option ascii) (m rest : string) :
  Step (Seq WordB (Seq r WordB)) prev m rest ->
  (forall c, alphabet r c = true -> JS.isWord c = true) ->
  (1 <= minLength r)%nat ->
  Step r prev m rest
  /\ isWordAt prev = false /\ isWordAt (headOf rest) = false.
Proof.
  intros Hstep Hword Hmin.
  apply Step_seq_inv in Hstep. destruct Hstep as [w1 [w2 [-> [Hb1 Hrest]]]].
  apply Step_wordb_inv in Hb1. destruct Hb1 as [-> Hx1]. simpl in *.
  apply Step_seq_inv in Hrest. destruct Hrest as [w3 [w4 [-> [Hr Hb2]]]].
  apply Step_wordb_inv in Hb2. destruct Hb2 as [-> Hx2]. simpl in *.
  rewrite RegexFacts.append_empty in *.
  pose proof (Step_minLength _ _ _ _ Hr) as Hlen.
  pose proof (Step_alphabet_word := RegexFacts.Step_alphabet _ _ _ _ Hr).
  assert (Hall : allChars JS.isWord w3 = true)
    by (eapply RegexFacts.allChars_weaken; [exact Hword | exact Step_alphabet_word]).
  split; [exact Hr|].
  destruct w3 as [| c w3']; [simpl in Hlen; lia|].
  split.
  - simpl in Hx1, Hall. apply andb_prop in Hall. destruct Hall as [Hc _].
    rewrite Hc in Hx1. now destruct (isWordAt prev).
  - destruct (lastOf_nonempty JS.isWord prev (String c w3')) as [d [Hlast Hd]];
      [discriminate | exact Hall |].
    rewrite Hlast in Hx2. simpl in Hx2. rewrite Hd in Hx2.
    now destruct (isWordAt (headOf rest)).
Qed.

End ShapeFacts.

(* ================================================================== *)
(** * Facts about the keyword extractor                                *)
(* ================================================================== *)

Module KeywordFacts.

Import Regex RegexSpec TextSpec ContextBuilder KeywordSpec.

Lemma uniqueFrom_In (seen xs : list string) (x : string) :
  In x (JS.uniqueFrom seen xs) <-> In x xs /\ ~ In x seen.
Proof.
  revert seen. induction xs as [| y xs IH]; intros seen; simpl.
  - tauto.
  - destruct (JS.has seen y) eqn:Hseen.
    + rewrite IH. unfold JS.has in Hseen. apply existsb_exists in Hseen.
      destruct Hseen as [z [Hz Heq]]. apply String.eqb_eq in Heq. subst z.
      split; [tauto|]. intros [[-> | H] Hn]; tauto.
    + assert (Hnot : ~ In y seen).
      { intros Hin. unfold JS.has in Hseen.
        assert (existsb (String.eqb y) seen = true)
          by (apply existsb_exists; exists y; split; [exact Hin | apply String.eqb_refl]).
        congruence. }
      simpl. rewrite IH. simpl. split.
      * intros [<- | [Hin Hn]]; [tauto|]. split; [tauto|]. intros Hs. apply Hn. now right.
      * intros [[-> | Hin] Hn]; [now left|].
        destruct (string_dec y x) as [-> | Hne]; [now left|].
        right. split; [exact Hin|]. intros [H | H]; [congruence | tauto].
Qed.

Lemma uniqueFrom_NoDup (seen xs : list string) : NoDup (JS.uniqueFrom seen xs).
Proof.
  revert seen. induction xs as [| y xs IH]; intros seen; simpl; [constructor|].
  destruct (JS.has seen y); [apply IH|].
  constructor; [|apply IH].
  rewrite uniqueFrom_In. simpl. tauto.
Qed.

Lemma unique_In (xs : list string) (x : string) : In x (JS.unique xs) <-> In x xs.
Proof. unfold JS.unique. rewrite uniqueFrom_In. simpl. tauto. Qed.

Lemma unique_NoDup (xs : list string) : NoDup (JS.unique xs).
Proof. apply uniqueFrom_NoDup. Qed.

Lemma blankOthers_kept (s : string) : allChars isKeptChar (blankOthers s) = true.
Proof.
  induction s as [| c s IH]; simpl; [reflexivity|].
  rewrite IH, andb_true_r. unfold isKeptChar.
  destruct (JS.isLower c || JS.isDigit c || JS.isSpace c) eqn:E; [exact E | reflexivity].
Qed.

Lemma splitSpaces_nonempty (s : string) (inRun : bool) : splitSpaces s inRun <> [].
Proof.
  revert inRun. induction s as [| c s IH]; intros inRun; simpl; [discriminate|].
  destruct (JS.isSpace c).
  - destruct inRun; [apply IH | discriminate].
  - destruct (splitSpaces s false); discriminate.
Qed.

(** The pieces hold no white space, and nothing the text did not hold. *)
Lemma splitSpaces_pieces (q : ascii -> bool) (s : string) :
  allChars q s = true ->
  forall inRun,
    Forall (fun piece => allChars (fun c => q c && negb (JS.isSpace c)) piece = true)
           (splitSpaces s inRun).
Proof.
  induction s as [| c s IH]; intros Hall inRun; simpl.
  - constructor; [reflexivity | constructor].
  - simpl in Hall. apply andb_prop in Hall. destruct Hall as [Hc Hs].
    destruct (JS.isSpace c) eqn:Hspace.
    + destruct inRun; [now apply IH|].
      constructor; [reflexivity | now apply IH].
    + specialize (IH Hs false).
      destruct (splitSpaces s false) as [| piece pieces]; [constructor; [|constructor] |].
      * simpl. now rewrite Hc, Hspace.
      * inversion IH as [| ? ? Hpiece Hpieces]; subst.
        constructor; [|exact Hpieces]. simpl. now rewrite Hc, Hspace, Hpiece.
Qed.

Lemma kept_and_no_space (c : ascii) :
  isKeptChar c && negb (JS.isSpace c) = true -> isPlainChar c = true.
Proof.
  unfold isKeptChar, isPlainChar.
  destruct (JS.isLower c), (JS.isDigit c), (JS.isSpace c); simpl; congruence.
Qed.

(** The words kept by the filter. *)
Lemma word_shape (text w : string) :
  In w (filter (fun w => (3 <? String.length w)%nat && negb (JS.has stopWords w))
               (splitSpaces (blankOthers (JS.toLowerCase text)) false)) ->
  (3 < String.length w)%nat
  /\ ~ In w stopWords
  /\ allChars isPlainChar w = true.
Proof.
  intros Hin. apply filter_In in Hin. destruct Hin as [Hpiece Hkeep].
  apply andb_prop in Hkeep. destruct Hkeep as [Hlen Hstop].
  apply Nat.ltb_lt in Hlen. apply negb_true_iff in Hstop.
  split; [exact Hlen|]. split.
  - intros Hin. unfold JS.has in Hstop.
    assert (existsb (String.eqb w) stopWords = true)
      by (apply existsb_exists; exists w; split; [exact Hin | apply String.eqb_refl]).
    congruence.
  - pose proof (splitSpaces_pieces isKeptChar _ (blankOthers_kept (JS.toLowerCase text))
                                   false) as Hall.
    rewrite Forall_forall in Hall. specialize (Hall w Hpiece).
    eapply RegexFacts.allChars_weaken; [|exact Hall]. apply kept_and_no_space.
Qed.

Lemma identifier_alphabet (c : ascii) :
  alphabet (Alt pascalCase (Alt snakeCase screamingCase)) c = true ->
  isIdentifierChar c = true.
Proof.
  simpl. unfold isIdentifierChar, isLowerOrUnderscore, isUpperOrUnderscore, isAlpha.
  destruct (JS.isUpper c), (JS.isLower c), (isUnderscore c); simpl; congruence.
Qed.

Lemma identifier_first (c : ascii) :
  first (Alt pascalCase (Alt snakeCase screamingCase)) c = true -> isAlpha c = true.
Proof.
  simpl. unfold isAlpha.
  destruct (JS.isUpper c), (JS.isLower c); simpl; congruence.
Qed.

Lemma identifierChar_isWord (c : ascii) : isIdentifierChar c = true -> JS.isWord c = true.
Proof.
  unfold isIdentifierChar, isAlpha, isUnderscore, JS.isWord.
  destruct (JS.isUpper c), (JS.isLower c), (JS.isDigit c), (Ascii.eqb c "_");
    simpl; congruence.
Qed.

(** The identifiers the pattern finds. *)
Lemma identifier_shape (text m : string) :
  In m (matchAll identifierPattern text) ->
  exists pre rest c m',
    text = pre +++ m +++ rest
    /\ m = String c m' /\ isAlpha c = true
    /\ (2 <= String.length m)%nat
    /\ allChars isIdentifierChar m = true
    /\ isWordAt (lastOf None pre) = false
    /\ isWordAt (headOf rest) = false.
Proof.
  intros Hin. apply RegexFacts.scan_sound in Hin.
  destruct Hin as [pre [rest [Htext Hstep]]].
  apply ShapeFacts.bounded_word in Hstep;
    [| intros c Hc; now apply identifierChar_isWord, identifier_alphabet
     | simpl; lia ].
  destruct Hstep as [Hr [Hbefore Hafter]].
  pose proof (ShapeFacts.Step_minLength _ _ _ _ Hr) as Hlen. simpl in Hlen.
  pose proof (RegexFacts.Step_alphabet _ _ _ _ Hr) as Hall.
  destruct m as [| c m']; [simpl in Hlen; lia|].
  exists pre, rest, c, m'.
  split; [exact Htext|]. split; [reflexivity|].
  split; [apply identifier_first; now apply (ShapeFacts.Step_first _ _ _ _ Hr c m')|].
  split; [exact Hlen|].
  split; [|split; assumption].
  eapply RegexFacts.allChars_weaken; [|exact Hall]. apply identifier_alphabet.
Qed.

End KeywordFacts.

(* ================================================================== *)
(** * Further properties of the keyword extractor                      *)
(* ================================================================== *)

(** X9: [extractKeywords] returns no keyword twice, and every keyword
    it returns is either an identifier found by the pattern or a word of
    more than three characters, made of lower-case letters and digits
    only, that is not a stop word. *)
Theorem keywords_are_distinct_identifiers_or_plain_words (text : string) :
  NoDup (extractKeywords text)
  /\ forall keyword,
      In keyword (extractKeywords text) ->
      In keyword (Regex.matchAll identifierPattern text)
      \/ ((3 < String.length keyword)%nat
          /\ ~ In keyword stopWords
          /\ TextSpec.allChars KeywordSpec.isPlainChar keyword = true).
Proof.
  split; [apply KeywordFacts.unique_NoDup|].
  intros keyword Hin. unfold extractKeywords in Hin.
  apply (proj1 (KeywordFacts.unique_In _ _)) in Hin. apply in_app_or in Hin.
  destruct Hin as [Hid | Hword]; [now left | right].
  now apply (KeywordFacts.word_shape text).
Qed.

Lemma keywords_shape_witness :
  In "parse_config" (Regex.matchAll identifierPattern "check parse_config first")
  \/ ((3 < String.length "parse_config")%nat
      /\ ~ In "parse_config" stopWords
      /\ TextSpec.allChars KeywordSpec.isPlainChar "parse_config" = true).
Proof.
  apply (keywords_are_distinct_identifiers_or_plain_words "check parse_config first").
  vm_compute. now left.
Defined.

(** X10: every identifier the pattern finds stands in the text as
    returned, as a whole word (no letter, digit or underscore directly
    before or after it); it has at least two characters, all of them
    letters or underscores, and starts with a letter. *)
Theorem identifiers_are_whole_words_of_the_text (text identifier : string) :
  In identifier (Regex.matchAll identifierPattern text) ->
  exists before after c tail,
    text = before +++ identifier +++ after
    /\ identifier = String c tail /\ isAlpha c = true
    /\ (2 <= String.length identifier)%nat
    /\ TextSpec.allChars KeywordSpec.isIdentifierChar identifier = true
    /\ Regex.isWordAt (RegexSpec.lastOf None before) = false
    /\ Regex.isWordAt (Regex.headOf after) = false.
Proof. apply KeywordFacts.identifier_shape. Qed.

Lemma identifiers_whole_words_witness :
  exists before after c tail,
    "see UserService now" = before +++ "UserService" +++ after
    /\ "UserService" = String c tail /\ isAlpha c = true
    /\ (2 <= String.length "UserService")%nat
    /\ TextSpec.allChars KeywordSpec.isIdentifierChar "UserService" = true
    /\ Regex.isWordAt (RegexSpec.lastOf None before) = false
    /\ Regex.isWordAt (Regex.headOf after) = false.
Proof.
  apply (identifiers_are_whole_words_of_the_text "see UserService now" "UserService").
  vm_compute. now left.
Defined.

(* ================================================================== *)
(** * Facts about branch names                                         *)
(* ================================================================== *)

Module SlugFacts.

Import TextSpec SlugSpec GitOps.

Lemma plain_is_no_dash (c : ascii) :
  JS.isLower c || JS.isDigit c = true -> isDash c = false.
Proof.
  unfold isDash. destruct (Ascii.eqb_spec c "-") as [-> | Hne]; [|reflexivity].
  vm_compute. discriminate.
Qed.

(** [dashRuns]: slug characters only, no two dashes in a row, and no
    dash first when the run is already open. *)
Lemma dashRuns_shape (s : string) :
  forall inRun,
    allChars isSlugChar (dashRuns s inRun) = true
    /\ noDoubleDash (dashRuns s inRun) = true
    /\ (inRun = true -> startsWithDash (dashRuns s inRun) = false).
Proof.
  induction s as [| c s IH]; intros inRun; simpl; [auto|].
  destruct (JS.isLower c || JS.isDigit c) eqn:Hplain.
  - destruct (IH false) as [Hall [Hdd _]]. simpl.
    rewrite Hall, Hdd. unfold isSlugChar. rewrite Hplain.
    rewrite (plain_is_no_dash c Hplain). auto.
  - destruct (IH true) as [Hall [Hdd Hstart]].
    destruct inRun; [auto|].
    simpl. rewrite Hall, Hdd, (Hstart eq_refl). auto.
Qed.

Lemma dropLeadingDashes_shape (s : string) :
  allChars isSlugChar s = true -> noDoubleDash s = true ->
  allChars isSlugChar (dropLeadingDashes s) = true
  /\ noDoubleDash (dropLeadingDashes s) = true
  /\ startsWithDash (dropLeadingDashes s) = false.
Proof.
  induction s as [| c s IH]; intros Hall Hdd; [simpl; auto|].
  simpl in Hall, Hdd. apply andb_prop in Hall. destruct Hall as [Hc Hall].
  apply andb_prop in Hdd. destruct Hdd as [Hhere Hdd].
  destruct (Ascii.eqb_spec c "-") as [-> | Hne].
  - simpl. now apply IH.
  - assert (Hkeep : dropLeadingDashes (String c s) = String c s).
    { destruct c as [[] [] [] [] [] [] [] []]; try reflexivity. now elim Hne. }
    rewrite Hkeep. simpl. rewrite Hc, Hall, Hhere, Hdd.
    repeat split. unfold isDash. now apply Ascii.eqb_neq.
Qed.

Lemma dropLeadingDashes_some (p : ascii -> bool) (s : string) :
  (forall c, p c = true -> isDash c = false) ->
  someChar p (dropLeadingDashes s) = someChar p s.
Proof.
  intros Hp. induction s as [| c s IH]; [reflexivity|].
  destruct (Ascii.eqb_spec c "-") as [-> | Hne].
  - simpl. rewrite IH. destruct (p "-"%char) eqn:Hd; [|reflexivity].
    apply Hp in Hd. discriminate.
  - assert (Hkeep : dropLeadingDashes (String c s) = String c s).
    { destruct c as [[] [] [] [] [] [] [] []]; try reflexivity. now elim Hne. }
    now rewrite Hkeep.
Qed.

Lemma dropTrailingDashes_shape (s : string) :
  allChars isSlugChar s = true -> noDoubleDash s = true ->
  allChars isSlugChar (dropTrailingDashes s) = true
  /\ noDoubleDash (dropTrailingDashes s) = true
  /\ endsWithDash (dropTrailingDashes s) = false
  /\ (startsWithDash s = false -> startsWithDash (dropTrailingDashes s) = false).
Proof.
  induction s as [| c s IH]; intros Hall Hdd; [simpl; auto|].
  simpl in Hall, Hdd. apply andb_prop in Hall. destruct Hall as [Hc Hall].
  apply andb_prop in Hdd. destruct Hdd as [Hhere Hdd].
  destruct (IH Hall Hdd) as [Hall' [Hdd' [Hend' Hstart']]].
  simpl. destruct (dropTrailingDashes s) as [| d t] eqn:Hdrop.
  - destruct (Ascii.eqb c "-") eqn:Hdash; simpl; [auto|].
    rewrite Hc. unfold isDash. rewrite Hdash. auto.
  - simpl in *. rewrite Hc, Hall', Hdd'.
    assert (Hsame : startsWithDash s = isDash d).
    { destruct s as [| e s']; [discriminate|]. simpl in Hdrop |- *.
      destruct (dropTrailingDashes s') eqn:E.
      - destruct (Ascii.eqb e "-"); [discriminate|]. now injection Hdrop as <- _.
      - now injection Hdrop as <- _. }
    rewrite Hsame in Hhere. rewrite Hhere.
    repeat split; auto.
Qed.

Lemma dropTrailingDashes_some (p : ascii -> bool) (s : string) :
  (forall c, p c = true -> isDash c = false) ->
  someChar p (dropTrailingDashes s) = someChar p s.
Proof.
  intros Hp. induction s as [| c s IH]; [reflexivity|].
  simpl. destruct (dropTrailingDashes s) as [| d t] eqn:Hdrop.
  - simpl in IH. rewrite <- IH.
    destruct (Ascii.eqb c "-") eqn:Hdash; simpl; [|now rewrite orb_false_r].
    destruct (p c) eqn:Hpc; [|reflexivity].
    apply Hp in Hpc. unfold isDash in Hpc. congruence.
  - simpl in *. now rewrite IH.
Qed.

Lemma substring_shape (n : nat) (s : string) :
  allChars isSlugChar s = true -> noDoubleDash s = true -> startsWithDash s = false ->
  allChars isSlugChar (substring 0 n s) = true
  /\ noDoubleDash (substring 0 n s) = true
  /\ startsWithDash (substring 0 n s) = false
  /\ (String.length (substring 0 n s) <= n)%nat.
Proof.
  revert n. induction s as [| c s IH]; intros n Hall Hdd Hstart.
  - destruct n; simpl; repeat split; auto; lia.
  - destruct n as [| n]; [simpl; repeat split; auto|].
    simpl in Hall, Hdd, Hstart. apply andb_prop in Hall. destruct Hall as [Hc Hall].
    apply andb_prop in Hdd. destruct Hdd as [Hhere Hdd].
    simpl. rewrite Hc, Hstart. simpl.
    assert (Htail : allChars isSlugChar (substring 0 n s) = true
                    /\ noDoubleDash (substring 0 n s) = true
                    /\ (String.length (substring 0 n s) <= n)%nat).
    { clear Hhere Hstart Hc IH. revert n.
      induction s as [| d s IHs]; intros n.
      - destruct n; simpl; repeat split; auto; lia.
      - destruct n as [| n]; [simpl; repeat split; auto; lia|].
        simpl in Hall, Hdd. apply andb_prop in Hall. destruct Hall as [Hd Hall].
        apply andb_prop in Hdd. destruct Hdd as [Hhere Hdd].
        destruct (IHs Hall Hdd n) as [Ha [Hb Hlen]].
        simpl. rewrite Hd, Ha, Hb.
        repeat split; auto; [|lia].
        destruct (isDash d); [|reflexivity]. simpl in *.
        destruct s as [| e s']; [now destruct n|].
        destruct n; [reflexivity|]. simpl in *. rewrite Hhere. reflexivity. }
    destruct Htail as [Ha [Hb Hlen]]. rewrite Ha, Hb.
    repeat split; auto; lia.
Qed.

Lemma substring_whole (n : nat) (s : string) :
  (String.length s <= n)%nat -> substring 0 n s = s.
Proof.
  revert n. induction s as [| c s IH]; intros n Hlen.
  - now destruct n.
  - destruct n as [| n]; [simpl in Hlen; lia|].
    simpl in *. rewrite IH by lia. reflexivity.
Qed.

Lemma substring_length_min (n : nat) (s : string) :
  String.length (substring 0 n s) = Nat.min n (String.length s).
Proof.
  revert n. induction s as [| c s IH]; intros n.
  - now destruct n.
  - destruct n as [| n]; [reflexivity|]. simpl. now rewrite IH.
Qed.

Lemma dashRuns_some (s : string) (inRun : bool) :
  someChar (fun c => JS.isLower c || JS.isDigit c) (dashRuns s inRun)
  = someChar (fun c => JS.isLower c || JS.isDigit c) s.
Proof.
  revert inRun. induction s as [| c s IH]; intros inRun; [reflexivity|].
  simpl. destruct (JS.isLower c || JS.isDigit c) eqn:Hplain.
  - simpl. now rewrite Hplain.
  - destruct inRun; simpl; rewrite IH; reflexivity.
Qed.

Lemma lowerChar_alphanumeric (c : ascii) :
  JS.isLower (JS.lowerChar c) || JS.isDigit (JS.lowerChar c) = isAlphaNumeric c.
Proof. destruct c as [[] [] [] [] [] [] [] []]; reflexivity. Qed.

Lemma toLowerCase_some (s : string) :
  someChar (fun c => JS.isLower c || JS.isDigit c) (JS.toLowerCase s)
  = someChar isAlphaNumeric s.
Proof.
  induction s as [| c s IH]; [reflexivity|].
  simpl. now rewrite lowerChar_alphanumeric, IH.
Qed.

Lemma no_plain_no_slug (s : string) :
  allChars isSlugChar s = true -> startsWithDash s = false ->
  someChar (fun c => JS.isLower c || JS.isDigit c) s = false -> s = "".
Proof.
  destruct s as [| c s]; [reflexivity|]. simpl. intros Hall Hstart Hsome.
  apply andb_prop in Hall. destruct Hall as [Hc _].
  apply orb_false_elim in Hsome. destruct Hsome as [Hplain _].
  unfold isSlugChar in Hc. rewrite Hplain, Hstart in Hc. discriminate.
Qed.

End SlugFacts.

Module BranchFacts.

Import TextSpec SlugSpec GitOps.

Lemma digits_are_branch_chars (d : Decimal.uint) :
  allChars isBranchChar (NilEmpty.string_of_uint d) = true.
Proof. induction d; simpl; auto. Qed.

Lemma slugFrom_shape (lowered : string) :
  (String.length (slugFrom lowered) <= 30)%nat
  /\ allChars isSlugChar (slugFrom lowered) = true
  /\ startsWithDash (slugFrom lowered) = false
  /\ noDoubleDash (slugFrom lowered) = true
  /\ ((String.length (slugFrom lowered) < 30)%nat -> endsWithDash (slugFrom lowered) = false)
  /\ (slugFrom lowered = "" <-> someChar isLowerOrDigit lowered = false).
Proof.
  unfold slugFrom.
  set (runs := dashRuns lowered false).
  destruct (SlugFacts.dashRuns_shape lowered false) as [Hall0 [Hdd0 _]].
  fold runs in Hall0, Hdd0.
  destruct (SlugFacts.dropLeadingDashes_shape runs Hall0 Hdd0) as [Hall1 [Hdd1 Hstart1]].
  set (led := dropLeadingDashes runs) in *.
  destruct (SlugFacts.dropTrailingDashes_shape led Hall1 Hdd1)
    as [Hall2 [Hdd2 [Hend2 Hstart2]]].
  specialize (Hstart2 Hstart1).
  set (trimmed := dropTrailingDashes led) in *.
  destruct (SlugFacts.substring_shape 30 trimmed Hall2 Hdd2 Hstart2)
    as [Hall3 [Hdd3 [Hstart3 Hlen3]]].
  assert (Hsome : someChar (fun c => JS.isLower c || JS.isDigit c) trimmed
                  = someChar isLowerOrDigit lowered).
  { unfold trimmed, led, runs.
    rewrite SlugFacts.dropTrailingDashes_some, SlugFacts.dropLeadingDashes_some
      by apply SlugFacts.plain_is_no_dash.
    now rewrite SlugFacts.dashRuns_some. }
  repeat split; try assumption.
  - intros Hshort. rewrite SlugFacts.substring_length_min in Hshort.
    rewrite SlugFacts.substring_whole by lia. exact Hend2.
  - intros Hempty. rewrite <- Hsome.
    destruct trimmed as [| c t]; [reflexivity | discriminate].
  - intros Hnone. rewrite <- Hsome in Hnone.
    rewrite (SlugFacts.no_plain_no_slug trimmed Hall2 Hstart2 Hnone). reflexivity.
Qed.

Lemma slug_is_branch (s : string) :
  allChars isSlugChar s = true -> allChars isBranchChar s = true.
Proof.
  apply RegexFacts.allChars_weaken. intros c Hc. unfold isBranchChar. now rewrite Hc.
Qed.

End BranchFacts.

(* ================================================================== *)
(** * Properties of the branch names                                   *)
(* ================================================================== *)

(** X11: the slug that [createIssueBranch] derives from an issue title
    has at most 30 characters, all of them lower-case letters, digits or
    dashes; it never starts with a dash and never holds two dashes in a
    row; when shorter than 30 characters it does not end with a dash
    (the cut at 30 can leave one); and it is empty exactly when the
    title, once the host has put it in lower case, holds no lower-case
    ASCII letter and no digit.  So for a title that the host lowers as
    it lowers ASCII, the slug is empty exactly when the title holds no
    ASCII letter and no digit; a character beyond ASCII that the host
    lowers to an ASCII letter gives a slug too.  For an issue number
    that is not negative the branch name is made of lower-case letters,
    digits, dashes and slashes only. *)
Theorem slug_and_branch_name_shape {unicode : Host.Unicode} (row : Db.DbIssue) :
  let slug := GitOps.slugOf (Db.title row) in
  (String.length slug <= 30)%nat
  /\ TextSpec.allChars SlugSpec.isSlugChar slug = true
  /\ SlugSpec.startsWithDash slug = false
  /\ SlugSpec.noDoubleDash slug = true
  /\ ((String.length slug < 30)%nat -> SlugSpec.endsWithDash slug = false)
  /\ (slug = ""
      <-> SlugSpec.someChar SlugSpec.isLowerOrDigit (Host.toLowerCase (Db.title row))
          = false)
  /\ (Host.toLowerCase (Db.title row) = JS.toLowerCase (Db.title row) ->
      (slug = "" <-> SlugSpec.someChar SlugSpec.isAlphaNumeric (Db.title row) = false))
  /\ (0 <= Db.issue_number row ->
      TextSpec.allChars SlugSpec.isBranchChar (GitOps.branchNameOf row) = true).
Proof.
  intros slug. subst slug.
  destruct (BranchFacts.slugFrom_shape (Host.toLowerCase (Db.title row)))
    as [Hlen [Hall [Hstart [Hdd [Hend Hempty]]]]].
  fold (GitOps.slugOf (Db.title row)) in Hlen, Hall, Hstart, Hdd, Hend, Hempty.
  split; [exact Hlen|]. split; [exact Hall|]. split; [exact Hstart|].
  split; [exact Hdd|]. split; [exact Hend|]. split; [exact Hempty|].
  split.
  - intros Hascii. rewrite Hempty, Hascii.
    unfold SlugSpec.isLowerOrDigit. now rewrite SlugFacts.toLowerCase_some.
  - intros Hnum. unfold GitOps.branchNameOf, JS.showInt.
    replace (Db.issue_number row <? 0) with false by (symmetry; apply Z.ltb_ge; lia).
    rewrite !RegexFacts.allChars_append.
    unfold JS.showNat. rewrite BranchFacts.digits_are_branch_chars.
    rewrite (BranchFacts.slug_is_branch _ Hall). reflexivity.
Qed.

Lemma slug_and_branch_name_witness :
  SlugSpec.endsWithDash (GitOps.slugOf (unicode := asciiHost) (Db.title Examples.fineIssue))
  = false
  /\ (GitOps.slugOf (unicode := asciiHost) (Db.title Examples.fineIssue) = ""
      <-> SlugSpec.someChar SlugSpec.isAlphaNumeric (Db.title Examples.fineIssue) = false)
  /\ TextSpec.allChars SlugSpec.isBranchChar
                       (GitOps.branchNameOf (unicode := asciiHost) Examples.fineIssue)
     = true.
Proof.
  destruct (slug_and_branch_name_shape (unicode := asciiHost) Examples.fineIssue)
    as (_ & _ & _ & _ & Hend & _ & Hascii & Hbranch).
  split; [apply Hend; vm_compute; lia|].
  split; [apply Hascii; reflexivity | apply Hbranch; vm_compute; discriminate].
Defined.

(** On a host that knows the Kelvin sign, a title that is that sign
    alone has the slug [k]. *)
Lemma kelvin_sign_gives_a_slug :
  GitOps.slugOf (unicode := kelvinHost) kelvinSign = "k"
  /\ SlugSpec.someChar SlugSpec.isAlphaNumeric kelvinSign = false.
Proof. split; reflexivity. Qed.

(* ================================================================== *)
(** * Facts about [upsertIssue] and the scan                           *)
(* ================================================================== *)

Module UpsertFacts.

Import Effect Db DbWrite PassSpec ScanSpec.

Lemma fold_max_ge (keys : list Z) (start : Z) :
  start <= fold_left Z.max keys start
  /\ forall key, In key keys -> key <= fold_left Z.max keys start.
Proof.
  revert start. induction keys as [| k keys IH]; intros start; simpl.
  - split; [lia | intros key []].
  - destruct (IH (Z.max start k)) as [Hstart Hkeys]. split; [lia|].
    intros key [<- | Hin]; [lia | now apply Hkeys].
Qed.

(** The largest key in use is one of the keys. *)
Lemma fold_max_in (keys : list Z) (start : Z) :
  fold_left Z.max keys start = start \/ In (fold_left Z.max keys start) keys.
Proof.
  revert start. induction keys as [| k keys IH]; intros start; simpl; [now left|].
  destruct (IH (Z.max start k)) as [H | H]; [|right; now right].
  rewrite H. destruct (Z.max_spec start k) as [[_ ->] | [_ ->]]; [right | ]; auto.
Qed.

Lemma inUse_In (key : Z) (table : Table) :
  inUse key table = true <-> In key (map id table).
Proof.
  unfold inUse. rewrite existsb_exists, in_map_iff. split.
  - intros [row [Hin Hkey]]. apply Z.eqb_eq in Hkey. now exists row.
  - intros [row [Hkey Hin]]. exists row. split; [exact Hin | now apply Z.eqb_eq].
Qed.

(** The key of an inserted row is not in use. *)
Lemma nextId_unused (randomness : list Z) (table : Table) (key : Z) :
  nextId randomness table = Some key -> ~ In key (map id table).
Proof.
  destruct table as [| first rows]; [intros _ []|].
  unfold nextId.
  destruct (fold_max_ge (map id rows) (id first)) as [Hfirst Hrows].
  destruct (fold_left Z.max (map id rows) (id first) <? maxRowid).
  - intros H. injection H as <-. intros [Hhead | Htail].
    + lia.
    + specialize (Hrows _ Htail). lia.
  - intros H. apply find_some in H. destruct H as [_ Hfree].
    apply negb_true_iff in Hfree. intros Hin.
    apply inUse_In in Hin. congruence.
Qed.

(** While the largest key is below [maxRowid], the key of an inserted
    row is above every key in use. *)
Lemma nextId_above (randomness : list Z) (table : Table) :
  (forall row, In row table -> id row < maxRowid) ->
  exists key,
    nextId randomness table = Some key
    /\ (forall row, In row table -> id row < key)
    /\ (table = [] -> key = 1)
    /\ key <= maxRowid.
Proof.
  intros Hbelow. destruct table as [| first rows].
  - exists 1. split; [reflexivity|]. split; [intros row []|].
    split; [reflexivity | vm_compute; discriminate].
  - unfold nextId.
    destruct (fold_max_ge (map id rows) (id first)) as [Hfirst Hrows].
    assert (Hlargest : fold_left Z.max (map id rows) (id first) < maxRowid).
    { destruct (fold_max_in (map id rows) (id first)) as [-> | Hin].
      - apply Hbelow. now left.
      - apply in_map_iff in Hin. destruct Hin as [row [<- Hin]].
        apply Hbelow. now right. }
    rewrite (proj2 (Z.ltb_lt _ _) Hlargest).
    eexists. split; [reflexivity|]. split; [|split; [discriminate | lia]].
    intros row [<- | Hin]; [lia|].
    specialize (Hrows (id row) (in_map id _ _ Hin)). lia.
Qed.

Lemma withScan_keepsRecord (d : GitHubIssueData) :
  keepsRecord (fun row => if github_id row =? data_github_id d then withScan d row else row).
Proof.
  intros row. destruct (github_id row =? data_github_id d); repeat split; reflexivity.
Qed.

Lemma keepsRecord_id : keepsRecord (fun row => row).
Proof. intros row. repeat split; reflexivity. Qed.

Lemma keepsRecord_compose (g1 g2 : DbIssue -> DbIssue) :
  keepsRecord g1 -> keepsRecord g2 -> keepsRecord (fun row => g2 (g1 row)).
Proof.
  intros H1 H2 row.
  destruct (H1 row) as (A1 & B1 & C1 & D1 & E1 & F1 & G1 & I1 & J1 & K1).
  destruct (H2 (g1 row)) as (A2 & B2 & C2 & D2 & E2 & F2 & G2 & I2 & J2 & K2).
  repeat split; congruence.
Qed.

Lemma keepsRecord_keys (g : DbIssue -> DbIssue) (table : Table) :
  keepsRecord g -> map id (map g table) = map id table.
Proof.
  intros Hg. rewrite map_map. apply map_ext. intros row. apply Hg.
Qed.

Lemma keepsRecord_fresh (g : DbIssue -> DbIssue) (rows : list DbIssue) :
  keepsRecord g -> Forall isFresh rows -> Forall isFresh (map g rows).
Proof.
  intros Hg Hall. induction Hall as [| row rows Hrow Hrows IH]; simpl; constructor; auto.
  destruct (Hg row) as (_ & _ & _ & _ & _ & Hs & Hb & Ht & _).
  destruct Hrow as (Hs' & Hb' & Ht'). repeat split; congruence.
Qed.

Lemma grownFrom_refl (table : Table) : grownFrom table table.
Proof.
  exists (fun row => row), []. rewrite map_id, app_nil_r.
  split; [reflexivity|]. split; [apply keepsRecord_id | constructor].
Qed.

Lemma grownFrom_trans (t1 t2 t3 : Table) :
  grownFrom t1 t2 -> grownFrom t2 t3 -> grownFrom t1 t3.
Proof.
  intros [g1 [a1 [-> [Hg1 Ha1]]]] [g2 [a2 [-> [Hg2 Ha2]]]].
  exists (fun row => g2 (g1 row)), (map g2 a1 ++ a2).
  rewrite map_app, map_map, <- app_assoc.
  split; [reflexivity|]. split; [now apply keepsRecord_compose|].
  apply Forall_app. split; [now apply keepsRecord_fresh | exact Ha2].
Qed.

Lemma updateScanned_grows (d : GitHubIssueData) (table : Table) :
  grownFrom table (updateScanned d table)
  /\ (NoDup (map id table) -> NoDup (map id (updateScanned d table))).
Proof.
  unfold updateScanned. split.
  - exists (fun row => if github_id row =? data_github_id d then withScan d row else row),
           []. rewrite app_nil_r.
    split; [reflexivity|]. split; [apply withScan_keepsRecord | constructor].
  - now rewrite (keepsRecord_keys _ _ (withScan_keepsRecord d)).
Qed.

(** What the [INSERT] does, in each of its three cases. *)
Lemma insertScanned_cases (now : string) (randomness : list Z) (d : GitHubIssueData)
      (table : Table) :
  (nextId randomness table = None
   /\ insertScanned now randomness d table = (Thrown databaseFull, table))
  \/ (nextId randomness table <> None
      /\ existsb (sameIssueOf d) table = true
      /\ insertScanned now randomness d table = (Thrown uniqueFailed, table))
  \/ (exists key,
         nextId randomness table = Some key
         /\ existsb (sameIssueOf d) table = false
         /\ insertScanned now randomness d table
            = (Returned (asNumber key), table ++ [insertedRow key now d])).
Proof.
  unfold insertScanned.
  destruct (nextId randomness table) as [key |]; [|now left].
  right. destruct (existsb (sameIssueOf d) table).
  - left. split; [discriminate | auto].
  - right. exists key. auto.
Qed.

Lemma inserted_keys (key : Z) (now : string) (d : GitHubIssueData) (table : Table) :
  ~ In key (map id table) ->
  NoDup (map id table) -> NoDup (map id (table ++ [insertedRow key now d])).
Proof.
  intros Hfree Hkeys. rewrite map_app. simpl.
  apply Permutation_NoDup with (l := key :: map id table).
  - apply Permutation_cons_append.
  - now constructor.
Qed.

Lemma insertScanned_grows (now : string) (randomness : list Z) (d : GitHubIssueData)
      (table : Table) :
  grownFrom table (snd (insertScanned now randomness d table))
  /\ (NoDup (map id table) ->
      NoDup (map id (snd (insertScanned now randomness d table)))).
Proof.
  destruct (insertScanned_cases now randomness d table)
    as [[_ ->] | [[_ [_ ->]] | [key [Hkey [_ ->]]]]]; simpl.
  - split; [apply grownFrom_refl | auto].
  - split; [apply grownFrom_refl | auto].
  - split.
    + exists (fun row => row), [insertedRow key now d]. rewrite map_id.
      split; [reflexivity|]. split; [apply keepsRecord_id|].
      constructor; [|constructor]. repeat split; reflexivity.
    + apply inserted_keys. now apply (nextId_unused randomness).
Qed.

(** What [upsertIssue] does to the table. *)
Lemma upsertIssue_table (now : string) (randomness : list Z) (d : GitHubIssueData)
      (table : Table) :
  snd (upsertIssue now randomness d table)
  = match existingId d table with
    | Some _ => updateScanned d table
    | None => snd (insertScanned now randomness d table)
    end.
Proof.
  unfold upsertIssue. destruct (existingId d table); [reflexivity|].
  now destruct (insertScanned now randomness d table) as [[key | e] t].
Qed.

Lemma upsertIssue_grows (now : string) (randomness : list Z) (d : GitHubIssueData)
      (table : Table) :
  grownFrom table (snd (upsertIssue now randomness d table))
  /\ (NoDup (map id table) -> NoDup (map id (snd (upsertIssue now randomness d table)))).
Proof.
  rewrite upsertIssue_table. destruct (existingId d table).
  - apply updateScanned_grows.
  - apply insertScanned_grows.
Qed.

End UpsertFacts.

Module UpsertMore.

Import Effect Db DbWrite PassSpec ScanSpec.

Lemma find_none_iff {A : Type} (f : A -> bool) (l : list A) :
  find f l = None <-> forall x, In x l -> f x = false.
Proof.
  induction l as [| a l IH]; simpl.
  - split; [intros _ x [] | reflexivity].
  - destruct (f a) eqn:Ha.
    + split; [discriminate|]. intros H. specialize (H a (or_introl eq_refl)). congruence.
    + rewrite IH. split.
      * intros H x [<- | Hin]; auto.
      * intros H x Hin. apply H. now right.
Qed.

Lemma find_unique {A : Type} (key : A -> Z) (k : Z) (l : list A) (x : A) :
  NoDup (map key l) -> In x l -> key x = k ->
  find (fun a => key a =? k) l = Some x.
Proof.
  induction l as [| a l IH]; simpl; intros Hnd Hin Hk; [destruct Hin|].
  apply NoDup_cons_iff in Hnd. destruct Hnd as [Hfresh Hnd].
  destruct Hin as [-> | Hin].
  - now rewrite (proj2 (Z.eqb_eq _ _) Hk).
  - destruct (key a =? k) eqn:Ha; [|now apply IH].
    apply Z.eqb_eq in Ha. elim Hfresh. apply in_map_iff. exists x. split; [lia | exact Hin].
Qed.

Lemma find_map_same {A : Type} (f : A -> bool) (g : A -> A) (l : list A) :
  (forall a, f (g a) = f a) ->
  find f (map g l) = option_map g (find f l).
Proof.
  intros Hg. induction l as [| a l IH]; simpl; [reflexivity|].
  rewrite Hg. destruct (f a); [reflexivity | exact IH].
Qed.

Lemma find_append_last {A : Type} (f : A -> bool) (l : list A) (x : A) :
  find f l = None -> f x = true -> find f (l ++ [x]) = Some x.
Proof.
  induction l as [| a l IH]; simpl; intros Hnone Hx.
  - now rewrite Hx.
  - destruct (f a); [discriminate | now apply IH].
Qed.

Lemma existingId_none (d : GitHubIssueData) (table : Table) :
  existingId d table = None
  <-> find (fun row => github_id row =? data_github_id d) table = None.
Proof.
  unfold existingId. destruct (find _ table); simpl; split; congruence.
Qed.

Lemma unknown_not_found (d : GitHubIssueData) (table : Table) :
  (forall row, In row table -> github_id row <> data_github_id d) ->
  existingId d table = None.
Proof.
  intros Hunknown. apply existingId_none, find_none_iff.
  intros row Hin. apply Z.eqb_neq. now apply Hunknown.
Qed.

End UpsertMore.

(* ================================================================== *)
(** * Properties of [upsertIssue]                                      *)
(* ================================================================== *)

(** X12: seeing a known issue again never resets it.  When the engine
    carries out the statements and the table holds a row with the same
    forge identifier, [upsertIssue] reports [isNew = false] with the key
    of that row (as a number: the key itself up to [2^53]), keeps the
    number of rows, and changes nothing but the title, body, state and
    update time of that row: the ten other columns of every row stay as
    they were, and so do the rows of other forge identifiers.  As a
    step of the scan, [upsertIssue] is this function of the table
    whenever the engine carries out its two statements. *)
Theorem upsert_of_a_known_issue_keeps_its_record
        {Env : Type} {runtime : Host.Runtime Env} {scanning : Scan.ScanServices Env}
        (now : string) (randomness : list Z) (d : DbWrite.GitHubIssueData)
        (table : Db.Table) (known : Db.DbIssue) :
  NoDup (map Db.github_id table) ->
  In known table ->
  Db.github_id known = DbWrite.data_github_id d ->
  (exists g,
      DbWrite.upsertIssue now randomness d table
      = (Effect.Returned {| DbWrite.isNew := false;
                            DbWrite.upserted_id := Db.asNumber (Db.id known) |},
         map g table)
      /\ PassSpec.keepsRecord g
      /\ g known = DbWrite.withScan d known
      /\ Db.title (g known) = DbWrite.data_title d
      /\ Db.body (g known) = DbWrite.data_body d
      /\ Db.state (g known) = DbWrite.data_state d
      /\ Db.updated_at (g known) = DbWrite.data_updated_at d
      /\ (forall row, Db.github_id row <> DbWrite.data_github_id d -> g row = row))
  /\ (Z.abs (Db.id known) <= 2 ^ 53 -> Db.asNumber (Db.id known) = Db.id known)
  /\ (forall (w : Host.World Env) (e1 e2 : Env),
         Host.statement (Host.env w) = (Effect.Returned tt, e1) ->
         Host.statement e1 = (Effect.Returned tt, e2) ->
         Scan.upsert d w
         = (fst (DbWrite.upsertIssue (Scan.currentTime e2) (Scan.randomness e2) d
                                     (Host.issues w)),
            {| Host.issues :=
                 snd (DbWrite.upsertIssue (Scan.currentTime e2) (Scan.randomness e2) d
                                          (Host.issues w));
               Host.env := e2 |})).
Proof.
  intros Hunique Hin Hgid. split; [|split].
  - exists (fun row => if Db.github_id row =? DbWrite.data_github_id d
                       then DbWrite.withScan d row else row).
    split.
    + unfold DbWrite.upsertIssue, DbWrite.existingId.
      now rewrite (UpsertMore.find_unique Db.github_id _ table known Hunique Hin Hgid).
    + split; [apply UpsertFacts.withScan_keepsRecord|].
      rewrite (proj2 (Z.eqb_eq _ _) Hgid). repeat split.
      intros row Hne. now rewrite (proj2 (Z.eqb_neq _ _) Hne).
  - apply DaemonFacts.asNumber_small.
  - intros w e1 e2 Hselect Hwrite.
    unfold Scan.upsert, Host.query, Host.sql, Effect.bind, Host.call, Host.selected,
      Host.written, Scan.inserted, Effect.ret, DbWrite.upsertIssue.
    rewrite Hselect. cbn [fst snd Host.issues Host.env].
    destruct (DbWrite.existingId d (Host.issues w)) as [key |];
      cbn [fst snd Host.issues Host.env]; rewrite Hwrite;
      cbn [fst snd Host.issues Host.env].
    + reflexivity.
    + now destruct (DbWrite.insertScanned _ _ d (Host.issues w)) as [[key | e] t].
Qed.

Lemma upsert_known_witness :
  exists g,
    DbWrite.upsertIssue "2024-03-03 09:00:00" []
                        (Scan.issueDataOf ScanExamples.widgets
                                          (ScanExamples.forgeIssue 1002 2 "Login fails again"))
                        (Host.issues twoNewIssues)
    = (Effect.Returned {| DbWrite.isNew := false; DbWrite.upserted_id := 2 |},
       map g (Host.issues twoNewIssues))
    /\ PassSpec.keepsRecord g
    /\ Db.title (g fineIssue) = "Login fails again"
    /\ Db.updated_at (g fineIssue) = "2024-03-02T10:00:00Z"
    /\ (forall row, Db.github_id row <> 1002 -> g row = row).
Proof.
  destruct (upsert_of_a_known_issue_keeps_its_record
              (runtime := quiet) (scanning := ScanExamples.twoForks)
              "2024-03-03 09:00:00" []
              (Scan.issueDataOf ScanExamples.widgets
                                (ScanExamples.forgeIssue 1002 2 "Login fails again"))
              (Host.issues twoNewIssues) fineIssue)
    as [[g (Heq & Hkeeps & _ & Htitle & _ & _ & Htime & Hothers)] _].
  - simpl. repeat constructor; simpl; intuition discriminate.
  - now left.
  - reflexivity.
  - exists g. split; [exact Heq|]. split; [exact Hkeeps|].
    split; [exact Htitle|]. split; [exact Htime | exact Hothers].
Defined.

(** X13: an issue not seen before is inserted once, as new.  Let no row
    have its forge identifier, and let the engine carry out the
    statements.  When no row has its repository name and number either
    and the engine finds a key, [upsertIssue] reports [isNew = true] with
    that key (as a number) and appends one row: it carries the scanned
    fields, the status new, the current time as first sighting, no
    branch and no brief, under a key that is not in use; keys that were
    distinct stay distinct.  When the engine finds no key, [upsertIssue]
    throws and the table stays as it is.  While every key in use is below
    the largest possible key, the engine finds a key, and it is larger
    than every key in use: 1 in an empty table.  When a row of another
    forge identifier has the same repository name and number,
    [upsertIssue] throws and leaves the table as it is. *)
Theorem upsert_of_an_unknown_issue_adds_one_new_row
        (now : string) (randomness : list Z) (d : DbWrite.GitHubIssueData)
        (table : Db.Table) :
  (forall row, In row table -> Db.github_id row <> DbWrite.data_github_id d) ->
  ((forall row, In row table ->
                Db.repo_name row <> DbWrite.data_repo_name d
                \/ Db.issue_number row <> DbWrite.data_issue_number d) ->
   forall key,
     DbWrite.nextId randomness table = Some key ->
     DbWrite.upsertIssue now randomness d table
     = (Effect.Returned {| DbWrite.isNew := true;
                           DbWrite.upserted_id := Db.asNumber key |},
        table ++ [DbWrite.insertedRow key now d])
     /\ ~ In key (map Db.id table)
     /\ (Z.abs key <= 2 ^ 53 -> Db.asNumber key = key)
     /\ (NoDup (map Db.id table) ->
         NoDup (map Db.id (table ++ [DbWrite.insertedRow key now d])))
     /\ (NoDup (map Db.github_id table) ->
         NoDup (map Db.github_id (table ++ [DbWrite.insertedRow key now d]))))
  /\ (DbWrite.nextId randomness table = None ->
      DbWrite.upsertIssue now randomness d table
      = (Effect.Thrown DbWrite.databaseFull, table))
  /\ ((forall row, In row table -> Db.id row < DbWrite.maxRowid) ->
      exists key,
        DbWrite.nextId randomness table = Some key
        /\ (forall row, In row table -> Db.id row < key)
        /\ (table = [] -> key = 1)
        /\ key <= DbWrite.maxRowid)
  /\ (forall clash,
         In clash table ->
         Db.repo_name clash = DbWrite.data_repo_name d ->
         Db.issue_number clash = DbWrite.data_issue_number d ->
         exists error,
           DbWrite.upsertIssue now randomness d table = (Effect.Thrown error, table)
           /\ (DbWrite.nextId randomness table <> None ->
               error = DbWrite.uniqueFailed)).
Proof.
  intros Hunknown.
  pose proof (UpsertMore.unknown_not_found d table Hunknown) as Hfind.
  split; [|split; [|split]].
  - intros Hfree key Hkey.
    assert (Hdup : existsb (DbWrite.sameIssueOf d) table = false).
    { apply not_true_is_false. intros H. apply existsb_exists in H.
      destruct H as [row [Hin Hsame]]. unfold DbWrite.sameIssueOf in Hsame.
      apply andb_prop in Hsame. destruct Hsame as [Hrepo Hnum].
      apply String.eqb_eq in Hrepo. apply Z.eqb_eq in Hnum.
      destruct (Hfree row Hin); contradiction. }
    pose proof (UpsertFacts.nextId_unused randomness table key Hkey) as Hunused.
    split; [unfold DbWrite.upsertIssue, DbWrite.insertScanned;
            now rewrite Hfind, Hkey, Hdup|].
    split; [exact Hunused|].
    split; [apply DaemonFacts.asNumber_small|].
    split; [now apply UpsertFacts.inserted_keys|].
    intros Hkeys. rewrite map_app. simpl.
    apply Permutation_NoDup
      with (l := DbWrite.data_github_id d :: map Db.github_id table).
    + apply Permutation_cons_append.
    + constructor; [|exact Hkeys]. intros Hin. apply in_map_iff in Hin.
      destruct Hin as [row [Heq Hin]]. now apply (Hunknown row Hin).
  - intros Hnone. unfold DbWrite.upsertIssue, DbWrite.insertScanned.
    now rewrite Hfind, Hnone.
  - apply UpsertFacts.nextId_above.
  - intros clash Hin Hrepo Hnum.
    assert (Hdup : existsb (DbWrite.sameIssueOf d) table = true).
    { apply existsb_exists. exists clash. split; [exact Hin|].
      unfold DbWrite.sameIssueOf.
      now rewrite (proj2 (String.eqb_eq _ _) Hrepo), (proj2 (Z.eqb_eq _ _) Hnum). }
    unfold DbWrite.upsertIssue, DbWrite.insertScanned. rewrite Hfind, Hdup.
    destruct (DbWrite.nextId randomness table) as [key |].
    + exists DbWrite.uniqueFailed. split; reflexivity.
    + exists DbWrite.databaseFull. split; [reflexivity | congruence].
Qed.

Lemma upsert_unknown_witness :
  DbWrite.upsertIssue "2024-03-03 09:00:00" []
                      (Scan.issueDataOf ScanExamples.widgets
                                        (ScanExamples.forgeIssue 501 7 "Crash on start"))
                      (Host.issues twoNewIssues)
  = (Effect.Returned {| DbWrite.isNew := true; DbWrite.upserted_id := 3 |},
     Host.issues twoNewIssues
     ++ [DbWrite.insertedRow 3 "2024-03-03 09:00:00"
           (Scan.issueDataOf ScanExamples.widgets
                             (ScanExamples.forgeIssue 501 7 "Crash on start"))]).
Proof.
  destruct (upsert_of_an_unknown_issue_adds_one_new_row
              "2024-03-03 09:00:00" []
              (Scan.issueDataOf ScanExamples.widgets
                                (ScanExamples.forgeIssue 501 7 "Crash on start"))
              (Host.issues twoNewIssues)) as [Hadd _].
  - intros row [<- | [<- | []]]; discriminate.
  - destruct (Hadd) with (key := 3) as [Heq _]; [| reflexivity | exact Heq].
    intros row [<- | [<- | []]]; left; discriminate.
Defined.

(** A table whose largest key is the largest possible one: the engine
    draws a key, and when all it draws are in use the insert fails. *)
Lemma insert_into_a_table_with_the_largest_key :
  let full := [issueRow DbWrite.maxRowid "fine-repo" "2024-01-01 00:00:00"] in
  DbWrite.nextId [41] full = Some 42
  /\ Db.asNumber DbWrite.maxRowid = 2 ^ 63
  /\ fst (DbWrite.upsertIssue "2024-03-03 09:00:00" []
            (Scan.issueDataOf ScanExamples.widgets
                              (ScanExamples.forgeIssue 501 7 "Crash on start"))
            full)
     = Effect.Thrown "SqliteError: database or disk is full".
Proof. repeat split. Qed.

(** X14: [upsertIssue] is idempotent.  After a call that returned, a
    second call with the same data, at whatever time, reports
    [isNew = false] with the same key and leaves the table as the first
    call left it. *)
Theorem upsert_twice_is_upsert_once
        (now later : string) (randomness again : list Z)
        (d : DbWrite.GitHubIssueData) (table : Db.Table) (first : DbWrite.Upserted) :
  fst (DbWrite.upsertIssue now randomness d table) = Effect.Returned first ->
  DbWrite.upsertIssue later again d (snd (DbWrite.upsertIssue now randomness d table))
  = (Effect.Returned {| DbWrite.isNew := false;
                        DbWrite.upserted_id := DbWrite.upserted_id first |},
     snd (DbWrite.upsertIssue now randomness d table)).
Proof.
  intros Hfirst.
  destruct (find (fun row => Db.github_id row =? DbWrite.data_github_id d) table)
    as [existing |] eqn:Hfind.
  - assert (Heq : DbWrite.upsertIssue now randomness d table
                  = (Effect.Returned {| DbWrite.isNew := false;
                                        DbWrite.upserted_id := Db.asNumber (Db.id existing) |},
                     DbWrite.updateScanned d table))
      by (unfold DbWrite.upsertIssue, DbWrite.existingId; now rewrite Hfind).
    rewrite Heq in *. cbn [fst snd] in *. injection Hfirst as <-.
    cbn [DbWrite.upserted_id].
    unfold DbWrite.upsertIssue, DbWrite.existingId, DbWrite.updateScanned.
    rewrite UpsertMore.find_map_same, Hfind.
    + cbn [option_map]. apply (f_equal2 pair).
      * do 3 apply f_equal.
        now destruct (Db.github_id existing =? DbWrite.data_github_id d).
      * rewrite map_map. apply map_ext. intros row.
        destruct (Db.github_id row =? DbWrite.data_github_id d) eqn:Hrow.
        -- simpl. now rewrite Hrow.
        -- now rewrite Hrow.
    + intros row. now destruct (Db.github_id row =? DbWrite.data_github_id d) eqn:Hrow.
  - assert (Heq : DbWrite.upsertIssue now randomness d table
                  = match DbWrite.insertScanned now randomness d table with
                    | (Effect.Returned key, table') =>
                        (Effect.Returned {| DbWrite.isNew := true;
                                            DbWrite.upserted_id := key |}, table')
                    | (Effect.Thrown error, table') => (Effect.Thrown error, table')
                    end)
      by (unfold DbWrite.upsertIssue, DbWrite.existingId; now rewrite Hfind).
    rewrite Heq in *. clear Heq.
    destruct (UpsertFacts.insertScanned_cases now randomness d table)
      as [[_ Heq] | [[_ [_ Heq]] | [key [_ [_ Heq]]]]];
      rewrite Heq in *; cbn [fst snd] in *; try discriminate.
    injection Hfirst as <-. cbn [DbWrite.upserted_id].
    unfold DbWrite.upsertIssue, DbWrite.existingId, DbWrite.updateScanned.
    rewrite (UpsertMore.find_append_last _ _ _ Hfind) by apply Z.eqb_refl.
    cbn [option_map]. apply (f_equal2 pair); [reflexivity|].
    rewrite map_app. simpl. rewrite Z.eqb_refl.
    apply (f_equal2 (@app Db.DbIssue)); [|reflexivity].
    rewrite <- (map_id table) at 2. apply map_ext_in. intros row Hin.
    apply (proj1 (UpsertMore.find_none_iff _ _) Hfind) in Hin. now rewrite Hin.
Qed.

Lemma upsert_twice_witness :
  DbWrite.upsertIssue
    "2024-04-01 00:00:00" []
    (Scan.issueDataOf ScanExamples.widgets (ScanExamples.forgeIssue 501 7 "Crash on start"))
    (snd (DbWrite.upsertIssue
            "2024-03-03 09:00:00" []
            (Scan.issueDataOf ScanExamples.widgets
                              (ScanExamples.forgeIssue 501 7 "Crash on start"))
            []))
  = (Effect.Returned {| DbWrite.isNew := false; DbWrite.upserted_id := 1 |},
     snd (DbWrite.upsertIssue
            "2024-03-03 09:00:00" []
            (Scan.issueDataOf ScanExamples.widgets
                              (ScanExamples.forgeIssue 501 7 "Crash on start"))
            [])).
Proof.
  apply (upsert_twice_is_upsert_once
           "2024-03-03 09:00:00" "2024-04-01 00:00:00" [] []
           (Scan.issueDataOf ScanExamples.widgets
                             (ScanExamples.forgeIssue 501 7 "Crash on start"))
           [] {| DbWrite.isNew := true; DbWrite.upserted_id := 1 |}).
  reflexivity.
Defined.

(* ================================================================== *)
(** * Facts about the scan                                             *)
(* ================================================================== *)

Module ScanFacts.

Import Effect Host Scan ScanSpec TableSpec.

Section Rules.
Context {Env : Type} {runtime : Runtime Env}.

Lemma grows_keeps {A : Type} (c : M (World Env) A) : Keeps c -> Grows c.
Proof.
  intros Hc w. rewrite (Hc w). split; [apply UpsertFacts.grownFrom_refl | auto].
Qed.

Lemma grows_ret {A : Type} (a : A) : Grows (Env := Env) (ret a).
Proof. apply grows_keeps, DaemonFacts.keeps_ret. Qed.

Lemma grows_call {A : Type} (op : Env -> Outcome A * Env) : Grows (call op).
Proof. apply grows_keeps, DaemonFacts.keeps_call. Qed.

Lemma grows_log (level : LogLevel) (message : string) : Grows (log level message).
Proof. apply grows_keeps, DaemonFacts.keeps_log. Qed.

Lemma grows_bind {A B : Type} (c : M (World Env) A) (k : A -> M (World Env) B) :
  Grows c -> (forall a, Grows (k a)) -> Grows (bind c k).
Proof.
  intros Hc Hk w. unfold bind. destruct (Hc w) as [Hgrown Hkeys].
  destruct (c w) as [[a | e] w1]; simpl in *; [|auto].
  destruct (Hk a w1) as [Hgrown' Hkeys']. split.
  - eapply UpsertFacts.grownFrom_trans; eassumption.
  - auto.
Qed.

Lemma grows_sql (stmt : Db.Table -> Db.Table) :
  (forall table,
      grownFrom table (stmt table)
      /\ (NoDup (map Db.id table) -> NoDup (map Db.id (stmt table)))) ->
  Grows (sql stmt).
Proof.
  intros Hstmt w.
  destruct (DaemonFacts.sql_cases stmt w) as [[_ ->] | [_ ->]].
  - apply Hstmt.
  - split; [apply UpsertFacts.grownFrom_refl | auto].
Qed.

End Rules.

Section Scanning.
Context {Env : Type} {runtime : Runtime Env} {scanning : ScanServices Env}.

Lemma inserted_grows (d : DbWrite.GitHubIssueData) : Grows (inserted d).
Proof.
  intros w. unfold inserted.
  pose proof (UpsertFacts.insertScanned_grows (currentTime (env w)) (randomness (env w))
                                              d (issues w)) as H.
  destruct (DbWrite.insertScanned (currentTime (env w)) (randomness (env w)) d (issues w))
    as [r table].
  exact H.
Qed.

Lemma upsert_grows (d : DbWrite.GitHubIssueData) : Grows (upsert d).
Proof.
  unfold upsert.
  apply grows_bind; [apply grows_keeps, DaemonFacts.keeps_query | intros existing].
  destruct existing as [key |].
  - apply grows_bind; [|intros _; apply grows_ret].
    apply grows_sql. intros table. apply UpsertFacts.updateScanned_grows.
  - apply grows_bind; [apply grows_call | intros _].
    apply grows_bind; [apply inserted_grows | intros key]. apply grows_ret.
Qed.

Lemma storeIssues_grows (repo : Repository) (found : list Issue) (count : Z) :
  Grows (storeIssues repo found count).
Proof.
  revert count. induction found as [| issue rest IH]; intros count; simpl.
  - apply grows_ret.
  - apply grows_bind; [apply upsert_grows | intros r].
    apply grows_bind; [|intros count'; apply IH].
    destruct (DbWrite.isNew r); [|apply grows_ret].
    apply grows_bind; [apply grows_log | intros _; apply grows_ret].
Qed.

Lemma scanRepos_grows (repos : list Repository) (total count : Z) :
  Grows (scanRepos repos total count).
Proof.
  revert total count. induction repos as [| repo rest IH]; intros total count; simpl.
  - apply grows_ret.
  - apply grows_bind; [apply grows_log | intros _].
    apply grows_bind; [apply grows_call | intros found].
    apply grows_bind; [apply storeIssues_grows | intros count']. apply IH.
Qed.

Lemma scanAllRepos_grows : Grows scanAllRepos.
Proof.
  unfold scanAllRepos.
  apply grows_bind; [apply grows_log | intros _].
  apply grows_bind; [apply grows_call | intros repos].
  apply grows_bind; [apply grows_log | intros _].
  apply grows_bind; [apply scanRepos_grows | intros totals].
  apply grows_bind; [apply grows_call | intros _].
  apply grows_bind; [apply grows_log | intros _]. apply grows_ret.
Qed.



End Scanning.

End ScanFacts.

(* ================================================================== *)
(** * Properties of [scanAllRepos]                                     *)
(* ================================================================== *)

(** X15: a scan never disturbs what is recorded about a stored issue.
    Whether [scanAllRepos] returns or throws half way, the table it
    leaves is the old table, row by row, with nothing changed in the key,
    the forge identifier, the repository name and number, the address,
    the time of creation, the time of the first sighting, the status, the
    branch and the task brief, followed by the rows it inserted, each of
    them new with no branch and no brief; and keys that were distinct are
    still distinct. *)
Theorem scan_keeps_records_and_adds_new_rows
        {Env : Type} {runtime : Host.Runtime Env} {scanning : Scan.ScanServices Env}
        (w : Host.World Env) :
  (exists g added,
      Host.issues (snd (Scan.scanAllRepos w)) = map g (Host.issues w) ++ added
      /\ PassSpec.keepsRecord g
      /\ Forall ScanSpec.isFresh added)
  /\ (NoDup (map Db.id (Host.issues w)) ->
      NoDup (map Db.id (Host.issues (snd (Scan.scanAllRepos w))))).
Proof. exact (ScanFacts.scanAllRepos_grows w). Qed.

Lemma scan_keeps_records_witness :
  NoDup (map Db.id (Host.issues (snd (Scan.scanAllRepos (runtime := quiet)
                                                        (scanning := ScanExamples.twoForks)
                                                        twoNewIssues)))).
Proof.
  apply (scan_keeps_records_and_adds_new_rows (runtime := quiet)
                                              (scanning := ScanExamples.twoForks)
                                              twoNewIssues).
  simpl. repeat constructor; simpl; intuition discriminate.
Defined.



(* ================================================================== *)
(** * Further facts about the pass                                     *)
(* ================================================================== *)

Module PassFacts.

Import Effect Host TableSpec CycleSpec.

Section Pass.
Variable toLocaleDateString : string -> string.
Variable extractFileReferences : string -> list string.
Context {unicode : Unicode} {Env : Type} {runtime : Runtime Env}
        {services : Services Env}.

Let prepareIssue := Daemon.prepareIssue toLocaleDateString extractFileReferences.
Let skipIssue := Daemon.skipIssue (Env := Env).
Let processIssue := Daemon.processIssue toLocaleDateString extractFileReferences.
Let forEachIssue := Daemon.forEachIssue toLocaleDateString extractFileReferences.
Let processNewIssues := Daemon.processNewIssues toLocaleDateString extractFileReferences.

(** The log never fails, and neither does the engine. *)
Hypothesis logger_returns :
  forall level message e, fst (logger level message e) = Returned tt.
Hypothesis statement_returns : forall e, fst (statement e) = Returned tt.

Lemma skipIssue_returns (row : Db.DbIssue) (error : string) (w : World Env) :
  fst (skipIssue row error w) = Returned tt.
Proof.
  unfold skipIssue, Daemon.skipIssue, bind, log, sql, call, written, bind.
  match goal with
  | |- context [logger ?l ?m (env w)] =>
      pose proof (logger_returns l m (env w)) as Hlog;
      destruct (logger l m (env w)) as [[[] | e] e1]; [|discriminate]
  end.
  cbn [env issues]. pose proof (statement_returns e1) as Hstmt.
  destruct (statement e1) as [[[] | e] e2]; [reflexivity | discriminate].
Qed.

(** The loop body catches what the [try] block throws. *)
Lemma processIssue_returns (row : Db.DbIssue) (w : World Env) :
  fst (processIssue row w) = Returned tt.
Proof.
  unfold processIssue, Daemon.processIssue, tryCatch.
  destruct (Daemon.prepareIssue _ _ row w) as [[[] | e] w1]; [reflexivity|].
  apply skipIssue_returns.
Qed.

Lemma forEachIssue_returns (rows : list Db.DbIssue) (w : World Env) :
  fst (forEachIssue rows w) = Returned tt.
Proof.
  revert w. induction rows as [| row rest IH]; intros w; [reflexivity|].
  unfold forEachIssue. rewrite DaemonFacts.forEachIssue_cons
    by apply processIssue_returns.
  apply IH.
Qed.

Lemma processNewIssues_returns (w : World Env) :
  fst (processNewIssues w) = Returned tt.
Proof.
  unfold processNewIssues, Daemon.processNewIssues, query, bind, call, selected, log.
  pose proof (statement_returns (env w)) as Hstmt.
  destruct (statement (env w)) as [[[] | e] e1]; [|discriminate].
  cbn [env issues].
  destruct (length (Db.getIssuesByStatus Db.New (issues w)) =? 0)%nat.
  - unfold call. cbn [env].
    pose proof (logger_returns Debug "No new issues to process" e1) as Hlog.
    destruct (logger Debug "No new issues to process" e1) as [[[] | e] e2];
      [reflexivity | discriminate].
  - unfold call. cbn [env issues].
    match goal with
    | |- context [logger ?l ?m e1] =>
        pose proof (logger_returns l m e1) as Hlog;
        destruct (logger l m e1) as [[[] | e] e2]; [|discriminate]
    end.
    apply forEachIssue_returns.
Qed.
End Pass.

End PassFacts.

(* ================================================================== *)
(** * Properties of the pass                                           *)
(* ================================================================== *)

(** X17: the pass settles the new issues and touches no other.  On a
    table of exact rows with distinct keys, however [processNewIssues]
    ends, it changes rows in place, in nothing but the status, the
    branch and the task brief; a row that was not new is left exactly as
    it was; a row that was new is new, ready or skipped; and when the
    pass returns, every row that was new is ready or skipped.  The pass
    returns whenever the log and the engine do not throw: whatever else
    throws is caught issue by issue. *)
Theorem pass_settles_the_new_issues_and_no_other
        (toLocaleDateString : string -> string)
        (extractFileReferences : string -> list string)
        {unicode : Host.Unicode} {Env : Type} {runtime : Host.Runtime Env}
        {services : Host.Services Env} (w : Host.World Env) :
  let processNewIssues :=
    Daemon.processNewIssues toLocaleDateString extractFileReferences in
  NoDup (map Db.id (Host.issues w)) ->
  Forall Db.exact (Host.issues w) ->
  (exists g,
      Host.issues (snd (processNewIssues w)) = map g (Host.issues w)
      /\ CycleSpec.onlyProgress g
      /\ (forall r, In r (Host.issues w) -> Db.status r <> Db.New -> g r = r)
      /\ (forall r, In r (Host.issues w) -> Db.status r = Db.New ->
                    Db.status (g r) = Db.New
                    \/ Db.status (g r) = Db.Ready
                    \/ Db.status (g r) = Db.Skipped)
      /\ (fst (processNewIssues w) = Effect.Returned tt ->
          forall r, In r (Host.issues w) -> Db.status r = Db.New ->
                    Db.status (g r) = Db.Ready \/ Db.status (g r) = Db.Skipped))
  /\ ((forall level message e,
          fst (Host.logger level message e) = Effect.Returned tt) ->
      (forall e, fst (Host.statement e) = Effect.Returned tt) ->
      fst (processNewIssues w) = Effect.Returned tt).
Proof.
  intros processNewIssues Hkeys Hexact. split.
  - destruct (DaemonFacts.processNewIssues_changes toLocaleDateString extractFileReferences
                w) as [g [Ht [Hp [Hstatus Hmore]]]].
    destruct (Hmore Hkeys Hexact) as [Hsettled Hdone].
    exists g. split; [exact Ht|]. split; [exact Hp|]. split; [exact Hsettled|].
    split; [|exact Hdone].
    intros r _ Hnew. rewrite <- Hnew at 1. apply Hstatus.
  - intros Hlog Hstmt. now apply PassFacts.processNewIssues_returns.
Qed.

Lemma pass_settles_witness :
  fst (Daemon.processNewIssues (unicode := asciiHost) (runtime := quiet)
                               (services := flakyClone) noDate noRefs twoNewIssues)
  = Effect.Returned tt
  /\ exists g,
      Host.issues (snd (Daemon.processNewIssues (unicode := asciiHost) (runtime := quiet)
                                                (services := flakyClone) noDate noRefs
                                                twoNewIssues))
      = map g (Host.issues twoNewIssues)
      /\ CycleSpec.onlyProgress g
      /\ (forall r, In r (Host.issues twoNewIssues) -> Db.status r = Db.New ->
                    Db.status (g r) = Db.Ready \/ Db.status (g r) = Db.Skipped).
Proof.
  destruct (pass_settles_the_new_issues_and_no_other
              (unicode := asciiHost) (runtime := quiet) (services := flakyClone)
              noDate noRefs twoNewIssues)
    as [[g (Ht & Hp & _ & _ & Hdone)] Hreturns].
  - simpl. repeat constructor; simpl; intuition discriminate.
  - repeat constructor.
  - assert (Hret : fst (Daemon.processNewIssues
                          (unicode := asciiHost) (runtime := quiet)
                          (services := flakyClone) noDate noRefs twoNewIssues)
                   = Effect.Returned tt)
      by (apply Hreturns; reflexivity).
    split; [exact Hret|]. exists g. split; [exact Ht|]. split; [exact Hp|].
    exact (Hdone Hret).
Defined.



(* ================================================================== *)
(** * Facts about the scan cycle                                       *)
(* ================================================================== *)

Module CycleFacts.

Import Effect Host Scan Cycle TableSpec ScanSpec CycleSpec.

Lemma advancedFrom_refl (table : Db.Table) : advancedFrom table table.
Proof.
  exists (fun row => row), []. rewrite map_id, app_nil_r.
  split; [reflexivity|]. split; intros row; repeat split; reflexivity.
Qed.

Lemma advancedFrom_trans (t1 t2 t3 : Db.Table) :
  advancedFrom t1 t2 -> advancedFrom t2 t3 -> advancedFrom t1 t3.
Proof.
  intros [g1 [a1 [-> [Hi1 Hs1]]]] [g2 [a2 [-> [Hi2 Hs2]]]].
  exists (fun row => g2 (g1 row)), (map g2 a1 ++ a2).
  rewrite map_app, map_map, <- app_assoc.
  split; [reflexivity|]. split.
  - intros row.
    destruct (Hi1 row) as (A1 & B1 & C1 & D1 & E1).
    destruct (Hi2 (g1 row)) as (A2 & B2 & C2 & D2 & E2).
    repeat split; congruence.
  - intros row Hin Hsettled.
    destruct (Hs1 row Hin Hsettled) as (A1 & B1 & C1).
    destruct (Hs2 (g1 row)) as (A2 & B2 & C2).
    + apply in_or_app. left. now apply in_map.
    + now rewrite A1.
    + repeat split; congruence.
Qed.

Lemma grownFrom_advanced (table table' : Db.Table) :
  grownFrom table table' -> advancedFrom table table'.
Proof.
  intros [g [added [-> [Hg _]]]]. exists g, added.
  split; [reflexivity|]. split.
  - intros row. destruct (Hg row) as (A & B & C & D & E & _). auto.
  - intros row _ _. destruct (Hg row) as (_ & _ & _ & _ & _ & F & G & H & _). auto.
Qed.

(** A table that has grown from exact rows into exact rows. *)
Lemma grownFrom_statuses (table table' : Db.Table) :
  grownFrom table table' ->
  exists g added,
    table' = map g table ++ added
    /\ (forall r, Db.status (g r) = Db.status r)
    /\ Forall (fun r => Db.status r = Db.New) added.
Proof.
  intros [g [added [Ht [Hg Hadded]]]]. exists g, added.
  split; [exact Ht|]. split.
  - intros r. apply Hg.
  - eapply Forall_impl; [|exact Hadded]. intros r Hfresh. apply Hfresh.
Qed.

Section Cycling.
Variable toLocaleDateString : string -> string.
Variable extractFileReferences : string -> list string.
Context {unicode : Unicode} {Env : Type} {runtime : Runtime Env}
        {services : Services Env} {scanning : ScanServices Env}.

Let processNewIssues := Daemon.processNewIssues toLocaleDateString extractFileReferences.
Let scanAndProcess := Cycle.scanAndProcess toLocaleDateString extractFileReferences.
Let runScanCycle := Cycle.runScanCycle toLocaleDateString extractFileReferences.

(** The table the scan has left, with its keys as distinct as they
    were. *)
Let scannedFrom (t0 t : Db.Table) : Prop :=
  grownFrom t0 t /\ (NoDup (map Db.id t0) -> NoDup (map Db.id t)).

(** The table a pass has left that started on such a table. *)
Let passedFrom (t0 t : Db.Table) : Prop :=
  exists w2 : World Env,
    scannedFrom t0 (issues w2) /\ t = issues (snd (processNewIssues w2)).

Lemma reportFailure_keeps (error : string) : Keeps (reportFailure (Env := Env) error).
Proof. unfold reportFailure. DaemonFacts.keeps. Qed.

(** The table a cycle leaves is the table the scan left, or the table
    the pass left that followed the scan. *)
Lemma runScanCycle_triple (t0 : Db.Table) :
  Triple (eq t0) runScanCycle
         (fun t => scannedFrom t0 t \/ passedFrom t0 t)
         (fun _ _ => True).
Proof.
  assert (Hrefl : scannedFrom t0 t0)
    by (split; [apply UpsertFacts.grownFrom_refl | auto]).
  unfold runScanCycle, Cycle.runScanCycle.
  apply DaemonFacts.triple_after; [DaemonFacts.keeps | now left | intros _].
  apply DaemonFacts.triple_tryCatch
    with (mid := fun t => scannedFrom t0 t \/ passedFrom t0 t); [| auto |].
  2:{ intros e t Ht.
      eapply DaemonFacts.triple_weaken;
        [apply (DaemonFacts.triple_keeps t _ (fun t' => scannedFrom t0 t' \/ passedFrom t0 t'))
        | auto | auto | auto].
      - apply reportFailure_keeps.
      - exact Ht. }
  unfold Cycle.scanAndProcess.
  apply DaemonFacts.triple_bind with (mid := fun _ t => scannedFrom t0 t).
  { intros w Hw. destruct (ScanFacts.scanAllRepos_grows w) as [Hgrown Hkeys].
    rewrite <- Hw in *. split; [left; now split | intros a _; now split]. }
  intros scanResult.
  assert (Hstep : forall (A : Type) (c : M (World Env) A),
             Keeps c ->
             Triple (scannedFrom t0) c (fun t => scannedFrom t0 t \/ passedFrom t0 t)
                    (fun _ => scannedFrom t0)).
  { intros A c Hc w Hw. rewrite (Hc w). split; [now left | auto]. }
  apply DaemonFacts.triple_bind with (mid := fun _ => scannedFrom t0);
    [apply Hstep; DaemonFacts.keeps | intros newIssues].
  apply DaemonFacts.triple_bind with (mid := fun _ => scannedFrom t0).
  { apply Hstep. destruct (0 <? length newIssues)%nat; DaemonFacts.keeps. }
  intros _.
  apply DaemonFacts.triple_bind with (mid := fun _ => passedFrom t0).
  { intros w Hw.
    assert (Hpassed : passedFrom t0 (issues (snd (Daemon.processNewIssues
                                                    toLocaleDateString
                                                    extractFileReferences w))))
      by (exists w; split; [exact Hw | reflexivity]).
    split; [now right | intros a _; exact Hpassed]. }
  intros _.
  intros w Hw.
  assert (Hkeeps : Keeps (bind (call (notifyScanComplete scanResult))
                               (fun _ => log (Env := Env) Info "Scan cycle complete")))
    by DaemonFacts.keeps.
  rewrite (Hkeeps w). split; [now right | auto].
Qed.

End Cycling.

End CycleFacts.

(* ================================================================== *)
(** * Properties of [runScanCycle]                                     *)
(* ================================================================== *)

(** X19: a scan cycle never touches a settled issue.  On a table with
    distinct keys, whatever the forge, git, the file system, the log and
    the engine answer and wherever an exception occurs, if the rows the
    cycle leaves are exact (their keys and numbers are numbers as they
    stand), then the table [runScanCycle] leaves is the old table row by
    row, followed by further rows; every row keeps its key, forge
    identifier, repository name, number and time of first sighting;
    every row that was not new keeps its status, branch and task brief;
    and the keys are still distinct. *)
Theorem cycle_never_touches_a_settled_issue
        (toLocaleDateString : string -> string)
        (extractFileReferences : string -> list string)
        {unicode : Host.Unicode} {Env : Type} {runtime : Host.Runtime Env}
        {services : Host.Services Env} {scanning : Scan.ScanServices Env}
        (w : Host.World Env) :
  let runScanCycle := Cycle.runScanCycle toLocaleDateString extractFileReferences in
  NoDup (map Db.id (Host.issues w)) ->
  Forall Db.exact (Host.issues (snd (runScanCycle w))) ->
  (exists g added,
      Host.issues (snd (runScanCycle w)) = map g (Host.issues w) ++ added
      /\ CycleSpec.keepsIdentity g
      /\ CycleSpec.keepsSettled (Host.issues w) g)
  /\ NoDup (map Db.id (Host.issues (snd (runScanCycle w)))).
Proof.
  intros runScanCycle Hkeys Hexact.
  destruct (CycleFacts.runScanCycle_triple toLocaleDateString extractFileReferences
              (Host.issues w) w eq_refl) as [Hduring _].
  fold runScanCycle in Hduring.
  destruct Hduring as [[Hgrown Hdistinct] | [w2 [[Hgrown Hdistinct] Hpassed]]].
  - split; [now apply CycleFacts.grownFrom_advanced | auto].
  - destruct (DaemonFacts.processNewIssues_changes toLocaleDateString
                extractFileReferences w2) as [g [Ht [Hp [_ Hmore]]]].
    assert (Hfinal : Host.issues (snd (runScanCycle w)) = map g (Host.issues w2))
      by (rewrite Hpassed; exact Ht).
    rewrite Hfinal in Hexact |- *.
    apply (proj1 (DaemonFacts.exact_map g _ Hp)) in Hexact.
    destruct (Hmore (Hdistinct Hkeys) Hexact) as [Hsettled _].
    split.
    + apply (CycleFacts.advancedFrom_trans _ (Host.issues w2));
        [now apply CycleFacts.grownFrom_advanced|].
      exists g, []. rewrite app_nil_r. split; [reflexivity|].
      split; [now apply DaemonFacts.onlyProgress_identity|].
      intros row Hin Hst. now rewrite (Hsettled row Hin Hst).
    + rewrite map_map.
      rewrite (map_ext (fun r => Db.id (g r)) Db.id); [now apply Hdistinct|].
      intros r. now apply DaemonFacts.onlyProgress_key.
Qed.

Lemma cycle_settled_witness :
  NoDup (map Db.id
             (Host.issues
                (snd (Cycle.runScanCycle (unicode := asciiHost) (runtime := quiet)
                                         (services := flakyClone)
                                         (scanning := ScanExamples.fineForge)
                                         noDate noRefs twoNewIssues)))).
Proof.
  apply (cycle_never_touches_a_settled_issue
           (unicode := asciiHost) (runtime := quiet)
           (services := flakyClone) (scanning := ScanExamples.fineForge)
           noDate noRefs twoNewIssues).
  - simpl. repeat constructor; simpl; intuition discriminate.
  - apply DaemonFacts.isExact_exact. reflexivity.
Defined.

(** X20: a scan that throws skips the pass.  If the opening log line
    returns and [scanAllRepos] throws, [runScanCycle] does nothing more
    than write ["Scan cycle failed: <error>"] to the log and, when that
    returns, report ["Scan failed: <error>"]; when the log line throws,
    so does the cycle.  Either way the table stays as the scan left it,
    so every issue that was new, and every issue the scan had inserted
    before it failed, is still new after the cycle. *)
Theorem failed_scan_skips_the_pass
        (toLocaleDateString : string -> string)
        (extractFileReferences : string -> list string)
        {unicode : Host.Unicode} {Env : Type} {runtime : Host.Runtime Env}
        {services : Host.Services Env} {scanning : Scan.ScanServices Env}
        (w failed : Host.World Env) (error : string) (e0 : Env) :
  let runScanCycle := Cycle.runScanCycle toLocaleDateString extractFileReferences in
  Host.logger Host.Info "Starting scan cycle" (Host.env w) = (Effect.Returned tt, e0) ->
  Scan.scanAllRepos {| Host.issues := Host.issues w; Host.env := e0 |}
  = (Effect.Thrown error, failed) ->
  (forall e1,
      Host.logger Host.Error ("Scan cycle failed: " +++ error) (Host.env failed)
      = (Effect.Returned tt, e1) ->
      runScanCycle w
      = Host.call (Scan.notifyError ("Scan failed: " +++ error))
                  {| Host.issues := Host.issues failed; Host.env := e1 |})
  /\ (forall e1 logError,
         Host.logger Host.Error ("Scan cycle failed: " +++ error) (Host.env failed)
         = (Effect.Thrown logError, e1) ->
         runScanCycle w
         = (Effect.Thrown logError,
            {| Host.issues := Host.issues failed; Host.env := e1 |}))
  /\ Host.issues (snd (runScanCycle w)) = Host.issues failed
  /\ (exists g added,
         Host.issues (snd (runScanCycle w)) = map g (Host.issues w) ++ added
         /\ (forall r, Db.status (g r) = Db.status r)
         /\ Forall (fun r => Db.status r = Db.New) added).
Proof.
  intros runScanCycle Hlog Hthrown.
  assert (Hrun : runScanCycle w = Cycle.reportFailure error failed).
  { unfold runScanCycle, Cycle.runScanCycle, Effect.bind at 1, Host.log, Host.call at 1.
    rewrite Hlog. cbn [fst snd Host.issues Host.env].
    unfold Effect.tryCatch, Cycle.scanAndProcess, Effect.bind at 1.
    now rewrite Hthrown. }
  assert (Htable : Host.issues (snd (runScanCycle w)) = Host.issues failed).
  { rewrite Hrun. apply CycleFacts.reportFailure_keeps. }
  split; [|split; [|split; [exact Htable|]]].
  - intros e1 Hreport. rewrite Hrun.
    unfold Cycle.reportFailure, Effect.bind, Host.log, Host.call at 1.
    now rewrite Hreport.
  - intros e1 logError Hreport. rewrite Hrun.
    unfold Cycle.reportFailure, Effect.bind, Host.log, Host.call at 1.
    now rewrite Hreport.
  - rewrite Htable. apply CycleFacts.grownFrom_statuses.
    destruct (ScanFacts.scanAllRepos_grows
                {| Host.issues := Host.issues w; Host.env := e0 |}) as [Hgrown _].
    rewrite Hthrown in Hgrown. exact Hgrown.
Qed.

Lemma failed_scan_witness :
  Host.issues (snd (Cycle.runScanCycle (unicode := asciiHost) (runtime := quiet)
                                       (services := flakyClone)
                                       (scanning := ScanExamples.twoForks)
                                       noDate noRefs ScanExamples.emptyWorld))
  = Host.issues (snd (Scan.scanAllRepos (runtime := quiet)
                                        (scanning := ScanExamples.twoForks)
                                        ScanExamples.emptyWorld)).
Proof.
  apply (failed_scan_skips_the_pass
           (unicode := asciiHost) (runtime := quiet)
           (services := flakyClone) (scanning := ScanExamples.twoForks)
           noDate noRefs ScanExamples.emptyWorld
           (snd (Scan.scanAllRepos (runtime := quiet) (scanning := ScanExamples.twoForks)
                                   ScanExamples.emptyWorld))
           DbWrite.uniqueFailed tt).
  - reflexivity.
  - reflexivity.
Defined.



(* ================================================================== *)
(** * Properties of the configured repositories                        *)
(* ================================================================== *)

Module ConfigFacts.

Import Effect Config TextSpec.

Lemma split_two (owner repo : string) :
  lacks "/" owner = true -> lacks "/" repo = true ->
  JS.split "/" (owner +++ "/" +++ repo) = [owner; repo].
Proof.
  intros Howner Hrepo.
  apply (TextFacts.split_join "/" [owner; repo]); [discriminate|].
  repeat constructor; assumption.
Qed.

Lemma parseRepoString_returned (repoStr owner repo : string) :
  parseRepoString repoStr = Returned (owner, repo) ->
  JS.split "/" repoStr = [owner; repo].
Proof.
  unfold parseRepoString.
  destruct (JS.split "/" repoStr) as [| a [| b [| c rest]]]; try discriminate.
  intros H. now injection H as <- <-.
Qed.

Lemma parseRepositories_strings (repoStrs : list string) (targets : list (string * string)) :
  parseRepositories repoStrs = Returned targets ->
  map repoString targets = repoStrs.
Proof.
  revert targets. induction repoStrs as [| repoStr rest IH]; simpl; intros targets H.
  - now injection H as <-.
  - destruct (parseRepoString repoStr) as [[owner repo] | e] eqn:Hone; [|discriminate].
    destruct (parseRepositories rest) as [parsed | e]; [|discriminate].
    injection H as <-. simpl. rewrite (IH parsed eq_refl). f_equal.
    apply parseRepoString_returned in Hone.
    rewrite <- (TextFacts.join_split "/" repoStr), Hone. reflexivity.
Qed.

End ConfigFacts.

(** X22: [parseRepoString] accepts exactly the strings with one slash.
    It returns the owner and the repository exactly when the string is
    the owner, a slash and the repository, neither of them holding a
    slash (either may be empty, as in ["/"] or ["acme/"]); for every
    other string it throws the format error. *)
Theorem parseRepoString_accepts_exactly_one_slash (repoStr owner repo : string) :
  (Config.parseRepoString repoStr = Effect.Returned (owner, repo)
   <-> repoStr = owner +++ "/" +++ repo
       /\ TextSpec.lacks "/" owner = true /\ TextSpec.lacks "/" repo = true)
  /\ ((forall o r, Config.parseRepoString repoStr <> Effect.Returned (o, r)) ->
      Config.parseRepoString repoStr
      = Effect.Thrown ("Error: Invalid repository format: " +++ repoStr
                       +++ ". Expected: owner/repo")).
Proof.
  split; [split|].
  - intros H. apply ConfigFacts.parseRepoString_returned in H.
    pose proof (TextFacts.join_split "/" repoStr) as Hjoin.
    pose proof (TextFacts.split_pieces_lack "/" repoStr) as Hlack.
    rewrite H in Hjoin, Hlack. split; [now rewrite <- Hjoin|].
    apply Forall_cons_iff in Hlack. destruct Hlack as [Howner Hlack].
    apply Forall_cons_iff in Hlack. tauto.
  - intros [-> [Howner Hrepo]]. unfold Config.parseRepoString.
    now rewrite ConfigFacts.split_two.
  - intros Hnone. unfold Config.parseRepoString in *.
    destruct (JS.split "/" repoStr) as [| a [| b [| c rest]]]; try reflexivity.
    now elim (Hnone a b).
Qed.

Lemma parseRepoString_witness :
  Config.parseRepoString "acme/widgets" = Effect.Returned ("acme", "widgets")
  /\ Config.parseRepoString "acme/widgets/issues"
     = Effect.Thrown "Error: Invalid repository format: acme/widgets/issues. Expected: owner/repo".
Proof.
  split.
  - apply (proj1 (parseRepoString_accepts_exactly_one_slash "acme/widgets" "acme" "widgets")).
    repeat split.
  - apply (proj2 (parseRepoString_accepts_exactly_one_slash
                    "acme/widgets/issues" "" "")).
    intros o r. discriminate.
Defined.

(** X23: the summary shows the repositories as they were configured.
    When the repository strings of the configuration parse,
    [getTargetSummary] prints them back unchanged: its repositories line
    is ["Repositories: "] followed by the configured strings joined with
    [", "]. *)
Theorem target_summary_prints_the_configured_strings
        (organizations repoStrs : list string) (targets : list (string * string)) :
  Config.parseRepositories repoStrs = Effect.Returned targets ->
  repoStrs <> [] ->
  length targets = length repoStrs
  /\ map Config.repoString targets = repoStrs
  /\ Config.getTargetSummary [] targets = "Repositories: " +++ JS.join ", " repoStrs
  /\ (organizations <> [] ->
      Config.getTargetSummary organizations targets
      = "Organizations: " +++ JS.join ", " organizations +++ String "010" ""
        +++ "Repositories: " +++ JS.join ", " repoStrs).
Proof.
  intros Hparsed Hsome.
  pose proof (ConfigFacts.parseRepositories_strings repoStrs targets Hparsed) as Hback.
  assert (Hlen : length targets = length repoStrs).
  { rewrite <- Hback. now rewrite length_map. }
  assert (Hpos : (0 <? length targets)%nat = true).
  { apply Nat.ltb_lt. rewrite Hlen. destruct repoStrs; [congruence | simpl; lia]. }
  split; [exact Hlen|]. split; [exact Hback|].
  unfold Config.getTargetSummary. rewrite Hpos, Hback. split; [reflexivity|].
  intros Horgs. destruct organizations as [| org orgs]; [congruence|]. reflexivity.
Qed.

Lemma target_summary_witness :
  Config.getTargetSummary ["acme"] [("acme", "widgets"); ("other", "widgets")]
  = "Organizations: acme" +++ String "010" ""
    +++ "Repositories: acme/widgets, other/widgets".
Proof.
  destruct (target_summary_prints_the_configured_strings
              ["acme"] ["acme/widgets"; "other/widgets"]
              [("acme", "widgets"); ("other", "widgets")])
    as (_ & _ & _ & Hsummary).
  - reflexivity.
  - discriminate.
  - apply Hsummary. discriminate.
Defined.

(* ================================================================== *)
(** * Facts about the notice of several new issues                     *)
(* ================================================================== *)

Module NotifierFacts.

Import Notifier NotifierSpec.

Lemma has_In (xs : list string) (x : string) : JS.has xs x = true <-> In x xs.
Proof.
  unfold JS.has. rewrite existsb_exists. split.
  - intros [y [Hin Heq]]. apply String.eqb_eq in Heq. now subst.
  - intros Hin. exists x. split; [exact Hin | apply String.eqb_refl].
Qed.

Lemma has_cons (y : string) (xs : list string) (x : string) :
  JS.has (y :: xs) x = String.eqb x y || JS.has xs x.
Proof. reflexivity. Qed.

Lemma has_unique (xs : list string) (x : string) :
  JS.has (JS.unique xs) x = JS.has xs x.
Proof.
  apply eq_true_iff_eq. rewrite !has_In. apply KeywordFacts.unique_In.
Qed.

(** The first occurrences of a list with one more element. *)
Lemma uniqueFrom_snoc (seen xs : list string) (x : string) :
  JS.uniqueFrom seen (xs ++ [x])
  = JS.uniqueFrom seen xs ++ (if JS.has seen x || JS.has xs x then [] else [x]).
Proof.
  revert seen. induction xs as [| y xs IH]; intros seen; cbn [app JS.uniqueFrom].
  - change (JS.has [] x) with false. rewrite orb_false_r.
    destruct (JS.has seen x); reflexivity.
  - rewrite has_cons. destruct (JS.has seen y) eqn:Hy.
    + rewrite IH. f_equal.
      destruct (String.eqb_spec x y) as [-> | Hne]; [|reflexivity].
      now rewrite Hy.
    + rewrite IH, has_cons. cbn [app]. do 2 f_equal.
      destruct (String.eqb x y), (JS.has seen x), (JS.has xs x); reflexivity.
Qed.

Lemma issuesOf_snoc (repo : string) (issues : list Db.DbIssue) (issue : Db.DbIssue) :
  issuesOf repo (issues ++ [issue])
  = issuesOf repo issues
    ++ (if String.eqb (Db.repo_name issue) repo then [issue] else []).
Proof. unfold issuesOf. rewrite filter_app. reflexivity. Qed.

Lemma issuesOf_none (repo : string) (issues : list Db.DbIssue) :
  ~ In repo (map Db.repo_name issues) -> issuesOf repo issues = [].
Proof.
  induction issues as [| issue rest IH]; simpl; intros Hnot; [reflexivity|].
  destruct (String.eqb_spec (Db.repo_name issue) repo) as [Heq | Hne]; [tauto|].
  apply IH. tauto.
Qed.

Lemma mapGet_groups (f : string -> list Db.DbIssue) (names : list string) (key : string) :
  mapGet key (map (fun repo => (repo, f repo)) names)
  = if JS.has names key then Some (f key) else None.
Proof.
  induction names as [| name names IH]; cbn [map mapGet]; [reflexivity|].
  rewrite has_cons, (String.eqb_sym key name).
  destruct (String.eqb_spec name key) as [-> | Hne]; [reflexivity | exact IH].
Qed.

Lemma mapSet_new (f : string -> list Db.DbIssue) (names : list string) (key : string)
      (value : list Db.DbIssue) :
  ~ In key names ->
  mapSet key value (map (fun repo => (repo, f repo)) names)
  = map (fun repo => (repo, f repo)) names ++ [(key, value)].
Proof.
  induction names as [| name names IH]; simpl; intros Hnot; [reflexivity|].
  destruct (String.eqb_spec name key) as [Heq | Hne]; [tauto|].
  rewrite IH by tauto. reflexivity.
Qed.

Lemma mapSet_known (f : string -> list Db.DbIssue) (names : list string) (key : string)
      (value : list Db.DbIssue) :
  NoDup names -> In key names ->
  mapSet key value (map (fun repo => (repo, f repo)) names)
  = map (fun repo => (repo, if String.eqb repo key then value else f repo)) names.
Proof.
  induction names as [| name names IH]; simpl; intros Hdistinct Hin; [destruct Hin|].
  apply NoDup_cons_iff in Hdistinct. destruct Hdistinct as [Hfresh Hdistinct].
  destruct (String.eqb_spec name key) as [-> | Hne].
  - f_equal. apply map_ext_in. intros repo Hrepo.
    destruct (String.eqb_spec repo key) as [-> | _]; [contradiction | reflexivity].
  - f_equal. apply IH; [exact Hdistinct|]. destruct Hin; [contradiction | assumption].
Qed.

(** One more issue, on the groups said without the loop. *)
Lemma groupsOf_snoc (issues : list Db.DbIssue) (issue : Db.DbIssue) :
  groupsOf (issues ++ [issue]) = addToGroup (groupsOf issues) issue.
Proof.
  assert (Hnames : JS.unique (map Db.repo_name (issues ++ [issue]))
                   = JS.unique (map Db.repo_name issues)
                     ++ (if JS.has (map Db.repo_name issues) (Db.repo_name issue)
                         then [] else [Db.repo_name issue])).
  { unfold JS.unique. rewrite map_app. cbn [map]. now rewrite uniqueFrom_snoc. }
  unfold groupsOf, addToGroup. rewrite Hnames.
  rewrite (mapGet_groups (fun repo => issuesOf repo issues)), has_unique.
  destruct (JS.has (map Db.repo_name issues) (Db.repo_name issue)) eqn:Hknown.
  - rewrite app_nil_r.
    rewrite (mapSet_known (fun repo => issuesOf repo issues)).
    + apply map_ext. intros repo. rewrite issuesOf_snoc.
      rewrite (String.eqb_sym repo).
      destruct (String.eqb_spec (Db.repo_name issue) repo) as [<- | _];
        [reflexivity | now rewrite app_nil_r].
    + apply KeywordFacts.unique_NoDup.
    + apply KeywordFacts.unique_In. now apply has_In.
  - assert (Hnew : ~ In (Db.repo_name issue) (map Db.repo_name issues)).
    { intros Hin. apply has_In in Hin. congruence. }
    rewrite (mapSet_new (fun repo => issuesOf repo issues))
      by (rewrite KeywordFacts.unique_In; exact Hnew).
    rewrite map_app. simpl. f_equal.
    + apply map_ext_in. intros repo Hrepo. rewrite issuesOf_snoc.
      destruct (String.eqb_spec (Db.repo_name issue) repo) as [<- | _];
        [|now rewrite app_nil_r].
      apply (proj1 (KeywordFacts.unique_In _ _)) in Hrepo. contradiction.
    + rewrite issuesOf_snoc, String.eqb_refl, (issuesOf_none _ _ Hnew). reflexivity.
Qed.

Lemma groupByRepo_groupsOf (issues : list Db.DbIssue) :
  groupByRepo issues = groupsOf issues.
Proof.
  unfold groupByRepo. induction issues as [| issue issues IH] using rev_ind.
  - reflexivity.
  - now rewrite fold_left_app, groupsOf_snoc, <- IH.
Qed.

End NotifierFacts.
Module NoticeFacts.

Import Notifier NotifierSpec.

(** The number of issues held by the groups. *)
Lemma addToGroup_total (byRepo : Groups) (issue : Db.DbIssue) :
  list_sum (map (fun entry => length (snd entry)) (addToGroup byRepo issue))
  = S (list_sum (map (fun entry => length (snd entry)) byRepo)).
Proof.
  unfold addToGroup. induction byRepo as [| [k v] rest IH]; simpl; [reflexivity|].
  destruct (String.eqb k (Db.repo_name issue)); simpl.
  - rewrite length_app. simpl. lia.
  - rewrite IH. lia.
Qed.

Lemma fold_addToGroup_total (issues : list Db.DbIssue) (byRepo : Groups) :
  list_sum (map (fun entry => length (snd entry)) (fold_left addToGroup issues byRepo))
  = (list_sum (map (fun entry => length (snd entry)) byRepo) + length issues)%nat.
Proof.
  revert byRepo. induction issues as [| issue rest IH]; intros byRepo; simpl; [lia|].
  rewrite IH, addToGroup_total. lia.
Qed.

Lemma issuesOf_some (repo : string) (issues : list Db.DbIssue) :
  In repo (map Db.repo_name issues) -> issuesOf repo issues <> [].
Proof.
  intros Hin. apply in_map_iff in Hin. destruct Hin as [issue [Hname Hin]].
  assert (Hkept : In issue (issuesOf repo issues)).
  { apply filter_In. split; [exact Hin|]. now apply String.eqb_eq. }
  intros Hnone. now rewrite Hnone in Hkept.
Qed.

Lemma issuesOf_all (repo : string) (issues : list Db.DbIssue) :
  (forall issue, In issue issues -> Db.repo_name issue = repo) ->
  issuesOf repo issues = issues.
Proof.
  induction issues as [| issue rest IH]; simpl; intros Hall; [reflexivity|].
  rewrite (proj2 (String.eqb_eq _ _) (Hall issue (or_introl eq_refl))).
  f_equal. apply IH. intros other Hin. apply Hall. now right.
Qed.

Lemma uniqueFrom_seen (seen : list string) (names : list string) :
  (forall name, In name names -> In name seen) -> JS.uniqueFrom seen names = [].
Proof.
  induction names as [| name rest IH]; simpl; intros Hall; [reflexivity|].
  rewrite (proj2 (NotifierFacts.has_In seen name) (Hall name (or_introl eq_refl))).
  apply IH. intros other Hin. apply Hall. now right.
Qed.

Lemma groupsOf_one_repo (repo : string) (issues : list Db.DbIssue) :
  issues <> [] ->
  (forall issue, In issue issues -> Db.repo_name issue = repo) ->
  groupsOf issues = [(repo, issues)].
Proof.
  intros Hsome Hall. unfold groupsOf, JS.unique.
  destruct issues as [| first rest]; [congruence|].
  cbn [map JS.uniqueFrom]. change (JS.has [] (Db.repo_name first)) with false.
  cbv iota. rewrite uniqueFrom_seen.
  - cbn [map]. rewrite (Hall first (or_introl eq_refl)).
    now rewrite (issuesOf_all repo (first :: rest) Hall).
  - intros name Hin. apply in_map_iff in Hin. destruct Hin as [issue [<- Hin]].
    left. rewrite (Hall first (or_introl eq_refl)). symmetry. apply Hall. now right.
Qed.

Lemma groupsOf_two_repos (issues : list Db.DbIssue) (a b : Db.DbIssue) :
  In a issues -> In b issues -> Db.repo_name a <> Db.repo_name b ->
  (2 <= length (groupsOf issues))%nat.
Proof.
  intros Ha Hb Hdiff. unfold groupsOf. rewrite length_map.
  assert (Hina : In (Db.repo_name a) (JS.unique (map Db.repo_name issues)))
    by (apply KeywordFacts.unique_In; now apply in_map).
  assert (Hinb : In (Db.repo_name b) (JS.unique (map Db.repo_name issues)))
    by (apply KeywordFacts.unique_In; now apply in_map).
  destruct (JS.unique (map Db.repo_name issues)) as [| x [| y rest]]; simpl in *.
  - destruct Hina.
  - destruct Hina as [Hx | []], Hinb as [Hy | []]. congruence.
  - lia.
Qed.

End NoticeFacts.

(* ================================================================== *)
(** * Properties of [notifyMultipleNewIssues]                          *)
(* ================================================================== *)

(** X24: the loop over the [Map] groups the issues by repository.
    [byRepo] ends with one entry for each repository name, in the order
    in which the names first occur, each holding the issues of that
    repository in the order given; no name occurs twice, no group is
    empty, and the groups together hold as many issues as were given. *)
Theorem grouping_lists_each_repository_once (issues : list Db.DbIssue) :
  Notifier.groupByRepo issues
  = map (fun repo => (repo, NotifierSpec.issuesOf repo issues))
        (JS.unique (map Db.repo_name issues))
  /\ NoDup (map fst (Notifier.groupByRepo issues))
  /\ Forall (fun entry => snd entry <> []) (Notifier.groupByRepo issues)
  /\ list_sum (map (fun entry => length (snd entry)) (Notifier.groupByRepo issues))
     = length issues.
Proof.
  split; [apply NotifierFacts.groupByRepo_groupsOf|].
  split; [|split].
  - rewrite NotifierFacts.groupByRepo_groupsOf. unfold NotifierSpec.groupsOf.
    rewrite map_map. simpl. rewrite map_id. apply KeywordFacts.unique_NoDup.
  - rewrite NotifierFacts.groupByRepo_groupsOf. unfold NotifierSpec.groupsOf.
    apply Forall_forall. intros entry Hin. apply in_map_iff in Hin.
    destruct Hin as [repo [<- Hrepo]]. simpl.
    apply NoticeFacts.issuesOf_some. now apply KeywordFacts.unique_In.
  - unfold Notifier.groupByRepo. now rewrite NoticeFacts.fold_addToGroup_total.
Qed.

(** X25: the notice of several new issues always tells their number.
    [notifyMultipleNewIssues] sends nothing exactly for the empty list.
    For two or more issues of one repository it sends the notice of that
    repository, whose title starts with the number of issues and whose
    message lists the first three; for issues of different repositories
    it sends the notice whose title starts with the number of issues and
    whose message lists the first four repositories with their counts. *)
Theorem notice_of_several_issues_tells_their_number (issues : list Db.DbIssue) :
  (Notifier.notifyMultipleNewIssues issues = None <-> issues = [])
  /\ (forall repo,
         (2 <= length issues)%nat ->
         (forall issue, In issue issues -> Db.repo_name issue = repo) ->
         Notifier.notifyMultipleNewIssues issues
         = Some {| Notifier.notice_title :=
                     JS.showNat (length issues) +++ " New Issues in " +++ repo;
                   Notifier.notice_message :=
                     JS.join (String "010" "")
                             (firstn 3 (map Notifier.issueLine issues))
                     +++ (if (3 <? length issues)%nat
                          then String "010" "" +++ "...and "
                               +++ JS.showNat (length issues - 3) +++ " more"
                          else "");
                   Notifier.notice_type := Notifier.NewIssueNotice |})
  /\ (forall a b,
         In a issues -> In b issues -> Db.repo_name a <> Db.repo_name b ->
         Notifier.notifyMultipleNewIssues issues
         = Some {| Notifier.notice_title :=
                     JS.showNat (length issues) +++ " New Issues Found";
                   Notifier.notice_message :=
                     JS.join (String "010" "")
                             (firstn 4 (map Notifier.repoLine
                                            (NotifierSpec.groupsOf issues)));
                   Notifier.notice_type := Notifier.NewIssueNotice |}).
Proof.
  split; [|split].
  - split; [|now intros ->].
    destruct issues as [| first [| second rest]]; [reflexivity | discriminate |].
    unfold Notifier.notifyMultipleNewIssues.
    destruct (Notifier.groupByRepo (first :: second :: rest)) as [| [k v] [| e r]];
      discriminate.
  - intros repo Hlen Hall.
    destruct issues as [| first [| second rest]]; simpl in Hlen; try lia.
    unfold Notifier.notifyMultipleNewIssues.
    rewrite NotifierFacts.groupByRepo_groupsOf.
    rewrite (NoticeFacts.groupsOf_one_repo repo) by (congruence || exact Hall).
    reflexivity.
  - intros a b Ha Hb Hdiff.
    pose proof (NoticeFacts.groupsOf_two_repos issues a b Ha Hb Hdiff) as Htwo.
    destruct issues as [| first [| second rest]].
    + destruct Ha.
    + destruct Ha as [Hx | []], Hb as [Hy | []]. congruence.
    + unfold Notifier.notifyMultipleNewIssues.
      rewrite NotifierFacts.groupByRepo_groupsOf.
      destruct (NotifierSpec.groupsOf (first :: second :: rest)) as [| [k v] [| e r]];
        simpl in Htwo; try lia; reflexivity.
Qed.

Lemma notice_of_several_issues_witness :
  Notifier.notifyMultipleNewIssues [fineIssue; brokenIssue]
  = Some {| Notifier.notice_title := "2 New Issues Found";
            Notifier.notice_message :=
              "fine-repo: 1 issue" +++ String "010" "" +++ "broken-repo: 1 issue";
            Notifier.notice_type := Notifier.NewIssueNotice |}.
Proof.
  apply (proj2 (proj2 (notice_of_several_issues_tells_their_number
                         [fineIssue; brokenIssue]))
               fineIssue brokenIssue).
  - now left.
  - right. now left.
  - discriminate.
Defined.

Lemma grouping_witness :
  Notifier.groupByRepo [fineIssue; brokenIssue; fineIssue]
  = [("fine-repo", [fineIssue; fineIssue]); ("broken-repo", [brokenIssue])].
Proof.
  rewrite (proj1 (grouping_lists_each_repository_once [fineIssue; brokenIssue; fineIssue])).
  reflexivity.
Defined.

(* ================================================================== *)
(** * Facts about the repositories to monitor                          *)
(* ================================================================== *)

Module TargetFacts.

Import Effect Scan Targets.

Section Fetching.
Context {Env : Type} {runtime : Host.Runtime Env} {forge : ForgeServices Env}.

(** [error] is what a call of the logger threw. *)
Let loggerThrew (error : string) : Prop :=
  exists level message e, fst (Host.logger level message e) = Thrown error.

(** What a [catch] block that writes one line to the log and gives
    [value] makes of it. *)
Lemma logged_outcome {A : Type} (level : Host.LogLevel) (message : string) (value : A)
      (e : Env) :
  match fst (bind (Host.logger level message) (fun _ => ret value) e) with
  | Returned a => a = value
  | Thrown error => loggerThrew error
  end.
Proof.
  unfold bind, ret.
  destruct (Host.logger level message e) as [[[] | error] e1] eqn:Hlog;
    cbn [fst]; [reflexivity|].
  exists level, message, e. now rewrite Hlog.
Qed.

Lemma addOrganization_outcome (org : string) (allRepos : list Repository) (e : Env) :
  match fst (addOrganization org allRepos e) with
  | Returned next => exists listed, next = allRepos ++ listed
  | Thrown error => loggerThrew error
  end.
Proof.
  unfold addOrganization, tryCatch.
  unfold bind at 1, ret at 1.
  destruct (fetchOrgRepos org e) as [[repos | err] e1]; cbn [fst].
  - now exists repos.
  - pose proof (logged_outcome Host.Error ("Failed to fetch org " ++ org ++ ", skipping...")
                               allRepos e1) as H.
    destruct (fst (bind _ _ e1)) as [next | error]; [|exact H].
    exists []. now rewrite app_nil_r.
Qed.

Lemma addOrganizations_outcome (organizations : list string)
      (allRepos : list Repository) (e : Env) :
  match fst (addOrganizations organizations allRepos e) with
  | Returned next => exists listed, next = allRepos ++ listed
  | Thrown error => loggerThrew error
  end.
Proof.
  revert allRepos e. induction organizations as [| org rest IH]; intros allRepos e.
  - exists []. now rewrite app_nil_r.
  - cbn [addOrganizations]. unfold bind.
    pose proof (addOrganization_outcome org allRepos e) as Hone.
    destruct (addOrganization org allRepos e) as [[next | err] e1];
      cbn [fst] in *; [|exact Hone].
    destruct Hone as [listed ->].
    specialize (IH (allRepos ++ listed) e1).
    destruct (fst (addOrganizations rest (allRepos ++ listed) e1)) as [final | err];
      [|exact IH].
    destruct IH as [more ->]. exists (listed ++ more). now rewrite app_assoc.
Qed.

(** One configured repository adds nothing, or one repository whose
    full name is not yet listed. *)
Lemma addRepository_outcome (target : string * string) (allRepos : list Repository)
      (e : Env) :
  match fst (addRepository target allRepos e) with
  | Returned next =>
      next = allRepos
      \/ exists found,
          next = allRepos ++ [found]
          /\ ~ In (repo_full_name found) (map repo_full_name allRepos)
  | Thrown error => loggerThrew error
  end.
Proof.
  unfold addRepository, tryCatch.
  unfold bind at 1.
  destruct (fetchRepo (fst target) (snd target) e) as [[[found |] | err] e1].
  - destruct (existsb (sameFullName found) allRepos) eqn:Hlisted; cbn [ret fst];
      [now left|].
    right. exists found. split; [reflexivity|].
    intros Hin. apply in_map_iff in Hin. destruct Hin as [r [Hname Hr]].
    assert (Hyes : existsb (sameFullName found) allRepos = true).
    { apply existsb_exists. exists r. split; [exact Hr|]. now apply String.eqb_eq. }
    congruence.
  - now left.
  - pose proof (logged_outcome Host.Error
                               ("Failed to fetch repo " ++ fst target ++ "/" ++ snd target
                                ++ ", skipping...") allRepos e1) as H.
    destruct (fst (bind _ _ e1)) as [next | error]; [now left | exact H].
Qed.

Lemma addRepositories_outcome (repositories : list (string * string))
      (allRepos : list Repository) (e : Env) :
  match fst (addRepositories repositories allRepos e) with
  | Returned next =>
      exists added,
        next = allRepos ++ added
        /\ NoDup (map repo_full_name added)
        /\ (forall r, In r added ->
                      ~ In (repo_full_name r) (map repo_full_name allRepos))
        /\ (length added <= length repositories)%nat
  | Thrown error => loggerThrew error
  end.
Proof.
  revert allRepos e. induction repositories as [| target rest IH]; intros allRepos e.
  - exists []. cbn [length]. rewrite app_nil_r.
    split; [reflexivity|]. split; [constructor|]. split; [intros r []|lia].
  - cbn [addRepositories]. unfold bind.
    pose proof (addRepository_outcome target allRepos e) as Hone.
    destruct (addRepository target allRepos e) as [[next | err] e1];
      cbn [fst] in *; [|exact Hone].
    specialize (IH next e1).
    destruct (fst (addRepositories rest next e1)) as [final | err]; [|exact IH].
    destruct IH as [added [-> [Hdistinct [Hfresh Hlen]]]].
    destruct Hone as [-> | [found [-> Hnew]]].
    + exists added. cbn [length]. repeat split; auto.
    + exists (found :: added). rewrite <- app_assoc.
      split; [reflexivity|]. split; [|split; [|cbn [length]; lia]].
      * cbn [map]. constructor; [|exact Hdistinct].
        intros Hin. apply in_map_iff in Hin. destruct Hin as [r [Hname Hr]].
        apply (Hfresh r Hr). rewrite map_app. apply in_or_app. right.
        simpl. left. now symmetry.
      * intros r [<- | Hr]; [exact Hnew|].
        intros Hin. apply (Hfresh r Hr). rewrite map_app. apply in_or_app. now left.
Qed.

(** [fetchAllTargetRepos] returns what the organizations listed and
    what the repositories added, or throws what the logger threw. *)
Lemma fetchAllTargetRepos_outcome (organizations : list string)
      (repositories : list (string * string)) (e : Env) :
  match fst (fetchAllTargetRepos organizations repositories e) with
  | Returned allRepos =>
      exists listed added,
        fst (addOrganizations organizations [] e) = Returned listed
        /\ allRepos = listed ++ added
        /\ NoDup (map repo_full_name added)
        /\ (forall r, In r added ->
                      ~ In (repo_full_name r) (map repo_full_name listed))
        /\ (length added <= length repositories)%nat
  | Thrown error => loggerThrew error
  end.
Proof.
  unfold fetchAllTargetRepos. unfold bind at 1.
  pose proof (addOrganizations_outcome organizations [] e) as Horgs.
  destruct (addOrganizations organizations [] e) as [[listed | err] e1];
    cbn [fst] in *; [|exact Horgs].
  unfold bind at 1.
  pose proof (addRepositories_outcome repositories listed e1) as Hrepos.
  destruct (addRepositories repositories listed e1) as [[allRepos | err] e2];
    cbn [fst] in *; [|exact Hrepos].
  destruct Hrepos as [added [-> Hadded]].
  pose proof (logged_outcome Host.Info
                ("Total repositories to monitor: "
                 ++ JS.showInt (Z.of_nat (length (listed ++ added))))
                (listed ++ added) e2) as Hlog.
  destruct (fst (bind _ _ e2)) as [final | error]; [|exact Hlog].
  rewrite Hlog. exists listed, added. split; [reflexivity|]. split; [reflexivity|].
  exact Hadded.
Qed.
End Fetching.

End TargetFacts.

(* ================================================================== *)
(** * Properties of [fetchAllTargetRepos]                              *)
(* ================================================================== *)

(** X26: [fetchAllTargetRepos] lists no configured repository twice,
    and the forge cannot make it throw.  When it returns, it returns
    what the organizations listed followed by at most one repository for
    each configured one; the repositories it adds have full names that
    differ from each other and from those the organizations listed, so
    full names that were distinct among the organizations' repositories
    are distinct in the result.  When it throws, it throws what a call of
    the logger threw: whatever the forge answers, also when every call
    fails, it returns as long as the logger does. *)
Theorem fetchAllTargetRepos_returns_and_adds_no_full_name_twice
        {Env : Type} {runtime : Host.Runtime Env} {forge : Targets.ForgeServices Env}
        (organizations : list string) (repositories : list (string * string)) (e : Env) :
  (forall allRepos,
      fst (Targets.fetchAllTargetRepos organizations repositories e)
      = Effect.Returned allRepos ->
      exists listed added,
        fst (Targets.addOrganizations organizations [] e) = Effect.Returned listed
        /\ allRepos = listed ++ added
        /\ (length added <= length repositories)%nat
        /\ NoDup (map Scan.repo_full_name added)
        /\ (forall r, In r added ->
                      ~ In (Scan.repo_full_name r) (map Scan.repo_full_name listed))
        /\ (NoDup (map Scan.repo_full_name listed) ->
            NoDup (map Scan.repo_full_name (listed ++ added))))
  /\ (forall error,
         fst (Targets.fetchAllTargetRepos organizations repositories e)
         = Effect.Thrown error ->
         exists level message e',
           fst (Host.logger level message e') = Effect.Thrown error)
  /\ ((forall level message e',
          fst (Host.logger level message e') = Effect.Returned tt) ->
      exists allRepos,
        fst (Targets.fetchAllTargetRepos organizations repositories e)
        = Effect.Returned allRepos).
Proof.
  pose proof (TargetFacts.fetchAllTargetRepos_outcome organizations repositories e)
    as Houtcome.
  split; [|split].
  - intros allRepos Hret. rewrite Hret in Houtcome.
    destruct Houtcome as [listed [added (Horgs & -> & Hdistinct & Hfresh & Hlen)]].
    exists listed, added. split; [exact Horgs|]. split; [reflexivity|].
    split; [exact Hlen|]. split; [exact Hdistinct|]. split; [exact Hfresh|].
    intros Hlisted. rewrite map_app.
    apply NoDup_app; [exact Hlisted | exact Hdistinct |].
    intros name Hin Hin'. apply in_map_iff in Hin'. destruct Hin' as [r [<- Hr]].
    exact (Hfresh r Hr Hin).
  - intros error Hthrown. rewrite Hthrown in Houtcome. exact Houtcome.
  - intros Hlogger.
    destruct (fst (Targets.fetchAllTargetRepos organizations repositories e))
      as [allRepos | error]; [now exists allRepos|].
    destruct Houtcome as [level [message [e' Hthrew]]].
    rewrite Hlogger in Hthrew. discriminate.
Qed.

Lemma fetchAllTargetRepos_witness :
  fst (Targets.fetchAllTargetRepos (runtime := quiet) (forge := TargetExamples.forkedForge)
         ["acme"; "missing"] [("acme", "widgets"); ("other", "widgets"); ("x", "y")] tt)
  = Effect.Returned [ScanExamples.widgets; ScanExamples.widgetsFork]
  /\ NoDup (map Scan.repo_full_name [ScanExamples.widgets; ScanExamples.widgetsFork]).
Proof.
  destruct (fetchAllTargetRepos_returns_and_adds_no_full_name_twice
              (runtime := quiet) (forge := TargetExamples.forkedForge)
              ["acme"; "missing"] [("acme", "widgets"); ("other", "widgets"); ("x", "y")] tt)
    as [Hshape [_ Hreturns]].
  destruct Hreturns as [allRepos Hret]; [reflexivity|].
  destruct (Hshape allRepos Hret)
    as [listed [added (Horgs & Hall & _ & _ & _ & Hdistinct)]].
  simpl in Horgs. injection Horgs as <-.
  simpl in Hret. injection Hret as <-.
  split; [reflexivity|].
  assert (Hadded : added = [ScanExamples.widgetsFork])
    by (injection Hall as <-; reflexivity).
  rewrite Hadded in Hdistinct.
  apply Hdistinct. simpl. repeat constructor; simpl; intuition discriminate.
Defined.

(* ================================================================== *)
(** * Facts about the wizard's lists and the token                     *)
(* ================================================================== *)

Module InitFacts.

Import Init InitSpec TextSpec.

Lemma trimEnd_idempotent (s : string) : trimEnd (trimEnd s) = trimEnd s.
Proof.
  induction s as [| c s IH]; [reflexivity|].
  cbn [trimEnd]. destruct (trimEnd s) as [| d rest] eqn:Hrest.
  - destruct (JS.isSpace c) eqn:Hc; [reflexivity|]. cbn [trimEnd]. now rewrite Hc.
  - change (trimEnd (String c (String d rest)))
      with (match trimEnd (String d rest) with
            | EmptyString => if JS.isSpace c then EmptyString else String c EmptyString
            | String e r => String c (String e r)
            end).
    now rewrite IH.
Qed.

Lemma trimStart_head (s : string) :
  match trimStart s with
  | EmptyString => True
  | String c _ => JS.isSpace c = false
  end.
Proof.
  induction s as [| c s IH]; simpl; [exact I|].
  destruct (JS.isSpace c) eqn:Hc; [exact IH | exact Hc].
Qed.

Lemma trimEnd_head (c : ascii) (s : string) :
  JS.isSpace c = false -> exists rest, trimEnd (String c s) = String c rest.
Proof.
  intros Hc. cbn [trimEnd]. destruct (trimEnd s).
  - rewrite Hc. now exists "".
  - now eexists.
Qed.

Lemma trim_idempotent (s : string) : trim (trim s) = trim s.
Proof.
  unfold trim. pose proof (trimStart_head s) as Hhead.
  destruct (trimStart s) as [| c t]; [reflexivity|].
  destruct (trimEnd_head c t Hhead) as [rest Hrest].
  rewrite Hrest. cbn [trimStart]. rewrite Hhead, <- Hrest.
  apply trimEnd_idempotent.
Qed.

Lemma trimStart_lacks (c : ascii) (s : string) :
  lacks c s = true -> lacks c (trimStart s) = true.
Proof.
  induction s as [| d s IH]; simpl; [reflexivity|].
  intros H. destruct (JS.isSpace d); [|exact H].
  apply andb_prop in H. now apply IH.
Qed.

Lemma trimEnd_lacks (c : ascii) (s : string) :
  lacks c s = true -> lacks c (trimEnd s) = true.
Proof.
  induction s as [| d s IH]; [reflexivity|].
  cbn [trimEnd lacks]. intros H. apply andb_prop in H. destruct H as [Hd Hs].
  specialize (IH Hs). destruct (trimEnd s) as [| e rest].
  - destruct (JS.isSpace d); [reflexivity|]. simpl. now rewrite Hd.
  - change (lacks c (String d (String e rest)))
      with (negb (Ascii.eqb d c) && lacks c (String e rest)).
    now rewrite Hd, IH.
Qed.

Lemma trim_lacks (c : ascii) (s : string) :
  lacks c s = true -> lacks c (trim s) = true.
Proof. intros H. unfold trim. now apply trimEnd_lacks, trimStart_lacks. Qed.

Lemma commaList_entries (pieces : list string) :
  Forall (fun piece => lacks "," piece = true) pieces ->
  Forall clean (filter (fun o => negb (String.eqb o "")) (map trim pieces)).
Proof.
  intros Hall. induction Hall as [| piece rest Hpiece Hrest IH]; simpl; [constructor|].
  destruct (String.eqb_spec (trim piece) "") as [Hempty | Hsome]; simpl; [exact IH|].
  constructor; [|exact IH].
  split; [exact Hsome|]. split; [now apply trim_lacks | apply trim_idempotent].
Qed.

Lemma trim_after_space (entry : string) : trim (String " " entry) = trim entry.
Proof. reflexivity. Qed.

(** The pieces of a list joined with a comma and a space. *)
Lemma join_comma_space (first : string) (rest : list string) :
  JS.join ", " (first :: rest) = JS.join "," (first :: map (String " ") rest).
Proof.
  revert first. induction rest as [| second rest IH]; intros first; [reflexivity|].
  cbn [map]. rewrite !TextFacts.join_cons, IH.
  destruct rest; reflexivity.
Qed.

Lemma clean_entries_kept (entries : list string) :
  Forall clean entries ->
  filter (fun o => negb (String.eqb o "")) (map trim (map (String " ") entries))
  = entries.
Proof.
  intros Hall. induction Hall as [| entry rest [Hsome [_ Htrim]] _ IH]; [reflexivity|].
  cbn [map]. rewrite trim_after_space, Htrim. cbn [filter].
  rewrite (proj2 (String.eqb_neq _ _) Hsome). cbn [negb]. now rewrite IH.
Qed.

End InitFacts.

Module TokenFacts.

Import Token TextSpec.

Lemma bracedName_closed (name rest : string) :
  lacks "}" name = true ->
  bracedName (name +++ String "}" rest) = Some (name, rest).
Proof.
  induction name as [| c name IH]; simpl; intros H; [reflexivity|].
  apply andb_prop in H. destruct H as [Hc Hname].
  apply negb_true_iff in Hc. now rewrite Hc, (IH Hname).
Qed.

Lemma varAtHead_reference (name rest : string) :
  name <> "" -> lacks "}" name = true ->
  varAtHead ("${" +++ name +++ String "}" rest) = Some (name, rest).
Proof.
  intros Hsome Hname. cbn [append varAtHead].
  rewrite (bracedName_closed name rest Hname).
  destruct name; [congruence | reflexivity].
Qed.

Lemma varAtHead_dollar (s : string) (found : string * string) :
  varAtHead s = Some found -> exists s', s = String "$" s'.
Proof.
  destruct s as [| c s']; [discriminate|]. intros H. exists s'. f_equal.
  unfold varAtHead in H.
  destruct c as [[] [] [] [] [] [] [] []]; try discriminate. reflexivity.
Qed.

(** The characters of a match are passed over. *)
Lemma expandFrom_skip (env : string -> option string) (passed rest : string) :
  expandFrom env (passed +++ rest) (String.length passed) = expandFrom env rest 0.
Proof.
  induction passed as [| c passed IH]; [reflexivity|]. exact IH.
Qed.

Lemma expandFrom_plain (env : string -> option string) (plain rest : string) :
  lacks "$" plain = true ->
  expandFrom env (plain +++ rest) 0 = plain +++ expandFrom env rest 0.
Proof.
  induction plain as [| c plain IH]; [reflexivity|].
  cbn [lacks]. intros H. apply andb_prop in H. destruct H as [Hc Hplain].
  change (String c plain +++ rest) with (String c (plain +++ rest)).
  cbn [expandFrom].
  destruct (varAtHead (String c (plain +++ rest))) as [found |] eqn:Hvar.
  - apply varAtHead_dollar in Hvar. destruct Hvar as [s' Hs'].
    injection Hs' as -> _. discriminate.
  - cbn [append]. now rewrite (IH Hplain).
Qed.

Lemma expandFrom_reference (env : string -> option string) (name rest : string) :
  name <> "" -> lacks "}" name = true ->
  expandFrom env ("${" +++ name +++ String "}" rest) 0
  = JS.orElse (env name) "" +++ expandFrom env rest 0.
Proof.
  intros Hsome Hname.
  pose proof (varAtHead_reference name rest Hsome Hname) as Hvar.
  change ("${" +++ name +++ String "}" rest)
    with (String "$" (String "{" (name +++ String "}" rest))) in *.
  cbn [expandFrom]. rewrite Hvar. f_equal.
  replace (String.length name + 2)%nat with (S (String.length (name +++ "}")))
    by (rewrite RegexFacts.length_append; simpl; lia).
  cbn [expandFrom].
  replace (name +++ String "}" rest) with ((name +++ "}") +++ rest)
    by (rewrite RegexFacts.append_assoc; reflexivity).
  apply expandFrom_skip.
Qed.

End TokenFacts.

(* ================================================================== *)
(** * Properties of the wizard's lists and of the token                *)
(* ================================================================== *)

(** X27: the lists [buildConfig] makes of a comma-separated answer hold
    clean entries only, and a clean list survives the round trip.  Every
    entry of the list is not empty, holds no comma and has no white space
    at either end; and for entries of that kind, the answer that joins
    them with a comma and a space is read back as exactly those
    entries. *)
Theorem comma_list_is_clean_and_reads_back (answer : string) (entries : list string) :
  Forall InitSpec.clean (Init.commaList answer)
  /\ (Forall InitSpec.clean entries ->
      Init.commaList (JS.join ", " entries) = entries).
Proof.
  split.
  - unfold Init.commaList. destruct (String.eqb answer ""); [constructor|].
    apply InitFacts.commaList_entries, TextFacts.split_pieces_lack.
  - intros Hclean. destruct entries as [| first rest]; [reflexivity|].
    unfold Init.commaList.
    assert (Hfirst : InitSpec.clean first) by now apply Forall_inv in Hclean.
    assert (Hrest : Forall InitSpec.clean rest) by now apply Forall_inv_tail in Hclean.
    destruct (String.eqb_spec (JS.join ", " (first :: rest)) "") as [Hempty | _].
    + destruct Hfirst as [Hsome _]. destruct first; [congruence|].
      destruct rest; discriminate.
    + rewrite InitFacts.join_comma_space, TextFacts.split_join.
      * cbn [map filter]. destruct Hfirst as [Hsome [_ Htrim]].
        rewrite Htrim, (proj2 (String.eqb_neq _ _) Hsome). cbn [negb].
        now rewrite InitFacts.clean_entries_kept.
      * discriminate.
      * constructor; [apply Hfirst|].
        apply Forall_forall. intros piece Hin. apply in_map_iff in Hin.
        destruct Hin as [entry [<- Hentry]].
        rewrite Forall_forall in Hrest.
        destruct (Hrest entry Hentry) as [_ [Hlack _]]. exact Hlack.
Qed.

Lemma comma_list_witness :
  Init.commaList "acme/widgets, other/widgets" = ["acme/widgets"; "other/widgets"].
Proof.
  apply (proj2 (comma_list_is_clean_and_reads_back "" ["acme/widgets"; "other/widgets"])).
  repeat constructor; discriminate.
Defined.

(** X28: [expandEnvVars] replaces the references and nothing else.  A
    text without a dollar sign is returned as it is; a reference
    [${name}] that follows such a text, with a name that is not empty and
    holds no closing brace, is replaced by what [process.env[name]] gives,
    and the expansion goes on behind it.  That is the value of the
    variable when it is set, and so nothing when it is set to the empty
    text; for a variable that is not set it is nothing, unless the name
    is one that [process.env] inherits ([toString], [constructor], ...):
    then it is the text of the inherited value.  In particular a token
    that is one reference whose lookup gives nothing falls back to
    [GITHUB_TOKEN]. *)
Theorem expandEnvVars_replaces_the_references
        (env : Token.ProcessEnv) (plain name rest : string) :
  TextSpec.lacks "$" plain = true ->
  name <> "" ->
  TextSpec.lacks "}" name = true ->
  Token.expandEnvVars env plain = plain
  /\ Token.expandEnvVars env (plain +++ "${" +++ name +++ "}" +++ rest)
     = plain +++ JS.orElse (Token.lookup env name) "" +++ Token.expandEnvVars env rest
  /\ (forall value,
         Token.variable env name = Some value ->
         JS.orElse (Token.lookup env name) "" = value)
  /\ (Token.variable env name = None ->
      Token.inheritedText env name = None ->
      JS.orElse (Token.lookup env name) "" = "")
  /\ (forall text,
         Token.variable env name = None ->
         Token.inheritedText env name = Some text ->
         JS.orElse (Token.lookup env name) "" = text)
  /\ (JS.orElse (Token.lookup env name) "" = "" ->
      Token.githubToken env (Some ("${" +++ name +++ "}"))
      = JS.orElse (Token.lookup env "GITHUB_TOKEN") "").
Proof.
  intros Hplain Hsome Hname. unfold Token.expandEnvVars.
  split; [|split; [|split; [|split; [|split]]]].
  - rewrite <- (RegexFacts.append_empty plain) at 1.
    rewrite (TokenFacts.expandFrom_plain _ plain "" Hplain).
    apply RegexFacts.append_empty.
  - rewrite (TokenFacts.expandFrom_plain _ plain _ Hplain). f_equal.
    apply (TokenFacts.expandFrom_reference _ name rest Hsome Hname).
  - intros value Hset. unfold Token.lookup. rewrite Hset.
    unfold JS.orElse. now destruct value.
  - intros Hunset Hplainname. unfold Token.lookup. now rewrite Hunset, Hplainname.
  - intros text Hunset Hinherited. unfold Token.lookup. rewrite Hunset, Hinherited.
    unfold JS.orElse. now destruct text.
  - intros Hnothing. unfold Token.githubToken, Token.expandEnvVars.
    rewrite (TokenFacts.expandFrom_reference _ name "" Hsome Hname), Hnothing.
    reflexivity.
Qed.

Lemma expandEnvVars_witness :
  Token.expandEnvVars Token.devEnv "cd ${HOME}/src${EMPTY}" = "cd /home/dev/src"
  /\ Token.expandEnvVars Token.devEnv "${toString}"
     = "function toString() { [native code] }".
Proof.
  destruct (expandEnvVars_replaces_the_references
              Token.devEnv "cd " "HOME" "/src${EMPTY}") as (_ & Hexpanded & _).
  - reflexivity.
  - discriminate.
  - reflexivity.
  - split; [exact Hexpanded | reflexivity].
Defined.

(* ================================================================== *)
(** * Facts about the expressions with a group                         *)
(* ================================================================== *)

Module CaptureFacts.

Import Capture CaptureSpec TextSpec.
Import RegexSpec (lastOf).

Lemma more_sound (p : ascii -> bool) (k : cont) (s : string) :
  forall prev n g res,
    more p k prev s n g = Some res ->
    exists w rest,
      s = w +++ rest /\ allChars p w = true
      /\ k (lastOf prev w) rest (n + String.length w)%nat g = Some res.
Proof.
  induction s as [| c s IH]; intros prev n g res H; simpl in H.
  - exists "", "". rewrite Nat.add_0_r. repeat split. exact H.
  - destruct (p c) eqn:Hc.
    + destruct (more p k (Some c) s (S n) g) as [r |] eqn:Hmore.
      * injection H as <-. destruct (IH _ _ _ _ Hmore) as [w [rest [-> [Hall Hk]]]].
        exists (String c w), rest. simpl. rewrite Hc.
        replace (n + S (String.length w))%nat with (S n + String.length w)%nat by lia.
        repeat split; assumption.
      * exists "", (String c s). rewrite Nat.add_0_r. repeat split. exact H.
    + exists "", (String c s). rewrite Nat.add_0_r. repeat split. exact H.
Qed.

(** Whatever the matcher accepts, the expression can read. *)
Lemma exec_reads (r : re) :
  forall k prev s n g res,
    exec r k prev s n g = Some res ->
    exists w rest g',
      s = w +++ rest /\ Reads r prev n w g g'
      /\ k (lastOf prev w) rest (n + String.length w)%nat g' = Some res.
Proof.
  induction r as [p | p | | r1 IH1 r2 IH2 | r1 IH1 r2 IH2 | | r1 IH1];
    intros k prev s n g res H; simpl in H.
  - destruct s as [| c s]; [discriminate|]. destruct (p c) eqn:Hc; [|discriminate].
    exists (String c ""), s, g. simpl. replace (n + 1)%nat with (S n) by lia.
    repeat split; [now constructor | exact H].
  - destruct s as [| c s]; [discriminate|]. destruct (p c) eqn:Hc; [|discriminate].
    destruct (more_sound _ _ _ _ _ _ _ H) as [w [rest [-> [Hall Hk]]]].
    exists (String c w), rest, g. simpl.
    replace (n + S (String.length w))%nat with (S n + String.length w)%nat by lia.
    repeat split; [now constructor | exact Hk].
  - exists "", s, g. rewrite Nat.add_0_r. repeat split; [constructor | exact H].
  - destruct (IH1 _ _ _ _ _ _ H) as [w1 [rest1 [g1 [-> [Hr1 Hk1]]]]].
    destruct (IH2 _ _ _ _ _ _ Hk1) as [w2 [rest [g2 [-> [Hr2 Hk2]]]]].
    exists (w1 +++ w2), rest, g2.
    rewrite RegexFacts.append_assoc, RegexFacts.lastOf_append,
      RegexFacts.length_append, Nat.add_assoc.
    repeat split; [econstructor; eassumption | exact Hk2].
  - destruct (exec r1 k prev s n g) as [m |] eqn:Hleft.
    + injection H as <-.
      destruct (IH1 _ _ _ _ _ _ Hleft) as [w [rest [g' [-> [Hr Hk]]]]].
      exists w, rest, g'. repeat split; [now apply reads_alt_left | exact Hk].
    + destruct (IH2 _ _ _ _ _ _ H) as [w [rest [g' [-> [Hr Hk]]]]].
      exists w, rest, g'. repeat split; [now apply reads_alt_right | exact Hk].
  - destruct (atLineStart prev) eqn:Hstart; [|discriminate].
    exists "", s, g. rewrite Nat.add_0_r. repeat split; [now constructor | exact H].
  - destruct (IH1 _ _ _ _ _ _ H) as [w [rest [g' [-> [Hr Hk]]]]].
    exists w, rest, (Some (n, String.length w)).
    replace (n + String.length w - n)%nat with (String.length w) in Hk by lia.
    repeat split; [econstructor; eassumption | exact Hk].
Qed.

(** What an expression reads is made of characters of its classes. *)
Lemma Reads_alphabet (r : re) (prev : option ascii) (n : nat) (w : string)
      (g g' : span) :
  Reads r prev n w g g' -> allChars (alphabet r) w = true.
Proof.
  induction 1 as [p prev n c g Hc | p prev n c w g Hc Hw | prev n g
                 | r1 r2 prev n w1 w2 g g1 g2 H1 IH1 H2 IH2
                 | r1 r2 prev n w g g' H IH | r1 r2 prev n w g g' H IH
                 | prev n g Hs | r prev n w g g' H IH]; simpl; try reflexivity.
  - now rewrite Hc.
  - rewrite Hc. simpl. eapply RegexFacts.allChars_weaken; [|exact Hw]. auto.
  - rewrite RegexFacts.allChars_append. apply andb_true_intro. split.
    + eapply RegexFacts.allChars_weaken; [|exact IH1]. intros c Hc. now rewrite Hc.
    + eapply RegexFacts.allChars_weaken; [|exact IH2].
      intros c Hc. rewrite Hc. apply orb_true_r.
  - eapply RegexFacts.allChars_weaken; [|exact IH]. intros c Hc. now rewrite Hc.
  - eapply RegexFacts.allChars_weaken; [|exact IH].
    intros c Hc. rewrite Hc. apply orb_true_r.
  - exact IH.
Qed.

Lemma exec_seq (r1 r2 : re) (k : cont) (prev : option ascii) (s : string) (n : nat)
      (g : span) :
  exec (Seq r1 r2) k prev s n g = exec r1 (exec r2 k) prev s n g.
Proof. reflexivity. Qed.

Lemma exec_group (r : re) (k : cont) (prev : option ascii) (s : string) (n : nat)
      (g : span) :
  exec (Group r) k prev s n g
  = exec r (fun prev' s' n' _ => k prev' s' n' (Some (n, n' - n)%nat)) prev s n g.
Proof. reflexivity. Qed.

Lemma exec_chr (p : ascii -> bool) (k : cont) (prev : option ascii) (c : ascii)
      (s : string) (n : nat) (g : span) :
  exec (Chr p) k prev (String c s) n g = if p c then k (Some c) s (S n) g else None.
Proof. reflexivity. Qed.

Lemma substring_middle (a b c : string) :
  substring (String.length a) (String.length b) (a +++ b +++ c) = b.
Proof.
  induction a as [| d a IH]; simpl; [apply RegexFacts.substring_prefix | exact IH].
Qed.

Lemma found_span (lead body rest : string) :
  found (lead +++ body +++ rest)
        ((String.length lead + String.length body)%nat,
         Some (String.length lead, String.length body))
  = (lead +++ body, Some body).
Proof.
  unfold found. cbn [fst snd option_map]. rewrite substring_middle. f_equal.
  rewrite <- RegexFacts.length_append, <- RegexFacts.append_assoc.
  apply RegexFacts.substring_prefix.
Qed.

(** Every item of a scan is a match found at the head of a suffix of
    the text. *)
Lemma scan_finds (r : re) (s : string) :
  forall prev skip item,
    In item (scan r prev s skip) ->
    exists pre rest m,
      s = pre +++ rest
      /\ exec r accept (lastOf prev pre) rest 0 None = Some m
      /\ item = found rest m.
Proof.
  induction s as [| c s IH]; intros prev skip item Hin; cbn -[found] in Hin.
  - destruct skip; [|destruct Hin].
    destruct (exec r accept prev "" 0 None) as [m |] eqn:Hexec; [|destruct Hin].
    destruct Hin as [<- | []]. exists "", "", m. auto.
  - assert (Hlater : forall skip',
               In item (scan r (Some c) s skip') ->
               exists pre rest m,
                 String c s = pre +++ rest
                 /\ exec r accept (lastOf prev pre) rest 0 None = Some m
                 /\ item = found rest m).
    { intros skip' H. destruct (IH _ _ _ H) as [pre [rest [m [-> [Hexec Hitem]]]]].
      exists (String c pre), rest, m. auto. }
    destruct skip as [| j]; [|now apply Hlater with (skip' := j)].
    destruct (exec r accept prev (String c s) 0 None) as [m |] eqn:Hexec;
      [|now apply Hlater with (skip' := 0%nat)].
    destruct Hin as [<- | Hin]; [|now apply Hlater with (skip' := Nat.pred (fst m))].
    exists "", (String c s), m. auto.
Qed.

End CaptureFacts.

(* ================================================================== *)
(** * Facts about the file references                                  *)
(* ================================================================== *)

Module FileRefFacts.

Import Capture CaptureSpec FileRefs TextSpec.
Import RegexSpec (lastOf).

Lemma prefix_split (w s : string) :
  String.prefix w s = true -> exists rest, s = w +++ rest.
Proof.
  revert s. induction w as [| c w IH]; intros s H; [now exists s|].
  destruct s as [| d s]; [discriminate|]. simpl in H.
  destruct (Ascii.ascii_dec c d) as [<- | Hne]; [|discriminate].
  destruct (IH s H) as [rest ->]. now exists rest.
Qed.

Lemma prefix_append (w rest : string) : String.prefix w (w +++ rest) = true.
Proof.
  induction w as [| c w IH]; simpl; [now destruct rest|].
  destruct (Ascii.ascii_dec c c); [exact IH | congruence].
Qed.

Lemma prefix_shorter (a b s : string) :
  String.prefix (a +++ b) s = true -> String.prefix a s = true.
Proof.
  intros H. destruct (prefix_split _ _ H) as [rest ->].
  rewrite RegexFacts.append_assoc. apply prefix_append.
Qed.

Lemma exec_lit_hit (w : string) :
  forall k prev rest n g,
    exec (lit w) k prev (w +++ rest) n g
    = k (lastOf prev w) rest (n + String.length w)%nat g.
Proof.
  induction w as [| c w IH]; intros k prev rest n g; simpl.
  - now rewrite Nat.add_0_r.
  - rewrite Ascii.eqb_refl, IH. f_equal. lia.
Qed.

Lemma exec_lit_miss (w : string) :
  forall k prev s n g,
    String.prefix w s = false -> exec (lit w) k prev s n g = None.
Proof.
  induction w as [| c w IH]; intros k prev s n g H; simpl in *.
  - destruct s; discriminate.
  - destruct s as [| d s]; [reflexivity|].
    change (String.prefix (String c w) (String d s))
      with (if Ascii.ascii_dec c d then String.prefix w s else false) in H.
    revert H. destruct (Ascii.ascii_dec c d) as [<- | Hne]; intros H.
    + rewrite Ascii.eqb_refl. now apply IH.
    + now rewrite (proj2 (Ascii.eqb_neq _ _) Hne).
Qed.

(** Before a continuation that cannot fail, the first alternative that
    fits is the one taken. *)
Lemma exec_words (ws : list string) :
  forall w k prev s n g res,
    (forall prev' s' n' g', k prev' s' n' g' <> None) ->
    exec (words w ws) k prev s n g = Some res ->
    exists e rest,
      find (fun x => String.prefix x s) (w :: ws) = Some e
      /\ s = e +++ rest
      /\ k (lastOf prev e) rest (n + String.length e)%nat g = Some res.
Proof.
  induction ws as [| w' ws IH]; intros w k prev s n g res Htotal H; cbn [words] in H.
  - destruct (String.prefix w s) eqn:Hw.
    + destruct (prefix_split _ _ Hw) as [rest ->]. rewrite exec_lit_hit in H.
      exists w, rest. cbn [find]. now rewrite Hw.
    + now rewrite exec_lit_miss in H.
  - cbn [exec] in H. cbn [find]. destruct (String.prefix w s) eqn:Hw.
    + destruct (prefix_split _ _ Hw) as [rest ->]. rewrite exec_lit_hit in H.
      destruct (k (lastOf prev w) rest (n + String.length w)%nat g) as [r |] eqn:Hk.
      * injection H as <-. exists w, rest. auto.
      * now elim (Htotal _ _ _ _ Hk).
    + rewrite exec_lit_miss in H by exact Hw. now apply IH.
Qed.

Lemma extension_words :
  extension = words "ts" ["js"; "tsx"; "jsx"; "rs"; "py"; "go"; "md"; "json";
                          "yaml"; "yml"; "toml"].
Proof. reflexivity. Qed.

(** The alternatives [tsx], [jsx] and [json] are never the first to
    fit. *)
Lemma first_extension (s e : string) :
  find (fun x => String.prefix x s)
       ["ts"; "js"; "tsx"; "jsx"; "rs"; "py"; "go"; "md"; "json"; "yaml"; "yml"; "toml"]
  = Some e ->
  In e reachedExtensions.
Proof.
  cbn [find].
  destruct (String.prefix "ts" s) eqn:Hts; [intros H; injection H as <-; simpl; tauto|].
  destruct (String.prefix "js" s) eqn:Hjs; [intros H; injection H as <-; simpl; tauto|].
  destruct (String.prefix "tsx" s) eqn:Htsx.
  { apply (prefix_shorter "ts" "x") in Htsx. congruence. }
  destruct (String.prefix "jsx" s) eqn:Hjsx.
  { apply (prefix_shorter "js" "x") in Hjsx. congruence. }
  destruct (String.prefix "rs" s); [intros H; injection H as <-; simpl; tauto|].
  destruct (String.prefix "py" s); [intros H; injection H as <-; simpl; tauto|].
  destruct (String.prefix "go" s); [intros H; injection H as <-; simpl; tauto|].
  destruct (String.prefix "md" s); [intros H; injection H as <-; simpl; tauto|].
  destruct (String.prefix "json" s) eqn:Hjson.
  { apply (prefix_shorter "js" "on") in Hjson. congruence. }
  destruct (String.prefix "yaml" s); [intros H; injection H as <-; simpl; tauto|].
  destruct (String.prefix "yml" s); [intros H; injection H as <-; simpl; tauto|].
  destruct (String.prefix "toml" s); [intros H; injection H as <-; simpl; tauto|].
  discriminate.
Qed.

Lemma reachedExtensions_plain (e : string) :
  In e reachedExtensions -> allChars pathChar e = true.
Proof.
  intros H. simpl in H.
  repeat (destruct H as [<- | H]; [reflexivity|]). destruct H.
Qed.

(** A match of the first pattern: an optional character before the
    group, and in the group a stem, a dot and an extension. *)
Lemma filePattern_found (prev : option ascii) (s : string) (m : nat * span) :
  exec filePattern accept prev s 0 None = Some m ->
  exists lead stem e rest,
    s = lead +++ (stem +++ "." +++ e) +++ rest
    /\ found s m = (lead +++ stem +++ "." +++ e, Some (stem +++ "." +++ e))
    /\ stem <> "" /\ allChars pathChar stem = true
    /\ In e reachedExtensions.
Proof.
  intros H. unfold filePattern in H. rewrite CaptureFacts.exec_seq in H.
  apply CaptureFacts.exec_reads in H. destruct H as [lead [rest1 [g1 [-> [Hlead H]]]]].
  rewrite CaptureFacts.exec_group, CaptureFacts.exec_seq in H.
  apply CaptureFacts.exec_reads in H. destruct H as [stem [rest2 [g2 [-> [Hstem H]]]]].
  inversion Hstem as [| p prev' n c w g Hc Hw | | | | | |]; subst.
  rewrite CaptureFacts.exec_seq in H.
  destruct rest2 as [| d rest3]; [discriminate|]. rewrite CaptureFacts.exec_chr in H.
  destruct (Ascii.eqb_spec "."%char d) as [<- | _]; [|discriminate].
  rewrite extension_words in H. apply exec_words in H; [|discriminate].
  destruct H as [e [rest [Hfirst [-> Hk]]]].
  apply first_extension in Hfirst.
  exists lead, (String c w), e, rest.
  split; [now rewrite !RegexFacts.append_assoc|].
  split; [|split; [discriminate | split; [simpl; now rewrite Hc, Hw | exact Hfirst]]].
  assert (Hm : m = ((String.length lead + String.length (String c w +++ "." +++ e))%nat,
                    Some (String.length lead, String.length (String c w +++ "." +++ e)))).
  { unfold accept in Hk. rewrite !RegexFacts.length_append. cbn [String.length].
    injection Hk as <-.
    destruct (String.length lead);
      (apply (f_equal2 pair); [lia|]; apply f_equal; apply (f_equal2 pair); lia). }
  rewrite Hm.
  replace (lead +++ String c w +++ String "." (e +++ rest))
    with (lead +++ (String c w +++ "." +++ e) +++ rest)
    by (now rewrite !RegexFacts.append_assoc).
  replace (lead +++ String c w +++ "." +++ e) with (lead +++ (String c w +++ "." +++ e))
    by reflexivity.
  apply CaptureFacts.found_span.
Qed.

End FileRefFacts.
Module FileRefMore.

Import Capture CaptureSpec FileRefs TextSpec.
Import RegexSpec (lastOf).

Lemma Reads_groupFree (r : re) (prev : option ascii) (n : nat) (w : string)
      (g g' : span) :
  Reads r prev n w g g' -> groupFree r = true -> g' = g.
Proof.
  induction 1 as [p prev n c g Hc | p prev n c w g Hc Hw | prev n g
                 | r1 r2 prev n w1 w2 g g1 g2 H1 IH1 H2 IH2
                 | r1 r2 prev n w g g' H IH | r1 r2 prev n w g g' H IH
                 | prev n g Hs | r prev n w g g' H IH]; simpl; intros Hfree;
    try reflexivity; try discriminate.
  - apply andb_prop in Hfree. destruct Hfree as [Hf1 Hf2].
    now rewrite (IH2 Hf2), (IH1 Hf1).
  - apply andb_prop in Hfree. now apply IH.
  - apply andb_prop in Hfree. now apply IH.
Qed.

Lemma Reads_minLength (r : re) (prev : option ascii) (n : nat) (w : string)
      (g g' : span) :
  Reads r prev n w g g' -> (minLength r <= String.length w)%nat.
Proof.
  induction 1 as [p prev n c g Hc | p prev n c w g Hc Hw | prev n g
                 | r1 r2 prev n w1 w2 g g1 g2 H1 IH1 H2 IH2
                 | r1 r2 prev n w g g' H IH | r1 r2 prev n w g g' H IH
                 | prev n g Hs | r prev n w g g' H IH]; simpl; try lia.
  rewrite RegexFacts.length_append. lia.
Qed.

Lemma found_whole (w rest : string) :
  found (w +++ rest) (String.length w, None) = (w, None).
Proof. unfold found. cbn [fst snd option_map]. now rewrite RegexFacts.substring_prefix. Qed.

Lemma found_span_tail (lead body tail rest : string) :
  found ((lead +++ body +++ tail) +++ rest)
        (String.length (lead +++ body +++ tail),
         Some (String.length lead, String.length body))
  = (lead +++ body +++ tail, Some body).
Proof.
  unfold found. cbn [fst snd option_map]. rewrite RegexFacts.substring_prefix. do 2 f_equal.
  rewrite !RegexFacts.append_assoc. apply CaptureFacts.substring_middle.
Qed.

Lemma path_chars_are_no_quotes (c : ascii) : pathChar c = true -> anyQuote c = false.
Proof.
  destruct c as [b0 b1 b2 b3 b4 b5 b6 b7].
  destruct b0, b1, b2, b3, b4, b5, b6, b7; vm_compute; congruence.
Qed.

Lemma rootPattern_alphabet (c : ascii) :
  alphabet rootPattern c = true -> pathChar c = true.
Proof.
  destruct c as [b0 b1 b2 b3 b4 b5 b6 b7].
  destruct b0, b1, b2, b3, b4, b5, b6, b7; vm_compute; congruence.
Qed.

(** A match of the second pattern is a path token; it has no group. *)
Lemma rootPattern_found (prev : option ascii) (s : string) (m : nat * span) :
  exec rootPattern accept prev s 0 None = Some m ->
  exists w rest,
    s = w +++ rest /\ found s m = (w, None)
    /\ w <> "" /\ allChars pathChar w = true.
Proof.
  intros H. apply CaptureFacts.exec_reads in H.
  destruct H as [w [rest [g' [-> [Hreads Hk]]]]].
  pose proof (Reads_groupFree _ _ _ _ _ _ Hreads eq_refl) as ->.
  unfold accept in Hk. injection Hk as <-. exists w, rest.
  split; [reflexivity|]. split; [apply found_whole|]. split.
  - apply Reads_minLength in Hreads. destruct w; [simpl in Hreads; lia | discriminate].
  - eapply RegexFacts.allChars_weaken; [apply rootPattern_alphabet|].
    eapply CaptureFacts.Reads_alphabet. exact Hreads.
Qed.

(** A match of the third pattern: a path token between two quotes. *)
Lemma quotedPattern_found (prev : option ascii) (s : string) (m : nat * span) :
  exec quotedPattern accept prev s 0 None = Some m ->
  exists lead file tail rest,
    s = (lead +++ file +++ tail) +++ rest
    /\ found s m = (lead +++ file +++ tail, Some file)
    /\ file <> "" /\ allChars pathChar file = true.
Proof.
  intros H. apply CaptureFacts.exec_reads in H.
  destruct H as [w [rest [g' [-> [Hreads Hk]]]]].
  unfold accept in Hk. injection Hk as <-. unfold quotedPattern in Hreads.
  inversion Hreads as [| | | r1 r2 p0 n0 wa w2 ga g1 g2 Ha H2 | | | |]; subst. clear Hreads.
  pose proof (Reads_groupFree _ _ _ _ _ _ Ha eq_refl) as ->.
  inversion H2 as [| | | r1 r2 p0 n0 wb w3 gb g3 g4 Hb H3 | | | |]; subst. clear H2.
  pose proof (Reads_groupFree _ _ _ _ _ _ Hb eq_refl) as ->.
  inversion H3 as [| | | r1 r2 p0 n0 wc w4 gc g5 g6 Hc H4 | | | |]; subst. clear H3.
  pose proof (Reads_groupFree _ _ _ _ _ _ Hc eq_refl) as ->.
  inversion H4 as [| | | r1 r2 p0 n0 wd we gd g7 g8 Hd He | | | |]; subst. clear H4.
  pose proof (Reads_groupFree _ _ _ _ _ _ He eq_refl) as ->.
  inversion Hd as [| | | | | | | r p0 n0 w0 g0 g9 Hplus]; subst. clear Hd.
  inversion Hplus as [| p p0 n0 c w0 g0 Hc0 Hw0 | | | | | |]; subst. clear Hplus.
  exists (wa +++ wb +++ wc), (String c w0), we, rest.
  assert (Hword : wa +++ wb +++ wc +++ String c w0 +++ we
                  = (wa +++ wb +++ wc) +++ String c w0 +++ we)
    by (now rewrite !RegexFacts.append_assoc).
  split; [now rewrite Hword|].
  split; [|split; [discriminate | simpl; now rewrite Hc0, Hw0]].
  rewrite Hword.
  replace (0 + String.length wa + String.length wb + String.length wc)%nat
    with (String.length (wa +++ wb +++ wc))
    by (rewrite !RegexFacts.length_append; lia).
  replace (0 + String.length ((wa +++ wb +++ wc) +++ String c w0 +++ we))%nat
    with (String.length ((wa +++ wb +++ wc) +++ String c w0 +++ we)) by lia.
  apply found_span_tail.
Qed.

Lemma occursIn_later (pre rest file : string) :
  occursIn file rest -> occursIn file (pre +++ rest).
Proof.
  intros [a [b ->]]. exists (pre +++ a), b. now rewrite RegexFacts.append_assoc.
Qed.

Lemma orElse_some (file whole : string) :
  file <> "" -> JS.orElse (Some file) whole = file.
Proof. intros H. unfold JS.orElse. now rewrite (proj2 (String.eqb_neq _ _) H). Qed.

(** What the loop takes of a match, for each of the three patterns, is
    a path token of the text. *)
Lemma picks_are_tokens (text : string) (pattern : re) (item : string * option string) :
  In pattern patterns -> In item (matchAll pattern text) -> tokenOf text (pick item).
Proof.
  intros Hpattern Hitem. unfold matchAll in Hitem.
  apply CaptureFacts.scan_finds in Hitem.
  destruct Hitem as [pre [rest0 [m [-> [Hexec ->]]]]].
  destruct Hpattern as [<- | [<- | [<- | []]]].
  - apply FileRefFacts.filePattern_found in Hexec.
    destruct Hexec as [lead [stem [e [rest [-> [-> [Hstem [Hchars He]]]]]]]].
    assert (Hsome : stem +++ "." +++ e <> "") by (destruct stem; [congruence | discriminate]).
    unfold pick. cbn [fst snd]. rewrite (orElse_some _ _ Hsome).
    split; [exact Hsome|]. split.
    + rewrite !RegexFacts.allChars_append, Hchars.
      now rewrite (FileRefFacts.reachedExtensions_plain e He).
    + apply occursIn_later. now exists lead, rest.
  - apply rootPattern_found in Hexec.
    destruct Hexec as [w [rest [-> [-> [Hsome Hchars]]]]].
    unfold pick. cbn [fst snd JS.orElse].
    split; [exact Hsome|]. split; [exact Hchars|].
    apply occursIn_later. now exists "", rest.
  - apply quotedPattern_found in Hexec.
    destruct Hexec as [lead [file [tail [rest [-> [-> [Hsome Hchars]]]]]]].
    unfold pick. cbn [fst snd]. rewrite (orElse_some _ _ Hsome).
    split; [exact Hsome|]. split; [exact Hchars|].
    apply occursIn_later. exists lead, (tail +++ rest).
    now rewrite !RegexFacts.append_assoc.
Qed.

Lemma dropTrailingQuotes_plain (file : string) :
  allChars pathChar file = true -> dropTrailingQuotes file = file.
Proof.
  induction file as [| c file IH]; [reflexivity|].
  cbn [allChars]. intros H. apply andb_prop in H. destruct H as [Hc Hfile].
  cbn [dropTrailingQuotes]. rewrite (IH Hfile).
  destruct file; [|reflexivity]. now rewrite (path_chars_are_no_quotes c Hc).
Qed.

(** The removal of quotes leaves a path token as it is. *)
Lemma stripQuotes_plain (file : string) :
  allChars pathChar file = true -> stripQuotes file = file.
Proof.
  intros H. unfold stripQuotes.
  assert (Hlead : dropLeadingQuotes file = file).
  { destruct file as [| c file]; [reflexivity|]. cbn [allChars] in H.
    apply andb_prop in H. destruct H as [Hc _]. cbn [dropLeadingQuotes].
    now rewrite (path_chars_are_no_quotes c Hc). }
  rewrite Hlead. now apply dropTrailingQuotes_plain.
Qed.

Lemma pushFile_plain (files : list string) (file : string) :
  allChars pathChar file = true -> pushFile files file = pushPlain files file.
Proof.
  intros H. unfold pushFile, pushPlain. now rewrite (stripQuotes_plain file H).
Qed.

Lemma fold_pushFile_plain (candidates files : list string) :
  Forall (fun file => allChars pathChar file = true) candidates ->
  fold_left pushFile candidates files = fold_left pushPlain candidates files.
Proof.
  intros Hall. revert files.
  induction Hall as [| file rest Hfile Hrest IH]; intros files; [reflexivity|].
  simpl. now rewrite (pushFile_plain files file Hfile), IH.
Qed.

Lemma fold_pushPlain_tokens (text : string) (candidates files : list string) :
  Forall (tokenOf text) candidates ->
  NoDup files -> Forall (tokenOf text) files ->
  NoDup (fold_left pushPlain candidates files)
  /\ Forall (tokenOf text) (fold_left pushPlain candidates files).
Proof.
  intros Hall. revert files.
  induction Hall as [| file rest Hfile Hrest IH]; intros files Hdistinct Htokens;
    [now split|].
  simpl. apply IH; unfold pushPlain;
    destruct (negb (String.eqb file "") && negb (JS.has files file)) eqn:Hpush;
    try assumption.
  - apply andb_prop in Hpush. destruct Hpush as [_ Hnew].
    apply negb_true_iff in Hnew.
    apply Permutation_NoDup with (l := file :: files);
      [apply Permutation_cons_append|].
    constructor; [|exact Hdistinct].
    intros Hin. apply NotifierFacts.has_In in Hin. congruence.
  - apply Forall_app. split; [exact Htokens | now constructor].
Qed.

Lemma picks_of_pattern (text : string) (pattern : re) :
  In pattern patterns ->
  Forall (tokenOf text) (map pick (matchAll pattern text)).
Proof.
  intros Hpattern. apply Forall_forall. intros file Hin.
  apply in_map_iff in Hin. destruct Hin as [item [<- Hitem]].
  now apply picks_are_tokens with (pattern := pattern).
Qed.

Lemma tokens_plain (text : string) (files : list string) :
  Forall (tokenOf text) files ->
  Forall (fun file => allChars pathChar file = true) files.
Proof. apply Forall_impl. intros file H. apply H. Qed.

(** The loops, for a list of patterns that are among the three. *)
Lemma collect_all (text : string) (some : list re) (files : list string) :
  incl some patterns ->
  NoDup files -> Forall (tokenOf text) files ->
  fold_left (collect text) some files
  = fold_left (fun found pattern =>
                 fold_left pushPlain (map pick (matchAll pattern text)) found)
              some files
  /\ NoDup (fold_left (collect text) some files)
  /\ Forall (tokenOf text) (fold_left (collect text) some files).
Proof.
  revert files. induction some as [| pattern rest IH]; intros files Hincl Hdistinct Htokens.
  - simpl. auto.
  - assert (Hpattern : In pattern patterns) by (apply Hincl; now left).
    pose proof (picks_of_pattern text pattern Hpattern) as Hpicks.
    assert (Hstep : collect text files pattern
                    = fold_left pushPlain (map pick (matchAll pattern text)) files).
    { unfold collect. apply fold_pushFile_plain. now apply tokens_plain with (text := text). }
    destruct (fold_pushPlain_tokens text _ files Hpicks Hdistinct Htokens)
      as [Hdistinct' Htokens'].
    simpl. rewrite Hstep. apply IH; [|assumption|assumption].
    intros r Hr. apply Hincl. now right.
Qed.

End FileRefMore.

(* ================================================================== *)
(** * Properties of [extractFileReferences]                            *)
(* ================================================================== *)

(** X29: the file references of a text are distinct path tokens of the
    text.  [extractFileReferences] returns no reference twice; every
    reference is not empty, is made of letters, digits, underscores,
    dashes, dots and slashes only, and stands in the text as returned.  A
    reference therefore never starts or ends with a quote, and the
    removal of quotes before the [push] never changes anything: the
    result is that of the same loops without it. *)
Theorem file_references_are_distinct_path_tokens (text : string) :
  NoDup (FileRefs.extractFileReferences text)
  /\ (forall file,
         In file (FileRefs.extractFileReferences text) ->
         file <> ""
         /\ TextSpec.allChars FileRefs.pathChar file = true
         /\ exists pre post, text = pre +++ file +++ post)
  /\ FileRefs.extractFileReferences text = CaptureSpec.extractWithoutStrip text.
Proof.
  destruct (FileRefMore.collect_all text FileRefs.patterns [])
    as [Hsame [Hdistinct Htokens]];
    [apply incl_refl | constructor | constructor |].
  split; [exact Hdistinct|]. split; [|exact Hsame].
  intros file Hin. rewrite Forall_forall in Htokens. exact (Htokens file Hin).
Qed.

(** X30: the first pattern never finds the extensions [tsx], [jsx] and
    [json].  What it captures is a stem of path characters, a dot and one
    of [ts], [js], [rs], [py], [go], [md], [yaml], [yml], [toml]: the
    alternatives are tried in the order written and nothing has to follow
    them, so [ts] wins over [tsx] and [js] over [jsx] and [json].  A
    reference to [App.tsx] is returned as [App.ts], one to [config.json]
    as [config.js]. *)
Theorem file_pattern_cuts_tsx_jsx_and_json (text : string)
        (item : string * option string) :
  In item (Capture.matchAll FileRefs.filePattern text) ->
  (exists lead stem e,
      item = (lead +++ stem +++ "." +++ e, Some (stem +++ "." +++ e))
      /\ stem <> ""
      /\ TextSpec.allChars FileRefs.pathChar stem = true
      /\ In e ["ts"; "js"; "rs"; "py"; "go"; "md"; "yaml"; "yml"; "toml"])
  /\ FileRefs.extractFileReferences "see App.tsx and config.json"
     = ["App.ts"; "config.js"].
Proof.
  intros Hitem. split; [|reflexivity].
  unfold Capture.matchAll in Hitem. apply CaptureFacts.scan_finds in Hitem.
  destruct Hitem as [pre [rest0 [m [_ [Hexec ->]]]]].
  apply FileRefFacts.filePattern_found in Hexec.
  destruct Hexec as [lead [stem [e [rest [_ [Hfound [Hstem [Hchars He]]]]]]]].
  exists lead, stem, e. auto.
Qed.

Lemma file_pattern_witness :
  exists lead stem e,
    (" App.ts", Some "App.ts") = (lead +++ stem +++ "." +++ e, Some (stem +++ "." +++ e))
    /\ stem <> ""
    /\ TextSpec.allChars FileRefs.pathChar stem = true
    /\ In e ["ts"; "js"; "rs"; "py"; "go"; "md"; "yaml"; "yml"; "toml"].
Proof.
  apply (file_pattern_cuts_tsx_jsx_and_json "see App.tsx" (" App.ts", Some "App.ts")).
  simpl. now left.
Defined.

Lemma file_references_witness :
  NoDup (FileRefs.extractFileReferences "in `src/auth.ts` and src/auth.ts").
Proof.
  apply (file_references_are_distinct_path_tokens "in `src/auth.ts` and src/auth.ts").
Defined.
